(** * RouMBLE: a shallow embedding of the mesh-routing simulator

    The development follows the Python sources file by file:
    [packets.py] (the packet record), [logger.py] (the shared metrics
    object), [node.py] (the per-node protocol handlers) and [engine.py]
    (placement, neighbour graph, connectivity repair).  SimPy itself is not
    part of the repository; its event queue is modelled in [Sim] as a list
    of pending processes, each with the simulated time at which its
    [timeout] fires.

    Conventions.
    - Python integers are [Z]; Python floats (coordinates, simulated time)
      are idealised as exact rationals [Q].
    - A reference to a [Node] object is represented by the node's [id]
      ([_create_nodes] gives the k-th element of [engine.nodes] the id k).
    - [routing_table] is an insertion-ordered association list, because
      [_send_rms] takes [min] over [dict.items()], whose result depends on
      the iteration order; [best_seq] is a [gmap] and [seen_rms] a [gset].
    - [env.process(g)] appends the generator [g] to the list of spawned
      processes; what [g] does after its first [timeout] is a function of
      its own ([_broadcast], [_deliver], [receive]). *)

From Stdlib Require Import ZArith QArith Lia Lqa List Bool.
From stdpp Require Import base gmap sets list.

Open Scope Z_scope.

(** ** packets.py *)

Module Pkt.

Inductive kind := BOM | RMS.

#[global] Instance kind_eq_dec : EqDecision kind.
Proof. solve_decision. Defined.

Record t := mk {
  pkt_type : kind;
  src : Z;
  sink_id : option Z;
  seq : Z;
  hop_count : Z;
  origin : Z;
  timestamp : Q
}.

(** [Packet.__init__]: [origin] defaults to [src]. *)
Definition init (ty : kind) (src : Z) (sink_id : option Z) (seq hop_count : Z)
    (origin : option Z) (timestamp : Q) : t :=
  mk ty src sink_id seq hop_count (default src origin) timestamp.

Definition set_sink_id (v : option Z) (p : t) : t :=
  mk (pkt_type p) (src p) v (seq p) (hop_count p) (origin p) (timestamp p).

Definition set_hop_count (v : Z) (p : t) : t :=
  mk (pkt_type p) (src p) (sink_id p) (seq p) v (origin p) (timestamp p).

End Pkt.

(** ** logger.py *)

Module Logger.

(** The event names passed to [log_event]. *)
Inductive event := EvBOM | EvRMS_GEN | EvRMS_UNI | EvRMS_BRD | EvBOM_FWD
                 | EvRMS_DEL | EvSMS_RMS | EvRMS_INJ.

(** One call of [log_event(time, pkt_type, src, dst)]; the formatted
    string is left to the display code. *)
Record entry := mk_entry {
  ev_time : Q;
  ev_kind : event;
  ev_src : Z;
  ev_dst : Z
}.

Record t := mk {
  control_sent : Z;
  data_sent : Z;
  data_delivered : Z;
  delays : list Q;
  hops : list Z;
  routing_updates : Z;
  entries : list entry
}.

Definition init : t := mk 0 0 0 [] [] 0 [].

Definition record_control_sent (l : t) : t :=
  mk (control_sent l + 1) (data_sent l) (data_delivered l) (delays l) (hops l)
     (routing_updates l) (entries l).

Definition record_data_sent (l : t) : t :=
  mk (control_sent l) (data_sent l + 1) (data_delivered l) (delays l) (hops l)
     (routing_updates l) (entries l).

Definition record_data_delivered (latency : Q) (h : Z) (l : t) : t :=
  mk (control_sent l) (data_sent l) (data_delivered l + 1)
     (delays l ++ [latency]) (hops l ++ [h])
     (routing_updates l) (entries l).

Definition record_routing_update (l : t) : t :=
  mk (control_sent l) (data_sent l) (data_delivered l) (delays l) (hops l)
     (routing_updates l + 1) (entries l).

Definition log_event (time : Q) (k : event) (src dst : Z) (l : t) : t :=
  mk (control_sent l) (data_sent l) (data_delivered l) (delays l) (hops l)
     (routing_updates l) (entries l ++ [mk_entry time k src dst]).

(** *** The metrics

    Python's [/] on numbers is true division; every division below is
    behind a test that its denominator is not zero, so no
    [ZeroDivisionError] is modelled. *)

(** [float('inf')] next to the numbers. *)
Inductive ratio := Num (q : Q) | Infinite.

(** [sum(l)]: from 0, left to right. *)
Definition sum_Q (l : list Q) : Q := fold_left Qplus l 0%Q.
Definition sum_Z (l : list Z) : Z := fold_left Z.add l 0.

Definition packet_delivery_ratio (l : t) : Q :=
  if data_sent l =? 0 then 0%Q
  else (inject_Z (data_delivered l) / inject_Z (data_sent l))%Q.

Definition avg_latency (l : t) : Q :=
  match delays l with
  | [] => 0%Q
  | _ => (sum_Q (delays l) / inject_Z (Z.of_nat (length (delays l))))%Q
  end.

Definition avg_hops (l : t) : Q :=
  match hops l with
  | [] => 0%Q
  | _ => (inject_Z (sum_Z (hops l)) / inject_Z (Z.of_nat (length (hops l))))%Q
  end.

Definition overhead_ratio (l : t) : ratio :=
  if data_sent l =? 0 then (if control_sent l >? 0 then Infinite else Num 0)
  else Num (inject_Z (control_sent l) / inject_Z (data_sent l))%Q.

(** The dictionary returned by [get_metrics]. *)
Record metrics := mk_metrics {
  pdr : Q;
  m_avg_latency : Q;
  m_avg_hops : Q;
  m_control_sent : Z;
  m_data_sent : Z;
  m_data_delivered : Z;
  m_routing_updates : Z;
  overhead : ratio
}.

Definition get_metrics (l : t) : metrics :=
  mk_metrics (packet_delivery_ratio l) (avg_latency l) (avg_hops l)
             (control_sent l) (data_sent l) (data_delivered l) (routing_updates l)
             (overhead_ratio l).

End Logger.

(** ** Insertion-ordered dictionaries *)

Module Dict.

Section dict.
Context {K V : Type} `{EqDecision K}.

(** [d.get(k)] *)
Fixpoint get (k : K) (d : list (K * V)) : option V :=
  match d with
  | [] => None
  | (k', v) :: d' => if decide (k = k') then Some v else get k d'
  end.

(** [d[k] = v]: an existing key keeps its position, a new key goes last. *)
Fixpoint set (k : K) (v : V) (d : list (K * V)) : list (K * V) :=
  match d with
  | [] => [(k, v)]
  | (k', v') :: d' =>
      if decide (k = k') then (k', v) :: d' else (k', v') :: set k v d'
  end.

(** [min(items, key=f)]: the first item, in iteration order, whose key is
    not larger than any other; [acc] is the best item so far. *)
Fixpoint min_from (f : K * V → Z) (acc : K * V) (d : list (K * V)) : K * V :=
  match d with
  | [] => acc
  | kv :: d' => min_from f (if f kv <? f acc then kv else acc) d'
  end.

Definition min_by (f : K * V → Z) (d : list (K * V)) : option (K * V) :=
  match d with
  | [] => None
  | kv :: d' => Some (min_from f kv d')
  end.
End dict.

End Dict.

(** ** node.py *)

(** The generators a node hands to [env.process]; each starts with a
    [timeout] and then runs the body given below under the same name. *)
Inductive Proc :=
| Broadcast (sender : Z) (packet : Pkt.t)          (* self._broadcast(packet) *)
| Deliver (sender : Z) (neighbor : Z) (packet : Pkt.t) (* self._deliver(nb, packet) *)
| Receive (node : Z) (packet : Pkt.t).             (* node.receive(packet) *)

(** [math.inf] next to the integers. *)
Inductive hopdist := Finite (h : Z) | Inf.

Definition hop_lt (h : Z) (d : hopdist) : bool :=
  match d with
  | Finite h' => h <? h'
  | Inf => true
  end.

Module Node.

(** A routing-table entry [(next_hop_id, hop_distance, seq)]. *)
Definition route : Type := Z * Z * Z.
Definition next_hop (e : route) : Z := e.1.1.
Definition hop_distance (e : route) : Z := e.1.2.
Definition route_seq (e : route) : Z := e.2.

Record t := mk {
  id : Z;
  is_sink : bool;
  is_mobile : bool;
  x : Q;
  y : Q;
  neighbors : list Z;
  routing_table : list (option Z * route);
  best_seq : gmap (option Z) Z;
  seen_rms : gset (Z * Z);
  seq_num : Z;
  energy : Q;
  tx_count : Z;
  rx_count : Z
}.

Definition COMM_RANGE : Q := 30.
Definition MOVE_INTERVAL : Q := 5.
Definition MOVE_DISTANCE : Q := 10.
Definition BOM_INTERVAL : Q := 20.
Definition RMS_INTERVAL : Q := 15.
Definition TX_DELAY : Q := 5 # 100.
Definition RX_DELAY : Q := 1 # 100.
Definition MAX_HOPS : Z := 3.

(** [Node.__init__], without the processes it starts (see [Sim]). *)
Definition init (node_id : Z) (is_sink is_mobile : bool) (init_pos : Q * Q) : t :=
  mk node_id is_sink is_mobile init_pos.1 init_pos.2 [] [] ∅ ∅ 0 100 0 0.

Definition set_pos (px py : Q) (n : t) : t :=
  mk (id n) (is_sink n) (is_mobile n) px py (neighbors n) (routing_table n)
     (best_seq n) (seen_rms n) (seq_num n) (energy n) (tx_count n) (rx_count n).

Definition set_neighbors (v : list Z) (n : t) : t :=
  mk (id n) (is_sink n) (is_mobile n) (x n) (y n) v (routing_table n)
     (best_seq n) (seen_rms n) (seq_num n) (energy n) (tx_count n) (rx_count n).

Definition set_routing_table (v : list (option Z * route)) (n : t) : t :=
  mk (id n) (is_sink n) (is_mobile n) (x n) (y n) (neighbors n) v
     (best_seq n) (seen_rms n) (seq_num n) (energy n) (tx_count n) (rx_count n).

Definition set_best_seq (v : gmap (option Z) Z) (n : t) : t :=
  mk (id n) (is_sink n) (is_mobile n) (x n) (y n) (neighbors n) (routing_table n)
     v (seen_rms n) (seq_num n) (energy n) (tx_count n) (rx_count n).

Definition set_seen_rms (v : gset (Z * Z)) (n : t) : t :=
  mk (id n) (is_sink n) (is_mobile n) (x n) (y n) (neighbors n) (routing_table n)
     (best_seq n) v (seq_num n) (energy n) (tx_count n) (rx_count n).

Definition set_seq_num (v : Z) (n : t) : t :=
  mk (id n) (is_sink n) (is_mobile n) (x n) (y n) (neighbors n) (routing_table n)
     (best_seq n) (seen_rms n) v (energy n) (tx_count n) (rx_count n).

Definition set_tx_count (v : Z) (n : t) : t :=
  mk (id n) (is_sink n) (is_mobile n) (x n) (y n) (neighbors n) (routing_table n)
     (best_seq n) (seen_rms n) (seq_num n) (energy n) v (rx_count n).

Definition set_rx_count (v : Z) (n : t) : t :=
  mk (id n) (is_sink n) (is_mobile n) (x n) (y n) (neighbors n) (routing_table n)
     (best_seq n) (seen_rms n) (seq_num n) (energy n) (tx_count n) v.

(** What a method of [Node] can touch: the node itself, the shared logger
    ([self.engine.logger]) and the processes it has handed to the
    environment, oldest first. *)
Record ctx := mk_ctx {
  self : t;
  logger : Logger.t;
  spawned : list Proc
}.

Definition on_self (f : t → t) (c : ctx) : ctx :=
  mk_ctx (f (self c)) (logger c) (spawned c).

Definition on_logger (f : Logger.t → Logger.t) (c : ctx) : ctx :=
  mk_ctx (self c) (f (logger c)) (spawned c).

(** [self.env.process(g)] *)
Definition process (g : Proc) (c : ctx) : ctx :=
  mk_ctx (self c) (logger c) (spawned c ++ [g]).

(** The copy made in [_broadcast] and [_deliver]: every field of [packet]
    except [src], which becomes the forwarding node. *)
Definition copy_from (self_id : Z) (packet : Pkt.t) : Pkt.t :=
  Pkt.init (Pkt.pkt_type packet) self_id (Pkt.sink_id packet) (Pkt.seq packet)
           (Pkt.hop_count packet) (Some (Pkt.origin packet)) (Pkt.timestamp packet).

(** Body of [_broadcast] after [yield timeout(TX_DELAY)]: the loop over
    [list(self.neighbors)]. *)
Fixpoint broadcast_loop (nbs : list Z) (packet : Pkt.t) (c : ctx) : ctx :=
  match nbs with
  | [] => c
  | nb :: nbs' =>
      let copy := copy_from (id (self c)) packet in
      let c := on_self (fun n => set_tx_count (tx_count n + 1) n) c in
      let c := process (Receive nb copy) c in
      broadcast_loop nbs' packet c
  end.

Definition _broadcast (packet : Pkt.t) (c : ctx) : ctx :=
  broadcast_loop (neighbors (self c)) packet c.

(** Body of [_deliver] after [yield timeout(TX_DELAY)]. *)
Definition _deliver (neighbor : Z) (packet : Pkt.t) (c : ctx) : ctx :=
  let copy := copy_from (id (self c)) packet in
  let c := on_self (fun n => set_tx_count (tx_count n + 1) n) c in
  process (Receive neighbor copy) c.

(** The unicast loop of [_send_rms]: [Some] context when a neighbour with
    the next hop's id was found (the method returns there), [None] when
    the loop ran to its end. *)
Fixpoint unicast_loop (now : Q) (nbs : list Z) (next_hop : Z) (packet : Pkt.t)
    (c : ctx) : option ctx :=
  match nbs with
  | [] => None
  | nb :: nbs' =>
      if nb =? next_hop then
        let c := on_self (fun n => set_tx_count (tx_count n + 1) n) c in
        let c := on_logger (Logger.log_event now Logger.EvRMS_UNI (id (self c)) nb) c in
        Some (process (Deliver (id (self c)) nb packet) c)
      else unicast_loop now nbs' next_hop packet c
  end.

Definition broadcast_fallback (now : Q) (packet : Pkt.t) (c : ctx) : ctx :=
  let c := on_logger (Logger.log_event now Logger.EvRMS_BRD (id (self c)) (-1)) c in
  process (Broadcast (id (self c)) packet) c.

Definition _send_rms (now : Q) (packet : Pkt.t) (c : ctx) : ctx :=
  match Dict.min_by (fun kv => hop_distance kv.2) (routing_table (self c)) with
  | Some (sink_id, e) =>
      let packet := Pkt.set_sink_id sink_id packet in
      let packet := Pkt.set_hop_count (hop_distance e + 1) packet in
      match unicast_loop now (neighbors (self c)) (next_hop e) packet c with
      | Some c' => c'
      | None => broadcast_fallback now packet c
      end
  | None => broadcast_fallback now packet c
  end.

(** The acceptance test of [_handle_bom]. *)
Definition bom_accepts (packet : Pkt.t) (n : t) : bool :=
  let sink := Pkt.sink_id packet in
  let seq := Pkt.seq packet in
  let hop := Pkt.hop_count packet + 1 in
  let prev_seq := default (-1) (best_seq n !! sink) in
  let prev_entry := Dict.get sink (routing_table n) in
  let prev_hop := match prev_entry with
                  | Some e => Finite (hop_distance e)
                  | None => Inf
                  end in
  (seq >? prev_seq) || hop_lt hop prev_hop.

Definition _handle_bom (now : Q) (packet : Pkt.t) (c : ctx) : ctx :=
  let sink := Pkt.sink_id packet in
  let seq := Pkt.seq packet in
  let hop := Pkt.hop_count packet + 1 in
  if bom_accepts packet (self c) then
    let c := on_self (fun n =>
               set_routing_table (Dict.set sink (Pkt.src packet, hop, seq) (routing_table n)) n) c in
    let c := on_self (fun n => set_best_seq (<[sink := seq]> (best_seq n)) n) c in
    let c := on_logger Logger.record_routing_update c in
    let c := on_logger (Logger.log_event now Logger.EvBOM_FWD (id (self c)) (-1)) c in
    let new_bom := Pkt.init Pkt.BOM (id (self c)) sink seq hop
                            (Some (Pkt.origin packet)) (Pkt.timestamp packet) in
    let c := on_logger Logger.record_control_sent c in
    process (Broadcast (id (self c)) new_bom) c
  else c.

Definition _handle_rms (now : Q) (packet : Pkt.t) (c : ctx) : ctx :=
  let key := (Pkt.origin packet, Pkt.seq packet) in
  if decide (key ∈ seen_rms (self c)) then c
  else
    let c := on_self (fun n => set_seen_rms (seen_rms n ∪ {[ key ]}) n) c in
    if is_sink (self c) && bool_decide (Pkt.sink_id packet = Some (id (self c))) then
      let latency := (now - Pkt.timestamp packet)%Q in
      let hops_traveled := Pkt.hop_count packet in
      let c := on_logger (Logger.record_data_delivered latency hops_traveled) c in
      on_logger (Logger.log_event now Logger.EvRMS_DEL (Pkt.src packet) (id (self c))) c
    else if Pkt.hop_count packet >? 1 then
      let packet := Pkt.set_hop_count (Pkt.hop_count packet - 1) packet in
      _send_rms now packet c
    else c.

(** Body of [receive] after [yield timeout(RX_DELAY)]. *)
Definition receive (now : Q) (packet : Pkt.t) (c : ctx) : ctx :=
  let c := on_self (fun n => set_rx_count (rx_count n + 1) n) c in
  match Pkt.pkt_type packet with
  | Pkt.BOM => _handle_bom now packet c
  | Pkt.RMS => _handle_rms now packet c
  end.

End Node.

(** The parts of [_sink_bom_process] and [_generate_rms_process] between
    two [timeout]s. *)
Module NodeTimers.
Import Node.

Definition _sink_bom_process (now : Q) (c : ctx) : ctx :=
  let c := on_self (fun n => set_seq_num (seq_num n + 1) n) c in
  let me := id (self c) in
  let bom := Pkt.init Pkt.BOM me (Some me) (seq_num (self c)) 0 (Some me) now in
  let c := on_logger Logger.record_control_sent c in
  let c := on_logger (Logger.log_event now Logger.EvBOM me (-1)) c in
  process (Broadcast me bom) c.

Definition _generate_rms_process (now : Q) (c : ctx) : ctx :=
  let c := on_self (fun n => set_seq_num (seq_num n + 1) n) c in
  let me := id (self c) in
  let rms := Pkt.init Pkt.RMS me None (seq_num (self c)) MAX_HOPS (Some me) now in
  let c := on_logger Logger.record_data_sent c in
  let c := on_logger (Logger.log_event now Logger.EvRMS_GEN me (-1)) c in
  _send_rms now rms c.

End NodeTimers.

(** ** The [random] module, as an oracle

    A tape of draws and a cursor.  Each call consumes one draw and reads the
    field it needs: [unit] stands for [random.random()], [pick] for the
    index chosen by [random.choice], [dir] for the pair [(cos a, sin a)] of
    an angle [a = random.uniform(0, 2*pi)], and [expo] for
    [random.expovariate(1.0 / Node.RMS_INTERVAL)]. *)

Module Rng.

Record draw := mk_draw {
  unit : Q;
  pick : nat;
  dir : Q * Q;
  expo : Q
}.

Record t := mk {
  tape : nat → draw;
  cursor : nat
}.

Definition next (r : t) : draw * t :=
  (tape r (cursor r), mk (tape r) (S (cursor r))).

(** [random.uniform(a, b)] is [a + (b - a) * random.random()]. *)
Definition uniform (a b : Q) (r : t) : Q * t :=
  let (d, r) := next r in ((a + (b - a) * unit d)%Q, r).

(** [random.choice(l)]; [None] stands for the [IndexError] on an empty
    list. *)
Definition choice {A : Type} (l : list A) (r : t) : option A * t :=
  let (d, r) := next r in (l !! (pick d mod length l)%nat, r).

(** [angle = random.uniform(0, 2*pi)], returned as [(cos angle, sin angle)]. *)
Definition angle (r : t) : (Q * Q) * t :=
  let (d, r) := next r in (dir d, r).

End Rng.

(** ** Geometry on idealised coordinates *)

Definition Qlt_bool (a b : Q) : bool := negb (Qle_bool b a).

(** Python's two-argument [min] and [max]: the first argument unless the
    second is strictly better. *)
Definition pymin (a b : Q) : Q := if Qlt_bool b a then b else a.
Definition pymax (a b : Q) : Q := if Qlt_bool a b then b else a.

(** [max(0, min(bound, v))] *)
Definition clamp (bound v : Q) : Q := pymax 0 (pymin bound v).

Definition sq (a : Q) : Q := (a * a)%Q.

(** [math.hypot(dx, dy) <= r] and [math.hypot(dx, dy) < r], decided on the
    squares (a negative [r] is below every distance). *)
Definition hypot_le (dx dy r : Q) : bool :=
  Qle_bool 0 r && Qle_bool (sq dx + sq dy) (sq r).
Definition hypot_lt (dx dy r : Q) : bool :=
  Qlt_bool 0 r && Qlt_bool (sq dx + sq dy) (sq r).

(** ** engine.py *)

Module Engine.

Record config := mk_config {
  num_mesh_nodes : Z;
  num_mobile_nodes : Z;
  area_width : Q;
  area_height : Q;
  cfg_sink_positions : option (list (Q * Q));
  min_dist : Q
}.

(** The defaults of [SimulationEngine.__init__]. *)
Definition default_config : config := mk_config 16 3 200 200 None 14.

Record t := mk {
  mesh_count : Z;
  mobile_count : Z;
  width : Q;
  height : Q;
  MIN_DIST : Q;
  sink_positions : list (Q * Q);
  nodes : list Node.t;
  logger : Logger.t
}.

Definition set_nodes (v : list Node.t) (e : t) : t :=
  mk (mesh_count e) (mobile_count e) (width e) (height e) (MIN_DIST e)
     (sink_positions e) v (logger e).

Definition set_logger (v : Logger.t) (e : t) : t :=
  mk (mesh_count e) (mobile_count e) (width e) (height e) (MIN_DIST e)
     (sink_positions e) (nodes e) v.

(** [self.node_map[i]]: node ids are list positions. *)
Definition node_map (e : t) (i : Z) : option Node.t :=
  if i <? 0 then None else nodes e !! Z.to_nat i.

(** *** update_neighbors *)

Definition in_range (node other : Node.t) : bool :=
  hypot_le (Node.x node - Node.x other) (Node.y node - Node.y other) Node.COMM_RANGE.

Definition add_neighbor (other : Z) (n : Node.t) : Node.t :=
  Node.set_neighbors (Node.neighbors n ++ [other]) n.

(** One iteration of the inner loop, for the pair of list positions
    [i < j]. *)
Definition link (ns : list Node.t) (ij : nat * nat) : list Node.t :=
  match ns !! ij.1, ns !! ij.2 with
  | Some node, Some other =>
      if in_range node other then
        alter (add_neighbor (Node.id node)) ij.2
              (alter (add_neighbor (Node.id other)) ij.1 ns)
      else ns
  | _, _ => ns
  end.

(** [for j in range(i + 1, len(self.nodes))] *)
Definition inner_loop (len : nat) (ns : list Node.t) (i : nat) : list Node.t :=
  fold_left link (map (pair i) (seq (S i) (len - S i))) ns.

Definition update_neighbors_nodes (ns : list Node.t) : list Node.t :=
  let cleared := map (Node.set_neighbors []) ns in
  fold_left (inner_loop (length ns)) (seq 0 (length ns)) cleared.

Definition update_neighbors (e : t) : t :=
  set_nodes (update_neighbors_nodes (nodes e)) e.

(** *** _create_nodes *)

(** What a call can end in: a value, a Python exception, or (for the
    [while] loop of the repair pass) no answer within the given number of
    iterations. *)
Inductive exn := IndexError.

Inductive result (A : Type) :=
| Ok (a : A)
| Raise (e : exn)
| OutOfFuel.
Arguments Ok {A} a.
Arguments Raise {A} e.
Arguments OutOfFuel {A}.

(** The check against every placed static position: no [math.hypot] below
    the minimum distance. *)
Definition far_enough (md x y : Q) (static_positions : list (Q * Q)) : bool :=
  forallb (fun s => negb (hypot_lt (x - s.1) (y - s.2) md)) static_positions.

(** [for attempt in range(50)] of the sink phase, entered with the current
    [(x, y)]; returns the position the sink is created at. *)
Fixpoint place_sink (attempts : nat) (e : t) (pos xy : Q * Q)
    (static_positions : list (Q * Q)) (r : Rng.t) : (Q * Q) * Rng.t :=
  match attempts with
  | O => (xy, r)
  | S k =>
      match static_positions with
      | [] => (xy, r)
      | _ =>
          if far_enough (MIN_DIST e) xy.1 xy.2 static_positions then (xy, r)
          else
            let (jx, r) := Rng.uniform (- MIN_DIST e) (MIN_DIST e) r in
            let (jy, r) := Rng.uniform (- MIN_DIST e) (MIN_DIST e) r in
            let x := clamp (width e) (pos.1 + jx) in
            let y := clamp (height e) (pos.2 + jy) in
            place_sink k e pos (x, y) static_positions r
      end
  end.

(** [for attempt in range(200)] of the mesh phase: [Some] position when a
    sample passed the check. *)
Fixpoint sample_mesh (attempts : nat) (e : t) (x0 y0 : Q)
    (static_positions : list (Q * Q)) (r : Rng.t) : option (Q * Q) * Rng.t :=
  match attempts with
  | O => (None, r)
  | S k =>
      let (x, r) := Rng.uniform x0 (x0 + 80) r in
      let (y, r) := Rng.uniform y0 (y0 + 80) r in
      if far_enough (MIN_DIST e) x y static_positions then (Some (x, y), r)
      else sample_mesh k e x0 y0 static_positions r
  end.

(** The placement state: nodes created so far, the static positions, the
    next node id and the random source. *)
Record placing := mk_placing {
  placed_nodes : list Node.t;
  static_positions : list (Q * Q);
  node_id : Z;
  rng : Rng.t
}.

Definition add_node (is_sink is_mobile : bool) (xy : Q * Q) (static : bool)
    (r : Rng.t) (p : placing) : placing :=
  mk_placing (placed_nodes p ++ [Node.init (node_id p) is_sink is_mobile xy])
             (if static then static_positions p ++ [xy] else static_positions p)
             (node_id p + 1) r.

Definition create_sink (e : t) (p : placing) (pos : Q * Q) : placing :=
  let (xy, r) := place_sink 50 e pos pos (static_positions p) (rng p) in
  add_node true false xy true r p.

Definition create_mesh (e : t) (p : placing) : result placing :=
  let x0 := ((width e - 80) / 2)%Q in
  let y0 := ((height e - 80) / 2)%Q in
  match sample_mesh 200 e x0 y0 (static_positions p) (rng p) with
  | (Some xy, r) => Ok (add_node false false xy true r p)
  | (None, r) =>
      match Rng.choice (static_positions p) r with
      | (None, _) => Raise IndexError
      | (Some o, r) =>
          let (cs, r) := Rng.angle r in
          let x := clamp (width e) (o.1 + MIN_DIST e * cs.1) in
          let y := clamp (height e) (o.2 + MIN_DIST e * cs.2) in
          Ok (add_node false false (x, y) true r p)
      end
  end.

Definition create_mobile (e : t) (p : placing) : placing :=
  let (x, r) := Rng.uniform 0 (width e) (rng p) in
  let (y, r) := Rng.uniform 0 (height e) r in
  add_node false true (x, y) false r p.

(** [for _ in range(n)] around a step that may raise. *)
Fixpoint repeat_result {A : Type} (n : nat) (f : A → result A) (a : A) : result A :=
  match n with
  | O => Ok a
  | S k =>
      match f a with
      | Ok a' => repeat_result k f a'
      | Raise x => Raise x
      | OutOfFuel => OutOfFuel
      end
  end.

Definition _create_nodes (e : t) (r : Rng.t) : result (t * Rng.t) :=
  let p := mk_placing [] [] 0 r in
  let p := fold_left (create_sink e) (sink_positions e) p in
  match repeat_result (Z.to_nat (mesh_count e)) (create_mesh e) p with
  | Ok p =>
      let p := Nat.iter (Z.to_nat (mobile_count e)) (create_mobile e) p in
      Ok (set_nodes (placed_nodes p) e, rng p)
  | Raise x => Raise x
  | OutOfFuel => OutOfFuel
  end.

(** *** _ensure_each_has_neighbor *)

(** [static_nodes = [n for n in self.nodes if not n.is_mobile]], as list
    positions. *)
Definition static_nodes (ns : list Node.t) : list nat :=
  List.filter
    (fun i => match ns !! i with
              | Some n => negb (Node.is_mobile n)
              | None => false
              end)
    (seq 0 (length ns)).

(** [candidates = [n for n in static_nodes if n.id != node.id]] *)
Definition candidates (ns : list Node.t) (static : list nat) (node : Node.t) : list nat :=
  List.filter
    (fun j => match ns !! j with
              | Some n => negb (Node.id n =? Node.id node)
              | None => false
              end)
    static.

(** The minimum-distance check of a new position against every other
    static node. *)
Definition min_dist_ok (e : t) (ns : list Node.t) (static : list nat) (node : Node.t)
    (new_x new_y : Q) : bool :=
  forallb
    (fun j => match ns !! j with
              | Some other =>
                  (Node.id other =? Node.id node)
                  || negb (hypot_lt (new_x - Node.x other) (new_y - Node.y other) (MIN_DIST e))
              | None => true
              end)
    static.

(** [for attempt in range(50)]: offsets around the anchor at 0.8 of the
    range; [Some] position when one passed the check. *)
Fixpoint try_ring (attempts : nat) (e : t) (ns : list Node.t) (static : list nat)
    (node anchor : Node.t) (r : Rng.t) : option (Q * Q) * Rng.t :=
  match attempts with
  | O => (None, r)
  | S k =>
      let (cs, r) := Rng.angle r in
      let radius := (Node.COMM_RANGE * (8 # 10))%Q in
      let new_x := clamp (width e) (Node.x anchor + radius * cs.1) in
      let new_y := clamp (height e) (Node.y anchor + radius * cs.2) in
      if min_dist_ok e ns static node new_x new_y then (Some (new_x, new_y), r)
      else try_ring k e ns static node anchor r
  end.

(** The state of one pass of the [while] loop. *)
Record repairing := mk_repairing {
  r_nodes : list Node.t;
  r_rng : Rng.t;
  changed : bool
}.

(** The placement on the anchor's range circle that ignores the minimum
    distance. *)
Definition forced_position (e : t) (anchor : Node.t) (cs : Q * Q) : Q * Q :=
  (clamp (width e) (Node.x anchor + Node.COMM_RANGE * cs.1 * (99 # 100)),
   clamp (height e) (Node.y anchor + Node.COMM_RANGE * cs.2 * (99 # 100))).

(** Body of [for node in static_nodes], for the node at list position [i]. *)
Definition repair_node (e : t) (static : list nat) (st : repairing) (i : nat)
    : result repairing :=
  match r_nodes st !! i with
  | None => Ok st
  | Some node =>
      if (length (Node.neighbors node) =? 0)%nat then
        match candidates (r_nodes st) static node with
        | [] => Ok st
        | cands =>
            match Rng.choice cands (r_rng st) with
            | (None, _) => Raise IndexError
            | (Some a, r) =>
                match r_nodes st !! a with
                | None => Raise IndexError
                | Some anchor =>
                    match try_ring 50 e (r_nodes st) static node anchor r with
                    | (Some xy, r) =>
                        Ok (mk_repairing (alter (Node.set_pos xy.1 xy.2) i (r_nodes st)) r true)
                    | (None, r) =>
                        if changed st then Ok (mk_repairing (r_nodes st) r true)
                        else
                          let (cs, r) := Rng.angle r in
                          let xy := forced_position e anchor cs in
                          Ok (mk_repairing (alter (Node.set_pos xy.1 xy.2) i (r_nodes st)) r true)
                    end
                end
            end
        end
      else Ok st
  end.

(** A [for] loop whose body may raise. *)
Fixpoint fold_result {A B : Type} (f : A → B → result A) (l : list B) (a : A) : result A :=
  match l with
  | [] => Ok a
  | b :: l' =>
      match f a b with
      | Ok a' => fold_result f l' a'
      | Raise x => Raise x
      | OutOfFuel => OutOfFuel
      end
  end.

(** [while changed:], at most [fuel] passes. *)
Fixpoint repair_loop (fuel : nat) (e : t) (static : list nat) (ns : list Node.t)
    (r : Rng.t) : result (list Node.t * Rng.t) :=
  match fuel with
  | O => OutOfFuel
  | S k =>
      let ns := update_neighbors_nodes ns in
      match fold_result (repair_node e static) static (mk_repairing ns r false) with
      | Ok st =>
          if changed st then repair_loop k e static (r_nodes st) (r_rng st)
          else Ok (r_nodes st, r_rng st)
      | Raise x => Raise x
      | OutOfFuel => OutOfFuel
      end
  end.

Definition _ensure_each_has_neighbor (fuel : nat) (e : t) (r : Rng.t) : result (t * Rng.t) :=
  match repair_loop fuel e (static_nodes (nodes e)) (nodes e) r with
  | Ok (ns, r) => Ok (set_nodes ns e, r)
  | Raise x => Raise x
  | OutOfFuel => OutOfFuel
  end.

(** *** __init__ *)

Definition init (fuel : nat) (cfg : config) (r : Rng.t) : result (t * Rng.t) :=
  let w := area_width cfg in
  let h := area_height cfg in
  let sinks := match cfg_sink_positions cfg with
               | None => [((w * (33 # 100))%Q, (h * (5 # 10))%Q);
                          ((w * (66 # 100))%Q, (h * (5 # 10))%Q)]
               | Some l => l
               end in
  let e := mk (num_mesh_nodes cfg) (num_mobile_nodes cfg) w h (min_dist cfg) sinks []
              Logger.init in
  match _create_nodes e r with
  | Ok (e, r) =>
      let e := update_neighbors e in
      match _ensure_each_has_neighbor fuel e r with
      | Ok (e, r) => Ok (update_neighbors e, r)
      | Raise x => Raise x
      | OutOfFuel => OutOfFuel
      end
  | Raise x => Raise x
  | OutOfFuel => OutOfFuel
  end.

End Engine.

(** ** gui.py: packet injection *)

Module Gui.

(** The two packet types of the injection form. *)
Inductive inject_type := InjRMS | InjSMS.

(** [inject_packet], from the node lookup on: [src_id] is the source the
    form resolved, [dst_id] the chosen sink ([None] for "Broadcast"). *)
Definition inject_packet (now : Q) (ty : inject_type) (dst_id : option Z)
    (c : Node.ctx) : Node.ctx :=
  let c := Node.on_self (fun n => Node.set_seq_num (Node.seq_num n + 1) n) c in
  let src_id := Node.id (Node.self c) in
  let seq := Node.seq_num (Node.self c) in
  match ty with
  | InjSMS =>
      let sink_id := default 0 dst_id in
      let packet := Pkt.init Pkt.RMS src_id (Some sink_id) seq Node.MAX_HOPS
                             (Some src_id) now in
      let c := Node.on_logger Logger.record_data_sent c in
      let c := Node.on_logger (Logger.log_event now Logger.EvSMS_RMS src_id sink_id) c in
      Node.process (Receive src_id packet) c
  | InjRMS =>
      let rms := Pkt.init Pkt.RMS src_id dst_id seq Node.MAX_HOPS (Some src_id) now in
      let c := Node.on_logger Logger.record_data_sent c in
      let c := Node.on_logger
                 (Logger.log_event now Logger.EvRMS_INJ src_id (default (-1) dst_id)) c in
      Node.process (Broadcast src_id rms) c
  end.

End Gui.

(** ** The simulation: SimPy's environment around the engine *)

Module Sim.

(** A generator suspended on a [timeout]. *)
Inductive task :=
| Run (p : Proc)        (* a spawned [_broadcast], [_deliver] or [receive] *)
| SinkBom (node : Z)    (* [_sink_bom_process] *)
| GenRms (node : Z)     (* [_generate_rms_process] *)
| Mobility (node : Z).  (* [_mobility_process] *)

Record t := mk {
  engine : Engine.t;
  now : Q;
  queue : list (Q * task)
}.

(** The first [timeout] of a spawned generator. *)
Definition delay (p : Proc) : Q :=
  match p with
  | Broadcast _ _ => Node.TX_DELAY
  | Deliver _ _ _ => Node.TX_DELAY
  | Receive _ _ => Node.RX_DELAY
  end.

Definition schedule (now : Q) (ps : list Proc) : list (Q * task) :=
  map (fun p => ((now + delay p)%Q, Run p)) ps.

(** Run a method of the node with id [i] against the shared logger; the
    generators it spawned are returned for scheduling. *)
Definition with_node (e : Engine.t) (i : Z) (f : Node.ctx → Node.ctx)
    : Engine.t * list Proc :=
  match Engine.node_map e i with
  | Some n =>
      let c := f (Node.mk_ctx n (Engine.logger e) []) in
      (Engine.set_logger (Node.logger c)
         (Engine.set_nodes (<[Z.to_nat i := Node.self c]> (Engine.nodes e)) e),
       Node.spawned c)
  | None => (e, [])
  end.

(** Body of [_mobility_process] between two [timeout]s; [cs] is
    [(cos angle, sin angle)]. *)
Definition move (e : Engine.t) (cs : Q * Q) (n : Node.t) : Node.t :=
  let dx := (Node.MOVE_DISTANCE * cs.1)%Q in
  let dy := (Node.MOVE_DISTANCE * cs.2)%Q in
  let new_x := (Node.x n + dx)%Q in
  let new_y := (Node.y n + dy)%Q in
  Node.set_pos (clamp (Engine.width e) new_x) (clamp (Engine.height e) new_y) n.

Definition _mobility_process (e : Engine.t) (i : Z) (cs : Q * Q) : Engine.t :=
  match Engine.node_map e i with
  | Some n =>
      Engine.update_neighbors
        (Engine.set_nodes (<[Z.to_nat i := move e cs n]> (Engine.nodes e)) e)
  | None => e
  end.

(** Resume the generator [tk] at time [due]: its effect on the engine and
    the timeouts created before the next event is processed, in the order
    of their creation (a looping generator reaches its own next [timeout]
    before the generators it spawned are started). *)
Definition resume (e : Engine.t) (due : Q) (tk : task) (d : Rng.draw)
    : Engine.t * list (Q * task) :=
  match tk with
  | Run (Broadcast s p) =>
      let (e, ps) := with_node e s (Node._broadcast p) in (e, schedule due ps)
  | Run (Deliver s nb p) =>
      let (e, ps) := with_node e s (Node._deliver nb p) in (e, schedule due ps)
  | Run (Receive n p) =>
      let (e, ps) := with_node e n (Node.receive due p) in (e, schedule due ps)
  | SinkBom n =>
      let (e, ps) := with_node e n (NodeTimers._sink_bom_process due) in
      (e, ((due + Node.BOM_INTERVAL)%Q, SinkBom n) :: schedule due ps)
  | GenRms n =>
      let (e, ps) := with_node e n (NodeTimers._generate_rms_process due) in
      (e, ((due + Rng.expo d)%Q, GenRms n) :: schedule due ps)
  | Mobility n =>
      (_mobility_process e n (Rng.dir d),
       [((due + Node.MOVE_INTERVAL)%Q, Mobility n)])
  end.

(** Process the [k]-th pending timeout. *)
Definition fire (k : nat) (d : Rng.draw) (st : t) : t :=
  match queue st !! k with
  | Some (due, tk) =>
      let (e, pending) := resume (engine st) due tk d in
      mk e due (delete k (queue st) ++ pending)
  | None => st
  end.

(** [inject_packet] of the GUI, between two [engine.step] calls. *)
Definition inject (src_id : Z) (ty : Gui.inject_type) (dst_id : option Z) (st : t) : t :=
  let (e, ps) := with_node (engine st) src_id (Gui.inject_packet (now st) ty dst_id) in
  mk e (now st) (queue st ++ schedule (now st) ps).

(** The generators started by [Node.__init__], at their first [timeout];
    [first i] is the first interval node [i] draws. *)
Definition boot (first : Z → Q) (n : Node.t) : list (Q * task) :=
  (if Node.is_sink n then [(Node.BOM_INTERVAL, SinkBom (Node.id n))]
   else [(first (Node.id n), GenRms (Node.id n))])
  ++ (if Node.is_mobile n then [(Node.MOVE_INTERVAL, Mobility (Node.id n))] else []).

Definition start (e : Engine.t) (first : Z → Q) : t :=
  mk e 0 (concat (map (boot first) (Engine.nodes e))).

(** What can happen next. *)
Inductive label :=
| Fire (k : nat) (d : Rng.draw)
| Advance (until : Q)
| Inject (src_id : Z) (ty : Gui.inject_type) (dst_id : option Z).

Definition earliest (due : Q) (q : list (Q * task)) : Prop :=
  Forall (fun e => (due <= e.1)%Q) q.

(** One step of a run: the environment processes a pending timeout with
    the smallest time (SimPy breaks ties by insertion; any of them is
    allowed here), [engine.step] moves the clock with nothing pending
    before the target, or the GUI injects a packet at a known node. *)
Inductive step : t → label → t → Prop :=
| step_fire st k d due tk :
    queue st !! k = Some (due, tk) →
    earliest due (queue st) →
    (0 <= Rng.expo d)%Q →
    step st (Fire k d) (fire k d st)
| step_advance st until :
    (now st <= until)%Q →
    earliest until (queue st) →
    step st (Advance until) (mk (engine st) until (queue st))
| step_inject st src_id ty dst_id :
    is_Some (Engine.node_map (engine st) src_id) →
    step st (Inject src_id ty dst_id) (inject src_id ty dst_id st).

(** A run: the states passed through, each with the step taken from it. *)
Inductive run : t → list (t * label) → t → Prop :=
| run_nil st : run st [] st
| run_step st tr st' l st'' :
    run st tr st' → step st' l st'' → run st (tr ++ [(st', l)]) st''.

(** The simulations the program can start: an engine as its constructor
    returns it, every node's generators at their first [timeout]. *)
Definition initial (st : t) : Prop :=
  ∃ fuel cfg r e r' first,
    Engine.init fuel cfg r = Engine.Ok (e, r')
    ∧ (∀ i, (0 <= first i)%Q)
    ∧ st = start e first.

Definition reachable (st : t) : Prop :=
  ∃ st0 tr, initial st0 ∧ run st0 tr st.

(** The state a step leads to. *)
Definition after (st : t) (l : label) : t :=
  match l with
  | Fire k d => fire k d st
  | Advance until => mk (engine st) until (queue st)
  | Inject src_id ty dst_id => inject src_id ty dst_id st
  end.

(** SimPy's own choice among the pending timeouts: the smallest time, the
    oldest entry among equals.  [best] is the position of the best entry so
    far, [bt] its time, [i] the position of the head of [q]. *)
Fixpoint first_earliest (best : nat) (bt : Q) (i : nat) (q : list (Q * task)) : nat :=
  match q with
  | [] => best
  | (due, _) :: q' =>
      if Qlt_bool due bt then first_earliest i due (S i) q'
      else first_earliest best bt (S i) q'
  end.

Definition pick (q : list (Q * task)) : option nat :=
  match q with
  | [] => None
  | (due, _) :: q' => Some (first_earliest 0 due 1 q')
  end.

(** [n] events of [env.run], the [j]-th remaining one drawing [draws j];
    returns the steps taken and the state reached. *)
Fixpoint simulate (n : nat) (draws : nat → Rng.draw) (st : t) : list (t * label) * t :=
  match n with
  | O => ([], st)
  | S n' =>
      match pick (queue st) with
      | None => ([], st)
      | Some k =>
          let l := Fire k (draws n') in
          let (tr, st') := simulate n' draws (after st l) in
          ((st, l) :: tr, st')
      end
  end.

End Sim.

(** ** gui.py: the injection form *)

Module Form.

(** The entries of the source combo box: "ExternalDevice", and "Node<id>"
    for every node. *)
Inductive source := ExternalDevice | NodeItem (id : Z).

(** [src_id], as [on_send_packet] works it out. *)
Definition source_id (e : Engine.t) (src : source) (ty : Gui.inject_type) : Z :=
  match src with
  | ExternalDevice =>
      match ty with
      | Gui.InjSMS => 0
      | Gui.InjRMS => Z.of_nat (length (Engine.sink_positions e)) + Engine.mesh_count e
      end
  | NodeItem i => i
  end.

(** [on_send_packet]; [None] stands for the [KeyError] of
    [self.engine.node_map[src_id]] on an id that names no node. *)
Definition on_send_packet (src : source) (dst_id : option Z) (ty : Gui.inject_type)
    (st : Sim.t) : option Sim.t :=
  let src_id := source_id (Sim.engine st) src ty in
  match Engine.node_map (Sim.engine st) src_id with
  | Some _ => Some (Sim.inject src_id ty dst_id st)
  | None => None
  end.

End Form.

(** * Specification vocabulary *)

(** The acceptance rule for a beacon, as a proposition: fresher than the
    best sequence seen for its sink (-1 when none), or strictly fewer hops
    than the current entry (any hop count when there is none). *)
Definition fresher_or_shorter (packet : Pkt.t) (n : Node.t) : Prop :=
  Pkt.seq packet > default (-1) (Node.best_seq n !! Pkt.sink_id packet)
  ∨ match Dict.get (Pkt.sink_id packet) (Node.routing_table n) with
    | Some e => Pkt.hop_count packet + 1 < Node.hop_distance e
    | None => True
    end.

(** A packet with its sink and remaining hops rewritten, as [_send_rms]
    leaves it after choosing a route. *)
Definition readdressed (sink : option Z) (ttl : Z) (packet : Pkt.t) : Pkt.t :=
  Pkt.mk (Pkt.pkt_type packet) (Pkt.src packet) sink (Pkt.seq packet) ttl
         (Pkt.origin packet) (Pkt.timestamp packet).

(** The copy a neighbour receives from node [me]. *)
Definition relayed (me : Z) (packet : Pkt.t) : Pkt.t :=
  Pkt.mk (Pkt.pkt_type packet) me (Pkt.sink_id packet) (Pkt.seq packet)
         (Pkt.hop_count packet) (Pkt.origin packet) (Pkt.timestamp packet).

(** The duplicate-suppression key of a data packet. *)
Definition rms_key (packet : Pkt.t) : Z * Z := (Pkt.origin packet, Pkt.seq packet).

(** Node [c] is the sink the packet names. *)
Definition named_sink (packet : Pkt.t) (n : Node.t) : Prop :=
  Node.is_sink n = true ∧ Pkt.sink_id packet = Some (Node.id n).

(** The node with [key] added to its duplicate-suppression set. *)
Definition marked (key : Z * Z) (c : Node.ctx) : Node.ctx :=
  Node.on_self (fun n => Node.set_seen_rms (Node.seen_rms n ∪ {[ key ]}) n) c.

(** What the next hop receives when the node of [c] handles the data
    packet [p]: the copy made by the [_deliver] or [_broadcast] the handler
    started, if it started one. *)
Definition forwarded (now : Q) (p : Pkt.t) (c : Node.ctx) : option Pkt.t :=
  match Node.spawned (Node._handle_rms now p (Node.mk_ctx (Node.self c) (Node.logger c) [])) with
  | [Broadcast me p'] => Some (Node.copy_from me p')
  | [Deliver me _ p'] => Some (Node.copy_from me p')
  | _ => None
  end.

(** A packet handed from node to node along [cs]: what the node after the
    last one would receive, [None] once a node has not forwarded it. *)
Fixpoint relay (now : Q) (p : Pkt.t) (cs : list Node.ctx) : option Pkt.t :=
  match cs with
  | [] => Some p
  | c :: cs' =>
      match forwarded now p c with
      | Some p' => relay now p' cs'
      | None => None
      end
  end.

(** ** Runs of the simulation *)

(** Node ids are list positions, as [_create_nodes] numbers them. *)
Definition ids_are_positions (ns : list Node.t) : Prop :=
  ∀ i n, ns !! i = Some n → Node.id n = Z.of_nat i.

(** A node as [Node.__init__] leaves it, wherever it stands and whatever
    its neighbours. *)
Definition fresh (n : Node.t) : Prop :=
  Node.routing_table n = [] ∧ Node.best_seq n = ∅ ∧ Node.seen_rms n = ∅
  ∧ Node.seq_num n = 0.

(** The latency of one hop: a transmission and a reception delay. *)
Definition HOP_DELAY : Q := (Node.TX_DELAY + Node.RX_DELAY)%Q.

(** The beacons sinks have originated so far: (sink, sequence, time). *)
Definition emissions := list (Z * Z * Q).

(** A pending generator carries a beacon only on schedule: a beacon of
    [hop_count] h originated at time T leaves its h-th relay at
    T + h hops + one transmission delay and is handled by the next node at
    T + (h + 1) hops.  [_deliver] is used for data packets only. *)
Definition in_flight (em : emissions) (due : Q) (p : Proc) : Prop :=
  match p with
  | Broadcast _ pk =>
      Pkt.pkt_type pk = Pkt.BOM →
      ∃ s T, Pkt.sink_id pk = Some s ∧ (s, Pkt.seq pk, T) ∈ em
             ∧ (due == T + Node.TX_DELAY + inject_Z (Pkt.hop_count pk) * HOP_DELAY)%Q
  | Receive _ pk =>
      Pkt.pkt_type pk = Pkt.BOM →
      ∃ s T, Pkt.sink_id pk = Some s ∧ (s, Pkt.seq pk, T) ∈ em
             ∧ (due == T + inject_Z (Pkt.hop_count pk + 1) * HOP_DELAY)%Q
  | Deliver _ _ pk => Pkt.pkt_type pk = Pkt.RMS
  end.

(** A node's record for sink key [k]: the best sequence seen is the
    sequence of the routing entry, and a beacon with that sequence cannot
    have been handled before it had travelled the entry's hop distance. *)
Definition route_ok (em : emissions) (now : Q) (n : Node.t) (k : option Z) : Prop :=
  match Node.best_seq n !! k with
  | Some q0 =>
      ∃ nh p0 s T,
        Dict.get k (Node.routing_table n) = Some (nh, p0, q0)
        ∧ k = Some s ∧ (s, q0, T) ∈ em
        ∧ (T + inject_Z p0 * HOP_DELAY <= now)%Q
  | None => True
  end.

(** The sinks whose beacon timer is pending, in queue order. *)
Definition sink_timers (q : list (Q * Sim.task)) : list Z :=
  omap (fun e => match e.2 with Sim.SinkBom s => Some s | _ => None end) q.

(** A pending timeout is not in the past; a spawned generator is on
    schedule; a sink's beacon timer fires after every beacon the sink has
    originated. *)
Definition entry_ok (em : emissions) (now : Q) (e : Q * Sim.task) : Prop :=
  (now <= e.1)%Q
  ∧ match e.2 with
    | Sim.Run p => in_flight em e.1 p
    | Sim.SinkBom s => ∀ q T, (s, q, T) ∈ em → (T < e.1)%Q
    | _ => True
    end.

(** The originated beacons lie in the past, carry sequence numbers their
    sink has used, and later ones carry larger sequence numbers. *)
Definition em_ok (em : emissions) (now : Q) (ns : list Node.t) : Prop :=
  (∀ s q T, (s, q, T) ∈ em →
     (T <= now)%Q ∧ ∃ n, 0 ≤ s ∧ ns !! Z.to_nat s = Some n ∧ q ≤ Node.seq_num n)
  ∧ (∀ s q1 T1 q2 T2, (s, q1, T1) ∈ em → (s, q2, T2) ∈ em →
       (q1 < q2 → (T1 < T2)%Q) ∧ (q1 = q2 → (T1 == T2)%Q)).

(** The timing discipline of a run, on the nodes, the clock and the
    pending timeouts. *)
Record timed_parts (em : emissions) (ns : list Node.t) (now : Q)
    (q : list (Q * Sim.task)) : Prop := mk_timed {
  t_ids : ids_are_positions ns;
  t_queue : Forall (entry_ok em now) q;
  t_once : NoDup (sink_timers q);
  t_em : em_ok em now ns;
  t_routes : Forall (fun n => ∀ k, route_ok em now n k) ns
}.

Definition timed (em : emissions) (st : Sim.t) : Prop :=
  timed_parts em (Engine.nodes (Sim.engine st)) (Sim.now st) (Sim.queue st).

(** The node with id [i] in a state, and what it has recorded for a sink. *)
Definition node_at (st : Sim.t) (i : Z) : option Node.t :=
  Engine.node_map (Sim.engine st) i.

Definition best_seq_at (st : Sim.t) (i : Z) (k : option Z) : option Z :=
  n ← node_at st i; Node.best_seq n !! k.

(** The step resumes [receive] of node [i] on packet [p]. *)
Definition receives (sl : Sim.t * Sim.label) : option (Z * Pkt.t) :=
  match sl.2 with
  | Sim.Fire k _ =>
      match Sim.queue sl.1 !! k with
      | Some (_, Sim.Run (Receive i p)) => Some (i, p)
      | _ => None
      end
  | _ => None
  end.

(** The step is node [i] accepting a beacon of sink key [k] and sequence
    [q]. *)
Definition accepts_beacon (i : Z) (k : option Z) (q : Z) (sl : Sim.t * Sim.label) : bool :=
  match receives sl with
  | Some (j, p) =>
      bool_decide (j = i ∧ Pkt.pkt_type p = Pkt.BOM ∧ Pkt.sink_id p = k ∧ Pkt.seq p = q)
      && match node_at sl.1 j with
         | Some n => Node.bom_accepts p n
         | None => false
         end
  | None => false
  end.

(** The number of times node [i] accepted such a beacon along a run. *)
Definition accept_count (i : Z) (k : option Z) (q : Z) (tr : list (Sim.t * Sim.label)) : nat :=
  length (List.filter (accepts_beacon i k q) tr).

(** The deliveries node [i] recorded in the shared logger while handling a
    data packet with duplicate-suppression key [key] in this step. *)
Definition delivery_records (i : Z) (key : Z * Z) (sl : Sim.t * Sim.label) : Z :=
  match receives sl with
  | Some (j, p) =>
      if bool_decide (j = i ∧ Pkt.pkt_type p = Pkt.RMS ∧ rms_key p = key) then
        Logger.data_delivered (Engine.logger (Sim.engine (Sim.after sl.1 sl.2)))
        - Logger.data_delivered (Engine.logger (Sim.engine sl.1))
      else 0
  | None => 0
  end.

Definition deliveries (i : Z) (key : Z * Z) (tr : list (Sim.t * Sim.label)) : Z :=
  foldr (fun sl acc => delivery_records i key sl + acc) 0 tr.

(** The step is node [i] handling a data packet with key [key] that it has
    not seen before. *)
Definition processes_data (i : Z) (key : Z * Z) (sl : Sim.t * Sim.label) : bool :=
  match receives sl with
  | Some (j, p) =>
      bool_decide (j = i ∧ Pkt.pkt_type p = Pkt.RMS ∧ rms_key p = key)
      && match node_at sl.1 j with
         | Some n => bool_decide (key ∉ Node.seen_rms n)
         | None => false
         end
  | None => false
  end.

(** Two nodes that differ at most in position and neighbour list. *)
Definition same_protocol (n n' : Node.t) : Prop :=
  Node.id n' = Node.id n ∧ Node.is_sink n' = Node.is_sink n
  ∧ Node.is_mobile n' = Node.is_mobile n
  ∧ Node.routing_table n' = Node.routing_table n
  ∧ Node.best_seq n' = Node.best_seq n ∧ Node.seen_rms n' = Node.seen_rms n
  ∧ Node.seq_num n' = Node.seq_num n ∧ Node.tx_count n' = Node.tx_count n
  ∧ Node.rx_count n' = Node.rx_count n.

(** Two nodes that differ at most in their neighbour list. *)
Definition same_place (n n' : Node.t) : Prop :=
  same_protocol n n' ∧ Node.x n' = Node.x n ∧ Node.y n' = Node.y n.

(** ** The neighbour graph *)

(** The Euclidean distance between two nodes is at most the communication
    range, stated on the squares. *)
Definition within_range (a b : Node.t) : Prop :=
  (sq (Node.x a - Node.x b) + sq (Node.y a - Node.y b) <= sq Node.COMM_RANGE)%Q.

(** What one iteration of the inner loop of [update_neighbors] appends to
    the neighbour list of the node at position [k]. *)
Definition link_adds (ns : list Node.t) (k : nat) (ij : nat * nat) : list Z :=
  match ns !! ij.1, ns !! ij.2 with
  | Some node, Some other =>
      if Engine.in_range node other then
        (if decide (k = ij.1) then [Node.id other] else [])
        ++ (if decide (k = ij.2) then [Node.id node] else [])
      else []
  | _, _ => []
  end.

(** The pairs of positions the two loops of [update_neighbors] visit, in
    order. *)
Definition all_pairs (len : nat) : list (nat * nat) :=
  flat_map (fun i => map (pair i) (seq (S i) (len - S i))) (seq 0 len).

(** A sink, a relay within its range and a phone out of range. *)
Definition three_nodes : list Node.t :=
  [Node.init 0 true false (0%Q, 0%Q);
   Node.init 1 false false (20%Q, 0%Q);
   Node.init 2 false true (100%Q, 0%Q)].

(** What running a method does to node [n] under the timing discipline:
    the node [n'] it leaves and the generators [ps] it spawned at time
    [due]. *)
Record local_ok (em : emissions) (due : Q) (n n' : Node.t) (ps : list Proc) : Prop :=
  mk_local_ok {
  lo_id : Node.id n' = Node.id n;
  lo_seq : Node.seq_num n ≤ Node.seq_num n';
  lo_routes : ∀ k, route_ok em due n' k;
  lo_flight : Forall (fun p => in_flight em (due + Sim.delay p)%Q p) ps;
  lo_best : ∀ k q, Node.best_seq n !! k = Some q →
            ∃ q', Node.best_seq n' !! k = Some q' ∧ q ≤ q';
  lo_seen : Node.seen_rms n ⊆ Node.seen_rms n'
}.

(** A method that left the routing memory of the node alone. *)
Definition quiet (n n' : Node.t) : Prop :=
  Node.id n' = Node.id n
  ∧ Node.routing_table n' = Node.routing_table n
  ∧ Node.best_seq n' = Node.best_seq n
  ∧ Node.seq_num n ≤ Node.seq_num n'
  ∧ Node.seen_rms n ⊆ Node.seen_rms n'.

(** A spawned generator that carries a data packet. *)
Definition carries_data (p : Proc) : Prop :=
  match p with
  | Broadcast _ pk | Deliver _ _ pk | Receive _ pk => Pkt.pkt_type pk = Pkt.RMS
  end.

(** From [n] to [n'] the best sequence recorded for a sink has not gone
    down and no duplicate-suppression key was forgotten. *)
Definition node_grows (n n' : Node.t) : Prop :=
  (∀ k q, Node.best_seq n !! k = Some q →
          ∃ q', Node.best_seq n' !! k = Some q' ∧ q ≤ q')
  ∧ Node.seen_rms n ⊆ Node.seen_rms n'.

(** ** The constructor *)

(** The placement state of [_create_nodes]: the next id is the number of
    nodes created, and the nodes are fresh and numbered by position. *)
Definition placing_ok (p : Engine.placing) : Prop :=
  Engine.node_id p = Z.of_nat (length (Engine.placed_nodes p))
  ∧ ids_are_positions (Engine.placed_nodes p) ∧ Forall fresh (Engine.placed_nodes p).


(** ** A line of five nodes

    One sink at (40, 100) and four relays at x = 64, 88, 112, 136 on the
    same height: each node hears only the next one (the spacing is 24, the
    range 30).  The tape makes [_create_nodes] sample exactly these
    positions; the last relay generates its first data packet at time 30,
    the others much later. *)

Definition line_tape (k : nat) : Rng.draw :=
  Rng.mk_draw
    (match k with
     | 0%nat => 4 # 80
     | 2%nat => 28 # 80
     | 4%nat => 52 # 80
     | 6%nat => 76 # 80
     | _ => 1 # 2
     end)
    0 (1%Q, 0%Q) 1000.

Definition line_cfg : Engine.config :=
  Engine.mk_config 4 0 200 200 (Some [(40%Q, 100%Q)]) 14.

Definition line_built : Engine.result (Engine.t * Rng.t) :=
  Engine.init 5 line_cfg (Rng.mk line_tape 0).

Definition line_engine : Engine.t :=
  match line_built with
  | Engine.Ok (e, _) => e
  | _ => Engine.mk 0 0 0 0 0 [] [] Logger.init
  end.

Definition line_first (i : Z) : Q := if i =? 4 then 30 else 1000.

Definition line_start : Sim.t := Sim.start line_engine line_first.

(** The first [n] events of the line, as SimPy schedules them. *)
Definition line_run (n : nat) : list (Sim.t * Sim.label) * Sim.t :=
  Sim.simulate n (fun _ => line_tape 1) line_start.

(** The packet a spawned generator carries. *)
Definition packet_of (g : Proc) : Pkt.t :=
  match g with
  | Broadcast _ pk | Deliver _ _ pk | Receive _ pk => pk
  end.

(** The step is a node sending on ([_deliver] or [_broadcast] running) a
    data packet with duplicate-suppression key [key]. *)
Definition transmits (key : Z * Z) (sl : Sim.t * Sim.label) : bool :=
  match sl.2 with
  | Sim.Fire k _ =>
      match Sim.queue sl.1 !! k with
      | Some (_, Sim.Run (Deliver _ _ p)) | Some (_, Sim.Run (Broadcast _ p)) =>
          bool_decide (Pkt.pkt_type p = Pkt.RMS ∧ rms_key p = key)
      | _ => false
      end
  | _ => false
  end.




(** ** The repair pass *)

(** The node lies in the area. *)
Definition inside (e : Engine.t) (n : Node.t) : Prop :=
  (0 <= Node.x n <= Engine.width e)%Q ∧ (0 <= Node.y n <= Engine.height e)%Q.

(** Every direction on the tape is a point of the unit disc, as
    [(cos a, sin a)] is. *)
Definition unit_dirs (tape : nat → Rng.draw) : Prop :=
  ∀ k, (sq (Rng.dir (tape k)).1 + sq (Rng.dir (tape k)).2 <= 1)%Q.

(** No other node is within range of the node at position [i]. *)
Definition lonelyb (ns : list Node.t) (i : nat) : bool :=
  match ns !! i with
  | Some n =>
      forallb
        (fun j => (j =? i)%nat
                  || match ns !! j with
                     | Some m => negb (Engine.in_range n m)
                     | None => true
                     end)
        (seq 0 (length ns))
  | None => false
  end.

(** The node at position [i] has a node within range. *)
Definition has_neighbor (ns : list Node.t) (i : nat) : Prop :=
  ∃ n j m, ns !! i = Some n ∧ j ≠ i ∧ ns !! j = Some m ∧ within_range n m.

(** The node at position [i] is the only stationary one (no other
    stationary node has a different id). *)
Definition only_static (ns : list Node.t) (i : nat) : Prop :=
  ∀ n j m, ns !! i = Some n → ns !! j = Some m → Node.is_mobile m = false →
           Node.id m = Node.id n.

(** The stationary nodes without a node in range. *)
Definition lonely_count (static : list nat) (ns : list Node.t) : nat :=
  length (List.filter (lonelyb ns) static).

(** One sink in the middle of the area and one phone. *)
Definition single_cfg : Engine.config :=
  Engine.mk_config 0 1 200 200 (Some [(100%Q, 100%Q)]) 14.

(** Two sinks in opposite corners of the area, before the repair. *)
Definition apart_engine : Engine.t :=
  Engine.mk 0 0 200 200 14 [(20%Q, 20%Q); (180%Q, 180%Q)]
    [Node.init 0 true false (20%Q, 20%Q); Node.init 1 true false (180%Q, 180%Q)]
    Logger.init.

(** Two sinks next to each other far outside the area, a third in its
    corner. *)
Definition far_cfg : Engine.config :=
  Engine.mk_config 0 0 200 200
    (Some [(1000%Q, 1000%Q); (1014%Q, 1000%Q); (0%Q, 0%Q)]) 14.

(** The state of a pass that started from the nodes [ns], after some of
    the stationary nodes have been visited ([visited]): nodes have only
    moved; the moved ones were stationary and lonely at the start and now
    lie in the area; a visited node that was lonely and is still where it
    was has no candidate anchor; and once something has moved, some node
    that was lonely at the start has a node within range. *)
Record pass_inv (e : Engine.t) (static : list nat) (ns : list Node.t)
    (tape : nat → Rng.draw) (visited : list nat) (st : Engine.repairing) : Prop :=
  mk_pass_inv {
  pi_same : Forall2 (fun n n' => same_protocol n n' ∧ Node.neighbors n' = Node.neighbors n)
                    (Engine.update_neighbors_nodes ns) (Engine.r_nodes st);
  pi_unmoved : ∀ j, j ∉ static ∨ lonelyb ns j = false →
               Engine.r_nodes st !! j = Engine.update_neighbors_nodes ns !! j;
  pi_inside : ∀ j n, j ∈ static → Engine.r_nodes st !! j = Some n → inside e n;
  pi_tape : Rng.tape (Engine.r_rng st) = tape;
  pi_still : Engine.changed st = false →
             Engine.r_nodes st = Engine.update_neighbors_nodes ns
             ∧ ∀ i n, i ∈ visited → Engine.r_nodes st !! i = Some n → lonelyb ns i = true →
                      Engine.candidates (Engine.r_nodes st) static n = [];
  pi_progress : Engine.changed st = true →
                ∃ i, i ∈ static ∧ lonelyb ns i = true ∧ has_neighbor (Engine.r_nodes st) i
}.

(** What the repair is after for the stationary node at position [i]: a
    non-empty neighbour list and a node within range. *)
Definition connected (ns : list Node.t) (i : nat) : Prop :=
  (∃ n, ns !! i = Some n ∧ Node.neighbors n ≠ []) ∧ has_neighbor ns i.

(** The node at position [k] is where [n] is and has no candidate
    anchor. *)
Definition stays (static : list nat) (n : Node.t) (k : nat) (ns : list Node.t) : Prop :=
  ∃ n', ns !! k = Some n' ∧ Node.x n' = Node.x n ∧ Node.y n' = Node.y n
        ∧ Engine.candidates ns static n' = [].

(** A pass of the repair that has moved nothing so far: the nodes are
    those it started from, and every visited node has a neighbour or no
    candidate anchor. *)
Definition pass_still (static : list nat) (start : list Node.t) (visited : list nat)
    (st : Engine.repairing) : Prop :=
  Engine.changed st = false →
  Engine.r_nodes st = start
  ∧ ∀ (i : nat) n, i ∈ visited → start !! i = Some n →
      Node.neighbors n ≠ [] ∨ Engine.candidates start static n = [].

(** The three sinks of [far_cfg], the third one anywhere in the area. *)
Definition far_nodes (ns : list Node.t) : Prop :=
  ∃ n0 n1 n2, ns = [n0; n1; n2]
    ∧ Node.id n0 = 0 ∧ Node.id n1 = 1 ∧ Node.id n2 = 2
    ∧ Node.x n0 = 1000%Q ∧ Node.y n0 = 1000%Q
    ∧ Node.x n1 = 1014%Q ∧ Node.y n1 = 1000%Q
    ∧ (0 <= Node.x n2 <= 200)%Q ∧ (0 <= Node.y n2 <= 200)%Q.

(** The list positions node [k] hears: every other position whose node is
    within range, in increasing order. *)
Definition heard_positions (ns : list Node.t) (k : nat) : list nat :=
  List.filter
    (fun j => negb (j =? k)%nat
              && match ns !! k, ns !! j with
                 | Some n, Some m => Engine.in_range n m
                 | _, _ => false
                 end)
    (seq 0 (length ns)).

(** The three nodes in an engine of their own. *)
Definition three_engine : Engine.t :=
  Engine.mk 0 0 200 200 14 [] three_nodes Logger.init.

(** ** What the constructor builds *)

(** The two flags of a node: sinks are [(true, false)], relays
    [(false, false)], phones [(false, true)]. *)
Definition kind (s m : bool) (n : Node.t) : Prop :=
  Node.is_sink n = s ∧ Node.is_mobile n = m.

(** [random.random()] returns a number of the unit interval. *)
Definition unit_draws (tape : nat → Rng.draw) : Prop :=
  ∀ k, (0 <= Rng.unit (tape k) <= 1)%Q.

(** A point of the area. *)
Definition in_area (e : Engine.t) (xy : Q * Q) : Prop :=
  (0 <= xy.1 <= Engine.width e)%Q ∧ (0 <= xy.2 <= Engine.height e)%Q.

(** One more node was placed, at [xy], with the flags [s] and [m]; the
    random source kept its tape. *)
Definition placed_one (s m : bool) (xy : Q * Q) (p p' : Engine.placing) : Prop :=
  ∃ static r, p' = Engine.add_node s m xy static r p
              ∧ Rng.tape r = Rng.tape (Engine.rng p).

(** The engine [__init__] hands to [_create_nodes]. *)
Definition blank (cfg : Engine.config) : Engine.t :=
  let w := Engine.area_width cfg in
  let h := Engine.area_height cfg in
  Engine.mk (Engine.num_mesh_nodes cfg) (Engine.num_mobile_nodes cfg) w h
    (Engine.min_dist cfg)
    (match Engine.cfg_sink_positions cfg with
     | None => [((w * (33 # 100))%Q, (h * (5 # 10))%Q);
                ((w * (66 # 100))%Q, (h * (5 # 10))%Q)]
     | Some l => l
     end)
    [] Logger.init.

(** ** Invariants of a run

    A property of the nodes, of the shared logger and of the pending
    timeouts that every method keeps is kept by every step of a run. *)

(** What a method run on node [n] at time [due] has to leave: the same id,
    a good node, a good logger, and good generators at their first
    timeout. *)
Definition kept (NodeOK : Node.t → Prop) (LogOK : Logger.t → Prop)
    (TaskOK : Q → Sim.task → Prop) (due : Q) (n : Node.t) (c' : Node.ctx) : Prop :=
  Node.id (Node.self c') = Node.id n
  ∧ NodeOK (Node.self c') ∧ LogOK (Node.logger c')
  ∧ Forall (fun g => TaskOK (due + Sim.delay g)%Q (Sim.Run g)) (Node.spawned c').

(** The methods keep the property on an area of width [w] and height
    [h]. *)
Record discipline (w h : Q) (NodeOK : Node.t → Prop) (LogOK : Logger.t → Prop)
    (TaskOK : Q → Sim.task → Prop) : Prop := mk_discipline {
  d_broadcast : ∀ due n lg p,
    NodeOK n → LogOK lg → TaskOK due (Sim.Run (Broadcast (Node.id n) p)) →
    kept NodeOK LogOK TaskOK due n (Node._broadcast p (Node.mk_ctx n lg []));
  d_deliver : ∀ due n lg nb p,
    NodeOK n → LogOK lg → TaskOK due (Sim.Run (Deliver (Node.id n) nb p)) →
    kept NodeOK LogOK TaskOK due n (Node._deliver nb p (Node.mk_ctx n lg []));
  d_receive : ∀ due n lg p,
    NodeOK n → LogOK lg → TaskOK due (Sim.Run (Receive (Node.id n) p)) →
    kept NodeOK LogOK TaskOK due n (Node.receive due p (Node.mk_ctx n lg []));
  d_sink_bom : ∀ due n lg,
    NodeOK n → LogOK lg → TaskOK due (Sim.SinkBom (Node.id n)) →
    kept NodeOK LogOK TaskOK due n
         (NodeTimers._sink_bom_process due (Node.mk_ctx n lg []));
  d_generate : ∀ due n lg,
    NodeOK n → LogOK lg → TaskOK due (Sim.GenRms (Node.id n)) →
    kept NodeOK LogOK TaskOK due n
         (NodeTimers._generate_rms_process due (Node.mk_ctx n lg []));
  d_inject : ∀ now n lg ty dst,
    NodeOK n → LogOK lg →
    kept NodeOK LogOK TaskOK now n (Gui.inject_packet now ty dst (Node.mk_ctx n lg []));
  d_move : ∀ e due n cs,
    Engine.width e = w → Engine.height e = h →
    NodeOK n → TaskOK due (Sim.Mobility (Node.id n)) → NodeOK (Sim.move e cs n);
  d_neighbors : ∀ n n', same_place n n' → NodeOK n → NodeOK n';
  d_timer : ∀ due d tk,
    match tk with Sim.Run _ => False | _ => True end →
    TaskOK due tk → TaskOK (due + d)%Q tk
}.

(** The property at a state of the simulation. *)
Definition holds (w h : Q) (NodeOK : Node.t → Prop) (LogOK : Logger.t → Prop)
    (TaskOK : Q → Sim.task → Prop) (st : Sim.t) : Prop :=
  ids_are_positions (Engine.nodes (Sim.engine st))
  ∧ Engine.width (Sim.engine st) = w ∧ Engine.height (Sim.engine st) = h
  ∧ Forall NodeOK (Engine.nodes (Sim.engine st))
  ∧ LogOK (Engine.logger (Sim.engine st))
  ∧ Forall (fun e => TaskOK e.1 e.2) (Sim.queue st).

(** ** What the methods keep *)

(** The generator [g] sends the packet [p'] on from node [me]: a
    broadcast, or a unicast to one of the neighbours [nbs]. *)
Definition sent_by (me : Z) (nbs : list Z) (p' : Pkt.t) (g : Proc) : Prop :=
  g = Broadcast me p' ∨ ∃ nb, In nb nbs ∧ g = Deliver me nb p'.

(** Two nodes with the same id, flags and position. *)
Definition same_spot (n n' : Node.t) : Prop :=
  Node.id n' = Node.id n ∧ Node.is_sink n' = Node.is_sink n
  ∧ Node.is_mobile n' = Node.is_mobile n
  ∧ Node.x n' = Node.x n ∧ Node.y n' = Node.y n.

(** A node's routing memory is in order: every entry is at least one hop
    long, and [best_seq] holds, for exactly the sinks of the table, the
    sequence number of their entry. *)
Definition routes_sane (n : Node.t) : Prop :=
  Forall (fun kv => 1 ≤ Node.hop_distance kv.2) (Node.routing_table n)
  ∧ ∀ k, match Dict.get k (Node.routing_table n) with
         | Some e => Node.best_seq n !! k = Some (Node.route_seq e)
         | None => Node.best_seq n !! k = None
         end.

(** The metrics are in order: one latency and one hop count per recorded
    delivery, no negative latency, no hop count below one, no more routing
    updates than control packets. *)
Definition logger_sane (l : Logger.t) : Prop :=
  Logger.data_delivered l = Z.of_nat (length (Logger.delays l))
  ∧ length (Logger.hops l) = length (Logger.delays l)
  ∧ Forall (fun d => (0 <= d)%Q) (Logger.delays l)
  ∧ Forall (fun x => 1 ≤ x) (Logger.hops l)
  ∧ 0 ≤ Logger.routing_updates l ≤ Logger.control_sent l
  ∧ 0 ≤ Logger.data_sent l.

(** A packet created no later than [t] with hops in order: a beacon has
    travelled a non-negative number of hops, a data packet has at least
    one hop left. *)
Definition packet_sane (t : Q) (p : Pkt.t) : Prop :=
  (Pkt.timestamp p <= t)%Q
  ∧ match Pkt.pkt_type p with
    | Pkt.BOM => 0 ≤ Pkt.hop_count p
    | Pkt.RMS => 1 ≤ Pkt.hop_count p
    end.

(** A pending generator carries a packet in order; a reception comes at
    least one reception delay after the packet was created. *)
Definition task_sane (due : Q) (tk : Sim.task) : Prop :=
  match tk with
  | Sim.Run (Receive _ p) => packet_sane (due - Node.RX_DELAY)%Q p
  | Sim.Run (Broadcast _ p) | Sim.Run (Deliver _ _ p) => packet_sane due p
  | _ => True
  end.

(** Node [n] is where, and what, the node with its id was in the list
    [ns0]: the same flags, and the same position unless it is a phone. *)
Definition anchored (ns0 : list Node.t) (n : Node.t) : Prop :=
  ∀ n0, ns0 !! Z.to_nat (Node.id n) = Some n0 →
    Node.is_sink n = Node.is_sink n0 ∧ Node.is_mobile n = Node.is_mobile n0
    ∧ (Node.is_mobile n0 = false → Node.x n = Node.x n0 ∧ Node.y n = Node.y n0).

(** A pending mobility timer belongs to a phone of [ns0]. *)
Definition mobile_timer (ns0 : list Node.t) (tk : Sim.task) : Prop :=
  match tk with
  | Sim.Mobility i => ∃ n0, ns0 !! Z.to_nat i = Some n0 ∧ Node.is_mobile n0 = true
  | _ => True
  end.

(** The node lies in a [w] by [h] area. *)
Definition in_bounds (w h : Q) (n : Node.t) : Prop :=
  (0 <= Node.x n <= w)%Q ∧ (0 <= Node.y n <= h)%Q.

(** The duplicate-suppression key of the data packet a step creates: the
    packet carried by the generator that [_generate_rms_process] or the
    injection form starts at an existing node. *)
Definition created_key (sl : Sim.t * Sim.label) : option (Z * Z) :=
  let started (c' : Node.ctx) := (fun g => rms_key (packet_of g)) <$> head (Node.spawned c') in
  let lg := Engine.logger (Sim.engine sl.1) in
  match sl.2 with
  | Sim.Fire k _ =>
      match Sim.queue sl.1 !! k with
      | Some (due, Sim.GenRms i) =>
          n ← node_at sl.1 i;
          started (NodeTimers._generate_rms_process due (Node.mk_ctx n lg []))
      | _ => None
      end
  | Sim.Inject src ty dst =>
      n ← node_at sl.1 src;
      started (Gui.inject_packet (Sim.now sl.1) ty dst (Node.mk_ctx n lg []))
  | Sim.Advance _ => None
  end.

(** The keys created along a run, in order. *)
Definition created_keys (tr : list (Sim.t * Sim.label)) : list (Z * Z) :=
  omap created_key tr.

(** So far in this pass of the repair, which started from the nodes [ns],
    no neighbour list was touched and only stationary nodes that were
    lonely at the start have moved. *)
Definition pass_unmoved (static : list nat) (ns : list Node.t) (st : Engine.repairing)
    : Prop :=
  Forall2 (fun n n' => Node.neighbors n' = Node.neighbors n)
          (Engine.update_neighbors_nodes ns) (Engine.r_nodes st)
  ∧ ∀ j : nat, j ∉ static ∨ lonelyb ns j = false →
      Engine.r_nodes st !! j = Engine.update_neighbors_nodes ns !! j.

(** ** Where routes lead *)

(** [k] names a sink of the node list [ns0]. *)
Definition sink_key (ns0 : list Node.t) (k : option Z) : Prop :=
  ∃ s n0, k = Some s ∧ 0 ≤ s ∧ ns0 !! Z.to_nat s = Some n0 ∧ Node.is_sink n0 = true.

(** [i] is the id of a node of the list [ns0]. *)
Definition node_key (ns0 : list Node.t) (i : Z) : Prop :=
  0 ≤ i ∧ is_Some (ns0 !! Z.to_nat i).

(** Every route of the node leads to a sink of [ns0], through a node of
    [ns0]. *)
Definition routes_to_sinks (ns0 : list Node.t) (n : Node.t) : Prop :=
  node_key ns0 (Node.id n)
  ∧ Forall (fun kv => sink_key ns0 kv.1 ∧ node_key ns0 (Node.next_hop kv.2))
           (Node.routing_table n).

(** A beacon timer belongs to a sink, a beacon on its way names a sink and
    comes from a node, and a unicast is addressed to a sink. *)
Definition task_to_sinks (ns0 : list Node.t) (tk : Sim.task) : Prop :=
  match tk with
  | Sim.SinkBom i => sink_key ns0 (Some i)
  | Sim.Run (Deliver _ _ p) => sink_key ns0 (Pkt.sink_id p)
  | Sim.Run (Broadcast _ p) | Sim.Run (Receive _ p) =>
      Pkt.pkt_type p = Pkt.BOM → sink_key ns0 (Pkt.sink_id p) ∧ node_key ns0 (Pkt.src p)
  | _ => True
  end.

(** * Properties of the node handlers *)

Lemma gtb_gt (a b : Z) : (a >? b) = true ↔ a > b.
Proof. rewrite Z.gtb_ltb, Z.ltb_lt. lia. Qed.

Lemma hop_lt_spec (h : Z) (d : hopdist) :
  hop_lt h d = true ↔ match d with Finite h' => h < h' | Inf => True end.
Proof. destruct d; simpl; [apply Z.ltb_lt | tauto]. Qed.

Lemma bom_accepts_spec packet n :
  Node.bom_accepts packet n = true ↔ fresher_or_shorter packet n.
Proof.
  unfold Node.bom_accepts, fresher_or_shorter.
  rewrite orb_true_iff, gtb_gt, hop_lt_spec.
  destruct (Dict.get _ _); tauto.
Qed.

(** ** Dictionaries *)

Section dict_facts.
Context {K V : Type} `{EqDecision K}.
Implicit Types (d : list (K * V)) (k : K) (v : V).

Lemma dict_get_set_eq d k v : Dict.get k (Dict.set k v d) = Some v.
Proof.
  induction d as [|[k' v'] d IH]; simpl.
  - by rewrite decide_True.
  - destruct (decide (k = k')) as [->|Hne]; simpl.
    + by rewrite decide_True.
    + by rewrite decide_False.
Qed.

Lemma dict_get_set_ne d k k' v : k ≠ k' → Dict.get k' (Dict.set k v d) = Dict.get k' d.
Proof.
  intros Hne. induction d as [|[k0 v0] d IH]; simpl.
  - by rewrite decide_False.
  - destruct (decide (k = k0)) as [->|Hne0]; simpl.
    + by rewrite !decide_False.
    + destruct (decide (k' = k0)); [done | apply IH].
Qed.

Lemma min_from_spec (f : K * V → Z) acc d :
  let m := Dict.min_from f acc d in
  (m = acc ∨ In m d) ∧ f m ≤ f acc ∧ ∀ kv, In kv d → f m ≤ f kv.
Proof.
  revert acc. induction d as [|kv d IH]; intros acc; simpl.
  - split; [by left|]. split; [lia | tauto].
  - destruct (IH (if f kv <? f acc then kv else acc)) as (Hin & Hle & Hall).
    destruct (Z.ltb_spec (f kv) (f acc)).
    + split; [destruct Hin as [->|]; auto|]. split; [lia|].
      intros kv' [<-|Hkv]; [done | by apply Hall].
    + split; [destruct Hin; auto|]. split; [done|].
      intros kv' [<-|Hkv]; [lia | by apply Hall].
Qed.

Lemma min_by_spec (f : K * V → Z) d :
  match Dict.min_by f d with
  | Some m => In m d ∧ ∀ kv, In kv d → f m ≤ f kv
  | None => d = []
  end.
Proof.
  destruct d as [|kv d]; simpl; [done|].
  destruct (min_from_spec f kv d) as (Hin & Hle & Hall).
  split; [destruct Hin; auto|].
  intros kv' [<-|Hkv]; [done | by apply Hall].
Qed.

End dict_facts.

(** ** The beacon rule *)

(** C1. A beacon is accepted exactly when it is fresher or shorter; on
    acceptance the routing entry of its sink becomes (sender, hop + 1,
    sequence) and one [_broadcast] of a beacon with the same origin and
    sequence and the incremented hop is started; on rejection nothing
    changes: same routing table, nothing spawned. *)
Theorem handle_bom_rule (now : Q) (packet : Pkt.t) (c : Node.ctx) :
  let sink := Pkt.sink_id packet in
  let hop := Pkt.hop_count packet + 1 in
  let c' := Node._handle_bom now packet c in
  (fresher_or_shorter packet (Node.self c) →
     Node.routing_table (Node.self c') =
       Dict.set sink (Pkt.src packet, hop, Pkt.seq packet)
                (Node.routing_table (Node.self c))
     ∧ Dict.get sink (Node.routing_table (Node.self c')) =
       Some (Pkt.src packet, hop, Pkt.seq packet)
     ∧ Node.spawned c' = Node.spawned c ++
         [Broadcast (Node.id (Node.self c))
            (Pkt.mk Pkt.BOM (Node.id (Node.self c)) sink (Pkt.seq packet) hop
                    (Pkt.origin packet) (Pkt.timestamp packet))])
  ∧ (¬ fresher_or_shorter packet (Node.self c) → c' = c).
Proof.
  intros sink hop c'. subst c'. unfold Node._handle_bom.
  destruct (Node.bom_accepts packet (Node.self c)) eqn:E.
  - apply bom_accepts_spec in E. split; [|tauto]. intros _.
    split; [reflexivity|]. split; [|reflexivity].
    cbn. apply dict_get_set_eq.
  - split; [|reflexivity]. intros H. apply bom_accepts_spec in H. congruence.
Qed.


(** ** Forwarding *)

Lemma set_tx_count_id n : Node.set_tx_count (Node.tx_count n) n = n.
Proof. by destruct n. Qed.

Lemma broadcast_loop_spec nbs packet c :
  let c' := Node.broadcast_loop nbs packet c in
  Node.spawned c' = Node.spawned c
                    ++ map (fun nb => Receive nb (relayed (Node.id (Node.self c)) packet)) nbs
  ∧ Node.logger c' = Node.logger c
  ∧ Node.self c' =
    Node.set_tx_count (Node.tx_count (Node.self c) + Z.of_nat (length nbs)) (Node.self c).
Proof.
  revert c. induction nbs as [|nb nbs IH]; intros c.
  - cbn. rewrite app_nil_r, Z.add_0_r, set_tx_count_id. done.
  - cbn [Node.broadcast_loop].
    destruct (IH (Node.process (Receive nb (Node.copy_from (Node.id (Node.self c)) packet))
                    (Node.on_self (fun n => Node.set_tx_count (Node.tx_count n + 1) n) c)))
      as (Hs & Hl & Hn).
    cbn zeta. rewrite Hs, Hl, Hn. cbn. rewrite <- app_assoc.
    split; [reflexivity|]. split; [reflexivity|].
    unfold Node.set_tx_count. cbn. f_equal. lia.
Qed.

Lemma unicast_loop_spec now nbs nh packet c :
  match Node.unicast_loop now nbs nh packet c with
  | Some c' =>
      In nh nbs
      ∧ Node.spawned c' = Node.spawned c ++ [Deliver (Node.id (Node.self c)) nh packet]
      ∧ Node.self c' = Node.set_tx_count (Node.tx_count (Node.self c) + 1) (Node.self c)
      ∧ Node.logger c' =
        Logger.log_event now Logger.EvRMS_UNI (Node.id (Node.self c)) nh (Node.logger c)
  | None => ¬ In nh nbs
  end.
Proof.
  induction nbs as [|nb nbs IH]; simpl; [tauto|].
  destruct (Z.eqb_spec nb nh) as [->|Hne].
  - cbn. auto.
  - destruct (Node.unicast_loop now nbs nh packet c); [|tauto].
    destruct IH as (? & ? & ? & ?). auto.
Qed.

(** C6. The forwarding decision.  With a non-empty routing table an entry
    of smallest hop distance is selected, the packet is readdressed to that
    entry's sink with remaining hops = its hop distance + 1, and it is
    unicast ([_deliver]) to the neighbour whose id is the entry's next hop;
    when no neighbour has that id, or the table is empty, the packet goes to
    [_broadcast], which hands a copy to every current neighbour. *)
Theorem send_rms_decision (now : Q) (packet : Pkt.t) (c : Node.ctx) :
  let me := Node.id (Node.self c) in
  let rt := Node.routing_table (Node.self c) in
  let c' := Node._send_rms now packet c in
  (rt = [] → Node.spawned c' = Node.spawned c ++ [Broadcast me packet])
  ∧ (rt ≠ [] →
       ∃ sink e,
         In (sink, e) rt
         ∧ (∀ sink' e', In (sink', e') rt → Node.hop_distance e ≤ Node.hop_distance e')
         ∧ let packet' := readdressed sink (Node.hop_distance e + 1) packet in
           (In (Node.next_hop e) (Node.neighbors (Node.self c)) →
              Node.spawned c' = Node.spawned c ++ [Deliver me (Node.next_hop e) packet'])
           ∧ (¬ In (Node.next_hop e) (Node.neighbors (Node.self c)) →
                Node.spawned c' = Node.spawned c ++ [Broadcast me packet']))
  ∧ (∀ p c0, Node.spawned (Node._broadcast p c0) =
             Node.spawned c0
             ++ map (fun nb => Receive nb (relayed (Node.id (Node.self c0)) p))
                    (Node.neighbors (Node.self c0)))
  ∧ (∀ nb p c0, Node.spawned (Node._deliver nb p c0) =
                Node.spawned c0 ++ [Receive nb (relayed (Node.id (Node.self c0)) p)]).
Proof.
  intros me rt c'. subst me rt c'. unfold Node._send_rms.
  pose proof (min_by_spec (fun kv : option Z * Node.route => Node.hop_distance kv.2)
                (Node.routing_table (Node.self c))) as Hmin.
  split; [|split; [|split]].
  - intros Hrt. rewrite Hrt. reflexivity.
  - intros Hrt.
    destruct (Dict.min_by _ _) as [[sink e]|]; [|congruence].
    destruct Hmin as [Hin Hall]. exists sink, e. split; [done|]. split.
    { intros s' e' H'. apply (Hall (s', e') H'). }
    cbn zeta.
    pose proof (unicast_loop_spec now (Node.neighbors (Node.self c)) (Node.next_hop e)
                  (Pkt.set_hop_count (Node.hop_distance e + 1) (Pkt.set_sink_id sink packet))
                  c) as Hu.
    destruct (Node.unicast_loop _ _ _ _ _) as [c1|].
    + destruct Hu as (Hnb & Hs & _). split; [intros _; exact Hs | tauto].
    + split; [tauto | intros _; reflexivity].
  - intros p c0. apply broadcast_loop_spec.
  - reflexivity.
Qed.

(** The two ways [_send_rms] can end. *)
Lemma send_rms_cases now packet c :
  let me := Node.id (Node.self c) in
  let c' := Node._send_rms now packet c in
  (∃ nb sink ttl,
      In nb (Node.neighbors (Node.self c))
      ∧ c' = Node.mk_ctx
               (Node.set_tx_count (Node.tx_count (Node.self c) + 1) (Node.self c))
               (Logger.log_event now Logger.EvRMS_UNI me nb (Node.logger c))
               (Node.spawned c ++ [Deliver me nb (readdressed sink ttl packet)]))
  ∨ (∃ p', (p' = packet ∨ ∃ sink ttl, p' = readdressed sink ttl packet)
      ∧ c' = Node.mk_ctx (Node.self c)
               (Logger.log_event now Logger.EvRMS_BRD me (-1) (Node.logger c))
               (Node.spawned c ++ [Broadcast me p'])).
Proof.
  intros me c'. subst me c'. unfold Node._send_rms.
  destruct (Dict.min_by _ _) as [[sink e]|].
  - pose proof (unicast_loop_spec now (Node.neighbors (Node.self c)) (Node.next_hop e)
                  (Pkt.set_hop_count (Node.hop_distance e + 1) (Pkt.set_sink_id sink packet))
                  c) as Hu.
    destruct (Node.unicast_loop _ _ _ _ _) as [c1|].
    + left. destruct Hu as (Hnb & Hs & Hn & Hl).
      exists (Node.next_hop e), sink, (Node.hop_distance e + 1). split; [done|].
      destruct c1 as [n1 l1 s1]. cbn in Hs, Hn, Hl. by subst.
    + right. eexists. split; [right; by eexists _, _ | reflexivity].
  - right. eexists. split; [by left | reflexivity].
Qed.

(** C10. Transmission counting.  A unicast counts twice on the sender:
    [_send_rms] adds one when it starts [_deliver], and [_deliver] adds one
    when it runs.  A broadcast counts nothing when [_send_rms] starts it and
    one per current neighbour when [_broadcast] runs. *)
Theorem tx_count_unicast_and_broadcast (now : Q) (packet : Pkt.t) (c : Node.ctx) :
  let me := Node.id (Node.self c) in
  let c' := Node._send_rms now packet c in
  let tx := fun c0 => Node.tx_count (Node.self c0) in
  (∀ nb p', Node.spawned c' = Node.spawned c ++ [Deliver me nb p'] →
            tx c' = tx c + 1 ∧ tx (Node._deliver nb p' c') = tx c + 2)
  ∧ (∀ p', Node.spawned c' = Node.spawned c ++ [Broadcast me p'] →
           tx c' = tx c
           ∧ tx (Node._broadcast p' c')
             = tx c + Z.of_nat (length (Node.neighbors (Node.self c))))
  ∧ (∀ nb p c0, tx (Node._deliver nb p c0) = tx c0 + 1)
  ∧ (∀ p c0, tx (Node._broadcast p c0)
             = tx c0 + Z.of_nat (length (Node.neighbors (Node.self c0)))).
Proof.
  intros me c' tx.
  assert (Hb : ∀ p c0, tx (Node._broadcast p c0)
             = tx c0 + Z.of_nat (length (Node.neighbors (Node.self c0)))).
  { intros p c0. unfold tx, Node._broadcast.
    destruct (broadcast_loop_spec (Node.neighbors (Node.self c0)) p c0) as (_ & _ & ->).
    reflexivity. }
  destruct (send_rms_cases now packet c) as [(nb & s & ttl & Hnb & Hc)|(p' & _ & Hc)];
    fold c' in Hc; fold me in Hc.
  - split; [|split; [|split]]; [| |reflexivity|exact Hb].
    + intros nb' p'' Hs. unfold tx. rewrite Hc. cbn. split; [reflexivity | lia].
    + intros p'' Hs. rewrite Hc in Hs. cbn in Hs.
      apply app_inj_tail in Hs as [_ Hs]. discriminate.
  - split; [|split; [|split]]; [| |reflexivity|exact Hb].
    + intros nb' p'' Hs. rewrite Hc in Hs. cbn in Hs.
      apply app_inj_tail in Hs as [_ Hs]. discriminate.
    + intros p'' Hs. rewrite Hb. unfold tx. rewrite Hc. cbn. done.
Qed.

(** ** Data handling *)

Lemma named_sink_spec packet n :
  (Node.is_sink n && bool_decide (Pkt.sink_id packet = Some (Node.id n))) = true
  ↔ named_sink packet n.
Proof. unfold named_sink. rewrite andb_true_iff, bool_decide_eq_true. tauto. Qed.

(** The four ways [_handle_rms] can end. *)
Lemma handle_rms_cases now p c :
  let c' := Node._handle_rms now p c in
  (rms_key p ∈ Node.seen_rms (Node.self c) ∧ c' = c)
  ∨ ((rms_key p ∉ Node.seen_rms (Node.self c))
     ∧ ((named_sink p (Node.self c)
         ∧ c' = Node.on_logger
                  (Logger.log_event now Logger.EvRMS_DEL (Pkt.src p) (Node.id (Node.self c)))
                  (Node.on_logger
                     (Logger.record_data_delivered (now - Pkt.timestamp p)%Q (Pkt.hop_count p))
                     (marked (rms_key p) c)))
        ∨ (¬ named_sink p (Node.self c) ∧ Pkt.hop_count p > 1
           ∧ c' = Node._send_rms now (Pkt.set_hop_count (Pkt.hop_count p - 1) p)
                                 (marked (rms_key p) c))
        ∨ (¬ named_sink p (Node.self c) ∧ Pkt.hop_count p ≤ 1
           ∧ c' = marked (rms_key p) c))).
Proof.
  intros c'. subst c'. unfold Node._handle_rms. fold (rms_key p).
  destruct (decide (rms_key p ∈ Node.seen_rms (Node.self c))) as [Hin|Hnin]; [by left|].
  right. split; [done|]. fold (marked (rms_key p) c).
  change (Node.is_sink (Node.self (marked (rms_key p) c))) with (Node.is_sink (Node.self c)).
  change (Node.id (Node.self (marked (rms_key p) c))) with (Node.id (Node.self c)).
  destruct (Node.is_sink (Node.self c) && bool_decide _) eqn:E.
  - apply named_sink_spec in E. by left.
  - assert (¬ named_sink p (Node.self c)) as Hns.
    { intros H. apply named_sink_spec in H. congruence. }
    right. destruct (Pkt.hop_count p >? 1) eqn:Eh.
    + apply gtb_gt in Eh. by left.
    + right. split; [done|]. split; [|done].
      destruct (Z.gtb_spec (Pkt.hop_count p) 1); [congruence | lia].
Qed.

Lemma forwarded_empty_table now p c :
  Node.routing_table (Node.self c) = [] →
  match forwarded now p c with
  | Some p' => Pkt.hop_count p > 1 ∧ Pkt.hop_count p' = Pkt.hop_count p - 1
  | None => True
  end.
Proof.
  intros Hrt. unfold forwarded.
  destruct (handle_rms_cases now p (Node.mk_ctx (Node.self c) (Node.logger c) []))
    as [[_ ->]|[_ [[_ ->]|[(_ & Hh & ->)|(_ & _ & ->)]]]]; cbn; try done.
  unfold Node._send_rms. cbn. rewrite Hrt. cbn. split; [done|reflexivity].
Qed.

Lemma relay_bound now cs : ∀ p,
  Forall (fun c => Node.routing_table (Node.self c) = []) cs →
  (1 ≤ length cs)%nat →
  Pkt.hop_count p ≤ Z.of_nat (length cs) →
  relay now p cs = None.
Proof.
  induction cs as [|c cs IH]; intros p Hall Hlen Hhop; simpl in *; [lia|].
  apply Forall_cons in Hall as [Hc Hall].
  pose proof (forwarded_empty_table now p c Hc) as Hf.
  destruct (forwarded now p c) as [p'|]; [|done].
  destruct Hf as [Hgt Heq]. apply IH; [done| |lia].
  destruct cs; simpl in *; lia.
Qed.

(** * The neighbour graph *)

Lemma same_protocol_refl n : same_protocol n n.
Proof. by repeat split. Qed.

Lemma same_protocol_trans n1 n2 n3 :
  same_protocol n1 n2 → same_protocol n2 n3 → same_protocol n1 n3.
Proof.
  unfold same_protocol. intros H1 H2.
  destruct H1 as (?&?&?&?&?&?&?&?&?), H2 as (?&?&?&?&?&?&?&?&?).
  repeat split; congruence.
Qed.

Lemma same_place_refl n : same_place n n.
Proof. split; [apply same_protocol_refl | done]. Qed.

Lemma same_place_trans n1 n2 n3 :
  same_place n1 n2 → same_place n2 n3 → same_place n1 n3.
Proof.
  intros [H1 [? ?]] [H2 [? ?]].
  split; [by eapply same_protocol_trans | split; congruence].
Qed.

Lemma same_place_add_neighbor o n : same_place n (Engine.add_neighbor o n).
Proof. by repeat split. Qed.

Lemma same_place_clear n : same_place n (Node.set_neighbors [] n).
Proof. by repeat split. Qed.

(** Lists of nodes that agree position by position. *)
Lemma Forall2_same_place_refl ns : Forall2 same_place ns ns.
Proof. induction ns; constructor; [apply same_place_refl | done]. Qed.

Lemma Forall2_same_place_trans ns1 ns2 ns3 :
  Forall2 same_place ns1 ns2 → Forall2 same_place ns2 ns3 → Forall2 same_place ns1 ns3.
Proof.
  intros H. revert ns3. induction H; intros ns3 H3; inversion H3; subst; constructor.
  - by eapply same_place_trans.
  - by apply IHForall2.
Qed.

Lemma Forall2_same_place_alter ns i f :
  (∀ n, same_place n (f n)) → Forall2 same_place ns (alter f i ns).
Proof.
  intros Hf. revert i. induction ns as [|n ns IH]; intros [|i]; simpl;
    try constructor; auto using same_place_refl, Forall2_same_place_refl.
  apply IH.
Qed.

Lemma link_same_place ns ij : Forall2 same_place ns (Engine.link ns ij).
Proof.
  unfold Engine.link.
  destruct (ns !! ij.1) as [node|]; [|apply Forall2_same_place_refl].
  destruct (ns !! ij.2) as [other|]; [|apply Forall2_same_place_refl].
  destruct (Engine.in_range node other); [|apply Forall2_same_place_refl].
  eapply Forall2_same_place_trans; apply Forall2_same_place_alter;
    intros n; apply same_place_add_neighbor.
Qed.

Lemma fold_link_same_place ps ns : Forall2 same_place ns (fold_left Engine.link ps ns).
Proof.
  revert ns. induction ps as [|ij ps IH]; intros ns; simpl.
  - apply Forall2_same_place_refl.
  - eapply Forall2_same_place_trans; [apply link_same_place | apply IH].
Qed.

Lemma update_neighbors_same_place ns :
  Forall2 same_place ns (Engine.update_neighbors_nodes ns).
Proof.
  unfold Engine.update_neighbors_nodes.
  eapply Forall2_same_place_trans with (ns2 := map (Node.set_neighbors []) ns).
  - induction ns; simpl; constructor; [apply same_place_clear | done].
  - generalize (map (Node.set_neighbors []) ns) as ms.
    generalize (length ns) as len. intros len.
    induction (seq 0 len) as [|i js IH]; intros ms; simpl.
    + apply Forall2_same_place_refl.
    + eapply Forall2_same_place_trans; [apply fold_link_same_place | apply IH].
Qed.

Lemma Qle_bool_true (a b : Q) : Qle_bool a b = true ↔ (a <= b)%Q.
Proof. apply Qle_bool_iff. Qed.

Lemma Qlt_bool_true (a b : Q) : Qlt_bool a b = true ↔ (a < b)%Q.
Proof.
  unfold Qlt_bool. rewrite negb_true_iff, <- not_true_iff_false, Qle_bool_iff.
  split; [apply Qnot_le_lt | apply Qlt_not_le].
Qed.

Lemma in_range_spec a b : Engine.in_range a b = true ↔ within_range a b.
Proof.
  unfold Engine.in_range, hypot_le, within_range.
  rewrite andb_true_iff, !Qle_bool_true. unfold Node.COMM_RANGE.
  split; [tauto | intros H; split; [lra | done]].
Qed.

Lemma within_range_sym a b : within_range a b ↔ within_range b a.
Proof. unfold within_range, sq. split; intros H; nra. Qed.

Lemma in_range_sym a b : Engine.in_range a b = Engine.in_range b a.
Proof.
  apply eq_true_iff_eq. rewrite !in_range_spec. apply within_range_sym.
Qed.

Lemma same_place_lookup (ns ns' : list Node.t) (k : nat) n :
  Forall2 same_place ns ns' → ns !! k = Some n →
  ∃ n', ns' !! k = Some n' ∧ same_place n n'.
Proof. intros H Hk. by eapply Forall2_lookup_l in H. Qed.

Lemma same_place_lookup_None (ns ns' : list Node.t) (k : nat) :
  Forall2 same_place ns ns' → ns !! k = None → ns' !! k = None.
Proof.
  intros H Hk. apply lookup_ge_None. apply lookup_ge_None in Hk.
  by rewrite <- (Forall2_length _ _ _ H).
Qed.

Lemma in_range_same_place a a' b b' :
  same_place a a' → same_place b b' → Engine.in_range a' b' = Engine.in_range a b.
Proof.
  intros (_ & Hx & Hy) (_ & Hx' & Hy'). unfold Engine.in_range.
  by rewrite Hx, Hy, Hx', Hy'.
Qed.

Lemma link_adds_same_place ns ns' k ij :
  Forall2 same_place ns ns' → link_adds ns' k ij = link_adds ns k ij.
Proof.
  intros H. unfold link_adds.
  destruct (ns !! ij.1) as [a|] eqn:Ea.
  - destruct (same_place_lookup _ _ _ _ H Ea) as (a' & -> & Ha).
    destruct (ns !! ij.2) as [b|] eqn:Eb.
    + destruct (same_place_lookup _ _ _ _ H Eb) as (b' & -> & Hb).
      rewrite (in_range_same_place _ _ _ _ Ha Hb).
      destruct Ha as [(-> & _) _], Hb as [(-> & _) _]. done.
    + by rewrite (same_place_lookup_None _ _ _ H Eb).
  - by rewrite (same_place_lookup_None _ _ _ H Ea).
Qed.

Lemma alter_add_neighbor_lookup (ns : list Node.t) (i k : nat) o n :
  ns !! k = Some n →
  ∃ n', alter (Engine.add_neighbor o) i ns !! k = Some n'
        ∧ Node.neighbors n' = Node.neighbors n ++ (if decide (k = i) then [o] else []).
Proof.
  intros Hk. destruct (decide (k = i)) as [->|Hne].
  - rewrite list_lookup_alter_eq, Hk. by eexists.
  - rewrite list_lookup_alter_ne by done. rewrite Hk, app_nil_r. by eexists.
Qed.

Lemma link_lookup (ns : list Node.t) ij (k : nat) n :
  ns !! k = Some n →
  ∃ n', Engine.link ns ij !! k = Some n'
        ∧ Node.neighbors n' = Node.neighbors n ++ link_adds ns k ij.
Proof.
  intros Hk. unfold Engine.link, link_adds.
  destruct (ns !! ij.1) as [node|]; [|rewrite app_nil_r; eauto].
  destruct (ns !! ij.2) as [other|]; [|rewrite app_nil_r; eauto].
  destruct (Engine.in_range node other); [|rewrite app_nil_r; eauto].
  destruct (alter_add_neighbor_lookup ns ij.1 k (Node.id other) n Hk) as (n1 & H1 & Hn1).
  destruct (alter_add_neighbor_lookup _ ij.2 k (Node.id node) n1 H1) as (n2 & H2 & Hn2).
  exists n2. split; [done|]. by rewrite Hn2, Hn1, <- app_assoc.
Qed.

Lemma fold_link_lookup ps : ∀ (ns : list Node.t) (k : nat) n,
  ns !! k = Some n →
  ∃ n', fold_left Engine.link ps ns !! k = Some n'
        ∧ Node.neighbors n' = Node.neighbors n ++ flat_map (link_adds ns k) ps.
Proof.
  induction ps as [|ij ps IH]; intros ns k n Hk; simpl.
  - rewrite app_nil_r. eauto.
  - destruct (link_lookup ns ij k n Hk) as (n1 & H1 & Hn1).
    destruct (IH _ _ _ H1) as (n2 & H2 & Hn2).
    exists n2. split; [done|]. rewrite Hn2, Hn1, <- app_assoc. f_equal. f_equal.
    apply flat_map_ext. intros ij'. apply link_adds_same_place, link_same_place.
Qed.

Lemma fold_inner_loop len js : ∀ ns,
  fold_left (Engine.inner_loop len) js ns
  = fold_left Engine.link
      (flat_map (fun i => map (pair i) (seq (S i) (len - S i))) js) ns.
Proof.
  induction js as [|i js IH]; intros ns; simpl; [done|].
  rewrite fold_left_app. apply IH.
Qed.

Lemma update_neighbors_lookup (ns : list Node.t) (k : nat) n :
  ns !! k = Some n →
  ∃ n', Engine.update_neighbors_nodes ns !! k = Some n'
        ∧ Node.neighbors n' = flat_map (link_adds ns k) (all_pairs (length ns)).
Proof.
  intros Hk. unfold Engine.update_neighbors_nodes. rewrite fold_inner_loop.
  assert (map (Node.set_neighbors []) ns !! k = Some (Node.set_neighbors [] n)) as Hc.
  { by rewrite list_lookup_fmap, Hk. }
  destruct (fold_link_lookup (all_pairs (length ns)) _ _ _ Hc) as (n' & H' & Hn'). exists n'.
  split; [exact H'|]. rewrite Hn'. simpl. apply flat_map_ext. intros ij.
  apply link_adds_same_place.
  clear. induction ns; simpl; constructor; [apply same_place_clear | done].
Qed.

Lemma elem_of_all_pairs len i j : (i, j) ∈ all_pairs len ↔ (i < j < len)%nat.
Proof.
  unfold all_pairs. rewrite list_elem_of_In, in_flat_map. split.
  - intros (i' & Hi' & Hin). apply in_map_iff in Hin as (j' & [= <- <-] & Hj').
    apply in_seq in Hi', Hj'. lia.
  - intros H. exists i. split; [apply in_seq; lia|].
    apply in_map_iff. exists j. split; [done | apply in_seq; lia].
Qed.

(** The neighbour list of the node at position [k] after a recomputation:
    the ids of the other nodes within range. *)
Lemma update_neighbors_elem (ns : list Node.t) (k : nat) n n' z :
  ns !! k = Some n → Engine.update_neighbors_nodes ns !! k = Some n' →
  z ∈ Node.neighbors n' ↔
  ∃ m o, m ≠ k ∧ ns !! m = Some o ∧ Node.id o = z ∧ within_range n o.
Proof.
  intros Hk Hk'. destruct (update_neighbors_lookup ns k n Hk) as (n1 & H1 & Hn1).
  rewrite Hk' in H1. injection H1 as <-. rewrite Hn1.
  rewrite list_elem_of_In, in_flat_map. split.
  - intros ([i j] & Hin & Hz). apply list_elem_of_In, elem_of_all_pairs in Hin.
    unfold link_adds in Hz. simpl in Hz.
    destruct (ns !! i) as [a|] eqn:Ea; [|done].
    destruct (ns !! j) as [b|] eqn:Eb; [|done].
    destruct (Engine.in_range a b) eqn:Er; [|done]. apply in_range_spec in Er.
    apply in_app_or in Hz as [Hz|Hz].
    + destruct (decide (k = i)) as [->|]; [|done]. destruct Hz as [<-|[]].
      rewrite Ea in Hk. injection Hk as <-. exists j, b. split; [lia | done].
    + destruct (decide (k = j)) as [->|]; [|done]. destruct Hz as [<-|[]].
      rewrite Eb in Hk. injection Hk as <-. exists i, a.
      split; [lia|]. split; [done|]. split; [done|]. by apply within_range_sym.
  - intros (m & o & Hne & Hm & <- & Hr).
    assert (k < length ns ∧ m < length ns)%nat as [Hlk Hlm].
    { split; eapply lookup_lt_Some; eauto. }
    destruct (decide (k < m)%nat) as [Hlt|Hge].
    + exists (k, m). split; [apply list_elem_of_In, elem_of_all_pairs; lia|].
      unfold link_adds. simpl. rewrite Hk, Hm.
      apply in_range_spec in Hr. rewrite Hr. rewrite decide_True by done.
      simpl. by left.
    + exists (m, k). split; [apply list_elem_of_In, elem_of_all_pairs; lia|].
      unfold link_adds. simpl. rewrite Hk, Hm.
      apply within_range_sym, in_range_spec in Hr. rewrite Hr.
      rewrite decide_False by lia. rewrite decide_True by done. simpl. by left.
Qed.

(** C5. After [update_neighbors], for two distinct nodes a and b: a is in
    b's neighbour list exactly when their Euclidean distance is at most
    [COMM_RANGE]; a is in b's list exactly when b is in a's; and no node is
    in its own list.  (Neighbour lists hold node ids, and ids are list
    positions.) *)
Theorem update_neighbors_graph (ns : list Node.t) (a b : nat)
    (na nb na' nb' : Node.t) :
  ids_are_positions ns →
  ns !! a = Some na → ns !! b = Some nb →
  Engine.update_neighbors_nodes ns !! a = Some na' →
  Engine.update_neighbors_nodes ns !! b = Some nb' →
  (a ≠ b →
     (Node.id na ∈ Node.neighbors nb' ↔ within_range na nb)
     ∧ (Node.id na ∈ Node.neighbors nb' ↔ Node.id nb ∈ Node.neighbors na'))
  ∧ Node.id na ∉ Node.neighbors na'.
Proof.
  intros Hids Ha Hb Ha' Hb'.
  assert (Hin : ∀ (i j : nat) ni nj nj',
             ns !! i = Some ni → ns !! j = Some nj →
             Engine.update_neighbors_nodes ns !! j = Some nj' →
             Node.id ni ∈ Node.neighbors nj' ↔ i ≠ j ∧ within_range ni nj).
  { intros i j ni nj nj' Hi Hj Hj'.
    rewrite (update_neighbors_elem ns j nj nj' _ Hj Hj'). split.
    - intros (m & o & Hne & Hm & Hid & Hr).
      rewrite (Hids _ _ Hm), (Hids _ _ Hi) in Hid.
      assert (m = i) as -> by lia. rewrite Hi in Hm. injection Hm as <-.
      split; [done | by apply within_range_sym].
    - intros [Hne Hr]. exists i, ni.
      split; [done|]. split; [done|]. split; [done | by apply within_range_sym]. }
  split.
  - intros Hne. rewrite (Hin a b na nb nb' Ha Hb Hb'), (Hin b a nb na na' Hb Ha Ha').
    rewrite (within_range_sym nb na). assert (b ≠ a) by congruence. tauto.
  - rewrite (Hin a a na na na' Ha Ha Ha'). tauto.
Qed.

Lemma three_nodes_ids : ids_are_positions three_nodes.
Proof.
  intros i n H. unfold three_nodes in H.
  destruct i as [|[|[|i]]]; simpl in H; [injection H as <-; reflexivity ..|discriminate].
Qed.

Lemma update_neighbors_graph_witness :
  let n0 := Node.init 0 true false (0%Q, 0%Q) in
  let n1 := Node.init 1 false false (20%Q, 0%Q) in
  ((0 ≠ 1)%nat →
     (Node.id n0 ∈ Node.neighbors (Node.set_neighbors [0] n1) ↔ within_range n0 n1)
     ∧ (Node.id n0 ∈ Node.neighbors (Node.set_neighbors [0] n1)
        ↔ Node.id n1 ∈ Node.neighbors (Node.set_neighbors [1] n0)))
  ∧ Node.id n0 ∉ Node.neighbors (Node.set_neighbors [1] n0).
Proof.
  intros n0 n1.
  apply (update_neighbors_graph three_nodes 0 1 n0 n1
           (Node.set_neighbors [1] n0) (Node.set_neighbors [0] n1)).
  - exact three_nodes_ids.
  - reflexivity.
  - reflexivity.
  - vm_compute. reflexivity.
  - vm_compute. reflexivity.
Defined.

(** * Runs of the simulation *)

(** ** Time arithmetic *)

Lemma HOP_DELAY_pos : (0 < HOP_DELAY)%Q.
Proof. reflexivity. Qed.

Lemma TX_DELAY_nonneg : (0 <= Node.TX_DELAY)%Q.
Proof. discriminate. Qed.

Lemma RX_DELAY_nonneg : (0 <= Node.RX_DELAY)%Q.
Proof. discriminate. Qed.

Lemma delay_nonneg p : (0 <= Sim.delay p)%Q.
Proof. destruct p; simpl; discriminate. Qed.

Lemma hops_lt (a b : Z) :
  (inject_Z a * HOP_DELAY < inject_Z b * HOP_DELAY)%Q → a < b.
Proof.
  intros H. apply Qmult_lt_r in H; [|apply HOP_DELAY_pos].
  by rewrite <- Zlt_Qlt in H.
Qed.

Lemma inject_Z_succ (a : Z) : (inject_Z (a + 1) == inject_Z a + 1)%Q.
Proof. by rewrite inject_Z_plus. Qed.

(** ** Weakening *)

Lemma in_flight_mono em em' due due' p :
  em ⊆ em' → (due == due')%Q → in_flight em due p → in_flight em' due' p.
Proof.
  intros Hsub Hd. destruct p as [s pk|s nb pk|i pk]; simpl; [| done |].
  - intros H Hb. destruct (H Hb) as (s' & T & ? & ? & ?).
    exists s', T. split; [done|]. split; [by apply Hsub|]. by rewrite <- Hd.
  - intros H Hb. destruct (H Hb) as (s' & T & ? & ? & ?).
    exists s', T. split; [done|]. split; [by apply Hsub|]. by rewrite <- Hd.
Qed.

Lemma route_ok_mono em em' now now' n k :
  em ⊆ em' → (now <= now')%Q → route_ok em now n k → route_ok em' now' n k.
Proof.
  intros Hsub Hle. unfold route_ok. destruct (Node.best_seq n !! k); [|done].
  intros (nh & p0 & s & T & ? & ? & ? & ?). exists nh, p0, s, T.
  split; [done|]. split; [done|]. split; [by apply Hsub|]. lra.
Qed.

Lemma route_ok_same_protocol em now n n' k :
  same_protocol n n' → route_ok em now n k → route_ok em now n' k.
Proof.
  intros (_ & _ & _ & Hrt & Hbs & _). unfold route_ok. by rewrite Hrt, Hbs.
Qed.

(** ** Methods that leave the routing memory alone *)

Ltac solve_quiet := repeat split; cbn; first [done | lia | set_solver].

Lemma quiet_refl n : quiet n n.
Proof. solve_quiet. Qed.

Lemma quiet_trans n1 n2 n3 : quiet n1 n2 → quiet n2 n3 → quiet n1 n3.
Proof.
  intros (?&?&?&?&?) (?&?&?&?&?).
  repeat split; [congruence .. | lia | set_solver].
Qed.

Lemma carries_data_in_flight em due p : carries_data p → in_flight em due p.
Proof. destruct p; simpl; intros H; [|done|]; intros Hb; congruence. Qed.

Lemma quiet_local_ok em due n n' ps :
  (∀ k, route_ok em due n k) → quiet n n' → Forall carries_data ps →
  local_ok em due n n' ps.
Proof.
  intros Hr (Hid & Hrt & Hbs & Hsq & Hsn) Hps.
  split; [done | done | | | | done].
  - intros k. specialize (Hr k). unfold route_ok in *. by rewrite Hrt, Hbs.
  - eapply Forall_impl; [exact Hps|]. intros p. apply carries_data_in_flight.
  - intros k q Hq. exists q. rewrite Hbs. split; [done | lia].
Qed.

Lemma send_rms_quiet now p c :
  let c' := Node._send_rms now p c in
  quiet (Node.self c) (Node.self c')
  ∧ ∃ g, Node.spawned c' = Node.spawned c ++ [g]
         ∧ (Pkt.pkt_type p = Pkt.RMS → carries_data g).
Proof.
  intros c'.
  destruct (send_rms_cases now p c) as [(nb & s & ttl & _ & Hc)|(p' & Hp' & Hc)];
    fold c' in Hc; rewrite Hc; cbn.
  - split; [solve_quiet|]. eexists. split; [done|]. done.
  - split; [apply quiet_refl|]. eexists. split; [done|].
    destruct Hp' as [->|(s & ttl & ->)]; done.
Qed.

Lemma handle_rms_quiet now p c :
  Pkt.pkt_type p = Pkt.RMS →
  let c' := Node._handle_rms now p c in
  quiet (Node.self c) (Node.self c')
  ∧ ∃ gs, Node.spawned c' = Node.spawned c ++ gs ∧ Forall carries_data gs.
Proof.
  intros Hp c'.
  assert (quiet (Node.self c) (Node.self (marked (rms_key p) c))) as Hm.
  { solve_quiet. }
  destruct (handle_rms_cases now p c)
    as [[_ Hc]|[_ [[_ Hc]|[(_ & _ & Hc)|(_ & _ & Hc)]]]]; fold c' in Hc; rewrite Hc.
  - split; [apply quiet_refl|]. exists []. by rewrite app_nil_r.
  - split; [exact Hm|]. exists []. by rewrite app_nil_r.
  - destruct (send_rms_quiet now (Pkt.set_hop_count (Pkt.hop_count p - 1) p)
                (marked (rms_key p) c)) as (Hq & g & Hs & Hg).
    split; [by eapply quiet_trans|]. exists [g]. split; [exact Hs|].
    constructor; [by apply Hg | done].
  - split; [exact Hm|]. exists []. by rewrite app_nil_r.
Qed.

(** ** What each method does under the discipline *)

Section local.
Context (em : emissions) (due : Q) (n : Node.t) (lg : Logger.t).
Hypothesis routes : ∀ k, route_ok em due n k.

Let c0 := Node.mk_ctx n lg [].

Lemma broadcast_ok s p :
  in_flight em due (Broadcast s p) →
  let c' := Node._broadcast p c0 in
  local_ok em due n (Node.self c') (Node.spawned c').
Proof.
  intros Hf c'. subst c'. unfold Node._broadcast.
  destruct (broadcast_loop_spec (Node.neighbors (Node.self c0)) p c0) as (Hs & _ & Hn).
  rewrite Hs, Hn. subst c0. cbn [Node.self Node.spawned app].
  split; [done | done | exact routes | | by eauto with lia | done].
  apply Forall_map, Forall_forall. intros nb _. simpl. intros Hb.
  destruct (Hf Hb) as (s' & T & Hsk & Hem & Hd).
  exists s', T. split; [done|]. split; [done|]. simpl in Hd.
  rewrite inject_Z_succ. unfold HOP_DELAY in *. lra.
Qed.

Lemma deliver_ok s nb p :
  in_flight em due (Deliver s nb p) →
  let c' := Node._deliver nb p c0 in
  local_ok em due n (Node.self c') (Node.spawned c').
Proof.
  intros Hf c'. subst c' c0. cbn.
  split; [done | done | exact routes | | by eauto with lia | done].
  constructor; [|done]. simpl. simpl in Hf. by rewrite Hf.
Qed.

Lemma receive_rms_ok p :
  Pkt.pkt_type p = Pkt.RMS →
  let c' := Node.receive due p c0 in
  local_ok em due n (Node.self c') (Node.spawned c').
Proof.
  intros Hp c'. subst c'. unfold Node.receive. rewrite Hp.
  destruct (handle_rms_quiet due p
              (Node.on_self (fun n => Node.set_rx_count (Node.rx_count n + 1) n) c0) Hp)
    as (Hq & gs & Hs & Hgs).
  apply quiet_local_ok; [exact routes | |].
  - eapply quiet_trans; [|exact Hq]. subst c0. solve_quiet.
  - rewrite Hs. subst c0. by cbn.
Qed.

Hypothesis mono : ∀ s q1 T1 q2 T2, (s, q1, T1) ∈ em → (s, q2, T2) ∈ em →
                  (q1 < q2 → (T1 < T2)%Q) ∧ (q1 = q2 → (T1 == T2)%Q).

(** The heart of the matter: a beacon that arrives on schedule at a node
    whose record is on schedule is rejected unless it is fresher. *)
Lemma on_schedule_fresher i p q0 :
  Pkt.pkt_type p = Pkt.BOM →
  in_flight em due (Receive i p) →
  Node.best_seq n !! Pkt.sink_id p = Some q0 →
  Node.bom_accepts p n = true →
  q0 < Pkt.seq p.
Proof.
  intros Hb Hf Hq Hacc. destruct (Hf Hb) as (s & T & Hs & Hem & Hd).
  pose proof (routes (Pkt.sink_id p)) as Hr. unfold route_ok in Hr. rewrite Hq in Hr.
  destruct Hr as (nh & p0 & s' & T0 & Hget & Hs' & Hem0 & Hle).
  assert (s' = s) as -> by congruence.
  apply bom_accepts_spec in Hacc. unfold fresher_or_shorter in Hacc.
  rewrite Hq, Hget in Hacc. simpl in Hacc. unfold Node.hop_distance in Hacc. simpl in Hacc.
  destruct Hacc as [Hgt|Hlt]; [lia|].
  destruct (Z.lt_trichotomy (Pkt.seq p) q0) as [Hlt'|[Heq|Hgt]]; [| |done].
  - destruct (mono _ _ _ _ _ Hem Hem0) as [Hm _]. specialize (Hm Hlt').
    assert (inject_Z p0 * HOP_DELAY < inject_Z (Pkt.hop_count p + 1) * HOP_DELAY)%Q as H
      by lra.
    apply hops_lt in H. lia.
  - destruct (mono _ _ _ _ _ Hem Hem0) as [_ Hm]. specialize (Hm Heq).
    assert (inject_Z p0 * HOP_DELAY <= inject_Z (Pkt.hop_count p + 1) * HOP_DELAY)%Q as H
      by lra.
    apply Qmult_le_r in H; [|apply HOP_DELAY_pos]. rewrite <- Zle_Qle in H. lia.
Qed.

Lemma receive_bom_ok i p :
  Pkt.pkt_type p = Pkt.BOM →
  in_flight em due (Receive i p) →
  let c' := Node.receive due p c0 in
  local_ok em due n (Node.self c') (Node.spawned c').
Proof.
  intros Hp Hf c'. subst c'. unfold Node.receive. rewrite Hp. unfold Node._handle_bom.
  set (c1 := Node.on_self _ c0).
  change (Node.bom_accepts p (Node.self c1)) with (Node.bom_accepts p n).
  destruct (Node.bom_accepts p n) eqn:Hacc.
  - destruct (Hf Hp) as (s & T & Hs & Hem & Hd). subst c1 c0. cbn.
    split; cbn; [done | done | | | | done].
    + intros k. unfold route_ok. cbn. destruct (decide (k = Pkt.sink_id p)) as [->|Hne].
      * rewrite lookup_insert_eq. exists (Pkt.src p), (Pkt.hop_count p + 1), s, T.
        split; [apply dict_get_set_eq|]. split; [done|]. split; [done|]. lra.
      * rewrite lookup_insert_ne by done. rewrite dict_get_set_ne by done. apply routes.
    + constructor; [|done]. simpl. intros _. exists s, T.
      split; [done|]. split; [done|]. lra.
    + intros k q Hq. destruct (decide (k = Pkt.sink_id p)) as [->|Hne].
      * rewrite lookup_insert_eq. exists (Pkt.seq p). split; [done|].
        pose proof (on_schedule_fresher i p q Hp Hf Hq Hacc). lia.
      * rewrite lookup_insert_ne by done. exists q. split; [done | lia].
  - apply quiet_local_ok; [exact routes | subst c1 c0; solve_quiet | done].
Qed.

(** [receive] never lowers the best sequence of a node on schedule. *)
Lemma receive_ok i p :
  in_flight em due (Receive i p) →
  let c' := Node.receive due p c0 in
  local_ok em due n (Node.self c') (Node.spawned c').
Proof.
  intros Hf. destruct (Pkt.pkt_type p) eqn:Hp.
  - by apply (receive_bom_ok i).
  - by apply receive_rms_ok.
Qed.

Lemma generate_rms_ok :
  let c' := NodeTimers._generate_rms_process due c0 in
  local_ok em due n (Node.self c') (Node.spawned c').
Proof.
  intros c'. subst c'. unfold NodeTimers._generate_rms_process.
  set (c1 := Node.on_logger _ (Node.on_logger _ (Node.on_self _ c0))).
  set (rms := Pkt.init _ _ _ _ _ _ _).
  destruct (send_rms_quiet due rms c1) as (Hq & g & Hs & Hg).
  apply quiet_local_ok; [exact routes | |].
  - eapply quiet_trans; [|exact Hq]. subst c1 c0. solve_quiet.
  - rewrite Hs. subst c1 c0. cbn. constructor; [by apply Hg | done].
Qed.

Lemma inject_ok ty dst :
  let c' := Gui.inject_packet due ty dst c0 in
  local_ok em due n (Node.self c') (Node.spawned c').
Proof.
  intros c'. subst c' c0. unfold Gui.inject_packet.
  apply quiet_local_ok; [exact routes | |]; destruct ty; cbn.
  - solve_quiet.
  - solve_quiet.
  - by constructor.
  - by constructor.
Qed.

End local.

Lemma sink_bom_ok em due n lg :
  (∀ k, route_ok em due n k) →
  let c' := NodeTimers._sink_bom_process due (Node.mk_ctx n lg []) in
  local_ok ((Node.id n, Node.seq_num n + 1, due) :: em) due n
           (Node.self c') (Node.spawned c').
Proof.
  intros Hr c'. subst c'. cbn.
  split; cbn; [done | lia | | | by eauto with lia | done].
  - intros k. eapply route_ok_mono; [| |apply (Hr k)]; [set_solver | lra].
  - constructor; [|done]. simpl. intros _. exists (Node.id n), due.
    split; [done|]. split; [set_solver|]. unfold inject_Z. lra.
Qed.

(** ** The discipline is kept by every step *)

Lemma node_map_Some e i n :
  Engine.node_map e i = Some n ↔ 0 ≤ i ∧ Engine.nodes e !! Z.to_nat i = Some n.
Proof.
  unfold Engine.node_map. destruct (Z.ltb_spec i 0); split.
  - discriminate.
  - intros [? _]. lia.
  - by split.
  - by intros [_ ?].
Qed.

Lemma with_node_spec e i f :
  match Engine.node_map e i with
  | Some n =>
      let c' := f (Node.mk_ctx n (Engine.logger e) []) in
      Sim.with_node e i f =
      (Engine.set_logger (Node.logger c')
         (Engine.set_nodes (<[Z.to_nat i := Node.self c']> (Engine.nodes e)) e),
       Node.spawned c')
  | None => Sim.with_node e i f = (e, [])
  end.
Proof. unfold Sim.with_node. by destruct (Engine.node_map e i). Qed.

Lemma ids_insert (ns : list Node.t) (j : nat) n n' :
  ids_are_positions ns → ns !! j = Some n → Node.id n' = Node.id n →
  ids_are_positions (<[j := n']> ns).
Proof.
  intros Hids Hj Hid i m Hm. destruct (decide (i = j)) as [->|Hne].
  - rewrite list_lookup_insert_eq in Hm by (by eapply lookup_lt_Some).
    injection Hm as <-. rewrite Hid. by apply Hids.
  - rewrite list_lookup_insert_ne in Hm by done. by apply Hids.
Qed.

Lemma entry_ok_later em now now' e :
  (now' <= e.1)%Q → entry_ok em now e → entry_ok em now' e.
Proof. intros Hle [_ H]. by split. Qed.

Lemma entry_ok_emit em now e s0 q0 T0 :
  (match e.2 with Sim.SinkBom s => s ≠ s0 | _ => True end) →
  entry_ok em now e → entry_ok ((s0, q0, T0) :: em) now e.
Proof.
  intros Hs [Hle H]. split; [done|]. destruct e as [due [p|s|s|s]]; simpl in *; try done.
  - eapply in_flight_mono; [| |exact H]; [set_solver | done].
  - intros q T Hin. apply elem_of_cons in Hin as [[= -> -> ->]|Hin]; [done|]. by eapply H.
Qed.

Lemma sink_timers_app q1 q2 : sink_timers (q1 ++ q2) = sink_timers q1 ++ sink_timers q2.
Proof. unfold sink_timers. apply omap_app. Qed.

Lemma sink_timers_schedule due ps : sink_timers (Sim.schedule due ps) = [].
Proof. induction ps; simpl; [done|]. exact IHps. Qed.

Lemma not_in_sink_timers q s :
  s ∉ sink_timers q → Forall (fun e => match e.2 with Sim.SinkBom s' => s' ≠ s | _ => True end) q.
Proof.
  induction q as [|[due tk] q IH]; intros H; constructor.
  - destruct tk as [p|s'|s'|s']; simpl; try done. intros ->. apply H.
    unfold sink_timers. simpl. set_solver.
  - apply IH. intros Hin. apply H. unfold sink_timers in *. simpl.
    destruct tk; simpl; set_solver.
Qed.

(** Taking the fired entry out of the queue. *)
Lemma delete_fired (q : list (Q * Sim.task)) (k : nat) due tk :
  q !! k = Some (due, tk) →
  q = take k q ++ (due, tk) :: drop (S k) q ∧ delete k q = take k q ++ drop (S k) q.
Proof.
  intros Hk. split; [by rewrite take_drop_middle | apply delete_take_drop].
Qed.

Lemma timers_after_delete q k due tk :
  q !! k = Some (due, tk) → NoDup (sink_timers q) →
  NoDup (sink_timers (delete k q))
  ∧ match tk with
    | Sim.SinkBom s => s ∉ sink_timers (delete k q)
    | _ => True
    end.
Proof.
  intros Hk Hnd. destruct (delete_fired q k due tk Hk) as [Hq Hd].
  rewrite Hd. rewrite Hq in Hnd. rewrite !sink_timers_app in *.
  destruct tk as [p|s|s|s]; unfold sink_timers at 2 in Hnd; simpl in Hnd;
    fold (sink_timers (drop (S k) q)) in Hnd; try done.
  apply NoDup_app in Hnd as (H1 & H2 & H3). apply NoDup_cons in H3 as [H3 H4].
  split.
  - apply NoDup_app. split; [done|]. split; [|done]. intros x Hx Hx'.
    apply (H2 x Hx). by right.
  - intros Hin. apply elem_of_app in Hin as [Hin|Hin]; [|done].
    apply (H2 s Hin). by left.
Qed.

Lemma queue_after_delete em now q k due tk :
  q !! k = Some (due, tk) → Sim.earliest due q → Forall (entry_ok em now) q →
  Forall (entry_ok em due) (delete k q).
Proof.
  intros Hk He Hq. destruct (delete_fired q k due tk Hk) as [Hq' Hd].
  assert (Forall (entry_ok em due) q) as H.
  { unfold Sim.earliest in He. rewrite Forall_forall in *. intros e Hin.
    eapply entry_ok_later; [by apply He | by apply Hq]. }
  rewrite Hq' in H. rewrite Hd. apply Forall_app in H as [H1 H2].
  apply Forall_cons in H2 as [_ H2]. by apply Forall_app.
Qed.

Lemma schedule_ok em due ps :
  Forall (fun p => in_flight em (due + Sim.delay p)%Q p) ps →
  Forall (entry_ok em due) (Sim.schedule due ps).
Proof.
  intros H. unfold Sim.schedule. apply Forall_map. eapply Forall_impl; [exact H|].
  intros p Hp. split; simpl; [|done]. pose proof (delay_nonneg p). lra.
Qed.

Lemma em_ok_update em now due (ns : list Node.t) (j : nat) n n' :
  em_ok em now ns → (now <= due)%Q → ns !! j = Some n →
  Node.seq_num n ≤ Node.seq_num n' →
  em_ok em due (<[j := n']> ns).
Proof.
  intros [Hpast Hmono] Hle Hj Hseq. split; [|done].
  intros s q T Hin. destruct (Hpast s q T Hin) as (HT & m & Hs & Hm & Hq).
  split; [lra|]. destruct (decide (Z.to_nat s = j)) as [<-|Hne].
  - exists n'. split; [done|].
    rewrite list_lookup_insert_eq by (by eapply lookup_lt_Some).
    split; [done|]. rewrite Hj in Hm. injection Hm as <-. lia.
  - exists m. rewrite list_lookup_insert_ne by done. done.
Qed.

Lemma em_ok_emit em now due (ns : list Node.t) s0 n n' :
  em_ok em now ns → (now <= due)%Q → 0 ≤ s0 → ns !! Z.to_nat s0 = Some n →
  Node.seq_num n' = Node.seq_num n + 1 →
  (∀ q T, (s0, q, T) ∈ em → (T < due)%Q) →
  em_ok ((s0, Node.seq_num n + 1, due) :: em) due (<[Z.to_nat s0 := n']> ns).
Proof.
  intros Hem Hle Hs0 Hn Hseq Hbefore.
  destruct (em_ok_update em now due ns (Z.to_nat s0) n n' Hem Hle Hn ltac:(lia))
    as [Hpast Hmono].
  assert (∀ q T, (s0, q, T) ∈ em → q ≤ Node.seq_num n) as Hold.
  { intros q T Hin. destruct Hem as [Hp _].
    destruct (Hp _ _ _ Hin) as (_ & m & _ & Hm & Hq). rewrite Hn in Hm.
    injection Hm as <-. done. }
  split.
  - intros s q T Hin. apply elem_of_cons in Hin as [Heq|Hin]; [|by apply Hpast].
    simplify_eq. split; [lra|]. exists n'. split; [done|].
    rewrite list_lookup_insert_eq by (by eapply lookup_lt_Some). split; [done | lia].
  - intros s q1 T1 q2 T2 H1 H2.
    apply elem_of_cons in H1 as [E1|H1];
      apply elem_of_cons in H2 as [E2|H2]; simplify_eq.
    + split; [lia | reflexivity].
    + pose proof (Hold _ _ H2). split; intros; lia.
    + pose proof (Hold _ _ H1). pose proof (Hbefore _ _ H1). split; [done | lia].
    + by apply (Hmono s q1 T1 q2 T2).
Qed.

Lemma routes_at em now due (ns : list Node.t) (j : nat) n :
  Forall (fun n => ∀ k, route_ok em now n k) ns → (now <= due)%Q → ns !! j = Some n →
  ∀ k, route_ok em due n k.
Proof.
  intros Hr Hle Hj k. rewrite Forall_lookup in Hr.
  eapply route_ok_mono; [done | exact Hle | by eapply Hr].
Qed.

(** A method ran on the node at position [j]; [rest] is what else is
    pending. *)
Lemma timed_method em em' (ns : list Node.t) now due (j : nat) n n' ps rest :
  ids_are_positions ns →
  Forall (fun n => ∀ k, route_ok em now n k) ns →
  (now <= due)%Q → em ⊆ em' → ns !! j = Some n →
  local_ok em' due n n' ps →
  em_ok em' due (<[j := n']> ns) →
  Forall (entry_ok em' due) rest → NoDup (sink_timers rest) →
  timed_parts em' (<[j := n']> ns) due (rest ++ Sim.schedule due ps).
Proof.
  intros Hids Hr Hle Hsub Hj Hlo Hem Hrest Hnd. split.
  - eapply ids_insert; [done | done | apply Hlo].
  - apply Forall_app. split; [done | apply schedule_ok, Hlo].
  - by rewrite sink_timers_app, sink_timers_schedule, app_nil_r.
  - done.
  - apply Forall_insert; [|apply Hlo].
    eapply Forall_impl; [exact Hr|]. intros m Hm k.
    eapply route_ok_mono; [exact Hsub | exact Hle | apply Hm].
Qed.

(** Nothing ran (the id names no node). *)
Lemma timed_idle em (ns : list Node.t) now due rest :
  ids_are_positions ns →
  Forall (fun n => ∀ k, route_ok em now n k) ns →
  em_ok em now ns →
  (now <= due)%Q →
  Forall (entry_ok em due) rest → NoDup (sink_timers rest) →
  timed_parts em ns due rest.
Proof.
  intros Hids Hr [Hpast Hmono] Hle Hrest Hnd. split; [done | done | done | |].
  - split; [|done]. intros s q T Hin. destruct (Hpast s q T Hin) as [HT Hn].
    split; [lra | done].
  - eapply Forall_impl; [exact Hr|]. intros m Hm k.
    eapply route_ok_mono; [done | exact Hle | apply Hm].
Qed.

(** Positions and neighbour lists do not matter. *)
Lemma timed_same_protocol em (ns ns' : list Node.t) now q :
  Forall2 same_protocol ns ns' → timed_parts em ns now q → timed_parts em ns' now q.
Proof.
  intros H2 [Hids Hq Hnd [Hpast Hmono] Hr]. split; [| done | done | |].
  - intros i n' Hi. destruct (Forall2_lookup_r _ _ _ _ _ H2 Hi) as (n & Hn & Hp).
    destruct Hp as (-> & _). by apply Hids.
  - split; [|done]. intros s q0 T Hin.
    destruct (Hpast s q0 T Hin) as (HT & n & Hs & Hn & Hq0). split; [done|].
    destruct (Forall2_lookup_l _ _ _ _ _ H2 Hn) as (n' & Hn' & Hp).
    exists n'. split; [done|]. split; [done|].
    destruct Hp as (_ & _ & _ & _ & _ & _ & -> & _). done.
  - rewrite Forall_lookup in *. intros i n' Hi k.
    destruct (Forall2_lookup_r _ _ _ _ _ H2 Hi) as (n & Hn & Hp).
    eapply route_ok_same_protocol; [exact Hp | by eapply Hr].
Qed.

Lemma node_grows_refl n : node_grows n n.
Proof. split; [|done]. intros k q Hq. exists q. split; [done | lia]. Qed.

Lemma node_grows_same_protocol n n' : same_protocol n n' → node_grows n n'.
Proof.
  intros (_ & _ & _ & _ & Hbs & Hsn & _). split; [|by rewrite Hsn].
  intros k q Hq. exists q. rewrite Hbs. split; [done | lia].
Qed.

Lemma grows_refl (ns : list Node.t) : Forall2 node_grows ns ns.
Proof. induction ns; constructor; [apply node_grows_refl | done]. Qed.

Lemma grows_insert (ns : list Node.t) (j : nat) n n' :
  ns !! j = Some n → node_grows n n' → Forall2 node_grows ns (<[j := n']> ns).
Proof.
  intros Hj Hg. apply Forall2_lookup. intros i. destruct (decide (i = j)) as [->|Hne].
  - rewrite list_lookup_insert_eq by (by eapply lookup_lt_Some). rewrite Hj.
    by constructor.
  - rewrite list_lookup_insert_ne by done. destruct (ns !! i); constructor.
    apply node_grows_refl.
Qed.

Lemma timed_with_node em em' st due i f rest e' ps :
  timed em st → (Sim.now st <= due)%Q → em ⊆ em' →
  Sim.with_node (Sim.engine st) i f = (e', ps) →
  (∀ n, Engine.node_map (Sim.engine st) i = Some n →
        let c' := f (Node.mk_ctx n (Engine.logger (Sim.engine st)) []) in
        local_ok em' due n (Node.self c') (Node.spawned c')
        ∧ em_ok em' due (<[Z.to_nat i := Node.self c']> (Engine.nodes (Sim.engine st)))) →
  (Engine.node_map (Sim.engine st) i = None → em' = em) →
  Forall (entry_ok em' due) rest → NoDup (sink_timers rest) →
  timed em' (Sim.mk e' due (rest ++ Sim.schedule due ps))
  ∧ Forall2 node_grows (Engine.nodes (Sim.engine st)) (Engine.nodes e').
Proof.
  intros [Hids Hq Hnd Hem Hr] Hle Hsub Hw Hsome Hnone Hrest Hnd'.
  pose proof (with_node_spec (Sim.engine st) i f) as Hspec.
  destruct (Engine.node_map (Sim.engine st) i) as [n|] eqn:Hn.
  - rewrite Hw in Hspec. injection Hspec as -> ->.
    destruct (Hsome n eq_refl) as [Hlo Hem'].
    apply node_map_Some in Hn as [Hi Hn]. unfold timed. cbn. split.
    + eapply timed_method; eauto.
    + eapply grows_insert; [done|]. split; apply Hlo.
  - rewrite Hw in Hspec. injection Hspec as -> ->.
    rewrite (Hnone eq_refl) in *. unfold timed. cbn. rewrite app_nil_r.
    split; [by eapply timed_idle | apply grows_refl].
Qed.

Lemma fired_entry em st k due tk :
  timed em st → Sim.queue st !! k = Some (due, tk) →
  entry_ok em (Sim.now st) (due, tk).
Proof. intros [_ Hq _ _ _] Hk. rewrite Forall_lookup in Hq. by eapply Hq. Qed.

(** Resuming a generator that runs a method of one node. *)
Lemma timed_resume_quiet em st k due tk i f timer e' ps :
  timed em st → Sim.queue st !! k = Some (due, tk) → Sim.earliest due (Sim.queue st) →
  Sim.with_node (Sim.engine st) i f = (e', ps) →
  (∀ n lg, (∀ k, route_ok em due n k) →
           let c' := f (Node.mk_ctx n lg []) in
           local_ok em due n (Node.self c') (Node.spawned c')) →
  Forall (entry_ok em due) timer → sink_timers timer = [] →
  (match tk with Sim.SinkBom _ => False | _ => True end) →
  timed em (Sim.mk e' due (delete k (Sim.queue st) ++ timer ++ Sim.schedule due ps))
  ∧ Forall2 node_grows (Engine.nodes (Sim.engine st)) (Engine.nodes e').
Proof.
  intros Ht Hk He Hw Hlo Htimer Hnot Htk.
  destruct (fired_entry em st k due tk Ht Hk) as [Hle _]. simpl in Hle.
  destruct Ht as [Hids Hq Hnd Hem Hr].
  destruct (timers_after_delete _ _ _ _ Hk Hnd) as [Hnd' _].
  rewrite app_assoc.
  eapply (timed_with_node em em st due i f); [by split | done | done | exact Hw | | done | |].
  - intros n Hn c'. apply node_map_Some in Hn as [Hi Hn].
    assert (local_ok em due n (Node.self c') (Node.spawned c')) as Hl.
    { apply Hlo. by eapply routes_at. }
    split; [exact Hl|]. eapply em_ok_update; [exact Hem | done | done | apply Hl].
  - apply Forall_app. split; [by eapply queue_after_delete | done].
  - by rewrite sink_timers_app, Hnot, app_nil_r.
Qed.

Lemma same_place_protocol ns ns' :
  Forall2 same_place ns ns' → Forall2 same_protocol ns ns'.
Proof. intros H. eapply Forall2_impl; [exact H|]. by intros n n' [? _]. Qed.

Lemma Forall2_same_protocol_trans ns1 ns2 ns3 :
  Forall2 same_protocol ns1 ns2 → Forall2 same_protocol ns2 ns3 →
  Forall2 same_protocol ns1 ns3.
Proof.
  intros H. revert ns3. induction H; intros ns3 H3; inversion H3; subst; constructor.
  - by eapply same_protocol_trans.
  - by apply IHForall2.
Qed.

Lemma mobility_same_protocol e i cs :
  Forall2 same_protocol (Engine.nodes e) (Engine.nodes (Sim._mobility_process e i cs)).
Proof.
  unfold Sim._mobility_process. destruct (Engine.node_map e i) as [n|] eqn:Hn.
  - apply node_map_Some in Hn as [Hi Hn]. cbn.
    eapply Forall2_same_protocol_trans;
      [|apply same_place_protocol, update_neighbors_same_place].
    apply Forall2_lookup. intros j. destruct (decide (j = Z.to_nat i)) as [->|Hne].
    + rewrite list_lookup_insert_eq by (by eapply lookup_lt_Some). rewrite Hn.
      constructor. by repeat split.
    + rewrite list_lookup_insert_ne by done. destruct (Engine.nodes e !! j); constructor.
      apply same_protocol_refl.
  - apply Forall2_lookup. intros j. destruct (Engine.nodes e !! j); constructor.
    apply same_protocol_refl.
Qed.

(** Processing a pending timeout with the smallest time keeps the
    discipline; a sink's beacon timer adds an emission. *)
Lemma timed_fire em st k d due tk :
  timed em st → Sim.queue st !! k = Some (due, tk) →
  Sim.earliest due (Sim.queue st) → (0 <= Rng.expo d)%Q →
  ∃ em', em ⊆ em' ∧ timed em' (Sim.fire k d st)
         ∧ Forall2 node_grows (Engine.nodes (Sim.engine st))
                   (Engine.nodes (Sim.engine (Sim.fire k d st))).
Proof.
  intros Ht Hk He Hd. unfold Sim.fire. rewrite Hk.
  pose proof (fired_entry em st k due tk Ht Hk) as [Hle Hfl]. simpl in Hle, Hfl.
  destruct tk as [[s p|s nb p|i p]|s|s|s]; cbn [Sim.resume].
  - destruct (Sim.with_node _ _ _) as [e' ps] eqn:Hw. exists em. split; [done|].
    apply (timed_resume_quiet em st k due (Sim.Run (Broadcast s p)) s (Node._broadcast p) [] e' ps); try done.
    intros n lg Hr. by apply (broadcast_ok em due n lg Hr s p).
  - destruct (Sim.with_node _ _ _) as [e' ps] eqn:Hw. exists em. split; [done|].
    apply (timed_resume_quiet em st k due (Sim.Run (Deliver s nb p)) s (Node._deliver nb p) [] e' ps); try done.
    intros n lg Hr. by apply (deliver_ok em due n lg Hr s nb p).
  - destruct (Sim.with_node _ _ _) as [e' ps] eqn:Hw. exists em. split; [done|].
    apply (timed_resume_quiet em st k due (Sim.Run (Receive i p)) i (Node.receive due p) [] e' ps); try done.
    intros n lg Hr. destruct Ht as [_ _ _ [_ Hmono] _].
    exact (receive_ok em due n lg Hr Hmono i p Hfl).
  - destruct (Sim.with_node _ _ _) as [e' ps] eqn:Hw.
    destruct Ht as [Hids Hq Hnd Hem Hr].
    destruct (timers_after_delete _ _ _ _ Hk Hnd) as [Hnd' Hnot].
    pose proof (queue_after_delete em _ _ _ _ _ Hk He Hq) as Hq'.
    change (?a ++ ?b :: ?c) with (a ++ [b] ++ c). rewrite app_assoc.
    destruct (Engine.node_map (Sim.engine st) s) as [n|] eqn:Hn.
    + exists ((s, Node.seq_num n + 1, due) :: em). split; [set_solver|].
      apply node_map_Some in Hn as Hn'. destruct Hn' as [Hs Hn'].
      assert (Node.id n = s) as Hid by (rewrite (Hids _ _ Hn'); lia).
      eapply (timed_with_node em _ st due s); [by split | done | set_solver | exact Hw | | | |].
      * intros n0 Hn0 c'. rewrite Hn in Hn0. injection Hn0 as <-. split.
        -- rewrite <- Hid at 1. apply sink_bom_ok. by eapply routes_at.
        -- eapply em_ok_emit; eauto.
      * intros Hnone. congruence.
      * apply Forall_app. split.
        -- eapply Forall_impl.
           ++ apply Forall_and. split; [exact Hq' | exact (not_in_sink_timers _ _ Hnot)].
           ++ intros e [H1 H2]. by apply entry_ok_emit.
        -- constructor; [|done]. split; simpl; [unfold Node.BOM_INTERVAL; lra|].
           intros q T Hin. apply elem_of_cons in Hin as [Heq|Hin].
           ++ simplify_eq. unfold Node.BOM_INTERVAL. lra.
           ++ pose proof (Hfl _ _ Hin). unfold Node.BOM_INTERVAL. lra.
      * rewrite sink_timers_app. apply NoDup_app. split; [done|]. split.
        -- intros x Hx Hx'. unfold sink_timers in Hx'. simpl in Hx'.
           apply list_elem_of_singleton in Hx'. by subst.
        -- unfold sink_timers. simpl. apply NoDup_singleton.
    + exists em. split; [done|].
      eapply (timed_with_node em em st due s); [by split | done | done | exact Hw | | done | |].
      * intros n Hn'. congruence.
      * apply Forall_app. split; [done|]. constructor; [|done].
        split; simpl; [unfold Node.BOM_INTERVAL; lra|].
        intros q T Hin. pose proof (Hfl _ _ Hin). unfold Node.BOM_INTERVAL. lra.
      * rewrite sink_timers_app. apply NoDup_app. split; [done|]. split.
        -- intros x Hx Hx'. unfold sink_timers in Hx'. simpl in Hx'.
           apply list_elem_of_singleton in Hx'. by subst.
        -- unfold sink_timers. simpl. apply NoDup_singleton.
  - destruct (Sim.with_node _ _ _) as [e' ps] eqn:Hw. exists em. split; [done|].
    change (?a ++ ?b :: ?c) with (a ++ [b] ++ c).
    apply (timed_resume_quiet em st k due (Sim.GenRms s) s (NodeTimers._generate_rms_process due)
             [((due + Rng.expo d)%Q, Sim.GenRms s)] e' ps); try done.
    + intros n lg Hr. by apply generate_rms_ok.
    + constructor; [|done]. split; simpl; [lra | done].
  - exists em. split; [done|].
    destruct Ht as [Hids Hq Hnd Hem Hr].
    destruct (timers_after_delete _ _ _ _ Hk Hnd) as [Hnd' _].
    pose proof (queue_after_delete em _ _ _ _ _ Hk He Hq) as Hq'.
    unfold timed. cbn. split.
    2: { eapply Forall2_impl; [apply mobility_same_protocol|].
         apply node_grows_same_protocol. }
    eapply timed_same_protocol; [apply mobility_same_protocol|].
    eapply timed_idle; eauto.
    + apply Forall_app. split; [done|]. constructor; [|done].
      split; simpl; [unfold Node.MOVE_INTERVAL; lra | done].
    + rewrite sink_timers_app. unfold sink_timers at 2. simpl. by rewrite app_nil_r.
Qed.

Lemma step_after st l st' : Sim.step st l st' → st' = Sim.after st l.
Proof. by destruct 1. Qed.

Lemma timed_advance em st until :
  timed em st → (Sim.now st <= until)%Q → Sim.earliest until (Sim.queue st) →
  timed em (Sim.mk (Sim.engine st) until (Sim.queue st)).
Proof.
  intros [Hids Hq Hnd Hem Hr] Hle He. unfold timed. cbn.
  eapply timed_idle; eauto.
  unfold Sim.earliest in He. rewrite Forall_forall in *. intros e Hin.
  eapply entry_ok_later; [by apply He | by apply Hq].
Qed.

Lemma timed_inject em st src_id ty dst_id :
  timed em st →
  timed em (Sim.inject src_id ty dst_id st)
  ∧ Forall2 node_grows (Engine.nodes (Sim.engine st))
            (Engine.nodes (Sim.engine (Sim.inject src_id ty dst_id st))).
Proof.
  intros Ht. unfold Sim.inject.
  destruct (Sim.with_node _ _ _) as [e' ps] eqn:Hw. cbn [Sim.engine].
  pose proof Ht as [Hids Hq Hnd Hem Hr].
  eapply (timed_with_node em em st (Sim.now st) src_id); eauto.
  - lra.
  - intros n Hn c'. apply node_map_Some in Hn as [Hi Hn].
    assert (local_ok em (Sim.now st) n (Node.self c') (Node.spawned c')) as Hl.
    { apply inject_ok. eapply routes_at; [done | lra | done]. }
    split; [exact Hl|]. eapply em_ok_update; [exact Hem | lra | done | apply Hl].
Qed.

(** Every step keeps the discipline, and no node's memory shrinks. *)
Lemma timed_step em st l st' :
  timed em st → Sim.step st l st' →
  ∃ em', em ⊆ em' ∧ timed em' st'
         ∧ Forall2 node_grows (Engine.nodes (Sim.engine st)) (Engine.nodes (Sim.engine st')).
Proof.
  intros Ht Hs. destruct Hs as [st k d due tk Hk He Hd|st until Hle He|st s ty dst Hn].
  - by eapply timed_fire.
  - exists em. split; [done|]. split; [by apply timed_advance | apply grows_refl].
  - exists em. split; [done|]. by apply timed_inject.
Qed.

(** * The constructor *)

Lemma Forall2_same_protocol_refl ns : Forall2 same_protocol ns ns.
Proof. induction ns; constructor; [apply same_protocol_refl | done]. Qed.

Lemma same_protocol_alter_pos (ns : list Node.t) (i : nat) px py :
  Forall2 same_protocol ns (alter (Node.set_pos px py) i ns).
Proof.
  revert i. induction ns as [|n ns IH]; intros [|i]; simpl; try constructor;
    auto using same_protocol_refl, Forall2_same_protocol_refl.
  - by repeat split.
  - apply IH.
Qed.

Lemma pristine_same_protocol ns ns' :
  Forall2 same_protocol ns ns' →
  ids_are_positions ns ∧ Forall fresh ns → ids_are_positions ns' ∧ Forall fresh ns'.
Proof.
  intros H2 [Hids Hfr]. split.
  - intros i n' Hi. destruct (Forall2_lookup_r _ _ _ _ _ H2 Hi) as (n & Hn & Hp).
    destruct Hp as (-> & _). by apply Hids.
  - rewrite Forall_lookup in *. intros i n' Hi.
    destruct (Forall2_lookup_r _ _ _ _ _ H2 Hi) as (n & Hn & Hp).
    destruct (Hfr _ _ Hn) as (H1 & H2' & H3 & H4).
    destruct Hp as (_ & _ & _ & Hrt & Hbs & Hsn & Hsq & _).
    unfold fresh. by rewrite Hrt, Hbs, Hsn, Hsq.
Qed.

(** ** _create_nodes numbers fresh nodes by position *)

Lemma add_node_ok is_sink is_mobile xy static r p :
  placing_ok p → placing_ok (Engine.add_node is_sink is_mobile xy static r p).
Proof.
  intros (Hid & Hids & Hfr). unfold Engine.add_node, placing_ok. cbn.
  split; [rewrite length_app; simpl; lia|]. split.
  - intros i n Hi. apply lookup_app_Some in Hi as [Hi|[Hge Hi]]; [by apply Hids|].
    apply list_lookup_singleton_Some in Hi as [Hi <-]. cbn. lia.
  - apply Forall_app. split; [done|]. constructor; [|done]. by repeat split.
Qed.

Lemma create_sink_ok e p pos : placing_ok p → placing_ok (Engine.create_sink e p pos).
Proof.
  intros H. unfold Engine.create_sink. destruct (Engine.place_sink _ _ _ _ _ _).
  by apply add_node_ok.
Qed.

Lemma create_mesh_ok e p p' :
  placing_ok p → Engine.create_mesh e p = Engine.Ok p' → placing_ok p'.
Proof.
  intros H. unfold Engine.create_mesh.
  destruct (Engine.sample_mesh _ _ _ _ _ _) as [[xy|] r].
  - intros [= <-]. by apply add_node_ok.
  - destruct (Rng.choice _ _) as [[o|] r']; [|discriminate].
    destruct (Rng.angle r') as [cs r'']. intros [= <-]. by apply add_node_ok.
Qed.

Lemma create_mobile_ok e p : placing_ok p → placing_ok (Engine.create_mobile e p).
Proof.
  intros H. unfold Engine.create_mobile.
  destruct (Rng.uniform _ _ _) as [x r]. destruct (Rng.uniform _ _ r) as [y r'].
  by apply add_node_ok.
Qed.

Lemma repeat_result_ok {A} (P : A → Prop) (f : A → Engine.result A) n :
  (∀ a a', P a → f a = Engine.Ok a' → P a') →
  ∀ a a', P a → Engine.repeat_result n f a = Engine.Ok a' → P a'.
Proof.
  intros Hf. induction n as [|n IH]; intros a a' Ha; simpl.
  - by intros [= <-].
  - destruct (f a) as [a1| |] eqn:E; [|discriminate..]. apply IH. by eapply Hf.
Qed.

Lemma create_nodes_ok e r e' r' :
  Engine._create_nodes e r = Engine.Ok (e', r') →
  ids_are_positions (Engine.nodes e') ∧ Forall fresh (Engine.nodes e').
Proof.
  unfold Engine._create_nodes.
  set (p0 := Engine.mk_placing [] [] 0 r).
  assert (placing_ok p0) as H0.
  { split; [done|]. split; [by intros i n Hi | constructor]. }
  assert (placing_ok (fold_left (Engine.create_sink e) (Engine.sink_positions e) p0)) as H1.
  { revert H0. generalize p0. induction (Engine.sink_positions e) as [|pos l IH];
      intros p Hp; simpl; [done|]. apply IH. by apply create_sink_ok. }
  destruct (Engine.repeat_result _ _ _) as [p2| |] eqn:E; [|discriminate..].
  intros [= <- <-]. cbn.
  assert (placing_ok p2) as H2.
  { eapply (repeat_result_ok placing_ok); [|exact H1|exact E].
    intros a a' Ha. by apply create_mesh_ok. }
  assert (∀ n p, placing_ok p → placing_ok (Nat.iter n (Engine.create_mobile e) p)) as H3.
  { induction n as [|n IH]; intros p Hp; simpl; [done|]. by apply create_mobile_ok, IH. }
  apply (H3 _ _ H2).
Qed.

(** ** The repair pass moves nodes and nothing else *)

Lemma repair_node_same_protocol e static st i st' :
  Engine.repair_node e static st i = Engine.Ok st' →
  Forall2 same_protocol (Engine.r_nodes st) (Engine.r_nodes st').
Proof.
  unfold Engine.repair_node.
  destruct (Engine.r_nodes st !! i) as [node|];
    [|intros [= <-]; apply Forall2_same_protocol_refl].
  destruct (length (Node.neighbors node) =? 0)%nat;
    [|intros [= <-]; apply Forall2_same_protocol_refl].
  destruct (Engine.candidates _ _ _) as [|c cs];
    [intros [= <-]; apply Forall2_same_protocol_refl|].
  destruct (Rng.choice _ _) as [[a|] r]; [|discriminate].
  destruct (Engine.r_nodes st !! a) as [anchor|]; [|discriminate].
  destruct (Engine.try_ring _ _ _ _ _ _ _) as [[xy|] r1].
  - intros [= <-]. apply same_protocol_alter_pos.
  - destruct (Engine.changed st).
    + intros [= <-]. apply Forall2_same_protocol_refl.
    + destruct (Rng.angle r1) as [cs' r2]. intros [= <-]. apply same_protocol_alter_pos.
Qed.

Lemma fold_repair_same_protocol e static l : ∀ st st',
  Engine.fold_result (Engine.repair_node e static) l st = Engine.Ok st' →
  Forall2 same_protocol (Engine.r_nodes st) (Engine.r_nodes st').
Proof.
  induction l as [|i l IH]; intros st st'; simpl.
  - intros [= <-]. apply Forall2_same_protocol_refl.
  - destruct (Engine.repair_node e static st i) as [st1| |] eqn:E; [|discriminate..].
    intros H. eapply Forall2_same_protocol_trans; [by eapply repair_node_same_protocol|].
    by apply IH.
Qed.

Lemma repair_loop_same_protocol fuel e static : ∀ ns r ns' r',
  Engine.repair_loop fuel e static ns r = Engine.Ok (ns', r') →
  Forall2 same_protocol ns ns'.
Proof.
  induction fuel as [|fuel IH]; intros ns r ns' r'; simpl; [discriminate|].
  destruct (Engine.fold_result _ _ _) as [st| |] eqn:E; [|discriminate..].
  apply fold_repair_same_protocol in E. cbn in E.
  assert (Forall2 same_protocol ns (Engine.r_nodes st)) as H.
  { eapply Forall2_same_protocol_trans; [|exact E].
    apply same_place_protocol, update_neighbors_same_place. }
  destruct (Engine.changed st).
  - intros H'. eapply Forall2_same_protocol_trans; [exact H|]. by eapply IH.
  - by intros [= <- <-].
Qed.

(** The engine the constructor returns holds fresh nodes numbered by
    position. *)
Lemma init_pristine fuel cfg r e r' :
  Engine.init fuel cfg r = Engine.Ok (e, r') →
  ids_are_positions (Engine.nodes e) ∧ Forall fresh (Engine.nodes e).
Proof.
  unfold Engine.init.
  destruct (Engine._create_nodes _ _) as [[e1 r1]| |] eqn:E1; [|discriminate..].
  apply create_nodes_ok in E1.
  unfold Engine._ensure_each_has_neighbor.
  destruct (Engine.repair_loop _ _ _ _ _) as [[ns2 r2]| |] eqn:E2; [|discriminate..].
  intros [= <- <-]. cbn.
  apply repair_loop_same_protocol in E2. cbn in E2.
  eapply pristine_same_protocol; [|exact E1].
  eapply Forall2_same_protocol_trans;
    [apply same_place_protocol, update_neighbors_same_place|].
  eapply Forall2_same_protocol_trans; [exact E2|].
  apply same_place_protocol, update_neighbors_same_place.
Qed.

(** * Beacons over a run *)

Lemma sink_timers_boot_one first n :
  sink_timers (Sim.boot first n) = if Node.is_sink n then [Node.id n] else [].
Proof. unfold Sim.boot, sink_timers. by destruct (Node.is_sink n), (Node.is_mobile n). Qed.

Lemma elem_of_sink_timers_boot n z :
  z ∈ (if Node.is_sink n then [Node.id n] else []) → z = Node.id n.
Proof.
  destruct (Node.is_sink n); [by intros ?%list_elem_of_singleton | by intros ?%elem_of_nil].
Qed.

Lemma grows_trans (ns1 ns2 ns3 : list Node.t) :
  Forall2 node_grows ns1 ns2 → Forall2 node_grows ns2 ns3 → Forall2 node_grows ns1 ns3.
Proof.
  intros H. revert ns3. induction H as [|n1 n2 l1 l2 [H1 H1'] _ IH]; intros ns3 H3;
    inversion H3 as [|? n3 ? l3 [H2 H2'] H3']; subst; constructor; [|by apply IH].
  split; [|set_solver].
  intros k q Hq. destruct (H1 k q Hq) as (q1 & Hq1 & ?).
  destruct (H2 k q1 Hq1) as (q2 & Hq2 & ?). exists q2. split; [done | lia].
Qed.

Lemma sink_timers_boot first (ns : list Node.t) z :
  z ∈ sink_timers (concat (map (Sim.boot first) ns)) → ∃ n, n ∈ ns ∧ Node.id n = z.
Proof.
  induction ns as [|n ns IH]; simpl; [by intros ?%elem_of_nil|].
  rewrite sink_timers_app, sink_timers_boot_one. intros [Hz|Hz]%elem_of_app.
  - exists n. split; [by left|]. symmetry. by eapply elem_of_sink_timers_boot.
  - destruct (IH Hz) as (m & ? & ?). exists m. split; [by right | done].
Qed.

Lemma sink_timers_boot_NoDup first (ns : list Node.t) off :
  (∀ i n, ns !! i = Some n → Node.id n = Z.of_nat (off + i)) →
  NoDup (sink_timers (concat (map (Sim.boot first) ns))).
Proof.
  revert off. induction ns as [|n ns IH]; intros off Hids; simpl; [constructor|].
  rewrite sink_timers_app, sink_timers_boot_one. apply NoDup_app. split; [|split].
  - destruct (Node.is_sink n); [apply NoDup_singleton | apply NoDup_nil_2].
  - intros z Hz Hz'. apply sink_timers_boot in Hz' as (m & Hm & Hid).
    apply list_elem_of_lookup in Hm as [j Hj].
    pose proof (Hids (S j) m Hj). pose proof (Hids 0%nat n eq_refl).
    assert (z = Node.id n) as -> by (by eapply elem_of_sink_timers_boot).
    lia.
  - apply (IH (S off)). intros i m Hi. rewrite (Hids (S i) m Hi). lia.
Qed.

Lemma boot_entries_ok first n :
  (∀ i, (0 <= first i)%Q) → Forall (entry_ok [] 0) (Sim.boot first n).
Proof.
  intros Hf. unfold Sim.boot. apply Forall_app. split.
  - destruct (Node.is_sink n); (constructor; [|done]).
    + split; [discriminate|]. simpl. by intros q T ?%elem_of_nil.
    + split; [apply Hf | done].
  - destruct (Node.is_mobile n); [|done]. constructor; [|done].
    split; [discriminate | done].
Qed.

(** The simulation starts on schedule: no beacon has been originated. *)
Lemma timed_initial st : Sim.initial st → timed [] st.
Proof.
  intros (fuel & cfg & r & e & r' & first & Hinit & Hfirst & ->).
  apply init_pristine in Hinit as [Hids Hfr]. unfold timed, Sim.start. cbn. split.
  - done.
  - apply Forall_concat, Forall_map, Forall_forall. intros n _.
    by apply boot_entries_ok.
  - apply (sink_timers_boot_NoDup first _ 0). intros i n Hi. by apply Hids.
  - split; intros s q; intros; by apply elem_of_nil in H.
  - eapply Forall_impl; [exact Hfr|]. intros n (_ & Hbs & _) k.
    unfold route_ok. by rewrite Hbs, lookup_empty.
Qed.

(** Every state of a run that starts on schedule is on schedule, and along
    the run no node's memory shrinks. *)
Lemma timed_run_from em st0 tr st :
  timed em st0 → Sim.run st0 tr st →
  (∃ em', timed em' st)
  ∧ Forall2 node_grows (Engine.nodes (Sim.engine st0)) (Engine.nodes (Sim.engine st))
  ∧ Forall (fun sl => (∃ em', timed em' sl.1)
                      ∧ Forall2 node_grows (Engine.nodes (Sim.engine st0))
                                (Engine.nodes (Sim.engine sl.1))
                      ∧ Sim.step sl.1 sl.2 (Sim.after sl.1 sl.2)) tr.
Proof.
  intros H0 Hrun. induction Hrun as [st|st tr st' l st'' Hrun IH Hstep].
  - split; [by exists em|]. split; [apply grows_refl | constructor].
  - destruct (IH H0) as ((em1 & Ht) & Hg & Htr).
    destruct (timed_step em1 st' l st'' Ht Hstep) as (em' & _ & Ht' & Hg').
    split; [by exists em'|]. split.
    + by eapply grows_trans.
    + apply Forall_app. split; [done|]. constructor; [|done]. simpl.
      split; [by exists em1|]. split; [done|].
      by rewrite <- (step_after _ _ _ Hstep).
Qed.

Lemma reachable_timed st : Sim.reachable st → ∃ em, timed em st.
Proof.
  intros (st0 & tr & H0 & Hrun).
  by destruct (timed_run_from [] st0 tr st (timed_initial _ H0) Hrun) as [? _].
Qed.

Lemma grows_best_seq_at st st' i k q :
  Forall2 node_grows (Engine.nodes (Sim.engine st)) (Engine.nodes (Sim.engine st')) →
  best_seq_at st i k = Some q →
  ∃ q', best_seq_at st' i k = Some q' ∧ q ≤ q'.
Proof.
  intros Hg. unfold best_seq_at, node_at.
  destruct (Engine.node_map (Sim.engine st) i) as [n|] eqn:Hn; [|done]. simpl.
  apply node_map_Some in Hn as [Hi Hn].
  destruct (Forall2_lookup_l _ _ _ _ _ Hg Hn) as (n' & Hn' & [Hb _]).
  intros Hq. destruct (Hb k q Hq) as (q' & Hq' & Hle).
  exists q'. assert (Engine.node_map (Sim.engine st') i = Some n') as ->
    by (by apply node_map_Some).
  done.
Qed.

(** C2. In every run of the simulation, the sequence a node has recorded
    in [best_seq] for a sink never goes down: not over one step, and so not
    between any two states of the run. *)
Theorem best_seq_never_decreases (st0 st st' : Sim.t) (tr tr' : list (Sim.t * Sim.label))
    (i : Z) (k : option Z) (q : Z) :
  Sim.initial st0 → Sim.run st0 tr st → Sim.run st tr' st' →
  best_seq_at st i k = Some q →
  ∃ q', best_seq_at st' i k = Some q' ∧ q ≤ q'.
Proof.
  intros H0 Hrun Hrun' Hq.
  destruct (timed_run_from [] st0 tr st (timed_initial _ H0) Hrun) as ((em & Ht) & _ & _).
  destruct (timed_run_from em st tr' st' Ht Hrun') as (_ & Hg & _).
  by eapply grows_best_seq_at.
Qed.

(** ** The simulator's own schedule is a run *)

Lemma run_cons st l st1 tr st' :
  Sim.step st l st1 → Sim.run st1 tr st' → Sim.run st ((st, l) :: tr) st'.
Proof.
  intros Hs Hr. induction Hr as [st1|st1 tr st2 l' st3 Hr IH Hs'].
  - apply (Sim.run_step st [] st l st1); [constructor | done].
  - rewrite app_comm_cons. eapply Sim.run_step; [by apply IH | done].
Qed.

Lemma run_app st tr st' tr' st'' :
  Sim.run st tr st' → Sim.run st' tr' st'' → Sim.run st (tr ++ tr') st''.
Proof.
  intros H1 H2. induction H2 as [|st1 tr1 st2 l st3 H2 IH Hs].
  - by rewrite app_nil_r.
  - rewrite app_assoc. eapply Sim.run_step; [by apply IH | done].
Qed.

Lemma first_earliest_spec q : ∀ (pre : list (Q * Sim.task)) best bt tkb,
  pre !! best = Some (bt, tkb) → Forall (fun e => (bt <= e.1)%Q) pre →
  ∃ due tk, (pre ++ q) !! Sim.first_earliest best bt (length pre) q = Some (due, tk)
            ∧ Sim.earliest due (pre ++ q).
Proof.
  induction q as [|[due tk] q IH]; intros pre best bt tkb Hb Hall; simpl.
  - exists bt, tkb. rewrite app_nil_r. done.
  - destruct (Qlt_bool due bt) eqn:E.
    + apply Qlt_bool_true in E.
      destruct (IH (pre ++ [(due, tk)]) (length pre) due tk) as (d & t & Hk & He).
      * by rewrite lookup_app_r, Nat.sub_diag by lia.
      * apply Forall_app. split; [|constructor; [simpl; lra | done]].
        eapply Forall_impl; [exact Hall|]. intros e He. simpl in *. lra.
      * rewrite length_app, Nat.add_1_r in Hk. rewrite <- app_assoc in Hk, He.
        by exists d, t.
    + assert (bt <= due)%Q as Hle.
      { apply Qnot_lt_le. intros H. apply Qlt_bool_true in H. congruence. }
      destruct (IH (pre ++ [(due, tk)]) best bt tkb) as (d & t & Hk & He).
      * by apply lookup_app_l_Some.
      * apply Forall_app. split; [done | constructor; [done | done]].
      * rewrite length_app, Nat.add_1_r in Hk. rewrite <- app_assoc in Hk, He.
        by exists d, t.
Qed.

Lemma pick_spec q k :
  Sim.pick q = Some k → ∃ due tk, q !! k = Some (due, tk) ∧ Sim.earliest due q.
Proof.
  destruct q as [|[due tk] q]; simpl; [discriminate|]. intros [= <-].
  apply (first_earliest_spec q [(due, tk)] 0%nat due tk); [done|].
  constructor; [simpl; lra | done].
Qed.

Lemma simulate_run n draws : ∀ st,
  (∀ j, (0 <= Rng.expo (draws j))%Q) →
  Sim.run st (Sim.simulate n draws st).1 (Sim.simulate n draws st).2.
Proof.
  induction n as [|n IH]; intros st Hd; simpl; [constructor|].
  destruct (Sim.pick (Sim.queue st)) as [k|] eqn:Hp; [|constructor].
  destruct (Sim.simulate n draws _) as [tr st'] eqn:E. simpl.
  destruct (pick_spec _ _ Hp) as (due & tk & Hk & He).
  eapply run_cons; [by eapply Sim.step_fire|].
  specialize (IH (Sim.fire k (draws n) st) Hd). simpl in E. by rewrite E in IH.
Qed.

(** ** The line of five nodes *)

Lemma line_built_ok :
  Engine.init 5 line_cfg (Rng.mk line_tape 0) = Engine.Ok (line_engine, Rng.mk line_tape 8).
Proof. vm_compute. reflexivity. Qed.

Lemma line_first_nonneg i : (0 <= line_first i)%Q.
Proof. unfold line_first. destruct (i =? 4); discriminate. Qed.

Lemma line_initial : Sim.initial line_start.
Proof.
  unfold Sim.initial.
  exists 5%nat, line_cfg, (Rng.mk line_tape 0), line_engine, (Rng.mk line_tape 8), line_first.
  split; [exact line_built_ok|]. split; [exact line_first_nonneg|]. reflexivity.
Qed.

Lemma line_runs n : Sim.run line_start (line_run n).1 (line_run n).2.
Proof. unfold line_run. apply simulate_run. intros _. discriminate. Qed.

Lemma best_seq_never_decreases_witness :
  ∃ q', best_seq_at (Sim.simulate 13 (fun _ => line_tape 1) (line_run 3).2).2 1 (Some 0)
        = Some q' ∧ 1 ≤ q'.
Proof.
  apply (best_seq_never_decreases line_start (line_run 3).2
           (Sim.simulate 13 (fun _ => line_tape 1) (line_run 3).2).2
           (line_run 3).1
           (Sim.simulate 13 (fun _ => line_tape 1) (line_run 3).2).1
           1 (Some 0) 1).
  - exact line_initial.
  - exact (line_runs 3).
  - apply simulate_run. intros _. discriminate.
  - vm_compute. reflexivity.
Defined.

(** ** A beacon is accepted once *)

Lemma receives_fire st l i p :
  receives (st, l) = Some (i, p) →
  ∃ k d due, l = Sim.Fire k d ∧ Sim.queue st !! k = Some (due, Sim.Run (Receive i p)).
Proof.
  unfold receives. simpl. destruct l as [k d| |]; [|done..].
  destruct (Sim.queue st !! k) as [[due [[| |j p']| | |]]|] eqn:Hk; try done.
  intros [= -> ->]. by exists k, d, due.
Qed.

Lemma accepted_sets_best_seq st k d due i p n :
  Sim.queue st !! k = Some (due, Sim.Run (Receive i p)) →
  node_at st i = Some n → Pkt.pkt_type p = Pkt.BOM → Node.bom_accepts p n = true →
  best_seq_at (Sim.fire k d st) i (Pkt.sink_id p) = Some (Pkt.seq p).
Proof.
  intros Hk Hn Hp Hacc. unfold Sim.fire. rewrite Hk. cbn [Sim.resume].
  pose proof (with_node_spec (Sim.engine st) i (Node.receive due p)) as Hw.
  unfold node_at in Hn. rewrite Hn in Hw. cbn zeta in Hw. rewrite Hw.
  apply node_map_Some in Hn as [Hi Hn].
  unfold best_seq_at, node_at. cbn.
  erewrite (proj2 (node_map_Some _ i _)).
  2: { split; [done|]. cbn. apply list_lookup_insert_eq. by eapply lookup_lt_Some. }
  cbn. unfold Node.receive. rewrite Hp. unfold Node._handle_bom.
  change (Node.bom_accepts p (Node.self (Node.on_self _ _))) with (Node.bom_accepts p n).
  rewrite Hacc. cbn. apply lookup_insert_eq.
Qed.

(** A node on schedule that holds a record at least as fresh rejects the
    beacon. *)
Lemma stale_beacon_rejected em st k due i p n q0 :
  timed em st → Sim.queue st !! k = Some (due, Sim.Run (Receive i p)) →
  node_at st i = Some n → Pkt.pkt_type p = Pkt.BOM →
  Node.best_seq n !! Pkt.sink_id p = Some q0 → Pkt.seq p ≤ q0 →
  Node.bom_accepts p n = false.
Proof.
  intros Ht Hk Hn Hp Hq Hle.
  destruct (fired_entry em st k _ _ Ht Hk) as [Hnow Hfl]. simpl in Hnow, Hfl.
  destruct Ht as [_ _ _ [_ Hmono] Hr].
  apply node_map_Some in Hn as [Hi Hn].
  destruct (Node.bom_accepts p n) eqn:Hacc; [|done].
  pose proof (on_schedule_fresher em due n (routes_at _ _ _ _ _ _ Hr Hnow Hn) Hmono
                i p q0 Hp Hfl Hq Hacc).
  lia.
Qed.

Lemma accept_count_snoc i k q tr sl :
  accept_count i k q (tr ++ [sl])
  = (accept_count i k q tr + (if accepts_beacon i k q sl then 1 else 0))%nat.
Proof.
  unfold accept_count. rewrite List.filter_app, length_app. simpl.
  by destruct (accepts_beacon i k q sl).
Qed.

(** Along a run that starts on schedule: at most one acceptance, and after
    it the node's record for the sink is at least as fresh. *)
Lemma accepted_once_from em st0 tr st i k q :
  timed em st0 → Sim.run st0 tr st →
  (∀ q0, best_seq_at st0 i k = Some q0 → q0 < q) →
  (accept_count i k q tr ≤ 1)%nat
  ∧ (accept_count i k q tr = 1%nat → ∃ q0, best_seq_at st i k = Some q0 ∧ q ≤ q0).
Proof.
  intros H0 Hrun Hq0. induction Hrun as [st|st tr st' l st'' Hrun IH Hstep].
  - unfold accept_count. simpl. split; [lia | discriminate].
  - destruct (IH H0 Hq0) as [Hle Hone].
    destruct (timed_run_from em st tr st' H0 Hrun) as ((em' & Ht) & _ & _).
    destruct (timed_step em' st' l st'' Ht Hstep) as (_ & _ & _ & Hg).
    rewrite accept_count_snoc.
    destruct (accepts_beacon i k q (st', l)) eqn:Hacc.
    + unfold accepts_beacon in Hacc.
      destruct (receives (st', l)) as [[j p]|] eqn:Hrec; [|done].
      apply andb_true_iff in Hacc as [Hd Hacc].
      apply bool_decide_eq_true in Hd as (-> & Hp & Hk & Hq).
      simpl in Hacc. destruct (node_at st' i) as [n|] eqn:Hn; [|done].
      destruct (receives_fire _ _ _ _ Hrec) as (kq & d & due & -> & Hkq).
      assert (accept_count i k q tr = 0)%nat as Hzero.
      { destruct (accept_count i k q tr) as [|[|c]] eqn:Hc; [done| |lia].
        destruct (Hone eq_refl) as (q0 & Hb & Hle0).
        unfold best_seq_at in Hb. rewrite Hn in Hb. simpl in Hb. subst k q.
        rewrite (stale_beacon_rejected em' st' kq due i p n q0 Ht Hkq Hn Hp Hb Hle0) in Hacc.
        discriminate. }
      rewrite Hzero. split; [lia|]. intros _. exists q. split; [|lia].
      rewrite (step_after _ _ _ Hstep). simpl. subst k q.
      by eapply accepted_sets_best_seq.
    + rewrite Nat.add_0_r. split; [done|]. intros H1.
      destruct (Hone H1) as (q0 & Hb & Hle0).
      destruct (grows_best_seq_at st' st'' i k q0 Hg Hb) as (q1 & Hb1 & Hle1).
      exists q1. split; [done | lia].
Qed.

(** C3. In every run of the simulation, a node accepts (and so
    rebroadcasts) a beacon of a given sink and sequence number at most
    once. *)
Theorem beacon_accepted_at_most_once (st0 st : Sim.t) (tr : list (Sim.t * Sim.label))
    (i : Z) (k : option Z) (q : Z) :
  Sim.initial st0 → Sim.run st0 tr st →
  (accept_count i k q tr ≤ 1)%nat.
Proof.
  intros H0 Hrun.
  apply (accepted_once_from [] st0 tr st i k q (timed_initial _ H0) Hrun).
  intros q0 Hq0. exfalso.
  destruct H0 as (fuel & cfg & r & e & r' & first & Hinit & _ & ->).
  apply init_pristine in Hinit as [_ Hfr].
  unfold best_seq_at, node_at in Hq0. cbn in Hq0.
  destruct (Engine.node_map e i) as [n|] eqn:Hn; [|done]. simpl in Hq0.
  apply node_map_Some in Hn as [_ Hn]. rewrite Forall_lookup in Hfr.
  destruct (Hfr _ _ Hn) as (_ & Hbs & _). by rewrite Hbs, lookup_empty in Hq0.
Qed.

Lemma beacon_accepted_at_most_once_witness :
  (accept_count 1%Z (Some 0%Z) 1%Z (line_run 16).1 <= 1)%nat.
Proof.
  apply (beacon_accepted_at_most_once line_start (line_run 16).2 (line_run 16).1
           1 (Some 0) 1).
  - exact line_initial.
  - exact (line_runs 16).
Defined.

(** In that run node 1 hears the beacon of sink 0 three times (from the
    sink, and back from the sink and from node 2) and accepts it once. *)
Example line_beacon_heard_thrice :
  length (List.filter
            (fun sl => match receives sl with
                       | Some (j, p) =>
                           bool_decide (j = 1 ∧ Pkt.pkt_type p = Pkt.BOM
                                        ∧ Pkt.sink_id p = Some 0 ∧ Pkt.seq p = 1)
                       | None => false
                       end)
            (line_run 16).1) = 3%nat
  ∧ accept_count 1 (Some 0%Z) 1 (line_run 16).1 = 1%nat.
Proof. vm_compute. split; reflexivity. Qed.

(** * Data packets over a run *)

Lemma send_rms_delivers_nothing now p c :
  Logger.data_delivered (Node.logger (Node._send_rms now p c))
  = Logger.data_delivered (Node.logger c).
Proof.
  destruct (send_rms_cases now p c) as [(nb & s & ttl & _ & ->)|(p' & _ & ->)]; done.
Qed.

(** What handling a data packet does to the duplicate-suppression set and
    to the delivery counter. *)
Lemma handle_rms_marks now p c :
  let c' := Node._handle_rms now p c in
  rms_key p ∈ Node.seen_rms (Node.self c')
  ∧ (rms_key p ∈ Node.seen_rms (Node.self c) →
     Logger.data_delivered (Node.logger c') = Logger.data_delivered (Node.logger c))
  ∧ Logger.data_delivered (Node.logger c) ≤ Logger.data_delivered (Node.logger c')
    ≤ Logger.data_delivered (Node.logger c) + 1.
Proof.
  intros c'.
  destruct (handle_rms_cases now p c)
    as [[Hin Hc]|[Hnin [[_ Hc]|[(_ & _ & Hc)|(_ & _ & Hc)]]]]; fold c' in Hc; rewrite Hc.
  - split; [done|]. split; [done | lia].
  - cbn. split; [set_solver|]. split; [done | lia].
  - destruct (send_rms_quiet now (Pkt.set_hop_count (Pkt.hop_count p - 1) p)
                (marked (rms_key p) c)) as ((_ & _ & _ & _ & Hs) & _).
    rewrite send_rms_delivers_nothing. cbn.
    split; [apply Hs; cbn; set_solver|]. split; [done | lia].
  - cbn. split; [set_solver|]. split; [done | lia].
Qed.

Lemma fire_receive st k d due i p :
  Sim.queue st !! k = Some (due, Sim.Run (Receive i p)) →
  match node_at st i with
  | Some n =>
      let c' := Node.receive due p (Node.mk_ctx n (Engine.logger (Sim.engine st)) []) in
      node_at (Sim.fire k d st) i = Some (Node.self c')
      ∧ Engine.logger (Sim.engine (Sim.fire k d st)) = Node.logger c'
  | None => Sim.engine (Sim.fire k d st) = Sim.engine st
  end.
Proof.
  intros Hk. unfold Sim.fire. rewrite Hk. cbn [Sim.resume].
  pose proof (with_node_spec (Sim.engine st) i (Node.receive due p)) as Hw.
  unfold node_at. destruct (Engine.node_map (Sim.engine st) i) as [n|] eqn:Hn.
  - cbn zeta in Hw. rewrite Hw. cbn. split; [|done].
    apply node_map_Some in Hn as [Hi Hn]. apply node_map_Some. split; [done|].
    cbn. apply list_lookup_insert_eq. by eapply lookup_lt_Some.
  - by rewrite Hw.
Qed.

Lemma delivery_records_bound i key st l :
  0 ≤ delivery_records i key (st, l)
  ≤ (if processes_data i key (st, l) then 1 else 0).
Proof.
  unfold delivery_records, processes_data.
  destruct (receives (st, l)) as [[j p]|] eqn:Hrec; [|lia].
  destruct (bool_decide _) eqn:Hd; [|simpl; lia].
  apply bool_decide_eq_true in Hd as (-> & Hp & Hkey). simpl.
  destruct (receives_fire _ _ _ _ Hrec) as (k & d & due & -> & Hk). simpl.
  pose proof (fire_receive st k d due i p Hk) as Hf.
  destruct (node_at st i) as [n|] eqn:Hn.
  - destruct Hf as [_ ->]. unfold Node.receive. rewrite Hp.
    set (c1 := Node.on_self _ _).
    destruct (handle_rms_marks due p c1) as (_ & Hsame & Hle).
    change (Node.logger c1) with (Engine.logger (Sim.engine st)) in *.
    change (Node.seen_rms (Node.self c1)) with (Node.seen_rms n) in Hsame.
    rewrite Hkey in Hsame.
    destruct (bool_decide (key ∉ Node.seen_rms n)) eqn:Hseen.
    + lia.
    + apply bool_decide_eq_false in Hseen.
      assert (key ∈ Node.seen_rms n) as Hin by (by apply dec_stable).
      rewrite (Hsame Hin). lia.
  - rewrite Hf. lia.
Qed.

Lemma processed_is_marked i key st l n' :
  processes_data i key (st, l) = true →
  node_at (Sim.after st l) i = Some n' → key ∈ Node.seen_rms n'.
Proof.
  unfold processes_data.
  destruct (receives (st, l)) as [[j p]|] eqn:Hrec; [|done].
  intros [Hd Hn]%andb_true_iff. apply bool_decide_eq_true in Hd as (-> & Hp & <-).
  simpl in Hn. destruct (receives_fire _ _ _ _ Hrec) as (k & d & due & -> & Hk). simpl.
  pose proof (fire_receive st k d due i p Hk) as Hf.
  destruct (node_at st i) as [n|]; [|done]. destruct Hf as [-> _]. intros [= <-].
  unfold Node.receive. rewrite Hp. apply handle_rms_marks.
Qed.

Lemma deliveries_snoc i key tr sl :
  deliveries i key (tr ++ [sl]) = deliveries i key tr + delivery_records i key sl.
Proof.
  unfold deliveries. induction tr as [|sl' tr IH]; simpl; [lia|]. rewrite IH. lia.
Qed.

(** Along a run that starts on schedule from a node that has not seen
    [key]: at most one step processes it, and afterwards the node has it in
    its duplicate-suppression set. *)
Lemma processed_once_from em st0 tr st i key :
  timed em st0 → Sim.run st0 tr st →
  (∀ n, node_at st0 i = Some n → key ∉ Node.seen_rms n) →
  let processed := length (List.filter (processes_data i key) tr) in
  (processed ≤ 1)%nat
  ∧ 0 ≤ deliveries i key tr ≤ Z.of_nat processed
  ∧ (processed = 1%nat → ∃ n, node_at st i = Some n ∧ key ∈ Node.seen_rms n).
Proof.
  intros H0 Hrun Hfresh. induction Hrun as [st|st tr st' l st'' Hrun IH Hstep].
  - simpl. split; [lia|]. split; [lia | discriminate].
  - destruct (IH H0 Hfresh) as (Hle & Hdel & Hone).
    destruct (timed_run_from em st tr st' H0 Hrun) as ((em' & Ht) & _ & _).
    destruct (timed_step em' st' l st'' Ht Hstep) as (_ & _ & _ & Hg).
    rewrite List.filter_app, length_app, deliveries_snoc. simpl.
    pose proof (delivery_records_bound i key st' l) as Hb.
    destruct (processes_data i key (st', l)) eqn:Hproc; simpl.
    + assert (length (List.filter (processes_data i key) tr) = 0)%nat as Hzero.
      { destruct (length (List.filter (processes_data i key) tr)) as [|[|c]] eqn:Hc;
          [done| |lia].
        destruct (Hone eq_refl) as (n & Hn & Hin).
        unfold processes_data in Hproc.
        destruct (receives (st', l)) as [[j p]|]; [|done].
        apply andb_true_iff in Hproc as [Hd Hproc].
        apply bool_decide_eq_true in Hd as (-> & _). simpl in Hproc.
        rewrite Hn in Hproc. apply bool_decide_eq_true in Hproc. done. }
      rewrite Hzero in *. split; [lia|]. split; [lia|]. intros _.
      rewrite (step_after _ _ _ Hstep).
      assert (is_Some (node_at (Sim.after st' l) i)) as [n' Hn'].
      { unfold processes_data in Hproc.
        destruct (receives (st', l)) as [[j p]|]; [|done].
        apply andb_true_iff in Hproc as [Hd Hproc].
        apply bool_decide_eq_true in Hd as (-> & _). simpl in Hproc.
        destruct (node_at st' i) as [n|] eqn:Hn; [|done].
        unfold node_at in *. apply node_map_Some in Hn as [Hi Hn].
        rewrite <- (step_after _ _ _ Hstep).
        destruct (Forall2_lookup_l _ _ _ _ _ Hg Hn) as (n' & Hn' & _).
        exists n'. by apply node_map_Some. }
      exists n'. split; [done|]. by eapply processed_is_marked.
    + rewrite Nat.add_0_r. split; [done|]. split; [lia|]. intros H1.
      destruct (Hone H1) as (n & Hn & Hin).
      unfold node_at in *. apply node_map_Some in Hn as [Hi Hn].
      destruct (Forall2_lookup_l _ _ _ _ _ Hg Hn) as (n' & Hn' & [_ Hsub]).
      exists n'. split; [by apply node_map_Some | by apply Hsub].
Qed.

(** C4. A data packet is processed at most once per node and (origin,
    sequence) pair.  The handler puts the pair in the duplicate-suppression
    set on the first arrival and returns without touching the node, the
    logger or the environment on every later one ([receive] has counted the
    reception before it calls the handler).  So in every run a node gets
    past the duplicate check at most once per pair, and a sink records at
    most one delivery for it, whatever paths the copies took. *)
Theorem data_processed_once (st0 st : Sim.t) (tr : list (Sim.t * Sim.label))
    (i : Z) (key : Z * Z) :
  Sim.initial st0 → Sim.run st0 tr st →
  (∀ now p c, rms_key p = key →
     key ∈ Node.seen_rms (Node.self (Node._handle_rms now p c))
     ∧ (key ∈ Node.seen_rms (Node.self c) → Node._handle_rms now p c = c))
  ∧ (length (List.filter (processes_data i key) tr) ≤ 1)%nat
  ∧ 0 ≤ deliveries i key tr ≤ 1.
Proof.
  intros H0 Hrun. split.
  - intros now p c <-. split; [apply handle_rms_marks|].
    intros Hin. unfold Node._handle_rms. fold (rms_key p). by rewrite decide_True.
  - destruct (processed_once_from [] st0 tr st i key (timed_initial _ H0) Hrun)
      as (Hle & Hdel & _); [|split; [done | lia]].
    intros n Hn. destruct H0 as (fuel & cfg & r & e & r' & first & Hinit & _ & ->).
    apply init_pristine in Hinit as [_ Hfr].
    unfold node_at in Hn. cbn in Hn. apply node_map_Some in Hn as [_ Hn].
    rewrite Forall_lookup in Hfr. destruct (Hfr _ _ Hn) as (_ & _ & -> & _). set_solver.
Qed.

Lemma data_processed_once_witness :
  (∀ now p c, rms_key p = (4, 1) →
     (4, 1) ∈ Node.seen_rms (Node.self (Node._handle_rms now p c))
     ∧ ((4, 1) ∈ Node.seen_rms (Node.self c) → Node._handle_rms now p c = c))
  ∧ (length (List.filter (processes_data 0%Z (4%Z, 1%Z)) (line_run 25).1) <= 1)%nat
  ∧ 0 ≤ deliveries 0 (4, 1) (line_run 25).1 ≤ 1.
Proof.
  apply (data_processed_once line_start (line_run 25).2 (line_run 25).1 0 (4, 1)).
  - exact line_initial.
  - exact (line_runs 25).
Defined.

(** In that run the packet of node 4 crosses three relays and the sink
    records its delivery. *)
Example line_delivery :
  deliveries 0 (4, 1) (line_run 25).1 = 1
  ∧ Logger.data_delivered (Engine.logger (Sim.engine (line_run 25).2)) = 1.
Proof. vm_compute. split; reflexivity. Qed.

(** * The hop budget *)

(** The remaining hops [_send_rms] sends a packet on with. *)
Lemma send_rms_ttl now q c :
  ∃ g, Node.spawned (Node._send_rms now q c) = Node.spawned c ++ [g]
       ∧ match Node.routing_table (Node.self c) with
         | [] => g = Broadcast (Node.id (Node.self c)) q
         | _ => ∃ sink e, In (sink, e) (Node.routing_table (Node.self c))
                          ∧ packet_of g = readdressed sink (Node.hop_distance e + 1) q
         end.
Proof.
  unfold Node._send_rms.
  pose proof (min_by_spec (fun kv : option Z * Node.route => Node.hop_distance kv.2)
                (Node.routing_table (Node.self c))) as Hmin.
  destruct (Dict.min_by _ _) as [[sink e]|].
  - destruct Hmin as [Hin _].
    pose proof (unicast_loop_spec now (Node.neighbors (Node.self c)) (Node.next_hop e)
                  (Pkt.set_hop_count (Node.hop_distance e + 1) (Pkt.set_sink_id sink q))
                  c) as Hu.
    destruct (Node.unicast_loop _ _ _ _ _) as [c1|].
    + destruct Hu as (_ & Hs & _). eexists. split; [exact Hs|].
      destruct (Node.routing_table (Node.self c)); [done|]. by exists sink, e.
    + eexists. split; [reflexivity|].
      destruct (Node.routing_table (Node.self c)); [done|]. by exists sink, e.
  - rewrite Hmin. eexists. split; reflexivity.
Qed.

(** C7, as the code has it.  A node that is not the named sink and has not
    seen the packet forwards it with one hop less when more than one hop
    remains, and otherwise only remembers it: nothing is logged, nothing is
    sent.  The forwarding logic keeps the remaining hops when the routing
    table is empty and overwrites them with the chosen route's hop distance
    plus one when it is not.  So the hop budget bounds the forwards only
    along nodes with empty routing tables: handed through at least as many
    such nodes as it has hops left, the packet does not come out. *)
Theorem ttl_rule (now : Q) (p : Pkt.t) (c : Node.ctx) :
  rms_key p ∉ Node.seen_rms (Node.self c) → ¬ named_sink p (Node.self c) →
  (Pkt.hop_count p > 1 →
     Node._handle_rms now p c
     = Node._send_rms now (Pkt.set_hop_count (Pkt.hop_count p - 1) p) (marked (rms_key p) c))
  ∧ (Pkt.hop_count p ≤ 1 → Node._handle_rms now p c = marked (rms_key p) c)
  ∧ (∀ q c0, ∃ g,
       Node.spawned (Node._send_rms now q c0) = Node.spawned c0 ++ [g]
       ∧ match Node.routing_table (Node.self c0) with
         | [] => g = Broadcast (Node.id (Node.self c0)) q
         | _ => ∃ sink e, In (sink, e) (Node.routing_table (Node.self c0))
                          ∧ packet_of g = readdressed sink (Node.hop_distance e + 1) q
         end)
  ∧ (∀ cs, Forall (fun c0 => Node.routing_table (Node.self c0) = []) cs →
           (1 ≤ length cs)%nat → Pkt.hop_count p ≤ Z.of_nat (length cs) →
           relay now p cs = None).
Proof.
  intros Hnew Hns. split; [|split; [|split]].
  - intros Hgt. destruct (handle_rms_cases now p c)
      as [[Hin _]|[_ [[Hs _]|[(_ & _ & Hc)|(_ & Hle & _)]]]]; [done | done | exact Hc | lia].
  - intros Hle. destruct (handle_rms_cases now p c)
      as [[Hin _]|[_ [[Hs _]|[(_ & Hgt & _)|(_ & _ & Hc)]]]]; [done | done | lia | exact Hc].
  - intros q c0. apply send_rms_ttl.
  - intros cs. apply relay_bound.
Qed.

Lemma ttl_rule_witness :
  let n := Node.init 7 false false (0%Q, 0%Q) in
  let c := Node.mk_ctx n Logger.init [] in
  let p := Pkt.mk Pkt.RMS 3 None 1 1 3 0 in
  (Pkt.hop_count p > 1 →
     Node._handle_rms 0 p c
     = Node._send_rms 0 (Pkt.set_hop_count (Pkt.hop_count p - 1) p) (marked (rms_key p) c))
  ∧ (Pkt.hop_count p ≤ 1 → Node._handle_rms 0 p c = marked (rms_key p) c)
  ∧ (∀ q c0, ∃ g,
       Node.spawned (Node._send_rms 0 q c0) = Node.spawned c0 ++ [g]
       ∧ match Node.routing_table (Node.self c0) with
         | [] => g = Broadcast (Node.id (Node.self c0)) q
         | _ => ∃ sink e, In (sink, e) (Node.routing_table (Node.self c0))
                          ∧ packet_of g = readdressed sink (Node.hop_distance e + 1) q
         end)
  ∧ (∀ cs, Forall (fun c0 => Node.routing_table (Node.self c0) = []) cs →
           (1 ≤ length cs)%nat → Pkt.hop_count p ≤ Z.of_nat (length cs) →
           relay 0 p cs = None).
Proof.
  intros n c p. apply (ttl_rule 0 p c).
  - vm_compute. set_solver.
  - intros [H _]. discriminate.
Defined.

(** A data packet that is forwarded more often than MAX_HOPS and still
    delivered: in the line of five nodes every relay has a route to the
    sink, so every forward resets the remaining hops. *)
Lemma ttl_reset_counterexample :
  Sim.initial line_start
  ∧ Sim.run line_start (line_run 25).1 (line_run 25).2
  ∧ Z.of_nat (length (List.filter (transmits (4, 1)) (line_run 25).1)) = Node.MAX_HOPS + 1
  ∧ deliveries 0 (4, 1) (line_run 25).1 = 1.
Proof.
  split; [exact line_initial|]. split; [exact (line_runs 25)|].
  vm_compute. split; reflexivity.
Qed.

(** ** The constructor checks nothing *)

Lemma choice_nonempty {A} (l : list A) r :
  l ≠ [] → ∃ a, (Rng.choice l r).1 = Some a ∧ a ∈ l.
Proof.
  intros Hl. unfold Rng.choice. destruct (Rng.next r) as [d r']. simpl.
  assert (Rng.pick d mod length l < length l)%nat as Hlt.
  { apply Nat.mod_upper_bound. destruct l; [done | simpl; lia]. }
  destruct (lookup_lt_is_Some_2 l _ Hlt) as [a Ha]. exists a.
  split; [done | by eapply list_elem_of_lookup_2].
Qed.

Lemma sample_mesh_empty attempts e x0 y0 r :
  (1 ≤ attempts)%nat → ∃ xy r', Engine.sample_mesh attempts e x0 y0 [] r = (Some xy, r').
Proof.
  destruct attempts as [|k]; [lia|]. intros _. simpl.
  destruct (Rng.uniform x0 (x0 + 80) r) as [x r1].
  destruct (Rng.uniform y0 (y0 + 80) r1) as [y r2].
  simpl. by eexists _, _.
Qed.

Lemma create_mesh_total e p : ∃ p', Engine.create_mesh e p = Engine.Ok p'.
Proof.
  unfold Engine.create_mesh.
  destruct (Engine.static_positions p) as [|s l] eqn:Hs.
  - destruct (sample_mesh_empty 200 e ((Engine.width e - 80) / 2)%Q
                ((Engine.height e - 80) / 2)%Q (Engine.rng p)) as (xy & r' & ->); [lia|].
    by eexists.
  - destruct (Engine.sample_mesh _ _ _ _ _ _) as [[xy|] r1]; [by eexists|].
    destruct (choice_nonempty (s :: l) r1) as (a & Ha & _); [done|].
    destruct (Rng.choice (s :: l) r1) as [o r2]. simpl in Ha. subst o.
    destruct (Rng.angle r2). by eexists.
Qed.

Lemma repeat_result_total {A} (f : A → Engine.result A) n :
  (∀ a, ∃ a', f a = Engine.Ok a') → ∀ a, ∃ a', Engine.repeat_result n f a = Engine.Ok a'.
Proof.
  intros Hf. induction n as [|n IH]; intros a; simpl; [by eexists|].
  destruct (Hf a) as [a1 ->]. apply IH.
Qed.

Lemma add_node_length is_sink is_mobile xy static r p :
  length (Engine.placed_nodes (Engine.add_node is_sink is_mobile xy static r p))
  = S (length (Engine.placed_nodes p)).
Proof. unfold Engine.add_node. cbn. rewrite length_app. simpl. lia. Qed.

Lemma create_sinks_length e l : ∀ p,
  length (Engine.placed_nodes (fold_left (Engine.create_sink e) l p))
  = (length (Engine.placed_nodes p) + length l)%nat.
Proof.
  induction l as [|pos l IH]; intros p; simpl; [lia|]. rewrite IH.
  unfold Engine.create_sink. destruct (Engine.place_sink _ _ _ _ _ _).
  rewrite add_node_length. lia.
Qed.

Lemma create_mesh_length e n : ∀ p p',
  Engine.repeat_result n (Engine.create_mesh e) p = Engine.Ok p' →
  length (Engine.placed_nodes p') = (length (Engine.placed_nodes p) + n)%nat.
Proof.
  induction n as [|n IH]; intros p p'; simpl; [intros [= <-]; lia|].
  destruct (Engine.create_mesh e p) as [p1| |] eqn:E; [|discriminate..].
  intros H. rewrite (IH _ _ H).
  assert (length (Engine.placed_nodes p1) = S (length (Engine.placed_nodes p))) as ->; [|lia].
  unfold Engine.create_mesh in E.
  destruct (Engine.sample_mesh _ _ _ _ _ _) as [[xy|] r1].
  - injection E as <-. apply add_node_length.
  - destruct (Rng.choice _ _) as [[o|] r2]; [|discriminate].
    destruct (Rng.angle r2). injection E as <-. apply add_node_length.
Qed.

Lemma create_mobile_length e p :
  length (Engine.placed_nodes (Engine.create_mobile e p))
  = S (length (Engine.placed_nodes p)).
Proof.
  unfold Engine.create_mobile.
  destruct (Rng.uniform 0 (Engine.width e) (Engine.rng p)) as [x r1].
  destruct (Rng.uniform 0 (Engine.height e) r1) as [y r2].
  apply add_node_length.
Qed.

Lemma create_mobiles_length e n p :
  length (Engine.placed_nodes (Nat.iter n (Engine.create_mobile e) p))
  = (length (Engine.placed_nodes p) + n)%nat.
Proof.
  induction n as [|n IH]; [simpl; lia|].
  rewrite Nat.iter_succ, create_mobile_length, IH. lia.
Qed.

(** [_create_nodes] raises nothing, touches only the node list, and
    creates one node per sink position and per counted mesh or mobile node
    (none for a negative count). *)
Lemma create_nodes_spec e r :
  match Engine._create_nodes e r with
  | Engine.Ok (e', _) =>
      e' = Engine.set_nodes (Engine.nodes e') e
      ∧ length (Engine.nodes e')
        = (length (Engine.sink_positions e) + Z.to_nat (Engine.mesh_count e)
           + Z.to_nat (Engine.mobile_count e))%nat
  | Engine.Raise _ => False
  | Engine.OutOfFuel => False
  end.
Proof.
  unfold Engine._create_nodes.
  set (p1 := fold_left _ _ _).
  destruct (repeat_result_total (Engine.create_mesh e) (Z.to_nat (Engine.mesh_count e))
              (create_mesh_total e) p1) as [p2 E].
  rewrite E. split; [done|]. cbn.
  rewrite create_mobiles_length, (create_mesh_length _ _ _ _ E).
  subst p1. by rewrite create_sinks_length.
Qed.

Lemma candidates_lookup (ns : list Node.t) static node a :
  a ∈ Engine.candidates ns static node → is_Some (ns !! a).
Proof.
  unfold Engine.candidates. rewrite list_elem_of_In, filter_In. intros [_ H].
  by destruct (ns !! a).
Qed.




Lemma same_protocol_length ns ns' : Forall2 same_protocol ns ns' → length ns = length ns'.
Proof. apply Forall2_length. Qed.



(** * The repair pass *)

(** ** Clamping *)

Lemma clamp_cases bound v :
  (0 <= bound)%Q →
  (v < 0 ∧ clamp bound v = 0%Q)%Q
  ∨ (0 <= v <= bound ∧ (clamp bound v == v))%Q
  ∨ (bound < v ∧ (clamp bound v == bound))%Q.
Proof.
  intros Hb. unfold clamp, pymax, pymin.
  destruct (Qlt_bool v bound) eqn:E1.
  - apply Qlt_bool_true in E1. destruct (Qlt_bool 0 v) eqn:E2.
    + apply Qlt_bool_true in E2. right. left. split; [lra | reflexivity].
    + assert (v <= 0)%Q as Hv.
      { apply Qnot_lt_le. intros H. apply Qlt_bool_true in H. congruence. }
      destruct (Qlt_le_dec v 0) as [Hlt|Hge]; [by left|].
      right. left. split; [lra | lra].
  - assert (bound <= v)%Q as Hv.
    { apply Qnot_lt_le. intros H. apply Qlt_bool_true in H. congruence. }
    destruct (Qlt_bool 0 bound) eqn:E2.
    + apply Qlt_bool_true in E2. destruct (Qlt_le_dec bound v) as [Hlt|Hge].
      * right. right. split; [done | reflexivity].
      * right. left. split; [lra | lra].
    + assert (bound <= 0)%Q as Hb0.
      { apply Qnot_lt_le. intros H. apply Qlt_bool_true in H. congruence. }
      destruct (Qlt_le_dec bound v) as [Hlt|Hge].
      * right. right. split; [done | lra].
      * right. left. split; [lra | lra].
Qed.

Lemma clamp_inside bound v : (0 <= bound)%Q → (0 <= clamp bound v <= bound)%Q.
Proof.
  intros Hb. destruct (clamp_cases bound v Hb) as [[? ->]|[[? ->]|[? ->]]]; lra.
Qed.

(** Clamping an offset point does not move it away from a point of the
    interval. *)
Lemma clamp_offset bound a u :
  (0 <= a <= bound)%Q → (sq (clamp bound (a + u) - a) <= sq u)%Q.
Proof.
  intros Ha. unfold sq.
  destruct (clamp_cases bound (a + u)) as [[? ->]|[[? ->]|[? ->]]]; [lra|..]; nra.
Qed.

(** A clamped offset of at most the range from a node of the area is
    within range of it. *)
Lemma offset_within_range e anchor node u v :
  inside e anchor → (sq u + sq v <= sq Node.COMM_RANGE)%Q →
  within_range
    (Node.set_pos (clamp (Engine.width e) (Node.x anchor + u))
                  (clamp (Engine.height e) (Node.y anchor + v)) node)
    anchor.
Proof.
  intros [Hx Hy] Huv. unfold within_range. cbn.
  pose proof (clamp_offset (Engine.width e) (Node.x anchor) u Hx) as H1.
  pose proof (clamp_offset (Engine.height e) (Node.y anchor) v Hy) as H2.
  lra.
Qed.

(** The two radii of the repair, 0.8 and 0.99 of the range. *)
Lemma ring_offset (cs : Q * Q) :
  (sq cs.1 + sq cs.2 <= 1)%Q →
  (sq (Node.COMM_RANGE * (8 # 10) * cs.1) + sq (Node.COMM_RANGE * (8 # 10) * cs.2)
   <= sq Node.COMM_RANGE)%Q.
Proof. unfold sq, Node.COMM_RANGE. intros H. nra. Qed.

Lemma forced_offset (cs : Q * Q) :
  (sq cs.1 + sq cs.2 <= 1)%Q →
  (sq (Node.COMM_RANGE * cs.1 * (99 # 100)) + sq (Node.COMM_RANGE * cs.2 * (99 # 100))
   <= sq Node.COMM_RANGE)%Q.
Proof. unfold sq, Node.COMM_RANGE. intros H. nra. Qed.

(** ** The random source keeps its tape *)

Lemma angle_spec r :
  (Rng.angle r).1 = Rng.dir (Rng.tape r (Rng.cursor r))
  ∧ Rng.tape (Rng.angle r).2 = Rng.tape r.
Proof. done. Qed.

Lemma choice_tape {A} (l : list A) r : Rng.tape (Rng.choice l r).2 = Rng.tape r.
Proof. done. Qed.

(** What the fifty attempts come to: a clamped ring point in a direction
    of the tape, or nothing. *)
Lemma try_ring_spec attempts e ns static node anchor : ∀ r,
  let res := Engine.try_ring attempts e ns static node anchor r in
  Rng.tape res.2 = Rng.tape r
  ∧ ∀ xy, res.1 = Some xy →
      ∃ k, xy = (clamp (Engine.width e)
                   (Node.x anchor + Node.COMM_RANGE * (8 # 10) * (Rng.dir (Rng.tape r k)).1),
                 clamp (Engine.height e)
                   (Node.y anchor + Node.COMM_RANGE * (8 # 10) * (Rng.dir (Rng.tape r k)).2)).
Proof.
  induction attempts as [|k IH]; intros r; simpl; [done|].
  destruct (Engine.min_dist_ok _ _ _ _ _ _) eqn:E; simpl.
  - split; [done|]. intros xy [= <-]. by exists (Rng.cursor r).
  - destruct (IH (Rng.mk (Rng.tape r) (S (Rng.cursor r)))) as [Ht Hxy]. done.
Qed.

(** ** Lonely nodes *)

Lemma lonelyb_true (ns : list Node.t) (i : nat) n :
  ns !! i = Some n →
  lonelyb ns i = true ↔ ∀ j m, j ≠ i → ns !! j = Some m → ¬ within_range n m.
Proof.
  intros Hi. unfold lonelyb. rewrite Hi, forallb_forall. split.
  - intros H j m Hne Hj Hr. apply in_range_spec in Hr.
    specialize (H j). rewrite Hj, Hr in H.
    assert (j < length ns)%nat by (by eapply lookup_lt_Some).
    specialize (H ltac:(apply in_seq; lia)).
    apply orb_true_iff in H as [H|H]; [apply Nat.eqb_eq in H; lia | done].
  - intros H j _. destruct (Nat.eqb_spec j i) as [|Hne]; [done|]. simpl.
    destruct (ns !! j) as [m|] eqn:Hj; [|done].
    apply negb_true_iff, not_true_iff_false. intros Hr. apply in_range_spec in Hr.
    by apply (H j m).
Qed.

Lemma forallb_false {A} (f : A → bool) l :
  forallb f l = false → ∃ x, In x l ∧ f x = false.
Proof.
  induction l as [|a l IH]; simpl; [discriminate|].
  intros [H|H]%andb_false_iff; [by exists a; auto|].
  destruct (IH H) as (x & ? & ?). exists x. auto.
Qed.

Lemma lonelyb_false (ns : list Node.t) (i : nat) n :
  ns !! i = Some n → lonelyb ns i = false ↔ has_neighbor ns i.
Proof.
  intros Hi. split.
  - unfold lonelyb. rewrite Hi. intros (j & _ & Hj)%forallb_false.
    apply orb_false_iff in Hj as [Hne Hj]. apply Nat.eqb_neq in Hne.
    destruct (ns !! j) as [m|] eqn:Em; [|done].
    apply negb_false_iff, in_range_spec in Hj. by exists n, j, m.
  - intros (n' & j & m & Hi' & Hne & Hj & Hr). rewrite Hi in Hi'. injection Hi' as <-.
    apply not_true_iff_false. intros H.
    by apply (proj1 (lonelyb_true ns i n Hi) H j m).
Qed.

(** After a recomputation, an empty neighbour list means a lonely node. *)
Lemma no_neighbors_lonely (ns : list Node.t) (i : nat) n' :
  Engine.update_neighbors_nodes ns !! i = Some n' →
  Node.neighbors n' = [] ↔ lonelyb ns i = true.
Proof.
  intros Hi'.
  destruct (Forall2_lookup_r _ _ _ _ _ (update_neighbors_same_place ns) Hi') as (n & Hi & _).
  rewrite (lonelyb_true ns i n Hi). split.
  - intros Hnil j m Hne Hj Hr.
    assert (Node.id m ∈ Node.neighbors n') as Hin.
    { apply (update_neighbors_elem ns i n n' _ Hi Hi'). by exists j, m. }
    rewrite Hnil in Hin. by apply elem_of_nil in Hin.
  - intros H. destruct (Node.neighbors n') as [|z l] eqn:E; [done|]. exfalso.
    assert (z ∈ Node.neighbors n') as Hin by (rewrite E; left).
    apply (update_neighbors_elem ns i n n' _ Hi Hi') in Hin as (j & m & Hne & Hj & _ & Hr).
    by apply (H j m).
Qed.

(** ** One stationary node at a time *)

Lemma candidates_elem (ns : list Node.t) static node a :
  a ∈ Engine.candidates ns static node ↔
  a ∈ static ∧ ∃ m, ns !! a = Some m ∧ Node.id m ≠ Node.id node.
Proof.
  unfold Engine.candidates. rewrite list_elem_of_In, filter_In, <- list_elem_of_In.
  split.
  - intros [Hs H]. split; [done|]. destruct (ns !! a) as [m|]; [|done].
    exists m. split; [done|]. apply negb_true_iff in H. by apply Z.eqb_neq.
  - intros [Hs (m & -> & H)]. split; [done|]. apply negb_true_iff. by apply Z.eqb_neq.
Qed.

(** Moving a node that was lonely at the start of the pass next to an
    anchor. *)
Lemma pass_inv_move e static ns tape visited visited' st i node a anchor px py r1 :
  pass_inv e static ns tape visited st →
  i ∈ static → lonelyb ns i = true →
  Engine.r_nodes st !! i = Some node → a ≠ i →
  Engine.r_nodes st !! a = Some anchor →
  inside e (Node.set_pos px py node) →
  within_range (Node.set_pos px py node) anchor →
  Rng.tape r1 = tape →
  pass_inv e static ns tape visited'
    (Engine.mk_repairing (alter (Node.set_pos px py) i (Engine.r_nodes st)) r1 true).
Proof.
  intros [Hsame Hun Hin Htape Hstill Hprog] Hi Hlone Hnode Hne Hanchor Hins Hr Ht.
  split; cbn.
  - apply Forall2_lookup. intros j. destruct (decide (j = i)) as [->|Hj].
    + rewrite list_lookup_alter_eq, Hnode. simpl.
      destruct (Forall2_lookup_r _ _ _ _ _ Hsame Hnode) as (n0 & -> & Hp & Hnb).
      constructor. split; [|done].
      eapply same_protocol_trans; [exact Hp | by repeat split].
    + rewrite list_lookup_alter_ne by done. by apply Forall2_lookup.
  - intros j Hj. rewrite list_lookup_alter_ne; [by apply Hun|].
    intros ->. destruct Hj as [Hj|Hj]; [done | congruence].
  - intros j n Hj. destruct (decide (j = i)) as [->|Hji].
    + rewrite list_lookup_alter_eq, Hnode. simpl. by intros [= <-].
    + rewrite list_lookup_alter_ne by done. by apply Hin.
  - done.
  - discriminate.
  - intros _. exists i. split; [done|]. split; [done|].
    exists (Node.set_pos px py node), a, anchor.
    split; [by rewrite list_lookup_alter_eq, Hnode|]. split; [done|].
    split; [by rewrite list_lookup_alter_ne|]. done.
Qed.

Lemma pass_inv_visit e static ns tape visited st i :
  pass_inv e static ns tape visited st →
  (Engine.changed st = false →
   ∀ n, Engine.r_nodes st !! i = Some n → lonelyb ns i = true →
        Engine.candidates (Engine.r_nodes st) static n = []) →
  pass_inv e static ns tape (i :: visited) st.
Proof.
  intros [Hsame Hun Hin Htape Hstill Hprog] Hi. split; try done.
  intros Hc. destruct (Hstill Hc) as [Heq Hv]. split; [done|].
  intros i' n [->|Hi']%elem_of_cons; [by apply Hi | by apply Hv].
Qed.

Lemma pass_inv_changed e static ns tape visited visited' st r1 :
  pass_inv e static ns tape visited st → Engine.changed st = true →
  Rng.tape r1 = tape →
  pass_inv e static ns tape visited' (Engine.mk_repairing (Engine.r_nodes st) r1 true).
Proof.
  intros [Hsame Hun Hin Htape Hstill Hprog] Hc Ht. split; cbn; try done.
  intros _. by apply Hprog.
Qed.

(** The body of the loop keeps the invariant and raises nothing. *)
Lemma repair_node_step e static ns tape visited st i :
  (0 <= Engine.width e)%Q → (0 <= Engine.height e)%Q → unit_dirs tape →
  pass_inv e static ns tape visited st → i ∈ static →
  ∃ st', Engine.repair_node e static st i = Engine.Ok st'
         ∧ pass_inv e static ns tape (i :: visited) st'.
Proof.
  intros Hw Hh Hunit Hinv Hi. unfold Engine.repair_node.
  destruct (Engine.r_nodes st !! i) as [node|] eqn:Hnode.
  2: { exists st. split; [done|]. apply pass_inv_visit; [done|]. intros _ n Hn. congruence. }
  destruct (Forall2_lookup_r _ _ _ _ _ (pi_same _ _ _ _ _ _ Hinv) Hnode)
    as (n0 & Hn0 & Hp & Hnb).
  destruct (length (Node.neighbors node) =? 0)%nat eqn:El.
  2: { exists st. split; [done|]. apply pass_inv_visit; [done|].
       intros _ n _ Hl. apply (no_neighbors_lonely ns i n0 Hn0) in Hl.
       rewrite Hnb, Hl in El. done. }
  assert (lonelyb ns i = true) as Hlone.
  { apply (no_neighbors_lonely ns i n0 Hn0). rewrite <- Hnb.
    apply Nat.eqb_eq in El. by destruct (Node.neighbors node). }
  destruct (Engine.candidates _ _ _) as [|c cs] eqn:Hc.
  { exists st. split; [done|]. apply pass_inv_visit; [done|]. intros _ n Hn _. congruence. }
  destruct (choice_nonempty (c :: cs) (Engine.r_rng st)) as (a & Ha & Hin); [done|].
  pose proof (choice_tape (c :: cs) (Engine.r_rng st)) as Htc.
  destruct (Rng.choice (c :: cs) _) as [o r]. simpl in Ha, Htc. subst o.
  rewrite <- Hc in Hin. apply candidates_elem in Hin as (Has & anchor & Hanchor & Hid).
  rewrite Hanchor.
  assert (a ≠ i) as Hai by (intros ->; congruence).
  pose proof (pi_inside _ _ _ _ _ _ Hinv a anchor Has Hanchor) as Hains.
  pose proof (pi_tape _ _ _ _ _ _ Hinv) as Htape.
  pose proof (try_ring_spec 50 e (Engine.r_nodes st) static node anchor r) as [Htr Hxy].
  destruct (Engine.try_ring _ _ _ _ _ _ _) as [[xy|] r1]; simpl in Htr, Hxy.
  - destruct (Hxy xy eq_refl) as (k & ->). eexists. split; [done|]. simpl.
    eapply pass_inv_move; eauto.
    + split; cbn; by apply clamp_inside.
    + apply offset_within_range; [done|]. apply ring_offset.
      rewrite Htc, Htape. apply Hunit.
    + congruence.
  - destruct (Engine.changed st) eqn:Hch.
    + eexists. split; [done|]. eapply pass_inv_changed; eauto. congruence.
    + eexists. split; [done|]. unfold Engine.forced_position. simpl.
      eapply pass_inv_move; eauto.
      * split; cbn; by apply clamp_inside.
      * apply offset_within_range; [done|]. apply forced_offset.
        rewrite Htr, Htc, Htape. apply Hunit.
      * cbn. congruence.
Qed.

(** The [for] loop over the stationary nodes. *)
Lemma repair_nodes_fold e static ns tape :
  (0 <= Engine.width e)%Q → (0 <= Engine.height e)%Q → unit_dirs tape →
  ∀ l visited st,
    pass_inv e static ns tape visited st → l ⊆ static →
    ∃ st', Engine.fold_result (Engine.repair_node e static) l st = Engine.Ok st'
           ∧ pass_inv e static ns tape (rev l ++ visited) st'.
Proof.
  intros Hw Hh Hunit. induction l as [|i l IH]; intros visited st Hinv Hl; simpl.
  - by exists st.
  - destruct (repair_node_step e static ns tape visited st i) as (st1 & -> & Hinv1);
      [done.. | apply Hl; left |].
    destruct (IH (i :: visited) st1 Hinv1) as (st' & -> & Hinv').
    { intros j Hj. apply Hl. by right. }
    exists st'. split; [done|]. by rewrite <- app_assoc.
Qed.

(** The state a pass starts from. *)
Lemma pass_inv_start e static (ns : list Node.t) r :
  (∀ (j : nat) n, j ∈ static → ns !! j = Some n → inside e n) →
  pass_inv e static ns (Rng.tape r) []
    (Engine.mk_repairing (Engine.update_neighbors_nodes ns) r false).
Proof.
  intros Hin. split; cbn; try done.
  - apply Forall2_lookup. intros j.
    destruct (Engine.update_neighbors_nodes ns !! j); constructor.
    split; [apply same_protocol_refl | done].
  - intros j n Hj Hn.
    destruct (Forall2_lookup_r _ _ _ _ _ (update_neighbors_same_place ns) Hn)
      as (n0 & Hn0 & Hpl).
    destruct (Hin j n0 Hj Hn0) as [Hx Hy]. destruct Hpl as (_ & Hpx & Hpy).
    unfold inside. by rewrite Hpx, Hpy.
  - intros _. split; [done|]. intros i n Hi. by apply elem_of_nil in Hi.
Qed.

(** ** The measure of the loop *)

Lemma filter_length_le {A} (f g : A → bool) l :
  (∀ x, In x l → g x = true → f x = true) →
  (length (List.filter g l) <= length (List.filter f l))%nat.
Proof.
  induction l as [|a l IH]; intros H; simpl; [lia|].
  specialize (IH (fun x Hx => H x (or_intror Hx))).
  pose proof (H a (or_introl eq_refl)) as Ha.
  destruct (g a), (f a); simpl; first [lia | by specialize (Ha eq_refl)].
Qed.

Lemma filter_length_lt {A} (f g : A → bool) l x :
  (∀ x, In x l → g x = true → f x = true) →
  In x l → f x = true → g x = false →
  (length (List.filter g l) < length (List.filter f l))%nat.
Proof.
  induction l as [|a l IH]; intros H Hx Hf Hg; simpl; [done|].
  pose proof (filter_length_le f g l (fun x Hx => H x (or_intror Hx))) as Hle.
  destruct Hx as [->|Hx].
  - rewrite Hf, Hg. simpl. lia.
  - specialize (IH (fun x Hx => H x (or_intror Hx)) Hx Hf Hg).
    pose proof (H a (or_introl eq_refl)) as Ha.
    destruct (g a), (f a); simpl; first [lia | by specialize (Ha eq_refl)].
Qed.

(** Nodes that have a node within range at the start of a pass keep it:
    neither of the two moves. *)
Lemma pass_keeps_neighbors e static ns tape visited st (j : nat) :
  pass_inv e static ns tape visited st →
  has_neighbor ns j → has_neighbor (Engine.r_nodes st) j.
Proof.
  intros Hinv (n & k & m & Hj & Hne & Hk & Hr).
  assert (lonelyb ns j = false) as Lj.
  { apply (lonelyb_false ns j n Hj). by exists n, k, m. }
  assert (lonelyb ns k = false) as Lk.
  { apply (lonelyb_false ns k m Hk). exists m, j, n.
    split; [done|]. split; [done|]. split; [done | by apply within_range_sym]. }
  destruct (Forall2_lookup_l _ _ _ _ _ (update_neighbors_same_place ns) Hj)
    as (n' & Hj' & _ & Hxj & Hyj).
  destruct (Forall2_lookup_l _ _ _ _ _ (update_neighbors_same_place ns) Hk)
    as (m' & Hk' & _ & Hxk & Hyk).
  exists n', k, m'.
  rewrite (pi_unmoved _ _ _ _ _ _ Hinv j), (pi_unmoved _ _ _ _ _ _ Hinv k) by auto.
  repeat split; try done. unfold within_range in *.
  by rewrite Hxj, Hyj, Hxk, Hyk.
Qed.

Lemma pass_length e static ns tape visited st :
  pass_inv e static ns tape visited st → length (Engine.r_nodes st) = length ns.
Proof.
  intros Hinv. rewrite <- (Forall2_length _ _ _ (pi_same _ _ _ _ _ _ Hinv)).
  symmetry. apply (Forall2_length _ _ _ (update_neighbors_same_place ns)).
Qed.

(** A pass that moved something leaves fewer lonely stationary nodes. *)
Lemma pass_progress e static ns tape visited st :
  pass_inv e static ns tape visited st → Engine.changed st = true →
  (lonely_count static (Engine.r_nodes st) < lonely_count static ns)%nat.
Proof.
  intros Hinv Hc. destruct (pi_progress _ _ _ _ _ _ Hinv Hc) as (i & Hi & Hl & Hn).
  unfold lonely_count. apply (filter_length_lt _ _ _ i).
  - intros j _ Hj. destruct (lonelyb ns j) eqn:E; [done|]. exfalso.
    destruct (ns !! j) as [n|] eqn:Hnj.
    + apply (lonelyb_false ns j n Hnj) in E.
      apply (pass_keeps_neighbors _ _ _ _ _ _ _ Hinv) in E.
      destruct E as (n' & k & m & Hj' & E).
      assert (lonelyb (Engine.r_nodes st) j = false); [|congruence].
      apply (lonelyb_false _ j n' Hj'). by exists n', k, m.
    + unfold lonelyb in Hj.
      assert (Engine.r_nodes st !! j = None) as Hnone.
      { apply lookup_ge_None. rewrite (pass_length _ _ _ _ _ _ Hinv).
        by apply lookup_ge_None. }
      by rewrite Hnone in Hj.
  - by apply list_elem_of_In.
  - done.
  - destruct Hn as (n & k & m & Hi' & Hn).
    apply (lonelyb_false _ i n Hi'). by exists n, k, m.
Qed.

(** ** The loop returns *)

Lemma repair_loop_total e static :
  (0 <= Engine.width e)%Q → (0 <= Engine.height e)%Q →
  ∀ (m fuel : nat) (ns : list Node.t) r,
    unit_dirs (Rng.tape r) →
    (∀ (j : nat) n, j ∈ static → ns !! j = Some n → inside e n) →
    (lonely_count static ns <= m)%nat → (m < fuel)%nat →
    ∃ ns' r', Engine.repair_loop fuel e static ns r = Engine.Ok (ns', r').
Proof.
  intros Hw Hh. induction m as [|m IH]; intros fuel ns r Hunit Hin Hm Hf.
  all: destruct fuel as [|fuel]; [lia|]; simpl.
  all: destruct (repair_nodes_fold e static ns (Rng.tape r) Hw Hh Hunit static []
                   (Engine.mk_repairing (Engine.update_neighbors_nodes ns) r false))
         as (st & -> & Hinv); [by apply pass_inv_start | done |].
  all: destruct (Engine.changed st) eqn:Hc; [|by eauto].
  all: pose proof (pass_progress _ _ _ _ _ _ Hinv Hc) as Hlt; [lia ||idtac].
  apply IH.
  - by rewrite (pi_tape _ _ _ _ _ _ Hinv).
  - apply (pi_inside _ _ _ _ _ _ Hinv).
  - lia.
  - lia.
Qed.

(** ** What a finished repair leaves *)

Lemma repair_node_still e static start visited st i st' :
  Engine.repair_node e static st i = Engine.Ok st' →
  pass_still static start visited st → pass_still static start (i :: visited) st'.
Proof.
  unfold Engine.repair_node. intros Hst Hinv.
  assert (∀ (P : Prop), (Engine.changed st = false → Engine.r_nodes st = start →
             ∀ n, start !! i = Some n →
               Node.neighbors n ≠ [] ∨ Engine.candidates start static n = []) →
          pass_still static start (i :: visited) st) as Hkeep.
  { intros _ H Hc. destruct (Hinv Hc) as [Heq Hv]. split; [done|].
    intros i' n [->|Hi']%elem_of_cons; [by apply H | by apply Hv]. }
  destruct (Engine.r_nodes st !! i) as [node|] eqn:Hnode.
  2: { injection Hst as <-. apply (Hkeep True). intros _ <- n Hn. congruence. }
  destruct (length (Node.neighbors node) =? 0)%nat eqn:El.
  2: { injection Hst as <-. apply (Hkeep True). intros _ <- n Hn. left.
       assert (n = node) as -> by congruence. by destruct (Node.neighbors node). }
  destruct (Engine.candidates _ _ _) as [|c cs] eqn:Hc.
  { injection Hst as <-. apply (Hkeep True). intros _ <- n Hn. right.
    assert (n = node) as -> by congruence. done. }
  destruct (Rng.choice _ _) as [[a|] r]; [|done].
  destruct (Engine.r_nodes st !! a) as [anchor|]; [|done].
  destruct (Engine.try_ring _ _ _ _ _ _ _) as [[xy|] r1].
  - injection Hst as <-. intros Hch. done.
  - destruct (Engine.changed st) eqn:Hch; injection Hst as <-; intros Hch'; done.
Qed.

Lemma fold_repair_still e static start : ∀ l visited st st',
  Engine.fold_result (Engine.repair_node e static) l st = Engine.Ok st' →
  pass_still static start visited st → pass_still static start (rev l ++ visited) st'.
Proof.
  induction l as [|i l IH]; intros visited st st'; simpl.
  - by intros [= <-].
  - destruct (Engine.repair_node e static st i) as [st1| |] eqn:E; [|done..].
    intros Hst Hinv. rewrite <- app_assoc. apply (IH (i :: visited) st1 st' Hst).
    by eapply repair_node_still.
Qed.

(** When the loop returns, its last pass has moved nothing: the nodes are
    as the last recomputation left them, and every stationary node has a
    neighbour or no candidate anchor. *)
Lemma repair_loop_post fuel e static : ∀ ns r ns' r',
  Engine.repair_loop fuel e static ns r = Engine.Ok (ns', r') →
  (∃ ns0, ns' = Engine.update_neighbors_nodes ns0)
  ∧ ∀ (i : nat) n, i ∈ static → ns' !! i = Some n →
      Node.neighbors n ≠ [] ∨ Engine.candidates ns' static n = [].
Proof.
  induction fuel as [|fuel IH]; intros ns r ns' r'; simpl; [done|].
  destruct (Engine.fold_result _ _ _) as [st| |] eqn:E; [|done..].
  destruct (Engine.changed st) eqn:Hc; [by apply IH|].
  intros [= <- <-].
  apply (fold_repair_still e static (Engine.update_neighbors_nodes ns) _ []) in E.
  2: { intros _. split; [done|]. intros i n Hi. by apply elem_of_nil in Hi. }
  destruct (E Hc) as [-> Hv]. split; [by exists ns|].
  intros i n Hi. apply Hv. rewrite app_nil_r. apply list_elem_of_In.
  rewrite <- in_rev. by apply list_elem_of_In.
Qed.

(** A non-empty recomputed neighbour list means a node within range. *)
Lemma update_neighbors_has_neighbor (ns0 : list Node.t) (i : nat) n :
  Engine.update_neighbors_nodes ns0 !! i = Some n → Node.neighbors n ≠ [] →
  has_neighbor (Engine.update_neighbors_nodes ns0) i.
Proof.
  intros Hi Hne.
  destruct (Forall2_lookup_r _ _ _ _ _ (update_neighbors_same_place ns0) Hi)
    as (n0 & Hi0 & _ & Hx & Hy).
  destruct (Node.neighbors n) as [|z l] eqn:E; [done|].
  assert (z ∈ Node.neighbors n) as Hz by (rewrite E; left).
  apply (update_neighbors_elem ns0 i n0 n z Hi0 Hi) in Hz as (k & m & Hk & Hm & _ & Hr).
  destruct (Forall2_lookup_l _ _ _ _ _ (update_neighbors_same_place ns0) Hm)
    as (m' & Hm' & _ & Hxm & Hym).
  exists n, k, m'. repeat split; try done. unfold within_range in *.
  by rewrite Hx, Hy, Hxm, Hym.
Qed.

Lemma elem_of_static_nodes (ns : list Node.t) (j : nat) :
  j ∈ Engine.static_nodes ns ↔ ∃ n, ns !! j = Some n ∧ Node.is_mobile n = false.
Proof.
  unfold Engine.static_nodes. rewrite list_elem_of_In, filter_In, in_seq. split.
  - intros [_ H]. destruct (ns !! j) as [n|]; [|done]. exists n.
    split; [done|]. by apply negb_true_iff.
  - intros (n & Hn & Hm). rewrite Hn, Hm. split; [|done].
    apply lookup_lt_Some in Hn. lia.
Qed.

Lemma no_candidates_only_static (ns ns' : list Node.t) (i : nat) n :
  Forall2 same_protocol ns ns' → ns' !! i = Some n →
  Engine.candidates ns' (Engine.static_nodes ns) n = [] → only_static ns' i.
Proof.
  intros Hsame Hi Hc n1 j m Hi1 Hj Hm. rewrite Hi in Hi1. injection Hi1 as <-.
  destruct (decide (Node.id m = Node.id n)) as [|Hne]; [done|]. exfalso.
  assert (j ∈ Engine.candidates ns' (Engine.static_nodes ns) n) as Hin.
  { apply candidates_elem. split; [|by exists m].
    destruct (Forall2_lookup_r _ _ _ _ _ Hsame Hj) as (m0 & Hj0 & Hp).
    apply elem_of_static_nodes. exists m0. split; [done|].
    destruct Hp as (_ & _ & Hmob & _). congruence. }
  rewrite Hc in Hin. by apply elem_of_nil in Hin.
Qed.

(** ** A node without an anchor stays *)

(** The candidate anchors of a node depend on the ids alone. *)
Lemma candidates_same_protocol (ns ns' : list Node.t) static n n' :
  Forall2 same_protocol ns ns' → Node.id n' = Node.id n →
  Engine.candidates ns' static n' = Engine.candidates ns static n.
Proof.
  intros H Hid. unfold Engine.candidates. apply filter_ext. intros j. rewrite Hid.
  destruct (ns !! j) as [m|] eqn:Hj.
  - destruct (Forall2_lookup_l _ _ _ _ _ H Hj) as (m' & -> & (-> & _)). done.
  - assert (ns' !! j = None) as ->; [|done].
    apply lookup_ge_None. apply lookup_ge_None in Hj.
    by rewrite <- (Forall2_length _ _ _ H).
Qed.

Lemma stays_same_place static n k ns ns' :
  Forall2 same_place ns ns' → stays static n k ns → stays static n k ns'.
Proof.
  intros H (n1 & Hk & Hx & Hy & Hc).
  destruct (same_place_lookup _ _ _ _ H Hk) as (n2 & Hk2 & Hp).
  exists n2. split; [done|]. destruct Hp as (Hpr & Hx2 & Hy2).
  split; [congruence|]. split; [congruence|].
  rewrite <- Hc. apply candidates_same_protocol; [by apply same_place_protocol | apply Hpr].
Qed.

Lemma stays_alter static n k ns (i : nat) px py :
  i ≠ k → stays static n k ns → stays static n k (alter (Node.set_pos px py) i ns).
Proof.
  intros Hne (n1 & Hk & Hx & Hy & Hc). exists n1.
  rewrite list_lookup_alter_ne by done. split; [done|]. split; [done|]. split; [done|].
  rewrite <- Hc. apply candidates_same_protocol; [apply same_protocol_alter_pos | done].
Qed.

Lemma repair_node_stays e static st i st' n k :
  Engine.repair_node e static st i = Engine.Ok st' →
  stays static n k (Engine.r_nodes st) → stays static n k (Engine.r_nodes st').
Proof.
  unfold Engine.repair_node. intros Hst Hk.
  destruct (Engine.r_nodes st !! i) as [node|] eqn:Hnode; [|by injection Hst as <-].
  destruct (length (Node.neighbors node) =? 0)%nat; [|by injection Hst as <-].
  destruct (Engine.candidates _ _ node) as [|c cs] eqn:Hc; [by injection Hst as <-|].
  assert (i ≠ k) as Hne.
  { intros ->. destruct Hk as (n1 & Hn1 & _ & _ & Hc1). congruence. }
  destruct (Rng.choice _ _) as [[a|] r]; [|done].
  destruct (Engine.r_nodes st !! a) as [anchor|]; [|done].
  destruct (Engine.try_ring _ _ _ _ _ _ _) as [[xy|] r1].
  - injection Hst as <-. by apply stays_alter.
  - destruct (Engine.changed st).
    + by injection Hst as <-.
    + destruct (Rng.angle r1) as [dir r2]. injection Hst as <-. by apply stays_alter.
Qed.

Lemma fold_repair_stays e static n k l : ∀ st st',
  Engine.fold_result (Engine.repair_node e static) l st = Engine.Ok st' →
  stays static n k (Engine.r_nodes st) → stays static n k (Engine.r_nodes st').
Proof.
  induction l as [|i l IH]; intros st st'; simpl; [by intros [= <-]|].
  destruct (Engine.repair_node e static st i) as [st1| |] eqn:E; [|done..].
  intros Hst Hk. apply (IH st1 st' Hst). by eapply repair_node_stays.
Qed.

(** The loop never moves a stationary node that has no other stationary
    node to be moved to. *)
Lemma repair_loop_stays fuel e static n k : ∀ ns r ns' r',
  Engine.repair_loop fuel e static ns r = Engine.Ok (ns', r') →
  stays static n k ns → stays static n k ns'.
Proof.
  induction fuel as [|fuel IH]; intros ns r ns' r'; simpl; [done|].
  destruct (Engine.fold_result _ _ _) as [st| |] eqn:E; [|done..].
  intros Hres Hk.
  assert (stays static n k (Engine.r_nodes st)) as Hst.
  { apply (fold_repair_stays e static n k _ _ _ E). cbn.
    eapply stays_same_place; [apply update_neighbors_same_place | done]. }
  destruct (Engine.changed st); [by eapply IH|]. by injection Hres as <- <-.
Qed.

(** ** The repair pass as a whole *)

(** C8, as the code has it: on an area of non-negative size, with every
    stationary node placed in it and the directions drawn from the unit
    disc, [_ensure_each_has_neighbor] returns once its loop is given more
    passes than there are lonely stationary nodes; it has changed positions
    and neighbour lists only, and every stationary node then has a
    non-empty neighbour list and a node within range, unless it is the only
    stationary node, which is left where it was. *)
Theorem repair_connects e r fuel :
  (0 <= Engine.width e)%Q → (0 <= Engine.height e)%Q → unit_dirs (Rng.tape r) →
  (∀ (i : nat) n, Engine.nodes e !! i = Some n → Node.is_mobile n = false → inside e n) →
  (lonely_count (Engine.static_nodes (Engine.nodes e)) (Engine.nodes e) < fuel)%nat →
  ∃ e' r', Engine._ensure_each_has_neighbor fuel e r = Engine.Ok (e', r')
    ∧ Forall2 same_protocol (Engine.nodes e) (Engine.nodes e')
    ∧ ∀ (i : nat) n, Engine.nodes e' !! i = Some n → Node.is_mobile n = false →
        connected (Engine.nodes e') i
        ∨ (only_static (Engine.nodes e') i
           ∧ ∃ n0, Engine.nodes e !! i = Some n0
                   ∧ Node.x n = Node.x n0 ∧ Node.y n = Node.y n0).
Proof.
  intros Hw Hh Hunit Hin Hfuel. unfold Engine._ensure_each_has_neighbor.
  destruct (repair_loop_total e (Engine.static_nodes (Engine.nodes e)) Hw Hh
              (lonely_count (Engine.static_nodes (Engine.nodes e)) (Engine.nodes e))
              fuel (Engine.nodes e) r Hunit) as (ns' & r' & E); [|done..|].
  { intros j n (n1 & Hj & Hm)%elem_of_static_nodes Hn.
    apply (Hin j); congruence. }
  rewrite E. exists (Engine.set_nodes ns' e), r'. split; [done|]. cbn.
  pose proof (repair_loop_same_protocol _ _ _ _ _ _ _ E) as Hsame.
  destruct (repair_loop_post _ _ _ _ _ _ _ E) as [[ns0 ->] Hpost].
  split; [done|]. intros i n Hi Hmob.
  destruct (Forall2_lookup_r _ _ _ _ _ Hsame Hi) as (n0 & Hi0 & Hp).
  assert (i ∈ Engine.static_nodes (Engine.nodes e)) as Hst.
  { apply elem_of_static_nodes. exists n0. split; [done|].
    destruct Hp as (_ & _ & Hmob' & _). congruence. }
  destruct (Hpost i n Hst Hi) as [Hne|Hc].
  - left. split; [by exists n | by eapply update_neighbors_has_neighbor].
  - right. split; [by eapply no_candidates_only_static|].
    exists n0. split; [done|].
    assert (stays (Engine.static_nodes (Engine.nodes e)) n0 i (Engine.nodes e)) as Hstay.
    { exists n0. split; [done|]. split; [done|]. split; [done|].
      rewrite <- Hc. symmetry. apply candidates_same_protocol; [done | apply Hp]. }
    destruct (repair_loop_stays _ _ _ _ _ _ _ _ _ E Hstay) as (n' & Hn' & Hx & Hy & _).
    rewrite Hi in Hn'. by injection Hn' as <-.
Qed.

Lemma line_tape_unit_dirs : unit_dirs line_tape.
Proof. intros k. vm_compute. discriminate. Qed.

Lemma apart_engine_inside (i : nat) n :
  Engine.nodes apart_engine !! i = Some n → Node.is_mobile n = false →
  inside apart_engine n.
Proof.
  destruct i as [|[|i]]; simpl; intros H _; [| |done].
  all: injection H as <-; split; split; discriminate.
Qed.

Lemma repair_connects_witness :
  ∃ e' r', Engine._ensure_each_has_neighbor 3 apart_engine (Rng.mk line_tape 0)
           = Engine.Ok (e', r')
    ∧ Forall2 same_protocol (Engine.nodes apart_engine) (Engine.nodes e')
    ∧ ∀ (i : nat) n, Engine.nodes e' !! i = Some n → Node.is_mobile n = false →
        connected (Engine.nodes e') i
        ∨ (only_static (Engine.nodes e') i
           ∧ ∃ n0, Engine.nodes apart_engine !! i = Some n0
                   ∧ Node.x n = Node.x n0 ∧ Node.y n = Node.y n0).
Proof.
  apply (repair_connects apart_engine (Rng.mk line_tape 0) 3).
  - discriminate.
  - discriminate.
  - exact line_tape_unit_dirs.
  - exact apart_engine_inside.
  - vm_compute. lia.
Defined.

(** The two corner sinks end up next to each other. *)
Example apart_engine_repaired :
  match Engine._ensure_each_has_neighbor 3 apart_engine (Rng.mk line_tape 0) with
  | Engine.Ok (e, _) =>
      map (fun n => (Node.x n, Node.neighbors n)) (Engine.nodes e)
  | _ => []
  end = [(200%Q, [1]); (180%Q, [0])].
Proof. vm_compute. reflexivity. Qed.

(** ** Where the repair fails *)

Arguments Engine.try_ring : simpl never.

(** A lonely node with a candidate anchor, met before anything has moved
    in the pass, is moved to a clamped position. *)
Lemma repair_node_moves e static st (i : nat) node :
  Engine.r_nodes st !! i = Some node → Node.neighbors node = [] →
  Engine.candidates (Engine.r_nodes st) static node ≠ [] →
  Engine.changed st = false →
  ∃ px py r1,
    Engine.repair_node e static st i
    = Engine.Ok (Engine.mk_repairing
                   (alter (Node.set_pos (clamp (Engine.width e) px)
                                        (clamp (Engine.height e) py)) i (Engine.r_nodes st))
                   r1 true).
Proof.
  intros Hnode Hnb Hc Hch. unfold Engine.repair_node. rewrite Hnode, Hnb.
  change (length (@nil Z) =? 0)%nat with true. cbv iota.
  destruct (Engine.candidates _ _ _) as [|c cs] eqn:Ec; [done|].
  destruct (choice_nonempty (c :: cs) (Engine.r_rng st)) as (a & Ha & Hin); [done|].
  destruct (Rng.choice (c :: cs) _) as [o r]. simpl in Ha. subst o.
  rewrite <- Ec in Hin. apply candidates_lookup in Hin as [anchor ->].
  pose proof (try_ring_spec 50 e (Engine.r_nodes st) static node anchor r) as [_ Hxy].
  destruct (Engine.try_ring _ _ _ _ _ _ _) as [[xy|] r1]; simpl in Hxy.
  - destruct (Hxy xy eq_refl) as (k & ->). simpl. by eexists _, _, _.
  - rewrite Hch. unfold Engine.forced_position. simpl. by eexists _, _, _.
Qed.

Lemma sq_nonneg t : (0 <= sq t)%Q.
Proof.
  unfold sq. destruct (Qlt_le_dec t 0).
  - assert (t * t == (- t) * (- t))%Q as -> by ring.
    apply Qmult_le_0_compat; lra.
  - apply Qmult_le_0_compat; lra.
Qed.

(** No point of the area is within range of the two far sinks. *)
Lemma far_out_of_range (a b : Node.t) :
  (0 <= Node.x a <= 200)%Q → (1000 <= Node.x b)%Q → ¬ within_range a b.
Proof.
  intros Ha Hb H. pose proof (sq_nonneg (Node.y a - Node.y b)) as Hy.
  unfold within_range, sq, Node.COMM_RANGE in *.
  assert (0 <= (Node.x b - Node.x a - 800) * (Node.x b - Node.x a + 800))%Q
    by (apply Qmult_le_0_compat; lra).
  lra.
Qed.

(** With its anchors outside the area the third sink is moved in every
    pass and stays lonely: the loop does not end. *)
Lemma far_loop fuel : ∀ e ns r,
  Engine.width e = 200%Q → Engine.height e = 200%Q → far_nodes ns →
  Engine.repair_loop fuel e [0; 1; 2]%nat ns r = Engine.OutOfFuel.
Proof.
  induction fuel as [|fuel IH]; intros e ns r Hw Hh Hfar; simpl; [done|].
  destruct Hfar as (n0 & n1 & n2 & -> & I0 & I1 & I2 & X0 & Y0 & X1 & Y1 & X2 & Y2).
  set (ns := [n0; n1; n2]).
  pose proof (update_neighbors_same_place ns) as Hpl.
  destruct (Engine.update_neighbors_nodes ns) as [|n0' [|n1' [|n2' [|? ?]]]] eqn:Eu;
    try (exfalso; apply Forall2_length in Hpl; simpl in Hpl; lia).
  assert (Hup : ∀ (k : nat) n', [n0'; n1'; n2'] !! k = Some n' →
            Engine.update_neighbors_nodes ns !! k = Some n') by (by rewrite Eu).
  assert (Node.neighbors n0' ≠ []) as N0.
  { intros Hnil. assert (Node.id n1 ∈ Node.neighbors n0') as Hin; [|by rewrite Hnil in Hin; apply elem_of_nil in Hin].
    apply (update_neighbors_elem ns 0 n0 n0' _ eq_refl (Hup 0%nat n0' eq_refl)).
    exists 1%nat, n1. repeat split; try done.
    unfold within_range, sq. rewrite X0, Y0, X1, Y1. discriminate. }
  assert (Node.neighbors n1' ≠ []) as N1.
  { intros Hnil. assert (Node.id n0 ∈ Node.neighbors n1') as Hin; [|by rewrite Hnil in Hin; apply elem_of_nil in Hin].
    apply (update_neighbors_elem ns 1 n1 n1' _ eq_refl (Hup 1%nat n1' eq_refl)).
    exists 0%nat, n0. repeat split; try done.
    unfold within_range, sq. rewrite X0, Y0, X1, Y1. discriminate. }
  assert (Node.neighbors n2' = []) as N2.
  { apply (no_neighbors_lonely ns 2 n2' (Hup 2%nat n2' eq_refl)).
    apply (lonelyb_true ns 2 n2 eq_refl). intros j m Hj Hm.
    destruct j as [|[|[|j]]]; simpl in Hm; try done; injection Hm as <-.
    - apply far_out_of_range; [done | rewrite X0; discriminate].
    - apply far_out_of_range; [done | rewrite X1; discriminate]. }
  inversion Hpl as [|? ? ? ? P0 Hpl1]; subst.
  inversion Hpl1 as [|? ? ? ? P1 Hpl2]; subst.
  inversion Hpl2 as [|? ? ? ? P2 _]; subst.
  destruct P0 as ((J0 & _) & X0' & Y0'), P1 as ((J1 & _) & X1' & Y1'),
           P2 as ((J2 & _) & _).
  set (st0 := Engine.mk_repairing [n0'; n1'; n2'] r false).
  assert (Engine.repair_node e [0; 1; 2]%nat st0 0 = Engine.Ok st0) as ->.
  { unfold Engine.repair_node. simpl. by destruct (Node.neighbors n0'). }
  assert (Engine.repair_node e [0; 1; 2]%nat st0 1 = Engine.Ok st0) as ->.
  { unfold Engine.repair_node. simpl. by destruct (Node.neighbors n1'). }
  destruct (repair_node_moves e [0; 1; 2]%nat st0 2 n2' eq_refl N2) as (px & py & r1 & ->).
  { unfold Engine.candidates. simpl. rewrite J0, J2, I0, I2. done. }
  { done. }
  simpl. apply IH; [done..|].
  exists n0', n1', (Node.set_pos (clamp (Engine.width e) px) (clamp (Engine.height e) py) n2').
  split; [done|]. rewrite J0, J1. cbn. rewrite J2, X0', Y0', X1', Y1', Hw, Hh.
  repeat split; try done; by apply clamp_inside.
Qed.

Lemma far_cfg_never_built fuel r : Engine.init fuel far_cfg r = Engine.OutOfFuel.
Proof.
  unfold Engine.init, far_cfg. cbn [Engine.area_width Engine.area_height
    Engine.cfg_sink_positions Engine.num_mesh_nodes Engine.num_mobile_nodes Engine.min_dist].
  set (e0 := Engine.mk _ _ _ _ _ _ _ _).
  set (ns := [Node.init 0 true false (1000%Q, 1000%Q);
              Node.init 1 true false (1014%Q, 1000%Q);
              Node.init 2 true false (0%Q, 0%Q)]).
  assert (Engine._create_nodes e0 r = Engine.Ok (Engine.set_nodes ns e0, r)) as ->
    by (vm_compute; reflexivity).
  unfold Engine._ensure_each_has_neighbor.
  assert (Engine.static_nodes (Engine.nodes (Engine.update_neighbors (Engine.set_nodes ns e0)))
          = [0; 1; 2]%nat) as -> by (vm_compute; reflexivity).
  rewrite far_loop; [done..|].
  eexists _, _, _. split; [vm_compute; reflexivity|].
  repeat split; discriminate.
Qed.

(** C8 as stated fails twice over. A sink with only a phone, out of
    range, in the area is left without a neighbour: the repair looks for
    anchors among the stationary nodes and finds none. And with two sinks
    next to each other outside the area and a third inside, the
    constructor returns for no number of passes, whatever is drawn. *)
Lemma repair_counterexample :
  (∃ e r sink phone,
      Engine.init 1 single_cfg (Rng.mk line_tape 0) = Engine.Ok (e, r)
      ∧ Engine.nodes e = [sink; phone]
      ∧ Node.is_mobile sink = false ∧ Node.neighbors sink = []
      ∧ ¬ has_neighbor (Engine.nodes e) 0)
  ∧ ∀ fuel r, Engine.init fuel far_cfg r = Engine.OutOfFuel.
Proof.
  split; [|exact far_cfg_never_built].
  eexists _, _, _, _. split; [vm_compute; reflexivity|].
  split; [reflexivity|]. split; [reflexivity|]. split; [reflexivity|].
  intros (n & j & m & Hn & Hj & Hm & Hr).
  destruct j as [|[|j]]; simpl in Hm; [done | | done].
  injection Hn as <-. injection Hm as <-. revert Hr. vm_compute. done.
Qed.

(** * The beacon rule off the schedule *)

(** The rule by itself would take a staler beacon with a shorter path and
    lower [best_seq] with it: here sequence 5 is recorded at three hops and
    a beacon of sequence 2 arrives straight from the sink.  In a run the
    timing keeps such a beacon from arriving ([on_schedule_fresher]), which
    is what the two theorems on [best_seq] and on accepted beacons rest
    on. *)
Example handle_bom_alone_lowers :
  let n := Node.set_best_seq (<[Some 0 := 5]> ∅)
             (Node.set_routing_table [(Some 0, (7, 3, 5))]
                (Node.init 4 false false (0%Q, 0%Q))) in
  let beacon := Pkt.init Pkt.BOM 0 (Some 0) 2 0 None 0 in
  let c' := Node._handle_bom 0 beacon (Node.mk_ctx n Logger.init []) in
  Node.best_seq n !! Some 0 = Some 5
  ∧ Node.best_seq (Node.self c') !! Some 0 = Some 2.
Proof. split; reflexivity. Qed.

(** * More on the neighbour graph *)

Lemma set_neighbors_same n : Node.set_neighbors (Node.neighbors n) n = n.
Proof. by destruct n. Qed.

Lemma alter_add_neighbor_exact (ns : list Node.t) (i k : nat) o n :
  ns !! k = Some n →
  alter (Engine.add_neighbor o) i ns !! k
  = Some (Node.set_neighbors (Node.neighbors n ++ (if decide (k = i) then [o] else [])) n).
Proof.
  intros Hk. destruct (decide (k = i)) as [->|Hne].
  - by rewrite list_lookup_alter_eq, Hk.
  - rewrite list_lookup_alter_ne by done. by rewrite Hk, app_nil_r, set_neighbors_same.
Qed.

Lemma link_exact (ns : list Node.t) ij (k : nat) n :
  ns !! k = Some n →
  Engine.link ns ij !! k
  = Some (Node.set_neighbors (Node.neighbors n ++ link_adds ns k ij) n).
Proof.
  intros Hk. unfold Engine.link, link_adds.
  destruct (ns !! ij.1) as [node|]; [|by rewrite app_nil_r, set_neighbors_same].
  destruct (ns !! ij.2) as [other|]; [|by rewrite app_nil_r, set_neighbors_same].
  destruct (Engine.in_range node other); [|by rewrite app_nil_r, set_neighbors_same].
  rewrite (alter_add_neighbor_exact _ ij.2 k (Node.id node) _
             (alter_add_neighbor_exact ns ij.1 k (Node.id other) n Hk)).
  cbn. by rewrite <- app_assoc.
Qed.

Lemma fold_link_exact ps : ∀ (ns : list Node.t) (k : nat) n,
  ns !! k = Some n →
  fold_left Engine.link ps ns !! k
  = Some (Node.set_neighbors (Node.neighbors n ++ flat_map (link_adds ns k) ps) n).
Proof.
  induction ps as [|ij ps IH]; intros ns k n Hk; simpl.
  - by rewrite app_nil_r, set_neighbors_same.
  - rewrite (IH _ _ _ (link_exact ns ij k n Hk)). cbn. rewrite <- app_assoc.
    assert (flat_map (link_adds (Engine.link ns ij) k) ps = flat_map (link_adds ns k) ps)
      as ->; [|done].
    apply flat_map_ext. intros ij'. apply link_adds_same_place, link_same_place.
Qed.

(** The node at position [k] after a recomputation: the same node with
    the neighbour list the two loops have collected. *)
Lemma update_neighbors_exact (ns : list Node.t) (k : nat) n :
  ns !! k = Some n →
  Engine.update_neighbors_nodes ns !! k
  = Some (Node.set_neighbors (flat_map (link_adds ns k) (all_pairs (length ns))) n).
Proof.
  intros Hk. unfold Engine.update_neighbors_nodes. rewrite fold_inner_loop.
  assert (map (Node.set_neighbors []) ns !! k = Some (Node.set_neighbors [] n)) as Hc.
  { by rewrite list_lookup_fmap, Hk. }
  etransitivity; [exact (fold_link_exact (all_pairs (length ns)) _ _ _ Hc)|]. cbn.
  assert (flat_map (link_adds (map (Node.set_neighbors []) ns) k) (all_pairs (length ns))
          = flat_map (link_adds ns k) (all_pairs (length ns))) as ->; [|done].
  apply flat_map_ext. intros ij. apply link_adds_same_place.
  clear. induction ns; simpl; constructor; [apply same_place_clear | done].
Qed.

Lemma update_neighbors_nodes_idempotent ns :
  Engine.update_neighbors_nodes (Engine.update_neighbors_nodes ns)
  = Engine.update_neighbors_nodes ns.
Proof.
  pose proof (update_neighbors_same_place ns) as Hpl.
  apply list_eq. intros k.
  destruct (Engine.update_neighbors_nodes ns !! k) as [n'|] eqn:Hk'.
  - rewrite (update_neighbors_exact _ k n' Hk').
    destruct (Forall2_lookup_r _ _ _ _ _ Hpl Hk') as (n & Hk & _).
    rewrite (update_neighbors_exact ns k n Hk) in Hk'. injection Hk' as <-.
    cbn. rewrite <- (Forall2_length _ _ _ Hpl).
    assert (flat_map (link_adds (Engine.update_neighbors_nodes ns) k) (all_pairs (length ns))
            = flat_map (link_adds ns k) (all_pairs (length ns))) as ->; [|done].
    apply flat_map_ext. intros ij. by apply link_adds_same_place.
  - apply lookup_ge_None. apply lookup_ge_None in Hk'.
    by rewrite <- (Forall2_length _ _ _ (update_neighbors_same_place _)).
Qed.

Lemma update_neighbors_twice e :
  Engine.update_neighbors (Engine.update_neighbors e) = Engine.update_neighbors e.
Proof.
  unfold Engine.update_neighbors, Engine.set_nodes. cbn [Engine.nodes Engine.mesh_count
    Engine.mobile_count Engine.width Engine.height Engine.MIN_DIST Engine.sink_positions
    Engine.logger].
  by rewrite update_neighbors_nodes_idempotent.
Qed.

(** The lists the nodes hold before a recomputation do not matter. *)
Lemma update_neighbors_nodes_stale (ns ns' : list Node.t) :
  Forall2 (fun n n' => n' = Node.set_neighbors (Node.neighbors n') n) ns ns' →
  Engine.update_neighbors_nodes ns' = Engine.update_neighbors_nodes ns.
Proof.
  intros H.
  assert (Forall2 same_place ns ns') as Hpl.
  { eapply Forall2_impl; [exact H|]. intros n n' ->. by repeat split. }
  apply list_eq. intros k. destruct (ns !! k) as [n|] eqn:Hk.
  - destruct (Forall2_lookup_l _ _ _ _ _ H Hk) as (n' & Hk' & Hn').
    rewrite (update_neighbors_exact ns k n Hk), (update_neighbors_exact ns' k n' Hk').
    rewrite <- (Forall2_length _ _ _ H).
    assert (flat_map (link_adds ns' k) (all_pairs (length ns))
            = flat_map (link_adds ns k) (all_pairs (length ns))) as ->.
    { apply flat_map_ext. intros ij. by apply link_adds_same_place. }
    by rewrite Hn'.
  - rewrite (same_place_lookup_None _ _ _ (update_neighbors_same_place _) Hk).
    apply (same_place_lookup_None ns').
    + apply update_neighbors_same_place.
    + by apply (same_place_lookup_None ns).
Qed.

(** [update_neighbors] recomputes the neighbour lists from the positions
    and ids alone.  Whatever neighbour lists the nodes held before, the
    result is the same, so that a second recomputation changes nothing; the
    nodes come out as they were but for their neighbour lists; and the list
    a node is left with names exactly the other nodes within range. *)
Theorem update_neighbors_from_positions e (ns' : list Node.t) :
  Forall2 (fun n n' => n' = Node.set_neighbors (Node.neighbors n') n) (Engine.nodes e) ns' →
  let e1 := Engine.update_neighbors e in
  Engine.update_neighbors (Engine.set_nodes ns' e) = e1
  ∧ Engine.update_neighbors e1 = e1
  ∧ Forall2 (fun n n' => n' = Node.set_neighbors (Node.neighbors n') n)
            (Engine.nodes e) (Engine.nodes e1)
  ∧ ∀ (k : nat) n n' z,
      Engine.nodes e !! k = Some n → Engine.nodes e1 !! k = Some n' →
      z ∈ Node.neighbors n' ↔
      ∃ (m : nat) o, m ≠ k ∧ Engine.nodes e !! m = Some o
                     ∧ Node.id o = z ∧ within_range n o.
Proof.
  intros H e1. subst e1. split; [|split; [|split]].
  - unfold Engine.update_neighbors, Engine.set_nodes. cbn [Engine.nodes Engine.mesh_count
      Engine.mobile_count Engine.width Engine.height Engine.MIN_DIST Engine.sink_positions
      Engine.logger].
    by rewrite (update_neighbors_nodes_stale (Engine.nodes e) ns').
  - apply update_neighbors_twice.
  - apply Forall2_lookup. intros k. change (Engine.nodes (Engine.update_neighbors e))
      with (Engine.update_neighbors_nodes (Engine.nodes e)).
    destruct (Engine.nodes e !! k) as [n|] eqn:Hk.
    + rewrite (update_neighbors_exact _ k n Hk). by constructor.
    + rewrite (same_place_lookup_None _ _ _ (update_neighbors_same_place _) Hk).
      constructor.
  - intros k n n' z Hk Hk'. by apply (update_neighbors_elem (Engine.nodes e) k n n' z).
Qed.

Lemma update_neighbors_from_positions_witness :
  let ns' := map (Node.set_neighbors [7]) three_nodes in
  let e1 := Engine.update_neighbors three_engine in
  Engine.update_neighbors (Engine.set_nodes ns' three_engine) = e1
  ∧ Engine.update_neighbors e1 = e1
  ∧ Forall2 (fun n n' => n' = Node.set_neighbors (Node.neighbors n') n)
            (Engine.nodes three_engine) (Engine.nodes e1)
  ∧ ∀ (k : nat) n n' z,
      Engine.nodes three_engine !! k = Some n → Engine.nodes e1 !! k = Some n' →
      z ∈ Node.neighbors n' ↔
      ∃ (m : nat) o, m ≠ k ∧ Engine.nodes three_engine !! m = Some o
                     ∧ Node.id o = z ∧ within_range n o.
Proof.
  apply (update_neighbors_from_positions three_engine
           (map (Node.set_neighbors [7]) three_nodes)).
  repeat constructor.
Defined.

(** The three nodes, holding stale lists: the recomputation replaces
    them. *)
Example three_nodes_stale :
  map Node.neighbors
    (Engine.update_neighbors_nodes (map (Node.set_neighbors [7]) three_nodes))
  = [[1]; [0]; []].
Proof. vm_compute. reflexivity. Qed.

(** ** The neighbour list, exactly *)

Lemma flat_map_flat_map {A B C} (f : B → list C) (g : A → list B) l :
  flat_map f (flat_map g l) = flat_map (fun x => flat_map f (g x)) l.
Proof. induction l as [|a l IH]; simpl; [done|]. by rewrite flat_map_app, IH. Qed.

Lemma flat_map_map {A B C} (f : B → list C) (g : A → B) l :
  flat_map f (map g l) = flat_map (fun x => f (g x)) l.
Proof. induction l as [|a l IH]; simpl; [done|]. by rewrite IH. Qed.

Lemma flat_map_nil {A B} (f : A → list B) l :
  (∀ x, In x l → f x = []) → flat_map f l = [].
Proof.
  induction l as [|a l IH]; intros H; simpl; [done|].
  rewrite (H a (or_introl eq_refl)), IH; [done|]. intros x Hx. apply H. by right.
Qed.

Lemma flat_map_seq_single {B} (f : nat → list B) (a n k : nat) :
  (a <= k < a + n)%nat →
  (∀ j, (a <= j < a + n)%nat → j ≠ k → f j = []) →
  flat_map f (seq a n) = f k.
Proof.
  intros Hk H.
  assert (seq a n = seq a (k - a) ++ k :: seq (S k) (a + n - S k)) as ->.
  { replace n with ((k - a) + S (a + n - S k))%nat at 1 by lia.
    rewrite seq_app. simpl. by replace (a + (k - a))%nat with k by lia. }
  rewrite flat_map_app. simpl.
  rewrite (flat_map_nil f (seq a (k - a))), (flat_map_nil f (seq (S k) _)).
  - by rewrite app_nil_r.
  - intros j Hj%in_seq. apply H; lia.
  - intros j Hj%in_seq. apply H; lia.
Qed.

Lemma flat_map_ext_In {A B} (f g : A → list B) l :
  (∀ x, In x l → f x = g x) → flat_map f l = flat_map g l.
Proof.
  induction l as [|a l IH]; intros H; simpl; [done|].
  rewrite (H a (or_introl eq_refl)), IH; [done|]. intros x Hx. apply H. by right.
Qed.

Lemma flat_map_filter {A B} (g : A → B) (P : A → bool) l :
  map g (List.filter P l) = flat_map (fun x => if P x then [g x] else []) l.
Proof.
  induction l as [|a l IH]; simpl; [done|]. destruct (P a); simpl; by rewrite IH.
Qed.

(** What the pairs starting at position [i] add to the list of node
    [k]. *)
Lemma block_adds (ns : list Node.t) (k i : nat) :
  ids_are_positions ns → (k < length ns)%nat → (i < length ns)%nat →
  flat_map (link_adds ns k) (map (pair i) (seq (S i) (length ns - S i)))
  = if decide (i < k)%nat then
      match ns !! k, ns !! i with
      | Some n, Some m => if Engine.in_range n m then [Z.of_nat i] else []
      | _, _ => []
      end
    else if decide (i = k) then
      map Z.of_nat (List.filter
                      (fun j => match ns !! k, ns !! j with
                                | Some n, Some m => Engine.in_range n m
                                | _, _ => false
                                end)
                      (seq (S k) (length ns - S k)))
    else [].
Proof.
  intros Hids Hk Hi. rewrite flat_map_map.
  destruct (lookup_lt_is_Some_2 ns k Hk) as [n Hn].
  destruct (lookup_lt_is_Some_2 ns i Hi) as [m Hm].
  destruct (decide (i < k)%nat) as [Hlt|Hge].
  - rewrite (flat_map_seq_single _ _ _ k); [|lia|].
    + unfold link_adds. cbn. rewrite Hn, Hm, (in_range_sym n m).
      destruct (Engine.in_range m n); [|done].
      rewrite decide_False by lia. rewrite decide_True by done.
      by rewrite (Hids _ _ Hm).
    + intros j Hj Hne. unfold link_adds. cbn. rewrite Hm.
      destruct (ns !! j); [|done]. destruct (Engine.in_range m t); [|done].
      rewrite !decide_False by lia. done.
  - destruct (decide (i = k)) as [->|Hne].
    + rewrite flat_map_filter. apply flat_map_ext_In. intros j Hj%in_seq.
      unfold link_adds. cbn. rewrite Hn.
      destruct (ns !! j) as [o|] eqn:Ej; [|done].
      destruct (Engine.in_range n o); [|done].
      rewrite decide_True by done. rewrite decide_False by lia.
      by rewrite (Hids _ _ Ej).
    + apply flat_map_nil. intros j Hj%in_seq. unfold link_adds. cbn. rewrite Hm.
      destruct (ns !! j); [|done]. destruct (Engine.in_range m t); [|done].
      rewrite !decide_False by lia. done.
Qed.

Lemma NoDup_map_of_nat (l : list nat) : NoDup l → NoDup (map Z.of_nat l).
Proof.
  induction 1 as [|a l Ha Hl IH]; simpl; constructor; [|done].
  rewrite list_elem_of_In, in_map_iff. intros (b & Hb & Hin).
  apply Ha. assert (b = a) as <- by lia. by apply list_elem_of_In.
Qed.

Lemma NoDup_list_filter {A} (P : A → bool) l : NoDup l → NoDup (List.filter P l).
Proof.
  induction 1 as [|a l Ha Hl IH]; simpl; [constructor|].
  destruct (P a); [|done]. constructor; [|done].
  rewrite list_elem_of_In, filter_In, <- list_elem_of_In. tauto.
Qed.

(** What the two loops collect for node [k]: the positions it hears, in
    order. *)
Lemma link_adds_heard (ns : list Node.t) (k : nat) n :
  ids_are_positions ns → ns !! k = Some n →
  flat_map (link_adds ns k) (all_pairs (length ns)) = map Z.of_nat (heard_positions ns k).
Proof.
  intros Hids Hn.
  assert (k < length ns)%nat as Hk by (by eapply lookup_lt_Some).
  unfold all_pairs, heard_positions. rewrite flat_map_flat_map.
  rewrite (flat_map_ext_In _ _ (seq 0 (length ns))
             (fun i Hi => block_adds ns k i Hids Hk
                (proj2 (proj1 (in_seq (length ns) 0 i) Hi)))).
  assert (seq 0 (length ns) = seq 0 k ++ k :: seq (S k) (length ns - S k)) as ->.
  { replace (length ns) with (k + S (length ns - S k))%nat at 1 by lia.
    by rewrite seq_app. }
  rewrite flat_map_app, !List.filter_app, !map_app. simpl.
  rewrite Nat.eqb_refl. simpl. rewrite decide_False by lia. rewrite decide_True by done.
  rewrite Hn. rewrite (flat_map_nil _ (seq (S k) (length ns - S k))), app_nil_r.
  2: { intros j Hj%in_seq. rewrite decide_False by lia. by rewrite decide_False by lia. }
  f_equal.
  - rewrite (flat_map_filter Z.of_nat _ (seq 0 k)).
    apply flat_map_ext_In. intros j Hj%in_seq.
    rewrite decide_True by lia.
    destruct (Nat.eqb_spec j k); [lia|]. simpl.
    destruct (ns !! j); [|done]. done.
  - f_equal. apply filter_ext_in. intros j Hj%in_seq.
    destruct (Nat.eqb_spec j k); [lia|]. done.
Qed.

Lemma heard_positions_NoDup ns k : NoDup (map Z.of_nat (heard_positions ns k)).
Proof. apply NoDup_map_of_nat, NoDup_list_filter, NoDup_ListNoDup, seq_NoDup. Qed.

(** After a recomputation the neighbour list of a node names the other
    nodes within range, each once, in the order of their list positions
    (which are their ids). *)
Theorem update_neighbors_sorted (ns : list Node.t) (k : nat) n :
  ids_are_positions ns → ns !! k = Some n →
  ∃ n', Engine.update_neighbors_nodes ns !! k = Some n'
        ∧ Node.neighbors n' = map Z.of_nat (heard_positions ns k)
        ∧ NoDup (Node.neighbors n').
Proof.
  intros Hids Hn. rewrite (update_neighbors_exact ns k n Hn). eexists. split; [done|].
  cbn [Node.neighbors Node.set_neighbors].
  rewrite (link_adds_heard ns k n Hids Hn). split; [done | apply heard_positions_NoDup].
Qed.

Lemma update_neighbors_sorted_witness :
  ∃ n', Engine.update_neighbors_nodes three_nodes !! 0%nat = Some n'
        ∧ Node.neighbors n' = map Z.of_nat (heard_positions three_nodes 0)
        ∧ NoDup (Node.neighbors n').
Proof.
  apply (update_neighbors_sorted three_nodes 0 (Node.init 0 true false (0%Q, 0%Q))).
  - exact three_nodes_ids.
  - reflexivity.
Defined.

(** * A phone moves *)



(** * What the constructor builds *)

(** ** The random source keeps its tape *)

Lemma uniform_spec a b r :
  (Rng.uniform a b r).1 = (a + (b - a) * Rng.unit (Rng.tape r (Rng.cursor r)))%Q
  ∧ Rng.tape (Rng.uniform a b r).2 = Rng.tape r.
Proof. done. Qed.

Lemma uniform_between a b u : (a <= b)%Q → (0 <= u <= 1)%Q → (a <= a + (b - a) * u <= b)%Q.
Proof. intros Hab Hu. nra. Qed.

(** ** One node at a time *)

Lemma place_sink_spec attempts e pos sp : ∀ xy r,
  let res := Engine.place_sink attempts e pos xy sp r in
  Rng.tape res.2 = Rng.tape r
  ∧ (res.1 = xy
     ∨ ∃ jx jy, res.1 = (clamp (Engine.width e) (pos.1 + jx),
                         clamp (Engine.height e) (pos.2 + jy))).
Proof.
  induction attempts as [|k IH]; intros xy r; simpl; [by auto|].
  destruct sp as [|s sp]; [by auto|].
  destruct (Engine.far_enough _ _ _ _); [by auto|].
  unfold Rng.uniform, Rng.next. simpl.
  edestruct IH as [Ht Hxy]. split; [rewrite Ht; done|]. right.
  destruct Hxy as [Hxy|Hxy]; [rewrite Hxy; by eexists _, _ | exact Hxy].
Qed.

Lemma create_sink_places e p pos :
  ∃ xy, placed_one true false xy p (Engine.create_sink e p pos)
        ∧ (xy = pos ∨ ∃ jx jy, xy = (clamp (Engine.width e) (pos.1 + jx),
                                     clamp (Engine.height e) (pos.2 + jy))).
Proof.
  unfold Engine.create_sink.
  pose proof (place_sink_spec 50 e pos (Engine.static_positions p) pos (Engine.rng p))
    as [Ht Hxy].
  destruct (Engine.place_sink _ _ _ _ _ _) as [xy r]. exists xy.
  split; [by exists true, r | exact Hxy].
Qed.

Lemma sample_mesh_spec attempts e x0 y0 sp : ∀ r,
  let res := Engine.sample_mesh attempts e x0 y0 sp r in
  Rng.tape res.2 = Rng.tape r
  ∧ ∀ xy, res.1 = Some xy →
      Engine.far_enough (Engine.MIN_DIST e) xy.1 xy.2 sp = true
      ∧ ∃ k1 k2, xy = ((x0 + (x0 + 80 - x0) * Rng.unit (Rng.tape r k1))%Q,
                       (y0 + (y0 + 80 - y0) * Rng.unit (Rng.tape r k2))%Q).
Proof.
  induction attempts as [|k IH]; intros r; simpl; [done|].
  destruct (Engine.far_enough _ _ _ _) eqn:E; simpl.
  - split; [done|]. intros xy [= <-]. split; [done|]. by eexists _, _.
  - destruct (IH (Rng.mk (Rng.tape r) (S (S (Rng.cursor r))))) as [Ht Hxy].
    split; [exact Ht | exact Hxy].
Qed.

Lemma create_mesh_places e p p' :
  Engine.create_mesh e p = Engine.Ok p' →
  ∃ xy, placed_one false false xy p p'
        ∧ ((∃ k1 k2,
              let x0 := ((Engine.width e - 80) / 2)%Q in
              let y0 := ((Engine.height e - 80) / 2)%Q in
              xy = ((x0 + (x0 + 80 - x0) * Rng.unit (Rng.tape (Engine.rng p) k1))%Q,
                    (y0 + (y0 + 80 - y0) * Rng.unit (Rng.tape (Engine.rng p) k2))%Q)
              ∧ Engine.far_enough (Engine.MIN_DIST e) xy.1 xy.2 (Engine.static_positions p)
                = true)
           ∨ ∃ ox oy, xy = (clamp (Engine.width e) ox, clamp (Engine.height e) oy)).
Proof.
  unfold Engine.create_mesh.
  pose proof (sample_mesh_spec 200 e ((Engine.width e - 80) / 2)%Q
                ((Engine.height e - 80) / 2)%Q (Engine.static_positions p) (Engine.rng p))
    as [Ht Hxy].
  destruct (Engine.sample_mesh _ _ _ _ _ _) as [[xy|] r1]; simpl in Ht, Hxy.
  - intros [= <-]. exists xy. split; [by exists true, r1|]. left.
    destruct (Hxy xy eq_refl) as (Hfar & k1 & k2 & ->). by exists k1, k2.
  - destruct (Rng.choice _ _) as [[o|] r2] eqn:Ec; [|discriminate].
    pose proof (choice_tape (Engine.static_positions p) r1) as Htc. rewrite Ec in Htc.
    intros [= <-]. eexists. split.
    + exists true. eexists. split; [reflexivity|]. cbn in *. congruence.
    + right. by eexists _, _.
Qed.

Lemma create_mobile_places e p :
  ∃ k1 k2,
    placed_one false true
      ((0 + (Engine.width e - 0) * Rng.unit (Rng.tape (Engine.rng p) k1))%Q,
       (0 + (Engine.height e - 0) * Rng.unit (Rng.tape (Engine.rng p) k2))%Q)
      p (Engine.create_mobile e p).
Proof.
  unfold Engine.create_mobile. eexists _, _. exists false. eexists.
  split; [reflexivity | done].
Qed.

Lemma placed_one_spec s m xy p p' :
  placed_one s m xy p p' →
  Engine.placed_nodes p' = Engine.placed_nodes p ++ [Node.init (Engine.node_id p) s m xy]
  ∧ Rng.tape (Engine.rng p') = Rng.tape (Engine.rng p).
Proof. by intros (static & r & -> & Ht). Qed.

(** ** The three phases *)

Section phases.
Context (e : Engine.t) (tape : nat → Rng.draw) (Pxy : Q * Q → Prop).

Let x0 := ((Engine.width e - 80) / 2)%Q.
Let y0 := ((Engine.height e - 80) / 2)%Q.

Hypothesis clamped : ∀ ox oy, Pxy (clamp (Engine.width e) ox, clamp (Engine.height e) oy).

(** A run of placements: the nodes [new] were appended, all of one kind
    and all at positions with [Pxy]. *)
Let appended (s m : bool) (len : nat) (p p' : Engine.placing) : Prop :=
  ∃ new, Engine.placed_nodes p' = Engine.placed_nodes p ++ new
         ∧ length new = len
         ∧ Forall (fun n => kind s m n ∧ Pxy (Node.x n, Node.y n)) new
         ∧ Rng.tape (Engine.rng p') = Rng.tape (Engine.rng p).

Lemma appended_one s m xy len p p' p'' :
  placed_one s m xy p p' → Pxy xy → appended s m len p' p'' → appended s m (S len) p p''.
Proof.
  intros [Hp Ht]%placed_one_spec Hxy (new & Hn & Hl & Hall & Ht').
  exists (Node.init (Engine.node_id p) s m xy :: new).
  split; [by rewrite Hn, Hp, <- app_assoc|]. split; [simpl; lia|].
  split; [|congruence]. constructor; [|done]. split; [done|]. by destruct xy.
Qed.

Lemma appended_none s m p : appended s m 0 p p.
Proof. exists []. by rewrite app_nil_r. Qed.

Lemma create_sinks_places l :
  (∀ pos, pos ∈ l → Pxy pos) →
  ∀ p, appended true false (length l) p (fold_left (Engine.create_sink e) l p).
Proof.
  induction l as [|pos l IH]; intros Hl p; simpl; [apply appended_none|].
  destruct (create_sink_places e p pos) as (xy & Hone & Hxy).
  eapply appended_one; [exact Hone| |apply IH].
  - destruct Hxy as [->|(jx & jy & ->)]; [apply Hl; left | apply clamped].
  - intros pos' Hin. apply Hl. by right.
Qed.

Lemma create_meshes_places n :
  (∀ k1 k2, Pxy ((x0 + (x0 + 80 - x0) * Rng.unit (tape k1))%Q,
                 (y0 + (y0 + 80 - y0) * Rng.unit (tape k2))%Q)) →
  ∀ p p', Rng.tape (Engine.rng p) = tape →
    Engine.repeat_result n (Engine.create_mesh e) p = Engine.Ok p' →
    appended false false n p p'.
Proof.
  intros Hs. induction n as [|n IH]; intros p p' Ht; simpl.
  - intros [= <-]. apply appended_none.
  - destruct (Engine.create_mesh e p) as [p1| |] eqn:E; [|discriminate..].
    intros Hrest. destruct (create_mesh_places e p p1 E) as (xy & Hone & Hxy).
    pose proof (proj2 (placed_one_spec _ _ _ _ _ Hone)) as Ht1.
    eapply appended_one; [exact Hone| |].
    + destruct Hxy as [(k1 & k2 & -> & _)|(ox & oy & ->)]; [|apply clamped].
      rewrite Ht. apply Hs.
    + apply IH; [congruence | done].
Qed.

Lemma create_mobiles_places n :
  (∀ k1 k2, Pxy ((0 + (Engine.width e - 0) * Rng.unit (tape k1))%Q,
                 (0 + (Engine.height e - 0) * Rng.unit (tape k2))%Q)) →
  ∀ p, Rng.tape (Engine.rng p) = tape →
    appended false true n p (Nat.iter n (Engine.create_mobile e) p).
Proof.
  intros Hs. induction n as [|n IH]; intros p Ht; [apply appended_none|].
  rewrite Nat.iter_succ_r.
  destruct (create_mobile_places e p) as (k1 & k2 & Hone).
  pose proof (proj2 (placed_one_spec _ _ _ _ _ Hone)) as Ht1.
  eapply appended_one; [exact Hone| |].
  - rewrite Ht. apply Hs.
  - apply IH. congruence.
Qed.

(** [_create_nodes]: the sinks, then the relays, then the phones, every
    one at a position with [Pxy]. *)
Lemma create_nodes_places r e' r' :
  Rng.tape r = tape →
  (∀ pos, pos ∈ Engine.sink_positions e → Pxy pos) →
  ((0 < Engine.mesh_count e)%Z →
   ∀ k1 k2, Pxy ((x0 + (x0 + 80 - x0) * Rng.unit (tape k1))%Q,
                 (y0 + (y0 + 80 - y0) * Rng.unit (tape k2))%Q)) →
  ((0 < Engine.mobile_count e)%Z →
   ∀ k1 k2, Pxy ((0 + (Engine.width e - 0) * Rng.unit (tape k1))%Q,
                 (0 + (Engine.height e - 0) * Rng.unit (tape k2))%Q)) →
  Engine._create_nodes e r = Engine.Ok (e', r') →
  Rng.tape r' = tape
  ∧ ∃ sinks relays phones,
      Engine.nodes e' = sinks ++ relays ++ phones
      ∧ length sinks = length (Engine.sink_positions e)
      ∧ length relays = Z.to_nat (Engine.mesh_count e)
      ∧ length phones = Z.to_nat (Engine.mobile_count e)
      ∧ Forall (fun n => kind true false n ∧ Pxy (Node.x n, Node.y n)) sinks
      ∧ Forall (fun n => kind false false n ∧ Pxy (Node.x n, Node.y n)) relays
      ∧ Forall (fun n => kind false true n ∧ Pxy (Node.x n, Node.y n)) phones.
Proof.
  intros Ht Hsinks Hmesh Hmob. unfold Engine._create_nodes.
  set (p0 := Engine.mk_placing [] [] 0 r).
  destruct (create_sinks_places (Engine.sink_positions e) Hsinks p0)
    as (sinks & E1 & L1 & F1 & T1).
  set (p1 := fold_left _ _ _) in *.
  destruct (Engine.repeat_result _ _ _) as [p2| |] eqn:E; [|discriminate..].
  intros [= <- <-]. cbn.
  assert (appended false false (Z.to_nat (Engine.mesh_count e)) p1 p2)
    as (relays & E2 & L2 & F2 & T2).
  { destruct (Z.to_nat (Engine.mesh_count e)) as [|n] eqn:En.
    - simpl in E. injection E as <-. apply appended_none.
    - rewrite <- En in *. apply create_meshes_places; [|by rewrite T1|done].
      apply Hmesh. lia. }
  assert (appended false true (Z.to_nat (Engine.mobile_count e)) p2
            (Nat.iter (Z.to_nat (Engine.mobile_count e)) (Engine.create_mobile e) p2))
    as (phones & E3 & L3 & F3 & T3).
  { destruct (Z.to_nat (Engine.mobile_count e)) as [|n] eqn:En; [apply appended_none|].
    rewrite <- En in *. apply create_mobiles_places; [|by rewrite T2, T1].
    apply Hmob. lia. }
  split; [by rewrite T3, T2, T1|].
  exists sinks, relays, phones. rewrite E3, E2, E1. cbn.
  by rewrite <- app_assoc.
Qed.

End phases.

(** [_create_nodes] builds the node list in three runs: one sink per
    configured position, then [mesh_count] relays, then [mobile_count]
    phones (none for a count below one); the node at list position k has
    id k, and every node starts with empty tables and sequence number 0. *)
Theorem create_nodes_layout e r e' r' :
  Engine._create_nodes e r = Engine.Ok (e', r') →
  ids_are_positions (Engine.nodes e') ∧ Forall fresh (Engine.nodes e')
  ∧ ∃ sinks relays phones,
      Engine.nodes e' = sinks ++ relays ++ phones
      ∧ length sinks = length (Engine.sink_positions e)
      ∧ length relays = Z.to_nat (Engine.mesh_count e)
      ∧ length phones = Z.to_nat (Engine.mobile_count e)
      ∧ Forall (kind true false) sinks
      ∧ Forall (kind false false) relays
      ∧ Forall (kind false true) phones.
Proof.
  intros E. destruct (create_nodes_ok e r e' r' E) as [Hids Hfr].
  split; [done|]. split; [done|].
  destruct (create_nodes_places e (Rng.tape r) (fun _ => True)) with (6 := E)
    as (_ & sinks & relays & phones & Hn & L1 & L2 & L3 & F1 & F2 & F3); try done.
  exists sinks, relays, phones. repeat split; try done.
  all: eapply Forall_impl; [eassumption|]; by intros n [Hk _].
Qed.

Lemma create_nodes_layout_witness :
  ∃ e' r',
    Engine._create_nodes (blank line_cfg) (Rng.mk line_tape 0) = Engine.Ok (e', r')
    ∧ ids_are_positions (Engine.nodes e') ∧ Forall fresh (Engine.nodes e')
    ∧ ∃ sinks relays phones,
        Engine.nodes e' = sinks ++ relays ++ phones
        ∧ length sinks = length (Engine.sink_positions (blank line_cfg))
        ∧ length relays = Z.to_nat (Engine.mesh_count (blank line_cfg))
        ∧ length phones = Z.to_nat (Engine.mobile_count (blank line_cfg))
        ∧ Forall (kind true false) sinks
        ∧ Forall (kind false false) relays
        ∧ Forall (kind false true) phones.
Proof.
  eexists _, _. split; [vm_compute; reflexivity|].
  eapply (create_nodes_layout (blank line_cfg) (Rng.mk line_tape 0)).
  vm_compute. reflexivity.
Defined.

Lemma in_area_clamped e ox oy :
  (0 <= Engine.width e)%Q → (0 <= Engine.height e)%Q →
  in_area e (clamp (Engine.width e) ox, clamp (Engine.height e) oy).
Proof. intros Hw Hh. split; by apply clamp_inside. Qed.

(** The central square of 80 by 80 lies in an area of at least that
    size. *)
Lemma sub_area_bounds w u :
  (80 <= w)%Q → (0 <= u <= 1)%Q →
  (0 <= (w - 80) / 2 + ((w - 80) / 2 + 80 - (w - 80) / 2) * u <= w)%Q.
Proof.
  intros Hw Hu. unfold Qdiv. change (/ 2)%Q with (1 # 2)%Q.
  set (a := ((w - 80) * (1 # 2))%Q).
  assert (0 <= a)%Q by (subst a; lra). assert (a + 80 <= w)%Q by (subst a; lra).
  nra.
Qed.

(** The three groups [_create_nodes] places, each inside the area. *)
Lemma create_nodes_groups_inside e r e' r' :
  (0 <= Engine.width e)%Q → (0 <= Engine.height e)%Q →
  ((0 < Engine.mesh_count e)%Z → (80 <= Engine.width e)%Q ∧ (80 <= Engine.height e)%Q) →
  Forall (in_area e) (Engine.sink_positions e) →
  unit_draws (Rng.tape r) →
  Engine._create_nodes e r = Engine.Ok (e', r') →
  Rng.tape r' = Rng.tape r
  ∧ ∃ sinks relays phones,
      Engine.nodes e' = sinks ++ relays ++ phones
      ∧ Forall (inside e) sinks ∧ Forall (inside e) relays ∧ Forall (inside e) phones.
Proof.
  intros Hw Hh Hmesh Hsinks Hu E.
  destruct (create_nodes_places e (Rng.tape r) (in_area e)) with (6 := E)
    as (Ht & sinks & relays & phones & Hn & _ & _ & _ & F1 & F2 & F3); try done.
  - intros ox oy. by apply in_area_clamped.
  - intros pos Hpos. by apply (proj1 (Forall_forall _ _) Hsinks).
  - intros Hm k1 k2. destruct (Hmesh Hm) as [Hw80 Hh80].
    split; cbn; by apply sub_area_bounds.
  - intros _ k1 k2. split; cbn; apply uniform_between; try apply Hu; lra.
  - split; [done|]. exists sinks, relays, phones. split; [done|].
    repeat split; (eapply Forall_impl; [eassumption|]); by intros n [_ Hin].
Qed.

(** On an area of non-negative size (at least 80 by 80 if relays are
    asked for), with the sinks configured inside it, [_create_nodes] places
    every node inside the area. *)
Theorem create_nodes_inside e r e' r' :
  (0 <= Engine.width e)%Q → (0 <= Engine.height e)%Q →
  ((0 < Engine.mesh_count e)%Z → (80 <= Engine.width e)%Q ∧ (80 <= Engine.height e)%Q) →
  Forall (in_area e) (Engine.sink_positions e) →
  unit_draws (Rng.tape r) →
  Engine._create_nodes e r = Engine.Ok (e', r') →
  Rng.tape r' = Rng.tape r ∧ Forall (inside e) (Engine.nodes e').
Proof.
  intros Hw Hh Hmesh Hsinks Hu E.
  destruct (create_nodes_groups_inside e r e' r' Hw Hh Hmesh Hsinks Hu E)
    as (Ht & sinks & relays & phones & Hn & F1 & F2 & F3).
  split; [done|]. rewrite Hn, !Forall_app. by repeat split.
Qed.

(** ** The repair keeps the nodes in the area *)

Lemma inside_same_place e ns ns' :
  Forall2 same_place ns ns' → Forall (inside e) ns → Forall (inside e) ns'.
Proof.
  intros H2 H. rewrite Forall_lookup in *. intros i n' Hi.
  destruct (Forall2_lookup_r _ _ _ _ _ H2 Hi) as (n & Hn & _ & Hx & Hy).
  destruct (H i n Hn) as [? ?]. unfold inside. by rewrite Hx, Hy.
Qed.

Lemma inside_alter_clamped e (ns : list Node.t) (i : nat) ox oy :
  (0 <= Engine.width e)%Q → (0 <= Engine.height e)%Q →
  Forall (inside e) ns →
  Forall (inside e)
    (alter (Node.set_pos (clamp (Engine.width e) ox) (clamp (Engine.height e) oy)) i ns).
Proof.
  intros Hw Hh H. rewrite Forall_lookup in *. intros j n Hj.
  destruct (decide (j = i)) as [->|Hne].
  - rewrite list_lookup_alter_eq in Hj. destruct (ns !! i); [|done].
    injection Hj as <-. split; cbn; by apply clamp_inside.
  - rewrite list_lookup_alter_ne in Hj by done. by eapply H.
Qed.

Lemma repair_node_inside e static st i st' :
  (0 <= Engine.width e)%Q → (0 <= Engine.height e)%Q →
  Engine.repair_node e static st i = Engine.Ok st' →
  Forall (inside e) (Engine.r_nodes st) → Forall (inside e) (Engine.r_nodes st').
Proof.
  intros Hw Hh. unfold Engine.repair_node.
  destruct (Engine.r_nodes st !! i) as [node|]; [|by intros [= <-]].
  destruct (length (Node.neighbors node) =? 0)%nat; [|by intros [= <-]].
  destruct (Engine.candidates _ _ _) as [|c cs]; [by intros [= <-]|].
  destruct (Rng.choice _ _) as [[a|] r]; [|discriminate].
  destruct (Engine.r_nodes st !! a) as [anchor|]; [|discriminate].
  pose proof (try_ring_spec 50 e (Engine.r_nodes st) static node anchor r) as [_ Hxy].
  destruct (Engine.try_ring _ _ _ _ _ _ _) as [[xy|] r1]; simpl in Hxy.
  - destruct (Hxy xy eq_refl) as (k & ->). intros [= <-] H. cbn.
    by apply inside_alter_clamped.
  - destruct (Engine.changed st); [by intros [= <-]|].
    unfold Engine.forced_position. simpl. intros [= <-] H. cbn.
    by apply inside_alter_clamped.
Qed.

Lemma fold_repair_inside e static l : ∀ st st',
  (0 <= Engine.width e)%Q → (0 <= Engine.height e)%Q →
  Engine.fold_result (Engine.repair_node e static) l st = Engine.Ok st' →
  Forall (inside e) (Engine.r_nodes st) → Forall (inside e) (Engine.r_nodes st').
Proof.
  induction l as [|i l IH]; intros st st' Hw Hh; simpl; [by intros [= <-]|].
  destruct (Engine.repair_node e static st i) as [st1| |] eqn:E; [|discriminate..].
  intros H Hin. apply (IH st1 st' Hw Hh H). by eapply repair_node_inside.
Qed.

Lemma repair_loop_inside fuel e static : ∀ ns r ns' r',
  (0 <= Engine.width e)%Q → (0 <= Engine.height e)%Q →
  Engine.repair_loop fuel e static ns r = Engine.Ok (ns', r') →
  Forall (inside e) ns → Forall (inside e) ns'.
Proof.
  induction fuel as [|fuel IH]; intros ns r ns' r' Hw Hh; simpl; [discriminate|].
  destruct (Engine.fold_result _ _ _) as [st| |] eqn:E; [|discriminate..].
  intros H Hin.
  assert (Forall (inside e) (Engine.r_nodes st)) as Hst.
  { eapply fold_repair_inside; [done..|exact E|]. cbn.
    eapply inside_same_place; [apply update_neighbors_same_place | done]. }
  destruct (Engine.changed st); [by eapply IH|]. by injection H as <- <-.
Qed.

Lemma lonely_count_le static ns : (lonely_count static ns <= length static)%nat.
Proof. unfold lonely_count. apply List.filter_length_le. Qed.

Lemma static_nodes_length ns : (length (Engine.static_nodes ns) <= length ns)%nat.
Proof.
  unfold Engine.static_nodes. etransitivity; [apply List.filter_length_le|].
  by rewrite length_seq.
Qed.

Lemma init_unfold fuel cfg r :
  Engine.init fuel cfg r
  = match Engine._create_nodes (blank cfg) r with
    | Engine.Ok (e, r) =>
        match Engine._ensure_each_has_neighbor fuel (Engine.update_neighbors e) r with
        | Engine.Ok (e, r) => Engine.Ok (Engine.update_neighbors e, r)
        | Engine.Raise x => Engine.Raise x
        | Engine.OutOfFuel => Engine.OutOfFuel
        end
    | Engine.Raise x => Engine.Raise x
    | Engine.OutOfFuel => Engine.OutOfFuel
    end.
Proof. reflexivity. Qed.

(** The constructor as a whole.  On an area of non-negative size (at
    least 80 by 80 if relays are asked for), with the sinks configured
    inside it, construction returns once the repair loop is allowed more
    passes than there are nodes; every node of the engine lies in the area,
    and every stationary node has a non-empty neighbour list and a node
    within range, unless it is the only stationary node. *)
Theorem init_connects cfg r fuel :
  (0 <= Engine.area_width cfg)%Q → (0 <= Engine.area_height cfg)%Q →
  ((0 < Engine.num_mesh_nodes cfg)%Z →
   (80 <= Engine.area_width cfg)%Q ∧ (80 <= Engine.area_height cfg)%Q) →
  Forall (in_area (blank cfg)) (Engine.sink_positions (blank cfg)) →
  unit_draws (Rng.tape r) → unit_dirs (Rng.tape r) →
  (length (Engine.sink_positions (blank cfg)) + Z.to_nat (Engine.num_mesh_nodes cfg)
   + Z.to_nat (Engine.num_mobile_nodes cfg) < fuel)%nat →
  ∃ e r', Engine.init fuel cfg r = Engine.Ok (e, r')
    ∧ Forall (inside e) (Engine.nodes e)
    ∧ ∀ (i : nat) n, Engine.nodes e !! i = Some n → Node.is_mobile n = false →
        connected (Engine.nodes e) i ∨ only_static (Engine.nodes e) i.
Proof.
  intros Hw Hh Hmesh Hsinks Hu Hd Hfuel. rewrite init_unfold.
  pose proof (create_nodes_spec (blank cfg) r) as Hspec.
  destruct (Engine._create_nodes (blank cfg) r) as [[e1 r1]| |] eqn:E1; [|done..].
  destruct Hspec as [He1 Hlen].
  destruct (create_nodes_groups_inside (blank cfg) r e1 r1 Hw Hh Hmesh Hsinks Hu E1)
    as (Ht1 & sinks & relays & phones & Hn1 & F1 & F2 & F3).
  assert (Forall (inside (blank cfg)) (Engine.nodes e1)) as Hin1.
  { rewrite Hn1, !Forall_app. by repeat split. }
  assert (Engine.width e1 = Engine.area_width cfg ∧ Engine.height e1 = Engine.area_height cfg)
    as [Ew Eh] by (by rewrite He1).
  assert (∀ ns, Forall (inside (blank cfg)) ns ↔ Forall (inside e1) ns) as Hsame.
  { intros ns. unfold inside. rewrite Ew, Eh. done. }
  set (e2 := Engine.update_neighbors e1).
  set (static := Engine.static_nodes (Engine.nodes e2)).
  assert (Forall (inside e2) (Engine.nodes e2)) as Hin2.
  { eapply (inside_same_place e1); [apply update_neighbors_same_place|]. by apply Hsame. }
  assert (0 <= Engine.width e2)%Q as Hw2 by (cbn; by rewrite Ew).
  assert (0 <= Engine.height e2)%Q as Hh2 by (cbn; by rewrite Eh).
  unfold Engine._ensure_each_has_neighbor. fold static.
  destruct (repair_loop_total e2 static Hw2 Hh2) with
    (m := lonely_count static (Engine.nodes e2)) (fuel := fuel)
    (ns := Engine.nodes e2) (r := r1) as (ns' & r2 & E2).
  { by rewrite Ht1. }
  { intros j n _ Hj. by apply (proj1 (Forall_lookup _ _) Hin2 j n). }
  { done. }
  { eapply Nat.le_lt_trans; [apply lonely_count_le|].
    eapply Nat.le_lt_trans; [apply static_nodes_length|].
    assert (length (Engine.nodes e2) = length (Engine.nodes e1)) as ->.
    { symmetry. apply (Forall2_length _ _ _ (update_neighbors_same_place _)). }
    rewrite Hlen. exact Hfuel. }
  rewrite E2.
  pose proof (repair_loop_same_protocol _ _ _ _ _ _ _ E2) as Hproto.
  pose proof (repair_loop_inside fuel e2 static _ _ _ _ Hw2 Hh2 E2 Hin2) as Hin'.
  destruct (repair_loop_post _ _ _ _ _ _ _ E2) as [[ns0 ->] Hpost].
  set (e3 := Engine.set_nodes (Engine.update_neighbors_nodes ns0) e2).
  assert (Engine.update_neighbors e3 = e3) as ->.
  { unfold Engine.update_neighbors, e3. cbn [Engine.nodes Engine.set_nodes].
    by rewrite update_neighbors_nodes_idempotent. }
  exists e3, r2. split; [reflexivity|].
  split; [exact Hin'|]. cbn [e3 Engine.nodes Engine.set_nodes].
  intros i n Hi Hmob.
  assert (i ∈ static) as Hst.
  { destruct (Forall2_lookup_r _ _ _ _ _ Hproto Hi) as (n0 & Hi0 & Hp).
    apply elem_of_static_nodes. exists n0. split; [done|].
    destruct Hp as (_ & _ & Hmob' & _). congruence. }
  destruct (Hpost i n Hst Hi) as [Hne|Hc].
  - left. split; [by exists n | by eapply update_neighbors_has_neighbor].
  - right. by eapply no_candidates_only_static.
Qed.

Lemma line_tape_unit_draws : unit_draws line_tape.
Proof.
  intros k. unfold line_tape. cbn.
  destruct k as [|[|[|[|[|[|[|k]]]]]]]; split; discriminate.
Qed.

Lemma line_sinks_in_area : Forall (in_area (blank line_cfg)) (Engine.sink_positions (blank line_cfg)).
Proof. repeat constructor; discriminate. Qed.

Lemma create_nodes_inside_witness :
  ∃ e' r',
    Engine._create_nodes (blank line_cfg) (Rng.mk line_tape 0) = Engine.Ok (e', r')
    ∧ Rng.tape r' = Rng.tape (Rng.mk line_tape 0)
    ∧ Forall (inside (blank line_cfg)) (Engine.nodes e').
Proof.
  eexists _, _. split; [vm_compute; reflexivity|].
  eapply (create_nodes_inside (blank line_cfg) (Rng.mk line_tape 0)).
  - discriminate.
  - discriminate.
  - intros _. split; discriminate.
  - exact line_sinks_in_area.
  - exact line_tape_unit_draws.
  - vm_compute. reflexivity.
Defined.

Lemma init_connects_witness :
  ∃ e r', Engine.init 6 line_cfg (Rng.mk line_tape 0) = Engine.Ok (e, r')
    ∧ Forall (inside e) (Engine.nodes e)
    ∧ ∀ (i : nat) n, Engine.nodes e !! i = Some n → Node.is_mobile n = false →
        connected (Engine.nodes e) i ∨ only_static (Engine.nodes e) i.
Proof.
  apply (init_connects line_cfg (Rng.mk line_tape 0) 6).
  - discriminate.
  - discriminate.
  - intros _. split; discriminate.
  - exact line_sinks_in_area.
  - exact line_tape_unit_draws.
  - exact line_tape_unit_dirs.
  - vm_compute. lia.
Defined.

(** * Invariants of a run *)

Section run_invariant.
Context (w h : Q) (NodeOK : Node.t → Prop) (LogOK : Logger.t → Prop)
        (TaskOK : Q → Sim.task → Prop).
Hypothesis methods : discipline w h NodeOK LogOK TaskOK.

Lemma holds_with_node st (i : Z) f due now' rest e' ps :
  holds w h NodeOK LogOK TaskOK st →
  Sim.with_node (Sim.engine st) i f = (e', ps) →
  (∀ n, Node.id n = i → NodeOK n →
        kept NodeOK LogOK TaskOK due n
             (f (Node.mk_ctx n (Engine.logger (Sim.engine st)) []))) →
  Forall (fun e => TaskOK e.1 e.2) rest →
  holds w h NodeOK LogOK TaskOK (Sim.mk e' now' (rest ++ Sim.schedule due ps)).
Proof.
  intros (Hids & Hw & Hh & Hn & Hl & Hq) Hwith Hf Hrest.
  pose proof (with_node_spec (Sim.engine st) i f) as Hspec.
  destruct (Engine.node_map (Sim.engine st) i) as [n|] eqn:Hnode.
  - rewrite Hwith in Hspec. injection Hspec as -> ->.
    apply node_map_Some in Hnode as [Hi Hnode].
    assert (Node.id n = i) as Hid by (rewrite (Hids _ _ Hnode); lia).
    destruct (Hf n Hid (proj1 (Forall_lookup _ _) Hn _ _ Hnode)) as (Hid' & Hn' & Hl' & Hps).
    repeat split; cbn; try done.
    + by eapply ids_insert.
    + by apply Forall_insert.
    + apply Forall_app. split; [done|]. unfold Sim.schedule.
      apply Forall_map. eapply Forall_impl; [exact Hps|]. by intros g Hg.
  - rewrite Hwith in Hspec. injection Hspec as -> ->.
    repeat split; cbn; try done. rewrite app_nil_r. done.
Qed.

Lemma holds_mobility st (i : Z) cs due now' q' :
  holds w h NodeOK LogOK TaskOK st →
  TaskOK due (Sim.Mobility i) →
  Forall (fun e => TaskOK e.1 e.2) q' →
  holds w h NodeOK LogOK TaskOK (Sim.mk (Sim._mobility_process (Sim.engine st) i cs) now' q').
Proof.
  intros (Hids & Hw & Hh & Hn & Hl & Hq) Htk Hq'.
  pose proof (mobility_same_protocol (Sim.engine st) i cs) as Hsp.
  assert (ids_are_positions (Engine.nodes (Sim._mobility_process (Sim.engine st) i cs)))
    as Hids'.
  { intros j n' Hj. destruct (Forall2_lookup_r _ _ _ _ _ Hsp Hj) as (n & Hn0 & Hp).
    destruct Hp as (-> & _). by apply Hids. }
  unfold Sim._mobility_process in *.
  destruct (Engine.node_map (Sim.engine st) i) as [n|] eqn:Hnode; [|by repeat split].
  apply node_map_Some in Hnode as [Hi Hnode].
  assert (Node.id n = i) as Hid by (rewrite (Hids _ _ Hnode); lia).
  repeat split; cbn; try done.
  rewrite Forall_lookup. intros j n' Hj.
  destruct (Forall2_lookup_r _ _ _ _ _ (update_neighbors_same_place _) Hj) as (n1 & Hn1 & Hp).
  apply (d_neighbors _ _ _ _ _ methods n1 n' Hp).
  revert Hn1. apply (proj1 (Forall_lookup _ _)). apply Forall_insert; [done|].
  apply (d_move _ _ _ _ _ methods (Sim.engine st) due n cs Hw Hh).
  - by apply (proj1 (Forall_lookup _ _) Hn _ _ Hnode).
  - by rewrite Hid.
Qed.

Lemma holds_fire st k d due tk :
  holds w h NodeOK LogOK TaskOK st →
  Sim.queue st !! k = Some (due, tk) →
  holds w h NodeOK LogOK TaskOK (Sim.fire k d st).
Proof.
  intros Hst Hk. unfold Sim.fire. rewrite Hk.
  pose proof Hst as (Hids & Hw & Hh & Hn & Hl & Hq).
  assert (TaskOK due tk) as Htk by (by apply (proj1 (Forall_lookup _ _) Hq _ _ Hk)).
  assert (Forall (fun e => TaskOK e.1 e.2) (delete k (Sim.queue st))) as Hrest
    by (by apply Forall_delete).
  destruct tk as [[s p|s nb p|i p]|i|i|i]; simpl.
  - destruct (Sim.with_node _ _ _) as [e' ps] eqn:E.
    eapply holds_with_node; [done|exact E| |done].
    intros n <- Hn'. by apply (d_broadcast _ _ _ _ _ methods).
  - destruct (Sim.with_node _ _ _) as [e' ps] eqn:E.
    eapply holds_with_node; [done|exact E| |done].
    intros n <- Hn'. by apply (d_deliver _ _ _ _ _ methods).
  - destruct (Sim.with_node _ _ _) as [e' ps] eqn:E.
    eapply holds_with_node; [done|exact E| |done].
    intros n <- Hn'. by apply (d_receive _ _ _ _ _ methods).
  - destruct (Sim.with_node _ _ _) as [e' ps] eqn:E.
    change (delete k (Sim.queue st) ++ (due + Node.BOM_INTERVAL, Sim.SinkBom i)%Q
              :: Sim.schedule due ps)
      with (delete k (Sim.queue st) ++ [(due + Node.BOM_INTERVAL, Sim.SinkBom i)%Q]
              ++ Sim.schedule due ps).
    rewrite app_assoc.
    eapply holds_with_node; [done|exact E| |].
    + intros n <- Hn'. by apply (d_sink_bom _ _ _ _ _ methods).
    + apply Forall_app. split; [done|]. constructor; [|done].
      by apply (d_timer _ _ _ _ _ methods).
  - destruct (Sim.with_node _ _ _) as [e' ps] eqn:E.
    change (delete k (Sim.queue st) ++ (due + Rng.expo d, Sim.GenRms i)%Q
              :: Sim.schedule due ps)
      with (delete k (Sim.queue st) ++ [(due + Rng.expo d, Sim.GenRms i)%Q]
              ++ Sim.schedule due ps).
    rewrite app_assoc.
    eapply holds_with_node; [done|exact E| |].
    + intros n <- Hn'. by apply (d_generate _ _ _ _ _ methods).
    + apply Forall_app. split; [done|]. constructor; [|done].
      by apply (d_timer _ _ _ _ _ methods).
  - eapply holds_mobility; [done|exact Htk|].
    apply Forall_app. split; [done|]. constructor; [|done].
    by apply (d_timer _ _ _ _ _ methods).
Qed.

Lemma holds_step st l st' :
  holds w h NodeOK LogOK TaskOK st → Sim.step st l st' →
  holds w h NodeOK LogOK TaskOK st'.
Proof.
  intros Hst Hstep. destruct Hstep as [st k d due tk Hk _ _|st until _ _|st src ty dst _].
  - by eapply holds_fire.
  - exact Hst.
  - unfold Sim.inject. destruct (Sim.with_node _ _ _) as [e' ps] eqn:E.
    eapply holds_with_node; [done|exact E| |by destruct Hst as (_&_&_&_&_&?)].
    intros n _ Hn'. apply (d_inject _ _ _ _ _ methods); [done|].
    by destruct Hst as (_&_&_&_&?&_).
Qed.

(** A property the methods keep holds along every run that starts with
    it. *)
Lemma holds_run st tr st' :
  holds w h NodeOK LogOK TaskOK st → Sim.run st tr st' →
  holds w h NodeOK LogOK TaskOK st'
  ∧ Forall (fun sl => holds w h NodeOK LogOK TaskOK sl.1) tr.
Proof.
  intros Hst Hrun. induction Hrun as [st|st tr st' l st'' Hrun IH Hstep].
  - by split.
  - destruct (IH Hst) as [H' Htr]. split; [by eapply holds_step|].
    apply Forall_app. split; [done|]. by constructor.
Qed.

End run_invariant.

(** * What the methods do to a node *)

(** [_send_rms]: the node keeps everything but its transmission count,
    the logger gets one entry, and one generator is started, sending on the
    packet as it is (only if there is no route) or readdressed to the sink
    of a routing entry with that entry's hop distance plus one to live. *)
Lemma send_rms_effect now q c :
  ∃ t ev dst p' g,
    Node._send_rms now q c
    = Node.mk_ctx (Node.set_tx_count t (Node.self c))
                  (Logger.log_event now ev (Node.id (Node.self c)) dst (Node.logger c))
                  (Node.spawned c ++ [g])
    ∧ sent_by (Node.id (Node.self c)) (Node.neighbors (Node.self c)) p' g
    ∧ ((p' = q ∧ Node.routing_table (Node.self c) = [])
       ∨ ∃ sink e, In (sink, e) (Node.routing_table (Node.self c))
                   ∧ p' = readdressed sink (Node.hop_distance e + 1) q).
Proof.
  unfold Node._send_rms.
  pose proof (min_by_spec (fun kv : option Z * Node.route => Node.hop_distance kv.2)
                (Node.routing_table (Node.self c))) as Hmin.
  destruct (Dict.min_by _ _) as [[sink e]|].
  - destruct Hmin as [Hin _].
    pose proof (unicast_loop_spec now (Node.neighbors (Node.self c)) (Node.next_hop e)
                  (Pkt.set_hop_count (Node.hop_distance e + 1) (Pkt.set_sink_id sink q))
                  c) as Hu.
    destruct (Node.unicast_loop _ _ _ _ _) as [c1|].
    + destruct Hu as (Hnb & Hs & Hn & Hl). destruct c1 as [n1 l1 s1]. cbn in *. subst.
      eexists _, _, _, _, _. split; [reflexivity|]. split.
      * right. eexists. split; [exact Hnb | reflexivity].
      * right. by exists sink, e.
    + exists (Node.tx_count (Node.self c)). eexists _, _, _, _.
      split; [by rewrite set_tx_count_id|]. split; [by left|]. right. by exists sink, e.
  - exists (Node.tx_count (Node.self c)). eexists _, _, _, _.
    split; [by rewrite set_tx_count_id|]. split; [by left|]. by left.
Qed.

(** ** Hops, sequence numbers and metrics stay in order *)

Lemma routes_sane_eq n n' :
  Node.routing_table n' = Node.routing_table n → Node.best_seq n' = Node.best_seq n →
  routes_sane n → routes_sane n'.
Proof. unfold routes_sane. by intros -> ->. Qed.

Lemma dict_set_Forall {V} (P : V → Prop) (k : option Z) (v : V) d :
  Forall (fun kv : option Z * V => P kv.2) d → P v →
  Forall (fun kv : option Z * V => P kv.2) (Dict.set k v d).
Proof.
  intros Hd Hv. induction Hd as [|[k' v'] d Hkv Hd IH]; simpl.
  - by repeat constructor.
  - destruct (decide (k = k')); constructor; done.
Qed.

Lemma routes_sane_accept (n : Node.t) k nh hop q :
  1 ≤ hop → routes_sane n →
  routes_sane (Node.set_best_seq (<[k := q]> (Node.best_seq n))
                 (Node.set_routing_table (Dict.set k (nh, hop, q) (Node.routing_table n)) n)).
Proof.
  intros Hhop [Hall Hget]. split; cbn.
  - by apply (dict_set_Forall (fun e : Node.route => 1 ≤ Node.hop_distance e)).
  - intros k'. destruct (decide (k = k')) as [<-|Hne].
    + by rewrite dict_get_set_eq, lookup_insert_eq.
    + rewrite dict_get_set_ne, lookup_insert_ne by done. apply Hget.
Qed.

Lemma packet_sane_later t t' p : (t <= t')%Q → packet_sane t p → packet_sane t' p.
Proof. intros Ht [H1 H2]. split; [lra | done]. Qed.

(** The generator [_send_rms] started carries a packet in order. *)
Lemma sent_sane due me nbs q p' g (rt : list (option Z * Node.route)) :
  packet_sane due q → Pkt.pkt_type q = Pkt.RMS →
  Forall (fun kv => 1 ≤ Node.hop_distance kv.2) rt →
  sent_by me nbs p' g →
  (p' = q ∧ rt = []) ∨ (∃ sink e, In (sink, e) rt
                                  ∧ p' = readdressed sink (Node.hop_distance e + 1) q) →
  task_sane (due + Sim.delay g) (Sim.Run g).
Proof.
  intros [Ht Hh] Hty Hrt Hg Hp'.
  assert (packet_sane (due + Node.TX_DELAY) p') as Hp.
  { destruct Hp' as [[-> _]|(sink & e & Hin & ->)].
    - split; [unfold Node.TX_DELAY; lra | done].
    - split; [cbn; unfold Node.TX_DELAY; lra|]. cbn. rewrite Hty.
      apply list_elem_of_In in Hin.
      apply (proj1 (Forall_forall _ _) Hrt) in Hin. cbn in Hin. lia. }
  destruct Hg as [->|(nb & _ & ->)]; exact Hp.
Qed.

Lemma sane_discipline w h : discipline w h routes_sane logger_sane task_sane.
Proof.
  split.
  - (* _broadcast *)
    intros due n lg p Hn Hl Hp. unfold Node._broadcast, kept.
    destruct (broadcast_loop_spec (Node.neighbors n) p (Node.mk_ctx n lg [])) as (Hs & Hlg & Hself).
    cbn in Hs, Hlg, Hself |- *. rewrite Hs, Hlg, Hself. cbn.
    split; [done|]. split; [by apply (routes_sane_eq n)|]. split; [done|].
    apply Forall_map, Forall_forall. intros nb _. cbn.
    destruct Hp as [Ht Hh]. split; [cbn; unfold Node.RX_DELAY; lra | done].
  - (* _deliver *)
    intros due n lg nb p Hn Hl [Ht Hh]. unfold kept. cbn.
    split; [done|]. split; [by apply (routes_sane_eq n)|]. split; [done|].
    constructor; [|done]. split; [cbn; unfold Node.RX_DELAY; lra | done].
  - (* receive *)
    intros due n lg p Hn Hl [Ht Hh]. unfold Node.receive.
    set (n1 := Node.set_rx_count (Node.rx_count n + 1) n).
    change (Node.on_self _ (Node.mk_ctx n lg [])) with (Node.mk_ctx n1 lg []).
    assert (routes_sane n1) as Hn1 by (by apply (routes_sane_eq n)).
    destruct (Pkt.pkt_type p) eqn:Hty.
    + unfold Node._handle_bom. destruct (Node.bom_accepts p _); [|by split].
      cbn. split; [done|]. split.
      { apply (routes_sane_accept n1); [lia | done]. }
      destruct Hl as (L1 & L2 & L3 & L4 & L5 & L6).
      split; [repeat split; cbn; try done; lia|].
      constructor; [|done]. split; cbn; [unfold Node.TX_DELAY, Node.RX_DELAY in *; lra | lia].
    + destruct (handle_rms_cases due p (Node.mk_ctx n1 lg []))
        as [[_ ->]|[_ [[_ ->]|[(_ & Hgt & ->)|(_ & _ & ->)]]]].
      * by split.
      * cbn. split; [done|]. split; [by apply (routes_sane_eq n1)|]. split; [|done].
        destruct Hl as (L1 & L2 & L3 & L4 & L5 & L6).
        repeat split; cbn; rewrite ?length_app; cbn; try done; try lia.
        -- apply Forall_app. split; [done|].
           constructor; [unfold Node.RX_DELAY in Ht; lra | done].
        -- apply Forall_app. split; [done|]. by constructor.
      * destruct (send_rms_effect due (Pkt.set_hop_count (Pkt.hop_count p - 1) p)
                    (marked (rms_key p) (Node.mk_ctx n1 lg [])))
          as (t & ev & dst & p' & g & -> & Hg & Hp').
        cbn in *. split; [done|]. split; [by apply (routes_sane_eq n1)|].
        split; [exact Hl|]. constructor; [|done].
        eapply (sent_sane due); [| |apply Hn|exact Hg|exact Hp'].
        -- split; cbn; [unfold Node.RX_DELAY in *; lra | rewrite Hty; lia].
        -- done.
      * cbn. split; [done|]. split; [by apply (routes_sane_eq n1)|]. by split.
  - (* _sink_bom_process *)
    intros due n lg Hn Hl _. unfold NodeTimers._sink_bom_process. cbn.
    split; [done|]. split; [by apply (routes_sane_eq n)|].
    destruct Hl as (L1 & L2 & L3 & L4 & L5 & L6).
    split; [repeat split; cbn; try done; lia|].
    constructor; [|done]. split; cbn; [unfold Node.TX_DELAY; lra | done].
  - (* _generate_rms_process *)
    intros due n lg Hn Hl _. unfold NodeTimers._generate_rms_process.
    set (n1 := Node.set_seq_num (Node.seq_num n + 1) n).
    set (q := Pkt.init Pkt.RMS (Node.id n1) None (Node.seq_num n1) Node.MAX_HOPS
                       (Some (Node.id n1)) due).
    set (c1 := Node.mk_ctx n1 (Logger.log_event due Logger.EvRMS_GEN (Node.id n1) (-1)
                                 (Logger.record_data_sent lg)) []).
    change (kept routes_sane logger_sane task_sane due n (Node._send_rms due q c1)).
    destruct (send_rms_effect due q c1) as (t & ev & dst & p' & g & -> & Hg & Hp').
    cbn in *. split; [done|]. split; [by apply (routes_sane_eq n)|].
    destruct Hl as (L1 & L2 & L3 & L4 & L5 & L6).
    split; [repeat split; cbn; try done; lia|].
    constructor; [|done].
    eapply (sent_sane due); [| |apply Hn|exact Hg|exact Hp'].
    + split; cbn; [lra | done].
    + done.
  - (* inject_packet *)
    intros now n lg ty dst Hn Hl. unfold Gui.inject_packet.
    destruct Hl as (L1 & L2 & L3 & L4 & L5 & L6).
    destruct ty; cbn.
    + split; [done|]. split; [by apply (routes_sane_eq n)|].
      split; [repeat split; cbn; try done; lia|].
      constructor; [|done]. split; cbn; [unfold Node.TX_DELAY; lra | done].
    + split; [done|]. split; [by apply (routes_sane_eq n)|].
      split; [repeat split; cbn; try done; lia|].
      constructor; [|done]. split; cbn; [lra | done].
  - (* a move *)
    intros e due n cs _ _ Hn _. by apply (routes_sane_eq n).
  - (* new neighbour lists *)
    intros n n' [(_ & _ & _ & Hrt & Hbs & _) _] Hn. by apply (routes_sane_eq n).
  - (* the timers *)
    intros due d [g|i|i|i] Htk _; done.
Qed.

(** ** Where a run starts *)

Lemma ensure_fields fuel e r e' r' :
  Engine._ensure_each_has_neighbor fuel e r = Engine.Ok (e', r') →
  e' = Engine.set_nodes (Engine.nodes e') e.
Proof.
  unfold Engine._ensure_each_has_neighbor.
  destruct (Engine.repair_loop _ _ _ _ _) as [[ns r1]| |]; [|discriminate..].
  by intros [= <- <-].
Qed.

(** The constructor fills in the node list and nothing else. *)
Lemma init_fields fuel cfg r e r' :
  Engine.init fuel cfg r = Engine.Ok (e, r') →
  e = Engine.set_nodes (Engine.nodes e) (blank cfg).
Proof.
  rewrite init_unfold.
  pose proof (create_nodes_spec (blank cfg) r) as H1.
  destruct (Engine._create_nodes (blank cfg) r) as [[e1 r1]| |]; [|discriminate..].
  destruct H1 as [H1 _].
  destruct (Engine._ensure_each_has_neighbor _ _ _) as [[e2 r2]| |] eqn:E2; [|discriminate..].
  apply ensure_fields in E2. intros [= <- <-].
  rewrite E2, H1. reflexivity.
Qed.

Lemma boot_timers first n :
  Forall (fun e => match e.2 with Sim.Run _ => False | _ => True end) (Sim.boot first n).
Proof. unfold Sim.boot. destruct (Node.is_sink n), (Node.is_mobile n); by repeat constructor. Qed.

Lemma start_holds w h NodeOK LogOK TaskOK e first :
  ids_are_positions (Engine.nodes e) →
  Engine.width e = w → Engine.height e = h →
  Forall NodeOK (Engine.nodes e) → LogOK (Engine.logger e) →
  (∀ n, n ∈ Engine.nodes e → Forall (fun e => TaskOK e.1 e.2) (Sim.boot first n)) →
  holds w h NodeOK LogOK TaskOK (Sim.start e first).
Proof.
  intros Hids Hw Hh Hn Hl Hq. repeat split; try done. cbn.
  apply Forall_concat, Forall_map, Forall_forall. intros n Hin. by apply Hq.
Qed.

Lemma fresh_routes_sane n : fresh n → routes_sane n.
Proof.
  intros (Hrt & Hbs & _). split; rewrite Hrt; [constructor|].
  intros k. by rewrite Hbs.
Qed.

Lemma initial_sane st0 :
  Sim.initial st0 →
  holds (Engine.width (Sim.engine st0)) (Engine.height (Sim.engine st0))
        routes_sane logger_sane task_sane st0.
Proof.
  intros (fuel & cfg & r & e & r' & first & Hinit & _ & ->).
  destruct (init_pristine _ _ _ _ _ Hinit) as [Hids Hfr].
  apply start_holds; try done.
  - eapply Forall_impl; [exact Hfr | apply fresh_routes_sane].
  - rewrite (init_fields _ _ _ _ _ Hinit). cbn. repeat split; try done; try lia; constructor.
  - intros n _. eapply Forall_impl; [apply boot_timers|].
    intros [due tk]; cbn. by destruct tk.
Qed.

Lemma reachable_sane st :
  Sim.reachable st →
  holds (Engine.width (Sim.engine st)) (Engine.height (Sim.engine st))
        routes_sane logger_sane task_sane st.
Proof.
  intros (st0 & tr & H0 & Hrun).
  destruct (holds_run _ _ _ _ _ (sane_discipline _ _) st0 tr st (initial_sane st0 H0) Hrun)
    as [H _].
  destruct H as (Hids & Hw & Hh & Hn & Hl & Hq).
  exact (conj Hids (conj eq_refl (conj eq_refl (conj Hn (conj Hl Hq))))).
Qed.

(** In every state of a run the shared logger is in order: it holds one
    latency and one hop count per recorded delivery, no latency is negative
    and every hop count is at least one, and there are no more routing
    updates than control packets. *)
Theorem run_logger_sane st :
  Sim.reachable st → logger_sane (Engine.logger (Sim.engine st)).
Proof. intros H. by destruct (reachable_sane st H) as (_ & _ & _ & _ & Hl & _). Qed.

(** In every state of a run the routing memory of every node is in order
    (entries at least one hop long; [best_seq] records, for exactly the
    sinks of the table, the sequence number of the entry), and so is every
    packet on its way: created in the past, with at least one hop to live
    if it carries data. *)
Theorem run_routes_sane st :
  Sim.reachable st →
  (∀ i n, node_at st i = Some n → routes_sane n)
  ∧ (∀ due tk, (due, tk) ∈ Sim.queue st → task_sane due tk).
Proof.
  intros H. destruct (reachable_sane st H) as (_ & _ & _ & Hn & _ & Hq). split.
  - intros i n [_ Hi]%node_map_Some. by apply (proj1 (Forall_lookup _ _) Hn _ _ Hi).
  - intros due tk Hin. by apply (proj1 (Forall_forall _ _) Hq _ Hin).
Qed.

Lemma line_reachable n : Sim.reachable (line_run n).2.
Proof. exists line_start, (line_run n).1. split; [exact line_initial | exact (line_runs n)]. Qed.

Lemma run_logger_sane_witness :
  logger_sane (Engine.logger (Sim.engine (line_run 25).2)).
Proof. apply (run_logger_sane (line_run 25).2). exact (line_reachable 25). Defined.

Lemma run_routes_sane_witness :
  (∀ i n, node_at (line_run 25).2 i = Some n → routes_sane n)
  ∧ (∀ due tk, (due, tk) ∈ Sim.queue (line_run 25).2 → task_sane due tk).
Proof. apply (run_routes_sane (line_run 25).2). exact (line_reachable 25). Defined.

(** * Positions over a run *)

Lemma same_spot_refl n : same_spot n n.
Proof. by repeat split. Qed.

(** No method moves a node or changes its id or flags. *)
Lemma send_rms_same_spot now q c : same_spot (Node.self c) (Node.self (Node._send_rms now q c)).
Proof.
  destruct (send_rms_effect now q c) as (t & ev & dst & p' & g & -> & _). by repeat split.
Qed.

Lemma methods_same_spot n lg :
  (∀ p, same_spot n (Node.self (Node._broadcast p (Node.mk_ctx n lg []))))
  ∧ (∀ nb p, same_spot n (Node.self (Node._deliver nb p (Node.mk_ctx n lg []))))
  ∧ (∀ due p, same_spot n (Node.self (Node.receive due p (Node.mk_ctx n lg []))))
  ∧ (∀ due, same_spot n (Node.self (NodeTimers._sink_bom_process due (Node.mk_ctx n lg []))))
  ∧ (∀ due, same_spot n (Node.self (NodeTimers._generate_rms_process due
                                      (Node.mk_ctx n lg []))))
  ∧ (∀ now ty dst, same_spot n (Node.self (Gui.inject_packet now ty dst
                                             (Node.mk_ctx n lg [])))).
Proof.
  split; [|split; [|split; [|split; [|split]]]].
  - intros p. unfold Node._broadcast.
    destruct (broadcast_loop_spec (Node.neighbors n) p (Node.mk_ctx n lg [])) as (_ & _ & Hs).
    cbn in Hs |- *. rewrite Hs. by repeat split.
  - intros nb p. by repeat split.
  - intros due p. unfold Node.receive.
    set (n1 := Node.set_rx_count (Node.rx_count n + 1) n).
    change (Node.on_self _ (Node.mk_ctx n lg [])) with (Node.mk_ctx n1 lg []).
    destruct (Pkt.pkt_type p).
    + unfold Node._handle_bom. destruct (Node.bom_accepts p _); by repeat split.
    + destruct (handle_rms_cases due p (Node.mk_ctx n1 lg []))
        as [[_ ->]|[_ [[_ ->]|[(_ & _ & ->)|(_ & _ & ->)]]]]; try by repeat split.
      pose proof (send_rms_same_spot due (Pkt.set_hop_count (Pkt.hop_count p - 1) p)
                    (marked (rms_key p) (Node.mk_ctx n1 lg []))) as H.
      exact H.
  - intros due. by repeat split.
  - intros due. unfold NodeTimers._generate_rms_process.
    set (n1 := Node.set_seq_num (Node.seq_num n + 1) n).
    match goal with |- same_spot _ (Node.self (Node._send_rms ?t ?q ?c)) =>
      pose proof (send_rms_same_spot t q c) as H end.
    exact H.
  - intros now ty dst. destruct ty; by repeat split.
Qed.

(** A property of a node's id, flags and position that a move keeps is
    kept by every method. *)
Lemma spot_discipline w h (NodeOK : Node.t → Prop) (TaskOK : Sim.task → Prop) :
  (∀ n n', same_spot n n' → NodeOK n → NodeOK n') →
  (∀ e n cs, Engine.width e = w → Engine.height e = h →
             NodeOK n → TaskOK (Sim.Mobility (Node.id n)) → NodeOK (Sim.move e cs n)) →
  (∀ g, TaskOK (Sim.Run g)) →
  discipline w h NodeOK (fun _ => True) (fun _ => TaskOK).
Proof.
  intros Hspot Hmove Hrun.
  assert (∀ due n c', same_spot n (Node.self c') → NodeOK n →
            kept NodeOK (fun _ => True) (fun _ => TaskOK) due n c') as Hkept.
  { intros due n c' Hs Hn. split; [apply Hs|]. split; [by eapply Hspot|]. split; [done|].
    apply Forall_forall. intros g _. apply Hrun. }
  split.
  - intros due n lg p Hn _ _. apply Hkept; [|done]. apply methods_same_spot.
  - intros due n lg nb p Hn _ _. apply Hkept; [|done]. apply methods_same_spot.
  - intros due n lg p Hn _ _. apply Hkept; [|done]. apply methods_same_spot.
  - intros due n lg Hn _ _. apply Hkept; [|done]. apply methods_same_spot.
  - intros due n lg Hn _ _. apply Hkept; [|done]. apply methods_same_spot.
  - intros now n lg ty dst Hn _. apply Hkept; [|done]. apply methods_same_spot.
  - intros e due n cs Hw Hh Hn Htk. by apply Hmove.
  - intros n n' [(Hid & Hs & Hm & _) [Hx Hy]] Hn. apply (Hspot n); [|done]. by repeat split.
  - done.
Qed.

Lemma anchored_discipline w h ns0 :
  discipline w h (anchored ns0) (fun _ => True) (fun _ => mobile_timer ns0).
Proof.
  apply spot_discipline.
  - intros n n' (Hid & Hs & Hm & Hx & Hy) Hn n0. rewrite Hid, Hs, Hm, Hx, Hy. apply Hn.
  - intros e n cs _ _ Hn (n0 & Hn0 & Hmob) n0'. cbn. intros Hn0'.
    rewrite Hn0 in Hn0'. injection Hn0' as <-.
    destruct (Hn n0 Hn0) as (Hs & Hm & _). split; [done|]. split; [done|]. congruence.
  - done.
Qed.

Lemma in_bounds_discipline w h :
  (0 <= w)%Q → (0 <= h)%Q →
  discipline w h (in_bounds w h) (fun _ => True) (fun _ _ => True).
Proof.
  intros Hw Hh. apply (spot_discipline w h (in_bounds w h) (fun _ => True)).
  - intros n n' (_ & _ & _ & Hx & Hy) Hn. unfold in_bounds. by rewrite Hx, Hy.
  - intros e n cs <- <- _ _. split; cbn; by apply clamp_inside.
  - done.
Qed.

(** Along a run the node list keeps its length. *)
Lemma run_same_length st0 tr st :
  Sim.initial st0 → Sim.run st0 tr st →
  length (Engine.nodes (Sim.engine st)) = length (Engine.nodes (Sim.engine st0)).
Proof.
  intros H0 Hrun.
  destruct (timed_run_from [] st0 tr st (timed_initial _ H0) Hrun) as (_ & Hg & _).
  symmetry. by eapply Forall2_length.
Qed.

(** Every node of a run is anchored in the node list the run started
    from. *)
Lemma run_anchored st0 tr st :
  Sim.initial st0 → Sim.run st0 tr st →
  ids_are_positions (Engine.nodes (Sim.engine st))
  ∧ Forall (anchored (Engine.nodes (Sim.engine st0))) (Engine.nodes (Sim.engine st)).
Proof.
  intros H0 Hrun. set (ns0 := Engine.nodes (Sim.engine st0)).
  assert (holds (Engine.width (Sim.engine st0)) (Engine.height (Sim.engine st0))
            (anchored ns0) (fun _ => True) (fun _ => mobile_timer ns0) st0) as Hst0.
  { destruct H0 as (fuel & cfg & r & e & r' & first & Hinit & _ & ->).
    destruct (init_pristine _ _ _ _ _ Hinit) as [Hids _].
    apply start_holds; try done.
    - apply Forall_lookup. intros j n Hj n0'. rewrite (Hids _ _ Hj), Nat2Z.id.
      subst ns0. cbn. rewrite Hj. by intros [= <-].
    - intros n Hn. apply list_elem_of_lookup in Hn as [j Hj]. unfold Sim.boot.
      apply Forall_app. split; [by destruct (Node.is_sink n); repeat constructor|].
      destruct (Node.is_mobile n) eqn:Hm; [|constructor]. constructor; [|done].
      cbn. exists n. rewrite (Hids _ _ Hj), Nat2Z.id. by subst ns0. }
  by destruct (holds_run _ _ _ _ _ (anchored_discipline _ _ ns0) st0 tr st Hst0 Hrun)
    as [(Hids & _ & _ & Hn & _) _].
Qed.

(** In a run only phones move: every node keeps its flags, and every
    stationary node the position the constructor gave it. *)
Theorem run_static_fixed st0 tr st (i : Z) n0 :
  Sim.initial st0 → Sim.run st0 tr st →
  node_at st0 i = Some n0 →
  ∃ n, node_at st i = Some n
       ∧ Node.id n = i
       ∧ Node.is_sink n = Node.is_sink n0 ∧ Node.is_mobile n = Node.is_mobile n0
       ∧ (Node.is_mobile n0 = false → Node.x n = Node.x n0 ∧ Node.y n = Node.y n0).
Proof.
  intros H0 Hrun Hi0. pose proof (run_same_length _ _ _ H0 Hrun) as Hlen.
  destruct (run_anchored st0 tr st H0 Hrun) as [Hids Hn].
  apply node_map_Some in Hi0 as [Hi Hi0].
  destruct (lookup_lt_is_Some_2 (Engine.nodes (Sim.engine st)) (Z.to_nat i)) as [n Hn'].
  { rewrite Hlen. by eapply lookup_lt_Some. }
  exists n. split; [by apply node_map_Some|].
  assert (Node.id n = i) as Hid by (rewrite (Hids _ _ Hn'); lia).
  split; [done|].
  apply (proj1 (Forall_lookup _ _) Hn _ _ Hn' n0). by rewrite Hid.
Qed.

(** If the nodes start inside the area, they stay inside it all along the
    run. *)
Theorem run_inside st0 tr st :
  Sim.initial st0 → Sim.run st0 tr st →
  (0 <= Engine.width (Sim.engine st0))%Q → (0 <= Engine.height (Sim.engine st0))%Q →
  Forall (inside (Sim.engine st0)) (Engine.nodes (Sim.engine st0)) →
  Forall (inside (Sim.engine st)) (Engine.nodes (Sim.engine st)).
Proof.
  intros H0 Hrun Hw Hh Hin.
  assert (holds (Engine.width (Sim.engine st0)) (Engine.height (Sim.engine st0))
            (in_bounds (Engine.width (Sim.engine st0)) (Engine.height (Sim.engine st0)))
            (fun _ => True) (fun _ _ => True) st0) as Hst0.
  { destruct H0 as (fuel & cfg & r & e & r' & first & Hinit & _ & ->).
    destruct (init_pristine _ _ _ _ _ Hinit) as [Hids _].
    apply start_holds; try done. intros n _. by apply Forall_forall. }
  destruct (holds_run _ _ _ _ _ (in_bounds_discipline _ _ Hw Hh) st0 tr st Hst0 Hrun)
    as [(_ & Ew & Eh & Hn & _) _].
  unfold inside. rewrite Ew, Eh. exact Hn.
Qed.

Lemma run_static_fixed_witness :
  ∃ n0, node_at line_start 4 = Some n0
    ∧ ∃ n, node_at (line_run 25).2 4 = Some n
           ∧ Node.id n = 4
           ∧ Node.is_sink n = Node.is_sink n0 ∧ Node.is_mobile n = Node.is_mobile n0
           ∧ (Node.is_mobile n0 = false → Node.x n = Node.x n0 ∧ Node.y n = Node.y n0).
Proof.
  eexists. split; [vm_compute; reflexivity|].
  apply (run_static_fixed line_start (line_run 25).1 (line_run 25).2 4).
  - exact line_initial.
  - exact (line_runs 25).
  - vm_compute. reflexivity.
Defined.

Lemma line_start_inside :
  Forall (inside (Sim.engine line_start)) (Engine.nodes (Sim.engine line_start)).
Proof.
  apply Forall_lookup. intros i n Hi.
  assert (Engine.width (Sim.engine line_start) = 200%Q) as Hw by (vm_compute; reflexivity).
  assert (Engine.height (Sim.engine line_start) = 200%Q) as Hh by (vm_compute; reflexivity).
  unfold inside. rewrite Hw, Hh. clear Hw Hh.
  destruct i as [|[|[|[|[|i]]]]]; vm_compute in Hi; [..|discriminate].
  all: injection Hi as <-; split; split; vm_compute; discriminate.
Qed.

Lemma run_inside_witness :
  Forall (inside (Sim.engine (line_run 25).2)) (Engine.nodes (Sim.engine (line_run 25).2)).
Proof.
  apply (run_inside line_start (line_run 25).1 (line_run 25).2).
  - exact line_initial.
  - exact (line_runs 25).
  - vm_compute. discriminate.
  - vm_compute. discriminate.
  - exact line_start_inside.
Defined.

(** * Data packets are created with fresh keys *)

Lemma sent_by_key me nbs q p' g (rt : list (option Z * Node.route)) :
  sent_by me nbs p' g →
  (p' = q ∧ rt = []) ∨ (∃ sink e, In (sink, e) rt
                                  ∧ p' = readdressed sink (Node.hop_distance e + 1) q) →
  rms_key (packet_of g) = rms_key q.
Proof.
  intros Hg Hp'.
  assert (rms_key p' = rms_key q) as <-.
  { by destruct Hp' as [[-> _]|(sink & e & _ & ->)]. }
  by destruct Hg as [->|(nb & _ & ->)].
Qed.

(** What the methods do to the sequence counter of the node and to
    [data_sent]: only [_generate_rms_process] and the injection form count
    a data packet, and they number it with the next sequence number (the
    beacon timer uses up a sequence number as well). *)
Lemma methods_counters n lg :
  let quiet_on c' :=
    Node.seq_num n ≤ Node.seq_num (Node.self c')
    ∧ Logger.data_sent (Node.logger c') = Logger.data_sent lg in
  let creates c' :=
    Node.seq_num (Node.self c') = Node.seq_num n + 1
    ∧ Logger.data_sent (Node.logger c') = Logger.data_sent lg + 1
    ∧ ∃ g, Node.spawned c' = [g] ∧ rms_key (packet_of g) = (Node.id n, Node.seq_num n + 1) in
  (∀ p, quiet_on (Node._broadcast p (Node.mk_ctx n lg [])))
  ∧ (∀ nb p, quiet_on (Node._deliver nb p (Node.mk_ctx n lg [])))
  ∧ (∀ due p, quiet_on (Node.receive due p (Node.mk_ctx n lg [])))
  ∧ (∀ due, quiet_on (NodeTimers._sink_bom_process due (Node.mk_ctx n lg [])))
  ∧ (∀ due, creates (NodeTimers._generate_rms_process due (Node.mk_ctx n lg [])))
  ∧ (∀ now ty dst, creates (Gui.inject_packet now ty dst (Node.mk_ctx n lg []))).
Proof.
  intros quiet_on creates. subst quiet_on creates. cbv beta.
  split; [|split; [|split; [|split; [|split]]]].
  - intros p. unfold Node._broadcast.
    destruct (broadcast_loop_spec (Node.neighbors n) p (Node.mk_ctx n lg [])) as (_ & Hl & Hs).
    cbn in Hl, Hs |- *. rewrite Hs, Hl. cbn. split; [lia | done].
  - intros nb p. cbn. split; [lia | done].
  - intros due p. unfold Node.receive.
    set (n1 := Node.set_rx_count (Node.rx_count n + 1) n).
    change (Node.on_self _ (Node.mk_ctx n lg [])) with (Node.mk_ctx n1 lg []).
    destruct (Pkt.pkt_type p).
    + unfold Node._handle_bom. destruct (Node.bom_accepts p _); cbn; (split; [lia | done]).
    + destruct (handle_rms_cases due p (Node.mk_ctx n1 lg []))
        as [[_ ->]|[_ [[_ ->]|[(_ & _ & ->)|(_ & _ & ->)]]]]; cbn; try (split; [lia | done]).
      destruct (send_rms_effect due (Pkt.set_hop_count (Pkt.hop_count p - 1) p)
                  (marked (rms_key p) (Node.mk_ctx n1 lg [])))
        as (t & ev & dst & p' & g & -> & _). cbn. split; [lia | done].
  - intros due. cbn. split; [lia | done].
  - intros due. unfold NodeTimers._generate_rms_process.
    set (n1 := Node.set_seq_num (Node.seq_num n + 1) n).
    set (q := Pkt.init Pkt.RMS (Node.id n1) None (Node.seq_num n1) Node.MAX_HOPS
                       (Some (Node.id n1)) due).
    set (c1 := Node.mk_ctx n1 (Logger.log_event due Logger.EvRMS_GEN (Node.id n1) (-1)
                                 (Logger.record_data_sent lg)) []).
    change (Node.seq_num (Node.self (Node._send_rms due q c1)) = Node.seq_num n + 1
            ∧ Logger.data_sent (Node.logger (Node._send_rms due q c1))
              = Logger.data_sent lg + 1
            ∧ ∃ g, Node.spawned (Node._send_rms due q c1) = [g]
                   ∧ rms_key (packet_of g) = (Node.id n, Node.seq_num n + 1)).
    destruct (send_rms_effect due q c1) as (t & ev & dst & p' & g & -> & Hg & Hp').
    cbn. split; [done|]. split; [done|]. exists g. split; [done|].
    by rewrite (sent_by_key _ _ q _ _ _ Hg Hp').
  - intros now ty dst. destruct ty; cbn; (split; [done|]; split; [done|]; by eexists).
Qed.

(** Running a method that leaves the id alone and does not lower the
    sequence counter. *)
Lemma with_node_counters e (i : Z) f e' ps :
  ids_are_positions (Engine.nodes e) →
  Sim.with_node e i f = (e', ps) →
  (∀ n, Engine.node_map e i = Some n →
        let c' := f (Node.mk_ctx n (Engine.logger e) []) in
        Node.id (Node.self c') = Node.id n ∧ Node.seq_num n ≤ Node.seq_num (Node.self c')) →
  ids_are_positions (Engine.nodes e')
  ∧ (∀ j n, Engine.node_map e j = Some n →
       ∃ n', Engine.node_map e' j = Some n' ∧ Node.seq_num n ≤ Node.seq_num n')
  ∧ match Engine.node_map e i with
    | Some n =>
        let c' := f (Node.mk_ctx n (Engine.logger e) []) in
        Engine.logger e' = Node.logger c' ∧ Engine.node_map e' i = Some (Node.self c')
        ∧ Node.id n = i
    | None => e' = e
    end.
Proof.
  intros Hids Hwith Hf. pose proof (with_node_spec e i f) as Hspec.
  destruct (Engine.node_map e i) as [n|] eqn:Hnode.
  - rewrite Hwith in Hspec. injection Hspec as -> ->.
    destruct (Hf n eq_refl) as [Hid Hseq].
    apply node_map_Some in Hnode as [Hi Hnode].
    assert (Z.to_nat i < length (Engine.nodes e))%nat as Hlt by (by eapply lookup_lt_Some).
    split; [by eapply ids_insert|]. split; [|split; [done|split]].
    + intros j m [Hj Hm]%node_map_Some. destruct (decide (Z.to_nat j = Z.to_nat i)) as [E|E].
      * rewrite E in Hm. assert (m = n) as -> by congruence. eexists. split; [|exact Hseq].
        apply node_map_Some. split; [done|]. cbn. rewrite E. by apply list_lookup_insert_eq.
      * exists m. split; [|lia]. apply node_map_Some. split; [done|]. cbn.
        by rewrite list_lookup_insert_ne.
    + apply node_map_Some. split; [done|]. cbn. by apply list_lookup_insert_eq.
    + rewrite (Hids _ _ Hnode). lia.
  - rewrite Hwith in Hspec. injection Hspec as -> ->.
    split; [done|]. split; [|done]. intros j m Hj. exists m. split; [done | lia].
Qed.

(** What one step does to the sequence counters and to [data_sent]. *)
Lemma step_counters st l st' :
  ids_are_positions (Engine.nodes (Sim.engine st)) → Sim.step st l st' →
  ids_are_positions (Engine.nodes (Sim.engine st'))
  ∧ (∀ j n, node_at st j = Some n →
       ∃ n', node_at st' j = Some n' ∧ Node.seq_num n ≤ Node.seq_num n')
  ∧ match created_key (st, l) with
    | Some key =>
        (∃ n', node_at st' key.1 = Some n' ∧ Node.seq_num n' = key.2)
        ∧ (∀ n, node_at st key.1 = Some n → Node.seq_num n < key.2)
        ∧ Logger.data_sent (Engine.logger (Sim.engine st'))
          = Logger.data_sent (Engine.logger (Sim.engine st)) + 1
    | None =>
        Logger.data_sent (Engine.logger (Sim.engine st'))
        = Logger.data_sent (Engine.logger (Sim.engine st))
    end.
Proof.
  intros Hids Hstep. unfold node_at.
  destruct Hstep as [st k d due tk Hk _ _|st until _ _|st src ty dst _].
  - unfold Sim.fire, created_key, node_at. cbn [fst snd]. rewrite Hk.
    destruct tk as [[s p|s nb p|i p]|i|i|i]; simpl.
    + destruct (Sim.with_node _ _ _) as [e' ps] eqn:E. cbn.
      destruct (with_node_counters _ _ _ _ _ Hids E) as (Hids' & Hmono & Heff).
      { intros n _. split; [apply methods_same_spot | apply methods_counters]. }
      split; [done|]. split; [done|].
      destruct (Engine.node_map _ s) as [n|]; [|by subst].
      destruct Heff as (-> & _). apply methods_counters.
    + destruct (Sim.with_node _ _ _) as [e' ps] eqn:E. cbn.
      destruct (with_node_counters _ _ _ _ _ Hids E) as (Hids' & Hmono & Heff).
      { intros n _. split; [apply methods_same_spot | apply methods_counters]. }
      split; [done|]. split; [done|].
      destruct (Engine.node_map _ s) as [n|]; [|by subst].
      destruct Heff as (-> & _). apply methods_counters.
    + destruct (Sim.with_node _ _ _) as [e' ps] eqn:E. cbn.
      destruct (with_node_counters _ _ _ _ _ Hids E) as (Hids' & Hmono & Heff).
      { intros n _. split; [apply methods_same_spot | apply methods_counters]. }
      split; [done|]. split; [done|].
      destruct (Engine.node_map _ i) as [n|]; [|by subst].
      destruct Heff as (-> & _). apply methods_counters.
    + destruct (Sim.with_node _ _ _) as [e' ps] eqn:E. cbn.
      destruct (with_node_counters _ _ _ _ _ Hids E) as (Hids' & Hmono & Heff).
      { intros n _. split; [apply methods_same_spot | apply methods_counters]. }
      split; [done|]. split; [done|].
      destruct (Engine.node_map _ i) as [n|]; [|by subst].
      destruct Heff as (-> & _). apply methods_counters.
    + destruct (Sim.with_node _ _ _) as [e' ps] eqn:E. cbn.
      destruct (with_node_counters _ _ _ _ _ Hids E) as (Hids' & Hmono & Heff).
      { intros n _. split; [apply methods_same_spot|].
        destruct (methods_counters n (Engine.logger (Sim.engine st)))
          as (_ & _ & _ & _ & Hgen & _). destruct (Hgen due) as [-> _]. lia. }
      split; [done|]. split; [done|].
      destruct (Engine.node_map _ i) as [n|] eqn:Hn; [|subst; cbn; done].
      destruct Heff as (Hl & Hn' & Hid). cbn.
      destruct (methods_counters n (Engine.logger (Sim.engine st)))
        as (_ & _ & _ & _ & Hgen & _).
      destruct (Hgen due) as (Hseq & Hds & g & Hg & Hkey). rewrite Hg. cbn -[rms_key packet_of]. rewrite Hkey. cbn.
      rewrite Hid. split; [by eexists|]. split; [|by rewrite Hl].
      intros n0. rewrite Hn. intros [= <-]. lia.
    + cbn. pose proof (mobility_same_protocol (Sim.engine st) i (Rng.dir d)) as Hsp.
      split; [|split].
      * intros j n' Hj. destruct (Forall2_lookup_r _ _ _ _ _ Hsp Hj) as (n & Hn0 & Hp).
        destruct Hp as (-> & _). by apply Hids.
      * intros j n [Hj Hn]%node_map_Some.
        destruct (Forall2_lookup_l _ _ _ _ _ Hsp Hn) as (n' & Hn' & Hp).
        exists n'. split; [by apply node_map_Some|].
        destruct Hp as (_ & _ & _ & _ & _ & _ & -> & _). lia.
      * unfold Sim._mobility_process. by destruct (Engine.node_map _ _).
  - cbn. split; [done|]. split; [|done]. intros j n Hn. exists n. split; [done | lia].
  - unfold Sim.inject, created_key, node_at. cbn [fst snd].
    destruct (Sim.with_node _ _ _) as [e' ps] eqn:E. cbn.
    destruct (with_node_counters _ _ _ _ _ Hids E) as (Hids' & Hmono & Heff).
    { intros n _. split; [apply methods_same_spot|].
      destruct (methods_counters n (Engine.logger (Sim.engine st)))
        as (_ & _ & _ & _ & _ & Hinj). destruct (Hinj (Sim.now st) ty dst) as [-> _]. lia. }
    split; [done|]. split; [done|]. unfold node_at. cbn.
    destruct (Engine.node_map _ src) as [n|] eqn:Hn; [|subst; cbn; done].
    destruct Heff as (Hl & Hn' & Hid). cbn.
    destruct (methods_counters n (Engine.logger (Sim.engine st)))
      as (_ & _ & _ & _ & _ & Hinj).
    destruct (Hinj (Sim.now st) ty dst) as (Hseq & Hds & g & Hg & Hkey).
    rewrite Hg. cbn -[rms_key packet_of]. rewrite Hkey. cbn.
    rewrite Hid. split; [by eexists|]. split; [|by rewrite Hl].
    intros n0. rewrite Hn. intros [= <-]. lia.
Qed.

Lemma created_keys_snoc tr sl :
  created_keys (tr ++ [sl])
  = created_keys tr ++ match created_key sl with Some key => [key] | None => [] end.
Proof. unfold created_keys. rewrite omap_app. cbn. by destruct (created_key sl). Qed.

Lemma keys_from st0 tr st :
  ids_are_positions (Engine.nodes (Sim.engine st0)) → Sim.run st0 tr st →
  ids_are_positions (Engine.nodes (Sim.engine st))
  ∧ NoDup (created_keys tr)
  ∧ Logger.data_sent (Engine.logger (Sim.engine st))
    = Logger.data_sent (Engine.logger (Sim.engine st0)) + Z.of_nat (length (created_keys tr))
  ∧ ∀ key, key ∈ created_keys tr →
      ∃ n, node_at st key.1 = Some n ∧ key.2 ≤ Node.seq_num n.
Proof.
  intros Hids0 Hrun. induction Hrun as [st|st tr st' l st'' Hrun IH Hstep].
  - split; [done|]. split; [constructor|]. split; [cbn; lia|].
    intros key Hin. by apply elem_of_nil in Hin.
  - destruct (IH Hids0) as (Hids & Hnd & Hds & Hold).
    destruct (step_counters st' l st'' Hids Hstep) as (Hids' & Hmono & Hnew).
    rewrite created_keys_snoc. split; [done|].
    assert (∀ key, key ∈ created_keys tr →
              ∃ n, node_at st'' key.1 = Some n ∧ key.2 ≤ Node.seq_num n) as Hold'.
    { intros key Hin. destruct (Hold key Hin) as (n & Hn & Hle).
      destruct (Hmono _ _ Hn) as (n' & Hn' & Hle'). exists n'. split; [done | lia]. }
    destruct (created_key (st', l)) as [key|].
    + destruct Hnew as ((n' & Hn' & Hseq) & Hlt & Hds').
      split; [|split].
      * apply NoDup_app. split; [done|]. split; [|apply NoDup_singleton].
        intros k Hk ->%list_elem_of_singleton.
        destruct (Hold key Hk) as (n & Hn & Hle). specialize (Hlt n Hn). lia.
      * rewrite length_app. cbn. lia.
      * intros k [Hk| ->%list_elem_of_singleton]%elem_of_app; [by apply Hold'|].
        exists n'. split; [done | lia].
    + rewrite app_nil_r. split; [done|]. split; [lia | done].
Qed.

(** Every data packet a run creates gets a duplicate-suppression key of
    its own: origin and sequence number together are never used twice, and
    [data_sent] counts the keys created. *)
Theorem run_keys_fresh st0 tr st :
  Sim.initial st0 → Sim.run st0 tr st →
  NoDup (created_keys tr)
  ∧ Logger.data_sent (Engine.logger (Sim.engine st)) = Z.of_nat (length (created_keys tr)).
Proof.
  intros H0 Hrun.
  destruct H0 as (fuel & cfg & r & e & r' & first & Hinit & _ & ->).
  destruct (init_pristine _ _ _ _ _ Hinit) as [Hids _].
  destruct (keys_from (Sim.start e first) tr st Hids Hrun) as (_ & Hnd & Hds & _).
  split; [done|]. rewrite Hds. cbn. rewrite (init_fields _ _ _ _ _ Hinit). cbn. lia.
Qed.

Lemma run_keys_fresh_witness :
  NoDup (created_keys (line_run 25).1)
  ∧ Logger.data_sent (Engine.logger (Sim.engine (line_run 25).2))
    = Z.of_nat (length (created_keys (line_run 25).1)).
Proof.
  apply (run_keys_fresh line_start (line_run 25).1 (line_run 25).2).
  - exact line_initial.
  - exact (line_runs 25).
Defined.

(** The line creates one data packet in its first 25 events: the first
    of node 4. *)
Example line_created_keys : created_keys (line_run 25).1 = [(4, 1)].
Proof. vm_compute. reflexivity. Qed.

(** * The footprint of the repair *)

Lemma pass_unmoved_alter static ns st (i : nat) node px py r1 c :
  pass_unmoved static ns st → i ∈ static →
  Engine.r_nodes st !! i = Some node → Node.neighbors node = [] →
  pass_unmoved static ns
    (Engine.mk_repairing (alter (Node.set_pos px py) i (Engine.r_nodes st)) r1 c).
Proof.
  intros [Hnb Hun] Hi Hnode Hnil.
  destruct (Forall2_lookup_r _ _ _ _ _ Hnb Hnode) as (n0 & Hn0 & Hnb0).
  assert (lonelyb ns i = true) as Hlone.
  { apply (no_neighbors_lonely ns i n0 Hn0). congruence. }
  split; cbn.
  - apply Forall2_lookup. intros j. destruct (decide (j = i)) as [->|Hj].
    + rewrite list_lookup_alter_eq, Hnode, Hn0. by constructor.
    + rewrite list_lookup_alter_ne by done. by apply Forall2_lookup.
  - intros j Hj. rewrite list_lookup_alter_ne; [by apply Hun|].
    intros ->. destruct Hj as [Hj|Hj]; [done | congruence].
Qed.

Lemma repair_node_unmoved e static ns st i st' :
  Engine.repair_node e static st i = Engine.Ok st' → i ∈ static →
  pass_unmoved static ns st → pass_unmoved static ns st'.
Proof.
  unfold Engine.repair_node. intros Hst Hi Hinv.
  destruct (Engine.r_nodes st !! i) as [node|] eqn:Hnode; [|by injection Hst as <-].
  destruct (length (Node.neighbors node) =? 0)%nat eqn:El; [|by injection Hst as <-].
  assert (Node.neighbors node = []) as Hnil.
  { apply Nat.eqb_eq in El. by destruct (Node.neighbors node). }
  destruct (Engine.candidates _ _ _) as [|c cs]; [by injection Hst as <-|].
  destruct (Rng.choice _ _) as [[a|] r]; [|done].
  destruct (Engine.r_nodes st !! a) as [anchor|]; [|done].
  destruct (Engine.try_ring _ _ _ _ _ _ _) as [[xy|] r1].
  - injection Hst as <-. by eapply pass_unmoved_alter.
  - destruct (Engine.changed st).
    + injection Hst as <-. exact Hinv.
    + destruct (Rng.angle r1) as [cs' r2]. injection Hst as <-.
      by eapply pass_unmoved_alter.
Qed.

Lemma fold_repair_unmoved e static ns l : ∀ st st',
  Engine.fold_result (Engine.repair_node e static) l st = Engine.Ok st' → l ⊆ static →
  pass_unmoved static ns st → pass_unmoved static ns st'.
Proof.
  induction l as [|i l IH]; intros st st'; simpl; [by intros [= <-]|].
  destruct (Engine.repair_node e static st i) as [st1| |] eqn:E; [|done..].
  intros Hst Hl Hinv. apply (IH st1 st' Hst).
  - intros j Hj. apply Hl. by right.
  - eapply repair_node_unmoved; [exact E| |done]. apply Hl. left.
Qed.

Lemma pass_unmoved_start static ns r :
  pass_unmoved static ns (Engine.mk_repairing (Engine.update_neighbors_nodes ns) r false).
Proof.
  split; cbn; [|done]. apply Forall2_lookup. intros j.
  destruct (Engine.update_neighbors_nodes ns !! j); by constructor.
Qed.

(** A node the pass leaves alone: it keeps its position, and so does the
    node within its range, if it has one. *)
Lemma pass_unmoved_keeps static ns st (i : nat) n :
  pass_unmoved static ns st → ns !! i = Some n → i ∉ static ∨ has_neighbor ns i →
  (∃ n', Engine.r_nodes st !! i = Some n' ∧ Node.x n' = Node.x n ∧ Node.y n' = Node.y n)
  ∧ (i ∉ static ∨ has_neighbor (Engine.r_nodes st) i).
Proof.
  intros [Hnb Hun] Hi Hor.
  assert (∀ (j : nat) m, ns !! j = Some m → j ∉ static ∨ lonelyb ns j = false →
            ∃ m', Engine.r_nodes st !! j = Some m' ∧ Node.x m' = Node.x m
                  ∧ Node.y m' = Node.y m) as Hpos.
  { intros j m Hj Hc. rewrite (Hun j Hc).
    destruct (Forall2_lookup_l _ _ _ _ _ (update_neighbors_same_place ns) Hj)
      as (m' & Hm' & _ & Hx & Hy). by exists m'. }
  assert (∀ (j : nat) m, ns !! j = Some m → has_neighbor ns j → lonelyb ns j = false) as Hnl.
  { intros j m Hj Hh. by apply (lonelyb_false ns j m Hj). }
  split.
  - apply Hpos; [done|]. destruct Hor as [?|Hh]; [by left | right; by eapply Hnl].
  - destruct Hor as [?|Hh]; [by left | right].
    destruct Hh as (n1 & k & m & Hi1 & Hne & Hk & Hr).
    rewrite Hi in Hi1. injection Hi1 as <-.
    destruct (Hpos i n Hi) as (n' & Hn' & Hx & Hy).
    { right. apply (Hnl i n Hi). by exists n, k, m. }
    destruct (Hpos k m Hk) as (m' & Hm' & Hxm & Hym).
    { right. apply (Hnl k m Hk). exists m, i, n.
      split; [done|]. split; [done|]. split; [done | by apply within_range_sym]. }
    exists n', k, m'. repeat split; try done. unfold within_range in *.
    by rewrite Hx, Hy, Hxm, Hym.
Qed.

Lemma repair_loop_unmoved fuel e static : ∀ ns r ns' r' (i : nat) n,
  Engine.repair_loop fuel e static ns r = Engine.Ok (ns', r') →
  ns !! i = Some n → i ∉ static ∨ has_neighbor ns i →
  ∃ n', ns' !! i = Some n' ∧ Node.x n' = Node.x n ∧ Node.y n' = Node.y n.
Proof.
  induction fuel as [|fuel IH]; intros ns r ns' r' i n; simpl; [done|].
  destruct (Engine.fold_result _ _ _) as [st| |] eqn:E; [|done..].
  intros Hres Hi Hor.
  pose proof (fold_repair_unmoved e static ns static _ _ E ltac:(done)
                (pass_unmoved_start static ns r)) as Hinv.
  destruct (pass_unmoved_keeps static ns st i n Hinv Hi Hor) as [(n1 & Hn1 & Hx & Hy) Hor1].
  destruct (Engine.changed st).
  - destruct (IH _ _ _ _ i n1 Hres Hn1 Hor1) as (n' & Hn' & Hx' & Hy').
    exists n'. split; [done|]. split; congruence.
  - injection Hres as <- <-. by exists n1.
Qed.

(** The repair moves stationary nodes that have no node within range and
    nothing else: phones and nodes with a node in range stay where they
    are, and no node's protocol state changes. *)
Theorem repair_footprint fuel e r e' r' :
  Engine._ensure_each_has_neighbor fuel e r = Engine.Ok (e', r') →
  Forall2 same_protocol (Engine.nodes e) (Engine.nodes e')
  ∧ ∀ (i : nat) n, Engine.nodes e !! i = Some n →
      Node.is_mobile n = true ∨ has_neighbor (Engine.nodes e) i →
      ∃ n', Engine.nodes e' !! i = Some n' ∧ Node.x n' = Node.x n ∧ Node.y n' = Node.y n.
Proof.
  unfold Engine._ensure_each_has_neighbor.
  destruct (Engine.repair_loop _ _ _ _ _) as [[ns' r1]| |] eqn:E; [|done..].
  intros [= <- <-]. cbn. split; [by eapply repair_loop_same_protocol|].
  intros i n Hi Hor. eapply repair_loop_unmoved; [exact E|exact Hi|].
  destruct Hor as [Hm|Hh]; [left | by right].
  intros (n1 & Hn1 & Hm1)%elem_of_static_nodes. congruence.
Qed.

Lemma repair_footprint_witness :
  ∃ e' r',
    Engine._ensure_each_has_neighbor 2 three_engine (Rng.mk line_tape 0) = Engine.Ok (e', r')
    ∧ Forall2 same_protocol (Engine.nodes three_engine) (Engine.nodes e')
    ∧ ∀ (i : nat) n, Engine.nodes three_engine !! i = Some n →
        Node.is_mobile n = true ∨ has_neighbor (Engine.nodes three_engine) i →
        ∃ n', Engine.nodes e' !! i = Some n' ∧ Node.x n' = Node.x n ∧ Node.y n' = Node.y n.
Proof.
  eexists _, _. split; [vm_compute; reflexivity|].
  eapply (repair_footprint 2 three_engine (Rng.mk line_tape 0)).
  vm_compute. reflexivity.
Defined.

(** * The neighbour lists are current all along a run *)

Lemma send_rms_neighbors now q c :
  Node.neighbors (Node.self (Node._send_rms now q c)) = Node.neighbors (Node.self c).
Proof. by destruct (send_rms_effect now q c) as (t & ev & dst & p' & g & -> & _). Qed.

(** No method touches the neighbour list. *)
Lemma methods_neighbors n lg :
  (∀ p, Node.neighbors (Node.self (Node._broadcast p (Node.mk_ctx n lg [])))
        = Node.neighbors n)
  ∧ (∀ nb p, Node.neighbors (Node.self (Node._deliver nb p (Node.mk_ctx n lg [])))
             = Node.neighbors n)
  ∧ (∀ due p, Node.neighbors (Node.self (Node.receive due p (Node.mk_ctx n lg [])))
              = Node.neighbors n)
  ∧ (∀ due, Node.neighbors (Node.self (NodeTimers._sink_bom_process due
                                         (Node.mk_ctx n lg [])))
            = Node.neighbors n)
  ∧ (∀ due, Node.neighbors (Node.self (NodeTimers._generate_rms_process due
                                         (Node.mk_ctx n lg [])))
            = Node.neighbors n)
  ∧ (∀ now ty dst, Node.neighbors (Node.self (Gui.inject_packet now ty dst
                                                (Node.mk_ctx n lg [])))
                   = Node.neighbors n).
Proof.
  split; [|split; [|split; [|split; [|split]]]].
  - intros p. unfold Node._broadcast.
    destruct (broadcast_loop_spec (Node.neighbors n) p (Node.mk_ctx n lg [])) as (_ & _ & Hs).
    cbn in Hs |- *. by rewrite Hs.
  - done.
  - intros due p. unfold Node.receive.
    set (n1 := Node.set_rx_count (Node.rx_count n + 1) n).
    change (Node.on_self _ (Node.mk_ctx n lg [])) with (Node.mk_ctx n1 lg []).
    destruct (Pkt.pkt_type p).
    + unfold Node._handle_bom. by destruct (Node.bom_accepts p _).
    + destruct (handle_rms_cases due p (Node.mk_ctx n1 lg []))
        as [[_ ->]|[_ [[_ ->]|[(_ & _ & ->)|(_ & _ & ->)]]]]; try done.
      by rewrite send_rms_neighbors.
  - done.
  - intros due. unfold NodeTimers._generate_rms_process.
    match goal with |- Node.neighbors (Node.self (Node._send_rms ?t ?q ?c)) = _ =>
      rewrite (send_rms_neighbors t q c) end.
    done.
  - intros now ty dst. by destruct ty.
Qed.

Lemma link_adds_same_spot ns ns' k ij :
  Forall2 (fun n n' => same_spot n n') ns ns' → link_adds ns' k ij = link_adds ns k ij.
Proof.
  intros H. unfold link_adds.
  destruct (ns !! ij.1) as [a|] eqn:Ea.
  - destruct (Forall2_lookup_l _ _ _ _ _ H Ea) as (a' & -> & Ha).
    destruct (ns !! ij.2) as [b|] eqn:Eb.
    + destruct (Forall2_lookup_l _ _ _ _ _ H Eb) as (b' & -> & Hb).
      destruct Ha as (Ia & _ & _ & Xa & Ya), Hb as (Ib & _ & _ & Xb & Yb).
      unfold Engine.in_range. by rewrite Ia, Ib, Xa, Ya, Xb, Yb.
    + assert (ns' !! ij.2 = None) as ->; [|done].
      apply lookup_ge_None. apply lookup_ge_None in Eb.
      by rewrite <- (Forall2_length _ _ _ H).
  - assert (ns' !! ij.1 = None) as ->; [|done].
    apply lookup_ge_None. apply lookup_ge_None in Ea. by rewrite <- (Forall2_length _ _ _ H).
Qed.

(** Replacing a node by one at the same spot with the same neighbour list
    keeps current neighbour lists current. *)
Lemma current_insert (ns : list Node.t) (i : nat) n n' :
  Engine.update_neighbors_nodes ns = ns → ns !! i = Some n →
  same_spot n n' → Node.neighbors n' = Node.neighbors n →
  Engine.update_neighbors_nodes (<[i := n']> ns) = <[i := n']> ns.
Proof.
  intros Hcur Hi Hspot Hnb.
  assert (Forall2 (fun n n' => same_spot n n') ns (<[i := n']> ns)) as H2.
  { apply Forall2_lookup. intros j. destruct (decide (j = i)) as [->|Hne].
    - rewrite list_lookup_insert_eq by (by eapply lookup_lt_Some). rewrite Hi. by constructor.
    - rewrite list_lookup_insert_ne by done. destruct (ns !! j); constructor.
      apply same_spot_refl. }
  apply list_eq. intros k.
  destruct (<[i := n']> ns !! k) as [m'|] eqn:Hk'.
  - rewrite (update_neighbors_exact _ k m' Hk'). f_equal.
    destruct (Forall2_lookup_r _ _ _ _ _ H2 Hk') as (m & Hk & Hs).
    rewrite length_insert.
    assert (flat_map (link_adds (<[i := n']> ns) k) (all_pairs (length ns))
            = flat_map (link_adds ns k) (all_pairs (length ns))) as ->.
    { apply flat_map_ext. intros ij. by apply link_adds_same_spot. }
    pose proof (update_neighbors_exact ns k m Hk) as Hm. rewrite Hcur, Hk in Hm.
    injection Hm as Hm.
    assert (Node.neighbors m' = Node.neighbors m) as Hnb'.
    { destruct (decide (k = i)) as [->|Hne].
      - rewrite list_lookup_insert_eq in Hk' by (by eapply lookup_lt_Some).
        injection Hk' as <-. congruence.
      - rewrite list_lookup_insert_ne in Hk' by done. congruence. }
    rewrite <- (set_neighbors_same m') at 2. f_equal. rewrite Hnb', Hm at 1. done.
  - apply lookup_ge_None. apply lookup_ge_None in Hk'.
    by rewrite <- (Forall2_length _ _ _ (update_neighbors_same_place _)).
Qed.

Lemma with_node_current e (i : Z) f e' ps :
  Engine.update_neighbors_nodes (Engine.nodes e) = Engine.nodes e →
  Sim.with_node e i f = (e', ps) →
  (∀ n, let c' := f (Node.mk_ctx n (Engine.logger e) []) in
        same_spot n (Node.self c') ∧ Node.neighbors (Node.self c') = Node.neighbors n) →
  Engine.update_neighbors_nodes (Engine.nodes e') = Engine.nodes e'.
Proof.
  intros Hcur Hwith Hf. pose proof (with_node_spec e i f) as Hspec.
  destruct (Engine.node_map e i) as [n|] eqn:Hnode.
  - rewrite Hwith in Hspec. injection Hspec as -> ->. cbn.
    apply node_map_Some in Hnode as [_ Hnode]. destruct (Hf n) as [Hs Hnb].
    by eapply current_insert.
  - rewrite Hwith in Hspec. by injection Hspec as -> ->.
Qed.

Lemma step_current st l st' :
  Engine.update_neighbors_nodes (Engine.nodes (Sim.engine st)) = Engine.nodes (Sim.engine st) →
  Sim.step st l st' →
  Engine.update_neighbors_nodes (Engine.nodes (Sim.engine st'))
  = Engine.nodes (Sim.engine st').
Proof.
  intros Hcur Hstep.
  destruct Hstep as [st k d due tk Hk _ _|st until _ _|st src ty dst _]; [|done|].
  - unfold Sim.fire. rewrite Hk.
    destruct tk as [[s p|s nb p|i p]|i|i|i]; simpl.
    1-5: destruct (Sim.with_node _ _ _) as [e' ps] eqn:E; cbn;
         apply (with_node_current _ _ _ _ _ Hcur E); intros n;
         split; [apply methods_same_spot | apply methods_neighbors].
    cbn. unfold Sim._mobility_process. destruct (Engine.node_map _ _); [|done].
    cbn. apply update_neighbors_nodes_idempotent.
  - unfold Sim.inject. destruct (Sim.with_node _ _ _) as [e' ps] eqn:E. cbn.
    apply (with_node_current _ _ _ _ _ Hcur E). intros n.
    split; [apply methods_same_spot | apply methods_neighbors].
Qed.

Lemma reachable_current st :
  Sim.reachable st →
  Engine.update_neighbors_nodes (Engine.nodes (Sim.engine st)) = Engine.nodes (Sim.engine st).
Proof.
  intros (st0 & tr & H0 & Hrun).
  induction Hrun as [st|st tr st' l st'' Hrun IH Hstep].
  - destruct H0 as (fuel & cfg & r & e & r' & first & Hinit & _ & ->). cbn.
    rewrite init_unfold in Hinit.
    destruct (Engine._create_nodes _ _) as [[e1 r1]| |]; [|done..].
    destruct (Engine._ensure_each_has_neighbor _ _ _) as [[e2 r2]| |]; [|done..].
    injection Hinit as <- <-. cbn. apply update_neighbors_nodes_idempotent.
  - by eapply step_current; [apply IH|].
Qed.

(** At every moment of a run the neighbour lists are those of the current
    positions: recomputing them would change nothing, and a node lists
    exactly the ids of the other nodes within range. *)
Theorem run_neighbors_current st :
  Sim.reachable st →
  Engine.update_neighbors (Sim.engine st) = Sim.engine st
  ∧ ∀ (k : nat) n z, Engine.nodes (Sim.engine st) !! k = Some n →
      z ∈ Node.neighbors n ↔
      ∃ (m : nat) o, m ≠ k ∧ Engine.nodes (Sim.engine st) !! m = Some o
                     ∧ Node.id o = z ∧ within_range n o.
Proof.
  intros Hst. pose proof (reachable_current st Hst) as Hcur. split.
  - unfold Engine.update_neighbors. rewrite Hcur. by destruct (Sim.engine st).
  - intros k n z Hk. apply (update_neighbors_elem _ k n n z Hk). by rewrite Hcur.
Qed.

Lemma run_neighbors_current_witness :
  Engine.update_neighbors (Sim.engine (line_run 25).2) = Sim.engine (line_run 25).2
  ∧ ∀ (k : nat) n z, Engine.nodes (Sim.engine (line_run 25).2) !! k = Some n →
      z ∈ Node.neighbors n ↔
      ∃ (m : nat) o, m ≠ k ∧ Engine.nodes (Sim.engine (line_run 25).2) !! m = Some o
                     ∧ Node.id o = z ∧ within_range n o.
Proof. apply (run_neighbors_current (line_run 25).2). exact (line_reachable 25). Defined.

(** * The metrics of a run *)

Lemma sum_Q_from (c : Q) l : ∀ a,
  Forall (fun d => (c <= d)%Q) l →
  (a + c * inject_Z (Z.of_nat (length l)) <= fold_left Qplus l a)%Q.
Proof.
  induction l as [|d l IH]; intros a Hl; cbn [length fold_left].
  - change (inject_Z (Z.of_nat 0)) with 0%Q. lra.
  - inversion Hl as [|? ? Hd Hl']; subst. specialize (IH (a + d)%Q Hl').
    rewrite Nat2Z.inj_succ, <- Z.add_1_r, inject_Z_plus.
    change (inject_Z 1) with 1%Q. lra.
Qed.

Lemma sum_Z_from (c : Z) l : ∀ a,
  Forall (fun d => c ≤ d) l → a + c * Z.of_nat (length l) ≤ fold_left Z.add l a.
Proof.
  induction l as [|d l IH]; intros a Hl; cbn [length fold_left]; [lia|].
  inversion Hl as [|? ? Hd Hl']; subst. specialize (IH (a + d) Hl').
  rewrite Nat2Z.inj_succ. lia.
Qed.

(** What [get_metrics] reports in a run: a delivery ratio and an average
    latency that are not negative; with no delivery an average latency and
    average hop count of zero, otherwise an average hop count of at least
    one; and the count of recorded deliveries is the number of latencies
    averaged. *)
Theorem run_metrics st :
  Sim.reachable st →
  let l := Engine.logger (Sim.engine st) in
  let m := Logger.get_metrics l in
  (0 <= Logger.pdr m)%Q
  ∧ Logger.m_data_delivered m = Z.of_nat (length (Logger.delays l))
  ∧ (0 <= Logger.m_avg_latency m)%Q
  ∧ (Logger.m_data_delivered m = 0 →
     Logger.m_avg_latency m = 0%Q ∧ Logger.m_avg_hops m = 0%Q)
  ∧ (0 < Logger.m_data_delivered m → (1 <= Logger.m_avg_hops m)%Q).
Proof.
  intros Hst l m. subst m. cbn.
  destruct (reachable_sane st Hst) as (_ & _ & _ & _ & Hsane & _).
  destruct Hsane as (Hd & Hlen & Hdel & Hhops & Hru & Hsent).
  fold l in Hd, Hlen, Hdel, Hhops, Hru, Hsent.
  split; [|split; [done|split; [|split]]].
  - unfold Logger.packet_delivery_ratio. destruct (Z.eqb_spec (Logger.data_sent l) 0); [done|].
    apply Qle_shift_div_l.
    + change 0%Q with (inject_Z 0). rewrite <- Zlt_Qlt. lia.
    + rewrite Qmult_0_l. change 0%Q with (inject_Z 0). rewrite <- Zle_Qle. lia.
  - unfold Logger.avg_latency.
    destruct (Logger.delays l) as [|d ds] eqn:Ed; [done|].
    apply Qle_shift_div_l.
    + change 0%Q with (inject_Z 0). rewrite <- Zlt_Qlt. simpl. lia.
    + pose proof (sum_Q_from 0 (d :: ds) 0 Hdel) as H.
      unfold Logger.sum_Q. lra.
  - intros H0. rewrite Hd in H0. unfold Logger.avg_latency, Logger.avg_hops.
    destruct (Logger.delays l); [|simpl in H0; lia].
    destruct (Logger.hops l); [done | simpl in Hlen; lia].
  - intros Hpos. rewrite Hd in Hpos. unfold Logger.avg_hops.
    destruct (Logger.hops l) as [|x xs] eqn:Eh.
    { destruct (Logger.delays l); simpl in *; lia. }
    apply Qle_shift_div_l.
    + change 0%Q with (inject_Z 0). rewrite <- Zlt_Qlt. simpl. lia.
    + pose proof (sum_Z_from 1 (x :: xs) 0 Hhops) as H.
      rewrite Qmult_1_l, <- Zle_Qle. unfold Logger.sum_Z. lia.
Qed.

Lemma run_metrics_witness :
  let l := Engine.logger (Sim.engine (line_run 25).2) in
  let m := Logger.get_metrics l in
  (0 <= Logger.pdr m)%Q
  ∧ Logger.m_data_delivered m = Z.of_nat (length (Logger.delays l))
  ∧ (0 <= Logger.m_avg_latency m)%Q
  ∧ (Logger.m_data_delivered m = 0 →
     Logger.m_avg_latency m = 0%Q ∧ Logger.m_avg_hops m = 0%Q)
  ∧ (0 < Logger.m_data_delivered m → (1 <= Logger.m_avg_hops m)%Q).
Proof. apply (run_metrics (line_run 25).2). exact (line_reachable 25). Defined.

(** On the line, after the first delivery: one packet sent and delivered;
    the hop count recorded is the packet's remaining one, 2. *)
Example line_metrics :
  let m := Logger.get_metrics (Engine.logger (Sim.engine (line_run 25).2)) in
  (Logger.pdr m == 1)%Q ∧ Logger.m_data_delivered m = 1 ∧ (Logger.m_avg_hops m == 2)%Q.
Proof. vm_compute. repeat split. Qed.

(** * Who hears a broadcast *)

Lemma elem_of_heard_positions (ns : list Node.t) (k j : nat) n :
  ns !! k = Some n →
  j ∈ heard_positions ns k ↔ j ≠ k ∧ ∃ m, ns !! j = Some m ∧ within_range n m.
Proof.
  intros Hk. unfold heard_positions.
  rewrite list_elem_of_In, filter_In, in_seq, andb_true_iff, negb_true_iff, Nat.eqb_neq, Hk.
  split.
  - intros (_ & Hne & H). split; [done|]. destruct (ns !! j) as [m|]; [|done].
    exists m. split; [done|]. by apply in_range_spec.
  - intros (Hne & m & Hj & Hr). split; [apply lookup_lt_Some in Hj; lia|].
    split; [done|]. rewrite Hj. by apply in_range_spec.
Qed.

(** A broadcast in a run: when [_broadcast] runs on a node, it hands one
    copy of the packet, with [src] set to the sender, to every other node
    that is within range at that moment, in the order of the node list, and
    to no other node; the sender's transmission count grows by their
    number. *)
Theorem run_broadcast_reach st (k : nat) n lg p :
  Sim.reachable st → Engine.nodes (Sim.engine st) !! k = Some n →
  let ns := Engine.nodes (Sim.engine st) in
  let c' := Node._broadcast p (Node.mk_ctx n lg []) in
  Node.spawned c'
  = map (fun j => Receive (Z.of_nat j) (relayed (Node.id n) p)) (heard_positions ns k)
  ∧ Node.tx_count (Node.self c')
    = Node.tx_count n + Z.of_nat (length (heard_positions ns k))
  ∧ NoDup (heard_positions ns k)
  ∧ ∀ j, j ∈ heard_positions ns k ↔ j ≠ k ∧ ∃ m, ns !! j = Some m ∧ within_range n m.
Proof.
  intros Hst Hk ns c'. subst c'.
  destruct (reachable_sane st Hst) as (Hids & _).
  pose proof (reachable_current st Hst) as Hcur. fold ns in Hids, Hcur, Hk.
  assert (Node.neighbors n = map Z.of_nat (heard_positions ns k)) as Hnb.
  { pose proof (update_neighbors_exact ns k n Hk) as H. rewrite Hcur, Hk in H.
    injection H as H. rewrite H at 1. cbn. by apply (link_adds_heard ns k n). }
  unfold Node._broadcast.
  destruct (broadcast_loop_spec (Node.neighbors n) p (Node.mk_ctx n lg [])) as (Hs & _ & Hself).
  cbn in Hs, Hself |- *. rewrite Hs, Hself, Hnb. cbn.
  split; [by rewrite map_map|]. split; [by rewrite length_map|].
  split; [apply NoDup_list_filter, NoDup_ListNoDup, seq_NoDup|].
  intros j. by apply elem_of_heard_positions.
Qed.

Lemma run_broadcast_reach_witness :
  ∃ n, Engine.nodes (Sim.engine (line_run 25).2) !! 2%nat = Some n
    ∧ let ns := Engine.nodes (Sim.engine (line_run 25).2) in
      let p := Pkt.init Pkt.BOM 0 (Some 0) 1 0 None 0 in
      let c' := Node._broadcast p (Node.mk_ctx n Logger.init []) in
      Node.spawned c'
      = map (fun j => Receive (Z.of_nat j) (relayed (Node.id n) p)) (heard_positions ns 2)
      ∧ Node.tx_count (Node.self c')
        = Node.tx_count n + Z.of_nat (length (heard_positions ns 2))
      ∧ NoDup (heard_positions ns 2)
      ∧ ∀ j, j ∈ heard_positions ns 2 ↔ j ≠ 2%nat ∧ ∃ m, ns !! j = Some m ∧ within_range n m.
Proof.
  eexists. split; [vm_compute; reflexivity|].
  apply (run_broadcast_reach (line_run 25).2 2).
  - exact (line_reachable 25).
  - vm_compute. reflexivity.
Defined.

(** The middle relay of the line hears its two neighbours. *)
Example line_heard : heard_positions (Engine.nodes (Sim.engine (line_run 25).2)) 2 = [1; 3]%nat.
Proof. vm_compute. reflexivity. Qed.

(** * The injection form *)

(** The three settings that fix the make-up of the node list. *)
Lemma with_node_census e i f :
  let e' := (Sim.with_node e i f).1 in
  Engine.sink_positions e' = Engine.sink_positions e
  ∧ Engine.mesh_count e' = Engine.mesh_count e
  ∧ Engine.mobile_count e' = Engine.mobile_count e.
Proof.
  pose proof (with_node_spec e i f) as H. destruct (Engine.node_map e i).
  - cbn in H. by rewrite H.
  - by rewrite H.
Qed.

Lemma step_census st l st' :
  Sim.step st l st' →
  Engine.sink_positions (Sim.engine st') = Engine.sink_positions (Sim.engine st)
  ∧ Engine.mesh_count (Sim.engine st') = Engine.mesh_count (Sim.engine st)
  ∧ Engine.mobile_count (Sim.engine st') = Engine.mobile_count (Sim.engine st).
Proof.
  intros Hstep. destruct Hstep as [st k d due tk Hk _ _|st until _ _|st src ty dst _].
  - unfold Sim.fire. rewrite Hk.
    destruct (Sim.resume (Sim.engine st) due tk d) as [e' pending] eqn:E. cbn.
    destruct tk as [[s p|s nb p|n p]|n|n|n]; cbn in E.
    1-5: match type of E with context [Sim.with_node ?e ?i ?f] =>
           pose proof (with_node_census e i f) as H;
           destruct (Sim.with_node e i f) as [e1 ps]
         end; by injection E as <- _.
    injection E as <- _. unfold Sim._mobility_process.
    by destruct (Engine.node_map (Sim.engine st) n).
  - done.
  - unfold Sim.inject.
    pose proof (with_node_census (Sim.engine st) src
                  (Gui.inject_packet (Sim.now st) ty dst)) as H.
    by destruct (Sim.with_node _ _ _) as [e1 ps].
Qed.

Lemma run_census st tr st' :
  Sim.run st tr st' →
  Engine.sink_positions (Sim.engine st') = Engine.sink_positions (Sim.engine st)
  ∧ Engine.mesh_count (Sim.engine st') = Engine.mesh_count (Sim.engine st)
  ∧ Engine.mobile_count (Sim.engine st') = Engine.mobile_count (Sim.engine st).
Proof.
  induction 1 as [st|st tr st' l st'' Hrun IH Hstep]; [done|].
  destruct (step_census _ _ _ Hstep) as (-> & -> & ->). exact IH.
Qed.

(** The node list of a run is made up as the constructor made it: the
    sinks, then the relays, then the phones, as many as the settings
    say. *)
Lemma run_census_layout st :
  Sim.reachable st →
  let e := Sim.engine st in
  let s := length (Engine.sink_positions e) in
  let r := Z.to_nat (Engine.mesh_count e) in
  length (Engine.nodes e) = (s + r + Z.to_nat (Engine.mobile_count e))%nat
  ∧ ∀ (i : nat) n, Engine.nodes e !! i = Some n →
      Node.id n = Z.of_nat i ∧ kind (i <? s)%nat (s + r <=? i)%nat n.
Proof.
  intros (st0 & tr & H0 & Hrun). cbn zeta.
  destruct (run_census _ _ _ Hrun) as (-> & -> & ->).
  pose proof (run_same_length _ _ _ H0 Hrun) as Hlen.
  destruct (run_anchored _ _ _ H0 Hrun) as [Hids Hanch].
  destruct H0 as (fuel & cfg & r & e & r' & first & Hinit & _ & ->).
  change (Sim.engine (Sim.start e first)) with e in *.
  pose proof (init_fields _ _ _ _ _ Hinit) as He.
  assert (Engine.sink_positions e = Engine.sink_positions (blank cfg)
          ∧ Engine.mesh_count e = Engine.mesh_count (blank cfg)
          ∧ Engine.mobile_count e = Engine.mobile_count (blank cfg)) as (-> & -> & ->)
    by (by rewrite He).
  rewrite init_unfold in Hinit.
  destruct (Engine._create_nodes (blank cfg) r) as [[e1 r1]| |] eqn:E1; [|discriminate..].
  destruct (create_nodes_places (blank cfg) (Rng.tape r) (fun _ => True)) with (6 := E1)
    as (_ & sinks & relays & phones & Hn & L1 & L2 & L3 & F1 & F2 & F3); try done.
  assert (Forall2 same_protocol (Engine.nodes e1) (Engine.nodes e)) as H12.
  { unfold Engine._ensure_each_has_neighbor in Hinit.
    destruct (Engine.repair_loop _ _ _ _ _) as [[ns2 r2]| |] eqn:E2; [|discriminate..].
    injection Hinit as <- _. cbn.
    apply repair_loop_same_protocol in E2. cbn in E2.
    eapply Forall2_same_protocol_trans;
      [apply same_place_protocol, update_neighbors_same_place|].
    eapply Forall2_same_protocol_trans; [exact E2|].
    apply same_place_protocol, update_neighbors_same_place. }
  split.
  { rewrite Hlen, <- (same_protocol_length _ _ H12), Hn, !length_app. lia. }
  intros i n Hi. pose proof (Hids _ _ Hi) as Hid. split; [done|].
  destruct (lookup_lt_is_Some_2 (Engine.nodes e) i) as [n0 Hi0].
  { rewrite <- Hlen. by eapply lookup_lt_Some. }
  destruct (proj1 (Forall_lookup _ _) Hanch _ _ Hi n0) as (Hs & Hm & _).
  { by rewrite Hid, Nat2Z.id. }
  destruct (Forall2_lookup_r _ _ _ _ _ H12 Hi0) as (n1 & Hi1 & (_ & Hs1 & Hm1 & _)).
  unfold kind. rewrite Hs, Hm, Hs1, Hm1. rewrite Hn in Hi1.
  rewrite <- L1, <- L2.
  destruct (Nat.ltb_spec i (length sinks)) as [Hlt1|Hge1].
  - rewrite lookup_app_l in Hi1 by done.
    destruct (proj1 (Forall_lookup _ _) F1 _ _ Hi1) as [[-> ->] _].
    split; [done|]. symmetry. apply Nat.leb_gt. lia.
  - rewrite lookup_app_r in Hi1 by done.
    destruct (Nat.leb_spec (length sinks + length relays) i) as [Hge2|Hlt2].
    + rewrite lookup_app_r in Hi1 by lia.
      by destruct (proj1 (Forall_lookup _ _) F3 _ _ Hi1) as [[-> ->] _].
    + rewrite lookup_app_l in Hi1 by lia.
      by destruct (proj1 (Forall_lookup _ _) F2 _ _ Hi1) as [[-> ->] _].
Qed.

(** The injection form with "ExternalDevice" as the source, at any moment
    of a run of an engine built with a relay count that is not negative.
    For an RMS the handler takes the first phone as the source node, and
    fails on the node lookup when the engine has no phone. For an SMS it
    takes node 0, which is a sink exactly when the engine has sinks, and
    fails only on an engine without nodes. *)
Theorem external_device_source st dst :
  Sim.reachable st → 0 ≤ Engine.mesh_count (Sim.engine st) →
  let e := Sim.engine st in
  let first_phone := Z.of_nat (length (Engine.sink_positions e)) + Engine.mesh_count e in
  (Form.on_send_packet Form.ExternalDevice dst Gui.InjRMS st
   = if decide (0 < Engine.mobile_count e)
     then Some (Sim.inject first_phone Gui.InjRMS dst st) else None)
  ∧ (0 < Engine.mobile_count e →
     ∃ n, Engine.node_map e first_phone = Some n ∧ Node.id n = first_phone
          ∧ kind false true n
          ∧ ∀ (j : nat) m, Engine.nodes e !! j = Some m → Node.is_mobile m = true →
              Node.id n ≤ Node.id m)
  ∧ (Form.on_send_packet Form.ExternalDevice dst Gui.InjSMS st
     = if decide (Engine.nodes e = []) then None else Some (Sim.inject 0 Gui.InjSMS dst st))
  ∧ (∀ n, Engine.node_map e 0 = Some n →
       Node.is_sink n = true ↔ Engine.sink_positions e ≠ []).
Proof.
  intros Hst Hmesh e first_phone.
  destruct (run_census_layout st Hst) as [Hlen Hlay]. fold e in Hlen, Hlay, Hmesh.
  assert (Z.to_nat first_phone
          = (length (Engine.sink_positions e) + Z.to_nat (Engine.mesh_count e))%nat)
    as Hfp by (subst first_phone; lia).
  assert (0 < Engine.mobile_count e →
          ∃ n, Engine.node_map e first_phone = Some n ∧ Node.id n = first_phone
               ∧ kind false true n) as Hphone.
  { intros Hmob.
    destruct (lookup_lt_is_Some_2 (Engine.nodes e) (Z.to_nat first_phone)) as [n Hn].
    { rewrite Hlen, Hfp. lia. }
    exists n. split; [apply node_map_Some; split; [subst first_phone; lia|done]|].
    destruct (Hlay _ _ Hn) as [Hid Hk]. split; [lia|].
    rewrite Hfp in Hk.
    replace (_ <? _)%nat with false in Hk by (symmetry; apply Nat.ltb_ge; lia).
    by rewrite Nat.leb_refl in Hk. }
  split; [|split; [|split]].
  - unfold Form.on_send_packet, Form.source_id. fold e first_phone.
    destruct (decide (0 < Engine.mobile_count e)) as [Hmob|Hmob].
    + by destruct (Hphone Hmob) as (n & -> & _).
    + destruct (Engine.node_map e first_phone) as [n|] eqn:E; [|done].
      apply node_map_Some in E as [_ E]. apply lookup_lt_Some in E.
      rewrite Hlen, Hfp in E. lia.
  - intros Hmob. destruct (Hphone Hmob) as (n & Hn & Hid & Hk).
    exists n. split; [done|]. split; [done|]. split; [done|].
    intros j m Hj Hm. destruct (Hlay _ _ Hj) as [Hidm [_ Hkm]].
    rewrite Hm in Hkm. symmetry in Hkm. apply Nat.leb_le in Hkm. lia.
  - unfold Form.on_send_packet, Form.source_id. fold e.
    unfold Engine.node_map. cbn.
    destruct (Engine.nodes e) as [|n0 ns] eqn:E; [done|].
    destruct (decide _) as [?|_]; [done|]. unfold Sim.inject. fold e.
    reflexivity.
  - intros n Hn. apply node_map_Some in Hn as [_ Hn]. cbn in Hn.
    destruct (Hlay _ _ Hn) as [_ [Hs _]]. rewrite Hs.
    destruct (Engine.sink_positions e); cbn; [|done]. split; [discriminate|done].
Qed.

Lemma external_device_source_witness :
  let st := (line_run 25).2 in
  let e := Sim.engine st in
  let first_phone := Z.of_nat (length (Engine.sink_positions e)) + Engine.mesh_count e in
  (Form.on_send_packet Form.ExternalDevice None Gui.InjRMS st
   = if decide (0 < Engine.mobile_count e)
     then Some (Sim.inject first_phone Gui.InjRMS None st) else None)
  ∧ (0 < Engine.mobile_count e →
     ∃ n, Engine.node_map e first_phone = Some n ∧ Node.id n = first_phone
          ∧ kind false true n
          ∧ ∀ (j : nat) m, Engine.nodes e !! j = Some m → Node.is_mobile m = true →
              Node.id n ≤ Node.id m)
  ∧ (Form.on_send_packet Form.ExternalDevice None Gui.InjSMS st
     = if decide (Engine.nodes e = []) then None else Some (Sim.inject 0 Gui.InjSMS None st))
  ∧ (∀ n, Engine.node_map e 0 = Some n →
       Node.is_sink n = true ↔ Engine.sink_positions e ≠ []).
Proof.
  apply (external_device_source (line_run 25).2 None).
  - exact (line_reachable 25).
  - vm_compute. discriminate.
Defined.

(** On the line, which has no phone, an RMS from "ExternalDevice" fails on
    the node lookup. *)
Example line_external_rms :
  Form.on_send_packet Form.ExternalDevice None Gui.InjRMS (line_run 25).2 = None.
Proof. vm_compute. reflexivity. Qed.

(** * Routes lead to sinks *)

(** [_send_rms] starts one generator: a broadcast of a data packet, or a
    unicast of the packet readdressed to the sink of a routing entry. *)
Lemma send_rms_addressed now q c :
  ∃ t ev dst g,
    Node._send_rms now q c
    = Node.mk_ctx (Node.set_tx_count t (Node.self c))
                  (Logger.log_event now ev (Node.id (Node.self c)) dst (Node.logger c))
                  (Node.spawned c ++ [g])
    ∧ ((∃ p', g = Broadcast (Node.id (Node.self c)) p'
              ∧ Pkt.pkt_type p' = Pkt.pkt_type q)
       ∨ ∃ sink e nb, In (sink, e) (Node.routing_table (Node.self c))
                      ∧ In nb (Node.neighbors (Node.self c))
                      ∧ g = Deliver (Node.id (Node.self c)) nb
                              (readdressed sink (Node.hop_distance e + 1) q)).
Proof.
  unfold Node._send_rms.
  pose proof (min_by_spec (fun kv : option Z * Node.route => Node.hop_distance kv.2)
                (Node.routing_table (Node.self c))) as Hmin.
  destruct (Dict.min_by _ _) as [[sink e]|].
  - destruct Hmin as [Hin _].
    pose proof (unicast_loop_spec now (Node.neighbors (Node.self c)) (Node.next_hop e)
                  (Pkt.set_hop_count (Node.hop_distance e + 1) (Pkt.set_sink_id sink q))
                  c) as Hu.
    destruct (Node.unicast_loop _ _ _ _ _) as [c1|].
    + destruct Hu as (Hnb & Hs & Hn & Hl). destruct c1 as [n1 l1 s1]. cbn in *. subst.
      eexists _, _, _, _. split; [reflexivity|].
      right. by exists sink, e, (Node.next_hop e).
    + exists (Node.tx_count (Node.self c)). eexists _, _, _.
      split; [by rewrite set_tx_count_id|]. left. eexists. split; reflexivity.
  - exists (Node.tx_count (Node.self c)). eexists _, _, _.
    split; [by rewrite set_tx_count_id|]. left. eexists. split; reflexivity.
Qed.

Lemma dict_set_Forall_kv {V} (P : option Z * V → Prop) (k : option Z) (v : V) d :
  Forall P d → P (k, v) → Forall P (Dict.set k v d).
Proof.
  intros Hd Hv. induction Hd as [|[k' v'] d Hkv Hd IH]; simpl.
  - by repeat constructor.
  - destruct (decide (k = k')) as [<-|?]; constructor; done.
Qed.

Lemma routes_to_sinks_eq ns0 n n' :
  Node.id n' = Node.id n → Node.routing_table n' = Node.routing_table n →
  routes_to_sinks ns0 n → routes_to_sinks ns0 n'.
Proof. unfold routes_to_sinks. by intros -> ->. Qed.

Lemma sinks_discipline w h ns0 :
  discipline w h (routes_to_sinks ns0) (fun _ => True) (fun _ => task_to_sinks ns0).
Proof.
  assert (∀ due n (c : Node.ctx) q,
            routes_to_sinks ns0 (Node.self c) → Node.id (Node.self c) = Node.id n →
            Pkt.pkt_type q = Pkt.RMS →
            Node.spawned c = [] →
            kept (routes_to_sinks ns0) (fun _ => True) (fun _ => task_to_sinks ns0)
                 due n (Node._send_rms due q c)) as Hsend.
  { intros due n c q Hn Hid Hty Hsp.
    destruct (send_rms_addressed due q c) as (t & ev & dst & g & -> & Hg).
    cbn. split; [done|]. split; [by apply (routes_to_sinks_eq ns0 (Node.self c))|].
    split; [done|]. rewrite Hsp. constructor; [|done].
    destruct Hg as [(p' & -> & Hp')|(sink & e & nb & Hin & _ & ->)]; cbn.
    - congruence.
    - apply list_elem_of_In in Hin.
      apply (proj1 (Forall_forall _ _) (proj2 Hn)) in Hin. apply Hin. }
  split.
  - (* _broadcast *)
    intros due n lg p Hn _ Hp. unfold Node._broadcast, kept.
    destruct (broadcast_loop_spec (Node.neighbors n) p (Node.mk_ctx n lg [])) as (Hs & Hlg & Hself).
    cbn in Hs, Hlg, Hself |- *. rewrite Hs, Hself. cbn.
    split; [done|]. split; [by apply (routes_to_sinks_eq ns0 n)|]. split; [done|].
    apply Forall_map, Forall_forall. intros nb _. cbn.
    intros Hty. split; [by apply Hp | apply Hn].
  - (* _deliver *)
    intros due n lg nb p Hn _ Hp. unfold kept. cbn.
    split; [done|]. split; [by apply (routes_to_sinks_eq ns0 n)|]. split; [done|].
    constructor; [|done]. cbn. intros _. split; [exact Hp | apply Hn].
  - (* receive *)
    intros due n lg p Hn _ Hp. unfold Node.receive.
    set (n1 := Node.set_rx_count (Node.rx_count n + 1) n).
    change (Node.on_self _ (Node.mk_ctx n lg [])) with (Node.mk_ctx n1 lg []).
    assert (routes_to_sinks ns0 n1) as Hn1 by (by apply (routes_to_sinks_eq ns0 n)).
    destruct (Pkt.pkt_type p) eqn:Hty.
    + cbn in Hp. destruct (Hp Hty) as [Hsink Hsrc].
      unfold Node._handle_bom. destruct (Node.bom_accepts p _); [|by split].
      cbn. split; [done|]. split.
      { split; [apply Hn|]. cbn.
        apply (dict_set_Forall_kv
                 (fun kv : option Z * Node.route =>
                    sink_key ns0 kv.1 ∧ node_key ns0 (Node.next_hop kv.2)));
          [apply Hn | by split]. }
      split; [done|]. constructor; [|done]. cbn. intros _. split; [done | apply Hn].
    + destruct (handle_rms_cases due p (Node.mk_ctx n1 lg []))
        as [[_ ->]|[_ [[_ ->]|[(_ & Hgt & ->)|(_ & _ & ->)]]]].
      * by split.
      * cbn. split; [done|]. split; [by apply (routes_to_sinks_eq ns0 n1)|]. by split.
      * by apply Hsend.
      * cbn. split; [done|]. split; [by apply (routes_to_sinks_eq ns0 n1)|]. by split.
  - (* _sink_bom_process *)
    intros due n lg Hn _ Hsink. unfold NodeTimers._sink_bom_process. cbn.
    split; [done|]. split; [by apply (routes_to_sinks_eq ns0 n)|]. split; [done|].
    constructor; [|done]. cbn. intros _. split; [exact Hsink | apply Hn].
  - (* _generate_rms_process *)
    intros due n lg Hn _ _. unfold NodeTimers._generate_rms_process.
    set (n1 := Node.set_seq_num (Node.seq_num n + 1) n).
    set (q := Pkt.init Pkt.RMS (Node.id n1) None (Node.seq_num n1) Node.MAX_HOPS
                       (Some (Node.id n1)) due).
    set (c1 := Node.mk_ctx n1 (Logger.log_event due Logger.EvRMS_GEN (Node.id n1) (-1)
                                 (Logger.record_data_sent lg)) []).
    change (kept (routes_to_sinks ns0) (fun _ => True) (fun _ => task_to_sinks ns0)
                 due n (Node._send_rms due q c1)).
    by apply Hsend.
  - (* inject_packet *)
    intros now n lg ty dst Hn _. unfold Gui.inject_packet.
    destruct ty; cbn.
    + split; [done|]. split; [by apply (routes_to_sinks_eq ns0 n)|]. split; [done|].
      by constructor.
    + split; [done|]. split; [by apply (routes_to_sinks_eq ns0 n)|]. split; [done|].
      by constructor.
  - (* a move *)
    intros e due n cs _ _ Hn _. by apply (routes_to_sinks_eq ns0 n).
  - (* new neighbour lists *)
    intros n n' [(Hid & _ & _ & Hrt & _) _] Hn. by apply (routes_to_sinks_eq ns0 n).
  - (* the timers *)
    intros due d [g|i|i|i] Htk H; done.
Qed.

Lemma keys_carry_over (ns0 ns : list Node.t) :
  length ns = length ns0 → ids_are_positions ns → Forall (anchored ns0) ns →
  (∀ k, sink_key ns0 k → sink_key ns k) ∧ (∀ i, node_key ns0 i → node_key ns i).
Proof.
  intros Hlen Hids Hanch. split.
  - intros k (s & n0 & -> & Hs & Hn0 & Hsink).
    destruct (lookup_lt_is_Some_2 ns (Z.to_nat s)) as [n Hn].
    { rewrite Hlen. by eapply lookup_lt_Some. }
    exists s, n. split; [done|]. split; [done|]. split; [done|].
    destruct (proj1 (Forall_lookup _ _) Hanch _ _ Hn n0) as (-> & _); [|done].
    by rewrite (Hids _ _ Hn), Nat2Z.id.
  - intros i [Hi Hsome]. split; [done|].
    apply lookup_lt_is_Some_2. rewrite Hlen. by apply lookup_lt_is_Some_1.
Qed.

(** Routes lead to sinks. At every moment of a run, every entry of every
    routing table is filed under the id of a sink and has the id of a node
    as its next hop; every unicast on its way carries a packet addressed to
    a sink, every beacon on its way names a sink, and the beacon timers
    belong to sinks. *)
Theorem run_routes_to_sinks st :
  Sim.reachable st →
  let ns := Engine.nodes (Sim.engine st) in
  Forall (routes_to_sinks ns) ns
  ∧ Forall (fun e => task_to_sinks ns e.2) (Sim.queue st).
Proof.
  intros (st0 & tr & H0 & Hrun) ns.
  pose proof (run_same_length _ _ _ H0 Hrun) as Hlen.
  destruct (run_anchored _ _ _ H0 Hrun) as [Hids Hanch].
  set (ns0 := Engine.nodes (Sim.engine st0)) in *.
  destruct (keys_carry_over ns0 ns Hlen Hids Hanch) as [Hsk Hnk].
  assert (holds (Engine.width (Sim.engine st0)) (Engine.height (Sim.engine st0))
            (routes_to_sinks ns0) (fun _ => True) (fun _ => task_to_sinks ns0) st0) as Hst0.
  { destruct H0 as (fuel & cfg & r & e & r' & first & Hinit & _ & ->).
    destruct (init_pristine _ _ _ _ _ Hinit) as [Hids0 Hfresh].
    change (Sim.engine (Sim.start e first)) with e in *.
    apply start_holds; try done.
    - apply Forall_lookup. intros j n Hj.
      destruct (proj1 (Forall_lookup _ _) Hfresh _ _ Hj) as (Hrt & _).
      split; [|by rewrite Hrt].
      unfold node_key. rewrite (Hids0 _ _ Hj), Nat2Z.id. split; [lia|]. subst ns0. cbn. by rewrite Hj.
    - intros n Hn. apply list_elem_of_lookup in Hn as [j Hj]. unfold Sim.boot.
      apply Forall_app. split; [|by destruct (Node.is_mobile n); repeat constructor].
      destruct (Node.is_sink n) eqn:Hs; (constructor; [|done]); [|done].
      cbn. exists (Node.id n), n. rewrite (Hids0 _ _ Hj), Nat2Z.id.
      split; [done|]. split; [lia|]. by split. }
  destruct (holds_run _ _ _ _ _ (sinks_discipline _ _ ns0) st0 tr st Hst0 Hrun)
    as [(_ & _ & _ & Hn & _ & Hq) _].
  split.
  - eapply Forall_impl; [exact Hn|]. intros n [Hid Hrt]. split; [by apply Hnk|].
    eapply Forall_impl; [exact Hrt|]. intros kv [H1 H2]. split; [by apply Hsk | by apply Hnk].
  - eapply Forall_impl; [exact Hq|]. intros [due tk]. cbn.
    destruct tk as [[s p|s nb p|n p]|n|n|n]; cbn; try done.
    + intros H Hty. destruct (H Hty). split; [by apply Hsk | by apply Hnk].
    + apply Hsk.
    + intros H Hty. destruct (H Hty). split; [by apply Hsk | by apply Hnk].
    + apply Hsk.
Qed.

Lemma run_routes_to_sinks_witness :
  let ns := Engine.nodes (Sim.engine (line_run 25).2) in
  Forall (routes_to_sinks ns) ns
  ∧ Forall (fun e => task_to_sinks ns e.2) (Sim.queue (line_run 25).2).
Proof. apply (run_routes_to_sinks (line_run 25).2). exact (line_reachable 25). Defined.

(** On the line every relay has found the sink by then, the nearest one
    directly and the others through the relay before them; the sink holds
    a route to itself, through the nearest relay. *)
Example line_routes :
  map (fun n => map (fun kv => (kv.1, Node.next_hop kv.2, Node.hop_distance kv.2))
                    (Node.routing_table n))
      (Engine.nodes (Sim.engine (line_run 25).2))
  = [[(Some 0, 1, 2)]; [(Some 0, 0, 1)]; [(Some 0, 1, 2)]; [(Some 0, 2, 3)]; [(Some 0, 3, 4)]].
Proof. vm_compute. reflexivity. Qed.
